(** * qbi: the layout calculator, the header extractor and the validator

    A shallow embedding of [src/compiler/cpp-layout.ts],
    [src/compiler/header-extractor.ts], [src/qbi.ts] and [src/validate.ts],
    of [src/compiler/contract-def.ts] and of the functions of
    [src/compiler/registry.ts] and [src/cli.ts] that do not read or write
    files, and the properties of the specification and of the code that are
    proved of it.

    Conventions of the embedding.
    - A JavaScript string is the list of its UTF-16 code units ([str]).
    - The code is embedded twice.  In the first embedding a JavaScript
      [number] that the code computes with (a size, an offset, a constant,
      an [inputType]) is an exact integer of [Z], and a [number] that the
      code only inspects (a [length], a [contractIndex]) is a [number]: an
      integer or something that is not one.  It serves the properties that
      do not depend on the rounding or on the overflow of the numbers.
    - In the second embedding, the module [Js], a [number] is a [double]:
      a finite IEEE 754 binary64 number, an infinity or NaN, with the
      arithmetic of the code rounded to the nearest double, ties to even.
      The layout calculator, the validator and the extractor are embedded
      there again; the properties of sizes, of the validator and of the
      order of the entries are proved of that embedding.
    - A thrown exception is a [Throw] outcome.
    - The regular expressions of the source are terms of [regex], matched
      by a backtracking matcher that tries the alternatives in the order of
      ECMAScript.
    - [parseTypeRef] and [parseStructFields] are mutually recursive and need
      not terminate: the embedding bounds the nesting of the calls by a
      [depth] and returns [None] when the bound is exceeded.
    - [String.prototype.localeCompare] and the clock of [new Date()] are
      parameters of [compileContractHeader]. *)

From Stdlib Require Import ZArith Lia List Bool String Ascii DecimalString.
From stdpp Require Import base option list gmap sorting.

Local Open Scope Z_scope.

(** ** Strings *)

Definition char := N.
Definition str := list char.

(** The code units of a literal. *)
Definition u (s : string) : str :=
  List.map N_of_ascii (list_ascii_of_string s).

(** ** Numbers that are only inspected *)

Inductive number :=
| Int (z : Z)
| NonInt.

(** [Number.isInteger(value) && value >= 0], also [isUint] of validate.ts. *)
Definition isUint (n : number) : bool :=
  match n with
  | Int z => 0 <=? z
  | NonInt => false
  end.

(** ** Outcomes *)

Inductive error :=
| RangeError (message : str).

Inductive outcome (A : Type) :=
| Ok (a : A)
| Throw (e : error).
Arguments Ok {A} a.
Arguments Throw {A} e.

(** ** qbi.ts: the type references *)

Inductive prim := U8 | U16 | U32 | U64 | I8 | I16 | I32 | I64 | TBool.

#[local] Unset Elimination Schemes.
Inductive QbiTypeRef :=
| TNodata (expectedSize : option Z)
| TPrim (p : prim)
| TBytes (length : number)
| TM256i
| TArray (length : number) (item : QbiTypeRef)
| TStruct (fields : list (str * QbiTypeRef)).
#[local] Set Elimination Schemes.

Definition QbiStructField : Type := str * QbiTypeRef.
Definition ftypeRef (f : QbiStructField) : QbiTypeRef := snd f.

(** ** cpp-layout.ts *)

Record CppLayout := mkLayout { size : Z; align : Z }.

(** [Math.ceil(value / alignment)] on integers, for a positive divisor. *)
Definition ceil_div (value alignment : Z) : Z := - ((- value) / alignment).

Definition alignUp (value alignment : Z) : Z :=
  if alignment <=? 1 then value
  else ceil_div value alignment * alignment.

Definition assertPositiveInt (value : number) (label : str) : outcome Z :=
  match value with
  | Int z =>
      if z <? 0 then Throw (RangeError (label ++ u " must be a non-negative integer"))
      else Ok z
  | NonInt => Throw (RangeError (label ++ u " must be a non-negative integer"))
  end.

Definition primLayout (p : prim) : CppLayout :=
  match p with
  | TBool | U8 | I8 => mkLayout 1 1
  | U16 | I16 => mkLayout 2 2
  | U32 | I32 => mkLayout 4 4
  | U64 | I64 => mkLayout 8 8
  end.

Fixpoint cppLayoutOf (typeRef : QbiTypeRef) : outcome CppLayout :=
  match typeRef with
  | TNodata expectedSize =>
      Ok (mkLayout (Z.max 1 (default 1 expectedSize)) 1)
  | TPrim p => Ok (primLayout p)
  | TBytes length =>
      match assertPositiveInt length (u "bytes.length") with
      | Throw e => Throw e
      | Ok n => Ok (mkLayout n 1)
      end
  | TM256i => Ok (mkLayout 32 8)
  | TArray length item =>
      match assertPositiveInt length (u "array.length") with
      | Throw e => Throw e
      | Ok length =>
          match cppLayoutOf item with
          | Throw e => Throw e
          | Ok item => Ok (mkLayout (size item * length) (align item))
          end
      end
  | TStruct fields =>
      let fix loop (fs : list (str * QbiTypeRef)) (offset structAlign : Z)
          : outcome (Z * Z) :=
        match fs with
        | [] => Ok (offset, structAlign)
        | field :: fs' =>
            match cppLayoutOf (snd field) with
            | Throw e => Throw e
            | Ok fieldLayout =>
                loop fs'
                  (alignUp offset (align fieldLayout) + size fieldLayout)
                  (Z.max structAlign (align fieldLayout))
            end
        end in
      match loop fields 0 1 with
      | Throw e => Throw e
      | Ok (offset, structAlign) =>
          let size := alignUp offset structAlign in
          Ok (mkLayout (if size =? 0 then 1 else size) structAlign)
      end
  end.

(** The loop of the struct case, as a function of its own. *)
Fixpoint structLoop (fs : list (str * QbiTypeRef)) (offset structAlign : Z)
  : outcome (Z * Z) :=
  match fs with
  | [] => Ok (offset, structAlign)
  | field :: fs' =>
      match cppLayoutOf (snd field) with
      | Throw e => Throw e
      | Ok fieldLayout =>
          structLoop fs'
            (alignUp offset (align fieldLayout) + size fieldLayout)
            (Z.max structAlign (align fieldLayout))
      end
  end.
(** ** JavaScript strings *)

Definition is_digit (c : char) : bool := ((48 <=? c) && (c <=? 57))%N.
Definition is_upper (c : char) : bool := ((65 <=? c) && (c <=? 90))%N.
Definition is_lower (c : char) : bool := ((97 <=? c) && (c <=? 122))%N.
Definition is_underscore (c : char) : bool := (c =? 95)%N.

(** [[A-Za-z_]] and [[A-Za-z0-9_]], which is also [\w]. *)
Definition is_ident_start (c : char) : bool :=
  is_upper c || is_lower c || is_underscore c.
Definition is_word (c : char) : bool := is_ident_start c || is_digit c.

(** LineTerminator and [\s] (WhiteSpace and LineTerminator) of ECMAScript. *)
Definition is_line_terminator (c : char) : bool :=
  ((c =? 10) || (c =? 13) || (c =? 8232) || (c =? 8233))%N.
Definition is_space (c : char) : bool :=
  (((9 <=? c) && (c <=? 13)) || (c =? 32) || (c =? 160) || (c =? 5760)
   || ((8192 <=? c) && (c <=? 8202)) || (c =? 8232) || (c =? 8233)
   || (c =? 8239) || (c =? 8287) || (c =? 12288) || (c =? 65279))%N.

Definition char_is (s : string) (c : char) : bool :=
  existsb (N.eqb c) (u s).
Definition char_not (s : string) (c : char) : bool := negb (char_is s c).

Definition str_eqb (a b : str) : bool := bool_decide (a = b).

(** [s.trim()] *)
Fixpoint trimStart (s : str) : str :=
  match s with
  | c :: s' => if is_space c then trimStart s' else s
  | [] => []
  end.
Definition trimEnd (s : str) : str := rev (trimStart (rev s)).
Definition trim (s : str) : str := trimEnd (trimStart s).

(** [s.startsWith(p)] on lists of code units. *)
Fixpoint startsWith (p s : str) : bool :=
  match p, s with
  | [], _ => true
  | a :: p', b :: s' => (a =? b)%N && startsWith p' s'
  | _ :: _, [] => false
  end.

(** [s.indexOf(p)], counted from the head of [s]; [None] stands for -1. *)
Fixpoint indexOf (p s : str) : option nat :=
  if startsWith p s then Some 0%nat
  else match s with
       | [] => None
       | _ :: s' => S <$> indexOf p s'
       end.

(** [s.indexOf(p, from)] for [0 <= from]. *)
Definition indexOfFrom (p s : str) (from : nat) : option nat :=
  if (length s <? from)%nat then
    (if startsWith p [] then Some (length s) else None)
  else (fun i => (from + i)%nat) <$> indexOf p (drop from s).

(** [s.slice(a, b)] for [0 <= a] and [0 <= b]. *)
Definition slice (a b : nat) (s : str) : str := take (b - a) (drop a s).

(** [s.includes(p)] *)
Definition includes (p s : str) : bool := bool_decide (is_Some (indexOf p s)).

(** [s.split(sep)] for a separator of one code unit. *)
Fixpoint split (sep : char) (s : str) : list str :=
  match s with
  | [] => [[]]
  | c :: s' =>
      if (c =? sep)%N then [] :: split sep s'
      else match split sep s' with
           | piece :: pieces => (c :: piece) :: pieces
           | [] => [[c]]
           end
  end.

(** [Number(s)] for a string of decimal digits. *)
Definition Number (s : str) : Z :=
  fold_left (fun acc c => 10 * acc + (Z.of_N c - 48)) s 0.

(** ** Regular expressions

    The expressions of the source are written in this syntax; [rmatch] is
    the backtracking matcher of ECMAScript in continuation-passing style, so
    that greedy and lazy quantifiers and alternatives are tried in the
    order the language prescribes.  The [i] flag is written into the
    character classes. *)

Inductive regex :=
| REmpty
| RChar (p : char -> bool)
| RSeq (r1 r2 : regex)
| RAlt (r1 r2 : regex)
| RStar (greedy : bool) (r : regex)
| RGroup (n : nat) (r : regex)
| RBol
| REol
| RWordB.

Definition captures := list (nat * str).

Fixpoint capture (n : nat) (c : captures) : option str :=
  match c with
  | [] => None
  | (m, w) :: c' => if (n =? m)%nat then Some w else capture n c'
  end.

(** [match[n]!]: every group of the expressions below takes part in every
    match. *)
Definition group (n : nat) (c : captures) : str := default [] (capture n c).

Definition at_bol (multiline : bool) (prev : option char) : bool :=
  match prev with
  | None => true
  | Some c => multiline && is_line_terminator c
  end.

Definition at_eol (multiline : bool) (rest : str) : bool :=
  match rest with
  | [] => true
  | c :: _ => multiline && is_line_terminator c
  end.

Definition at_word_boundary (prev : option char) (rest : str) : bool :=
  xorb (from_option is_word false prev) (from_option is_word false (head rest)).

Section Matcher.
Context {A : Type}.
Variable multiline : bool.

(** A continuation receives the state of the matcher: the number of code
    units consumed since the match started, the code unit before the
    position, the input from the position on, and the captures. *)
Definition cont : Type := nat -> option char -> str -> captures -> option A.

(** One more iteration of a starred expression; an iteration that consumes
    nothing is rejected. *)
Definition iterate (step : cont -> cont) (again : cont) : cont :=
  fun i prev rest c =>
    step (fun i' prev' rest' c' =>
            if (i <? i')%nat then again i' prev' rest' c' else None)
      i prev rest c.

Fixpoint rstar (greedy : bool) (step : cont -> cont) (k : cont) (fuel : nat)
  : cont :=
  fun i prev rest c =>
    match fuel with
    | O => k i prev rest c
    | S fuel' =>
        if greedy then
          match iterate step (rstar greedy step k fuel') i prev rest c with
          | Some a => Some a
          | None => k i prev rest c
          end
        else
          match k i prev rest c with
          | Some a => Some a
          | None => iterate step (rstar greedy step k fuel') i prev rest c
          end
    end.

Fixpoint rmatch (r : regex) (k : cont) : cont :=
  fun i prev rest c =>
    match r with
    | REmpty => k i prev rest c
    | RChar p =>
        match rest with
        | x :: rest' => if p x then k (S i) (Some x) rest' c else None
        | [] => None
        end
    | RSeq r1 r2 => rmatch r1 (rmatch r2 k) i prev rest c
    | RAlt r1 r2 =>
        match rmatch r1 k i prev rest c with
        | Some a => Some a
        | None => rmatch r2 k i prev rest c
        end
    | RStar greedy r1 =>
        rstar greedy (rmatch r1) k (length rest) i prev rest c
    | RGroup n r1 =>
        rmatch r1
          (fun i' prev' rest' c' =>
             k i' prev' rest' ((n, take (i' - i) rest) :: c'))
          i prev rest c
    | RBol => if at_bol multiline prev then k i prev rest c else None
    | REol => if at_eol multiline rest then k i prev rest c else None
    | RWordB => if at_word_boundary prev rest then k i prev rest c else None
    end.
End Matcher.

(** One match: where it starts, what it consumed, its groups, and the input
    that follows it. *)
Record matchResult := mkMatch {
  index : nat;
  matched : str;
  groups : captures;
  prevAfter : option char;
  after : str
}.

(** A match that starts at the position: its length, and the state after
    it. *)
Definition matchAt (multiline : bool) (r : regex) (prev : option char)
    (rest : str) : option (nat * option char * str * captures) :=
  rmatch multiline r (fun i' prev' rest' c' => Some (i', prev', rest', c'))
    0%nat prev rest [].

(** The leftmost match at or after the current position. *)
Fixpoint search (multiline : bool) (r : regex) (prev : option char)
    (rest : str) (idx : nat) : option matchResult :=
  match matchAt multiline r prev rest with
  | Some (n, prev', rest', c) =>
      Some (mkMatch idx (take n rest) c prev' rest')
  | None =>
      match rest with
      | [] => None
      | x :: rest' => search multiline r (Some x) rest' (S idx)
      end
  end.

(** [re.test(s)] and [s.match(re)] for an expression without the [g] flag. *)
Definition exec (multiline : bool) (r : regex) (s : str) : option matchResult :=
  search multiline r None s 0.
Definition test (multiline : bool) (r : regex) (s : str) : bool :=
  bool_decide (is_Some (exec multiline r s)).

(** [s.matchAll(re)] for an expression with the [g] flag: after a match the
    search resumes where it ended, one code unit further when it was empty. *)
Fixpoint matchAllFrom (fuel : nat) (multiline : bool) (r : regex)
    (prev : option char) (rest : str) : list matchResult :=
  match fuel with
  | O => []
  | S fuel' =>
      match search multiline r prev rest 0 with
      | None => []
      | Some m =>
          m :: match matched m, after m with
               | [], [] => []
               | [], x :: rest' => matchAllFrom fuel' multiline r (Some x) rest'
               | _ :: _, rest' =>
                   matchAllFrom fuel' multiline r (prevAfter m) rest'
               end
      end
  end.
Definition matchAll (multiline : bool) (r : regex) (s : str)
  : list matchResult :=
  matchAllFrom (S (length s)) multiline r None s.

(** [s.replace(re, by)] with the [g] flag. *)
Fixpoint replaceAllFrom (fuel : nat) (multiline : bool) (r : regex) (by_ : str)
    (prev : option char) (rest : str) : str :=
  match fuel with
  | O => rest
  | S fuel' =>
      match search multiline r prev rest 0 with
      | None => rest
      | Some m =>
          take (index m) rest ++ by_ ++
          match matched m, after m with
          | [], [] => []
          | [], x :: rest' =>
              x :: replaceAllFrom fuel' multiline r by_ (Some x) rest'
          | _ :: _, rest' =>
              replaceAllFrom fuel' multiline r by_ (prevAfter m) rest'
          end
      end
  end.
Definition replaceAll (multiline : bool) (r : regex) (by_ : str) (s : str)
  : str :=
  replaceAllFrom (S (length s)) multiline r by_ None s.

(** [s.replace(re, by)] without the [g] flag: the first match only. *)
Definition replaceFirst (multiline : bool) (r : regex) (by_ : str) (s : str)
  : str :=
  match exec multiline r s with
  | None => s
  | Some m => take (index m) s ++ by_ ++ after m
  end.

(** Shorthands for writing the expressions of the source. *)
Fixpoint lit_chars (l : str) : regex :=
  match l with
  | [] => REmpty
  | [c] => RChar (N.eqb c)
  | c :: l' => RSeq (RChar (N.eqb c)) (lit_chars l')
  end.
Definition lit (s : string) : regex := lit_chars (u s).
Definition star (r : regex) : regex := RStar true r.
Definition plus (r : regex) : regex := RSeq r (RStar true r).
Definition lazyStar (r : regex) : regex := RStar false r.
Definition lazyPlus (r : regex) : regex := RSeq r (RStar false r).
Definition opt (r : regex) : regex := RAlt r REmpty.
Fixpoint seq (rs : list regex) : regex :=
  match rs with
  | [] => REmpty
  | [r] => r
  | r :: rs' => RSeq r (seq rs')
  end.
Fixpoint alt (rs : list regex) : regex :=
  match rs with
  | [] => REmpty
  | [r] => r
  | r :: rs' => RAlt r (alt rs')
  end.

Definition ws : regex := RChar is_space.
Definition digit : regex := RChar is_digit.
Definition dot : regex := RChar (fun c => negb (is_line_terminator c)).
Definition anyChar : regex := RChar (fun _ => true).
(** [[A-Za-z_][A-Za-z0-9_]*] *)
Definition identifier : regex :=
  RSeq (RChar is_ident_start) (star (RChar is_word)).

(** ** qbi.ts: entries and documents *)

Inductive entryKind := KFunction | KProcedure.

Module QbiEntry.
Record t := mk {
  kind : entryKind;
  name : str;
  inputType : Z;
  input : QbiTypeRef;
  output : QbiTypeRef;
  inputSize : option Z;
  outputSize : option Z
}.
End QbiEntry.

Module QbiContract.
Record t := mk {
  name : str;
  contractIndex : option number;
  contractPublicKeyHex : option str;
  contractId : option str
}.
End QbiContract.

Module QbiMeta.
Record t := mk {
  source : option str;
  sourceRepo : option str;
  sourceRevision : option str;
  generatedAt : option str;
  generator : option str;
  generatorVersion : option str;
  warnings : option (list str)
}.
End QbiMeta.

Module QbiFile.
Record t := mk {
  qbiVersion : str;
  contract : QbiContract.t;
  entries : list QbiEntry.t;
  meta : option QbiMeta.t
}.
End QbiFile.

(** ** header-extractor.ts *)

Module CompileOptions.
Record t := mk {
  contractName : str;
  contractIndex : option number;
  contractPublicKeyHex : option str;
  sourcePath : option str;
  sourceRepo : option str;
  sourceRevision : option str;
  generatorVersion : option str;
  includeGeneratedAt : option bool
}.
End CompileOptions.

Definition normalizeNoData (typeRef : QbiTypeRef) (expectedSize : Z)
  : QbiTypeRef :=
  match typeRef with
  | TStruct [] => TNodata (Some expectedSize)
  | _ => typeRef
  end.

Module Registered.
Record t := mk { kind : entryKind; name : str; inputType : Z }.
End Registered.

(** [funcRe] and [procRe] of [extractRegisteredEntries]: the macro name, then
    a parenthesised identifier (group 1) and decimal number (group 2) with
    optional white space around each token, then a semicolon. *)
Definition registerRe (macro : string) : regex :=
  seq [lit macro; star ws; lit "("; star ws; RGroup 1 identifier; star ws;
       lit ","; star ws; RGroup 2 (plus digit); star ws; lit ")"; star ws;
       lit ";"].
Definition funcRe : regex := registerRe "REGISTER_USER_FUNCTION".
Definition procRe : regex := registerRe "REGISTER_USER_PROCEDURE".

Definition registeredOf (kind : entryKind) (m : matchResult) : Registered.t :=
  Registered.mk kind (group 1 (groups m)) (Number (group 2 (groups m))).

Definition extractRegisteredEntries (source : str) : list Registered.t :=
  List.map (registeredOf KFunction) (matchAll false funcRe source) ++
  List.map (registeredOf KProcedure) (matchAll false procRe source).

(** *** Numeric expressions *)

Inductive NumericToken :=
| TokNumber (n : Z)
| TokIdent (value : str)
| TokOp (value : char)
| TokParen (value : char).

(** The literal suffixes removed by [tokenizeNumericExpr]:
    "/\bULL\b|\bLL\b|\bUL\b|\bL\b|\bU\b/g". *)
Definition suffixRe : regex :=
  alt [seq [RWordB; lit "ULL"; RWordB]; seq [RWordB; lit "LL"; RWordB];
       seq [RWordB; lit "UL"; RWordB]; seq [RWordB; lit "L"; RWordB];
       seq [RWordB; lit "U"; RWordB]].
(** The operators and calls rejected by [tokenizeNumericExpr]: a slash or a
    percent sign, or [div] or [mod] followed by optional white space and an
    opening parenthesis. *)
Definition unsupportedRe : regex :=
  alt [RChar (char_is "/%"); seq [lit "div"; star ws; lit "("];
       seq [lit "mod"; star ws; lit "("]].

(** The longest prefix of code units of a class, and what follows it. *)
Fixpoint span (p : char -> bool) (s : str) : str * str :=
  match s with
  | c :: s' => if p c then let '(a, b) := span p s' in (c :: a, b) else ([], s)
  | [] => ([], [])
  end.

(** The scanning loop of [tokenizeNumericExpr]; each round consumes at least
    one code unit, so the length of the text bounds the rounds. *)
Fixpoint tokenizeLoop (fuel : nat) (s : str) : option (list NumericToken) :=
  match fuel, s with
  | _, [] => Some []
  | O, _ :: _ => None
  | S fuel', ch :: s' =>
      if char_is " " ch then tokenizeLoop fuel' s'
      else if char_is "()" ch then
        cons (TokParen ch) <$> tokenizeLoop fuel' s'
      else if char_is "+-*" ch then
        cons (TokOp ch) <$> tokenizeLoop fuel' s'
      else if is_digit ch then
        let '(ds, s'') := span is_digit s' in
        cons (TokNumber (Number (ch :: ds))) <$> tokenizeLoop fuel' s''
      else if is_ident_start ch then
        let '(ws, s'') := span is_word s' in
        cons (TokIdent (ch :: ws)) <$> tokenizeLoop fuel' s''
      else None
  end.

Definition tokenizeNumericExpr (expr : str) : option (list NumericToken) :=
  let s := trim (replaceAll false (plus ws) (u " ")
                   (replaceAll false suffixRe [] expr)) in
  if test false unsupportedRe s then None
  else tokenizeLoop (length s) s.

Definition prec (op : char) : Z :=
  if char_is "*" op then 2 else 1.

(** An element of the postfix output: a number or an operator. *)
Definition postfixItem : Type := Z + char.

(** The operator stacks have their top at the head of the list. *)
Fixpoint popHigher (ops : list char) (p : Z) (output : list postfixItem)
  : list postfixItem * list char :=
  match ops with
  | [] => (output, [])
  | top :: ops' =>
      if char_is "(" top then (output, ops)
      else if p <=? prec top then popHigher ops' p (output ++ [inr top])
      else (output, ops)
  end.

Fixpoint popToParen (ops : list char) (output : list postfixItem)
  : list postfixItem * list char :=
  match ops with
  | [] => (output, [])
  | top :: ops' =>
      if char_is "(" top then (output, ops)
      else popToParen ops' (output ++ [inr top])
  end.

Fixpoint shuntingYard (constants : gmap str Z) (tokens : list NumericToken)
    (output : list postfixItem) (ops : list char)
  : option (list postfixItem * list char) :=
  match tokens with
  | [] => Some (output, ops)
  | TokNumber n :: tokens' =>
      shuntingYard constants tokens' (output ++ [inl n]) ops
  | TokIdent value :: tokens' =>
      match constants !! value with
      | None => None
      | Some val => shuntingYard constants tokens' (output ++ [inl val]) ops
      end
  | TokOp value :: tokens' =>
      let '(output', ops') := popHigher ops (prec value) output in
      shuntingYard constants tokens' output' (value :: ops')
  | TokParen value :: tokens' =>
      if char_is "(" value then
        shuntingYard constants tokens' output (value :: ops)
      else
        match popToParen ops output with
        | (_, []) => None
        | (output', _ :: ops') => shuntingYard constants tokens' output' ops'
        end
  end.

Fixpoint flushOps (ops : list char) (output : list postfixItem)
  : option (list postfixItem) :=
  match ops with
  | [] => Some output
  | op :: ops' =>
      if char_is "(" op then None else flushOps ops' (output ++ [inr op])
  end.

(** The evaluation of the postfix output; the stack has its top at the
    head. *)
Fixpoint evalPostfix (output : list postfixItem) (stack : list Z)
  : option Z :=
  match output with
  | [] => match stack with [v] => Some v | _ => None end
  | inl n :: output' => evalPostfix output' (n :: stack)
  | inr item :: output' =>
      match stack with
      | b :: a :: stack' =>
          if char_is "+" item then evalPostfix output' (a + b :: stack')
          else if char_is "-" item then evalPostfix output' (a - b :: stack')
          else if char_is "*" item then evalPostfix output' (a * b :: stack')
          else None
      | _ => None
      end
  end.

Definition parseNumericExpr (expr : str) (constants : gmap str Z)
  : option Z :=
  tokens ← tokenizeNumericExpr expr;
  '(output, ops) ← shuntingYard constants tokens [] [];
  output ← flushOps ops output;
  evalPostfix output [].

(** [re] of [extractNumericConstants]: [constexpr], a type of the class
    "[A-Za-z0-9_:<>]+", an identifier (group 1), an equals sign and the
    text up to the next semicolon (group 2, "[^;]+"). *)
Definition constexprRe : regex :=
  seq [lit "constexpr"; plus ws;
       plus (RChar (fun c => is_word c || char_is ":<>" c)); plus ws;
       RGroup 1 identifier; star ws; lit "="; star ws;
       RGroup 2 (plus (RChar (char_not ";"))); lit ";"].
(** [defRe] of [extractNumericConstants], with the flags [g] and [m]: at the
    start of a line, [#define], an identifier (group 1) and the shortest
    text (group 2, ".+?") that white space and the end of a line follow. *)
Definition defRe : regex :=
  seq [RBol; star ws; lit "#define"; plus ws; RGroup 1 identifier; plus ws;
       RGroup 2 (lazyPlus dot); star ws; REol].

(** The body of both loops of [extractNumericConstants]. *)
Definition defineConstant (map : gmap str Z) (m : matchResult) : gmap str Z :=
  let name := group 1 (groups m) in
  let expr := trim (group 2 (groups m)) in
  match parseNumericExpr expr map with
  | Some val => <[name := val]> map
  | None => map
  end.

Definition extractNumericConstants (source : str) : gmap str Z :=
  let map := {[ u "X_MULTIPLIER" := 1 ]} in
  let map := fold_left defineConstant (matchAll false constexprRe source) map in
  fold_left defineConstant (matchAll true defRe source) map.

(** *** Struct bodies *)

(** The loop of [extractStructBody] from index [i] on, over the text that
    is left there. *)
Fixpoint closingBrace (rest : str) (i : nat) (depth : Z) : option nat :=
  match rest with
  | [] => None
  | ch :: rest' =>
      if char_is "{" ch then closingBrace rest' (S i) (depth + 1)
      else if char_is "}" ch then
        if depth - 1 =? 0 then Some i
        else closingBrace rest' (S i) (depth - 1)
      else closingBrace rest' (S i) depth
  end.

Definition extractStructBody (source structName : str) : option str :=
  idx ← indexOf (u "struct " ++ structName) source;
  braceStart ← indexOfFrom (u "{") source idx;
  i ← closingBrace (drop braceStart source) braceStart 0;
  Some (slice (braceStart + 1) i source).

(** *** Fields and type references *)

Record ctx := mkCtx {
  constants : gmap str Z;
  aliases : gmap str str;
  headerSource : str
}.

(** What a compilation mutates: the list of warnings and the cache of
    resolved structs. *)
Record state := mkState {
  warnings : list str;
  structCache : gmap str QbiTypeRef
}.

(** A computation over the state; [None] when the nesting of calls exceeds
    the depth that is allowed (the call stack is exhausted). *)
Definition M (A : Type) : Type := state -> option (A * state).

Definition ret {A} (a : A) : M A := fun st => Some (a, st).
Definition bind {A B} (m : M A) (f : A -> M B) : M B :=
  fun st => match m st with
            | None => None
            | Some (a, st') => f a st'
            end.
Definition warn (w : str) : M unit :=
  fun st => Some (tt, mkState (warnings st ++ [w]) (structCache st)).
Definition cacheGet (name : str) : M (option QbiTypeRef) :=
  fun st => Some (structCache st !! name, st).
Definition cacheSet (name : str) (t : QbiTypeRef) : M unit :=
  fun st => Some (tt, mkState (warnings st) (<[name := t]> (structCache st))).

Declare Scope m_scope.
Delimit Scope m_scope with M.
Notation "x <- m ;; k" := (bind m (fun x => k))
  (at level 100, m at next level, right associativity) : m_scope.
Notation "m ;;; k" := (bind m (fun _ => k))
  (at level 100, right associativity) : m_scope.

Definition parseLen (token : str) (constants : gmap str Z) : option Z :=
  n ← (if test false (seq [RBol; plus digit; REol]) token
       then Some (Number token) else constants !! token);
  if n <? 0 then None else Some n.

(** The two expressions of [stripComments]: a block comment up to its first
    closing mark, and a line comment up to the end of its line. *)
Definition blockCommentRe : regex :=
  seq [lit "/*"; lazyStar anyChar; lit "*/"].
Definition lineCommentRe : regex := seq [lit "//"; star dot; REol].

Definition stripComments (source : str) : str :=
  replaceAll true lineCommentRe [] (replaceAll false blockCommentRe [] source).

(** The statement [T name[N]] of [parseStructFields]: the shortest type text
    (group 1, ".+?"), white space, an identifier (group 2) and a bracketed
    token of the class "[A-Za-z0-9_]+" (group 3). *)
Definition arrayFieldRe : regex :=
  seq [RBol; RGroup 1 (lazyPlus dot); plus ws; RGroup 2 identifier; star ws;
       lit "["; star ws; RGroup 3 (plus (RChar is_word)); star ws; lit "]";
       star ws; REol].
(** The statement [T a, b, c] of [parseStructFields]: the shortest type text
    (group 1, ".+?"), white space, and identifiers separated by commas
    (group 2). *)
Definition namesRe : regex :=
  RSeq identifier (star (seq [star ws; lit ","; star ws; identifier])).
Definition scalarFieldRe : regex :=
  seq [RBol; RGroup 1 (lazyPlus dot); plus ws; RGroup 2 namesRe; star ws;
       REol].
(** The statements skipped by [parseStructFields]: "/^[{}]+$/",
    "/^\s*(struct|class|enum|union)\b/" and "/^\s*#/". *)
Definition bracesRe : regex := seq [RBol; plus (RChar (char_is "{}")); REol].
Definition nestedTypeRe : regex :=
  seq [RBol; star ws;
       RGroup 1 (alt [lit "struct"; lit "class"; lit "enum"; lit "union"]);
       RWordB].
Definition directiveRe : regex := seq [RBol; star ws; lit "#"].

Definition statementsOf (body : str) : list str :=
  List.filter (fun s => negb (length s =? 0)%nat)
    (List.map trim
       (split 59%N (replaceAll false (RSeq (opt (lit_chars [13%N])) (lit_chars [10%N]))
                    (u " ") (stripComments body)))).

Section Resolver.
Variable c : ctx.
(** The recursive call of [parseTypeRef], one level further down. *)
Variable parseTypeRef : str -> M QbiTypeRef.

Local Open Scope m_scope.

(** The loop of [parseStructFields] over the statements. *)
Fixpoint fieldsLoop (statements : list str) (fields : list QbiStructField)
  : M (list QbiStructField) :=
  match statements with
  | [] => ret fields
  | stmt :: statements' =>
      if test false bracesRe stmt then fieldsLoop statements' fields
      else if includes (u "(") stmt then fieldsLoop statements' fields
      else if test false nestedTypeRe stmt then fieldsLoop statements' fields
      else if test false directiveRe stmt then fieldsLoop statements' fields
      else
        match exec false arrayFieldRe stmt with
        | Some a =>
            let rawType := trim (group 1 (groups a)) in
            let name := group 2 (groups a) in
            let lenToken := group 3 (groups a) in
            match parseLen lenToken (constants c) with
            | None =>
                warn (u "Could not resolve array length token: " ++ lenToken) ;;;
                fieldsLoop statements' fields
            | Some len =>
                item <- parseTypeRef rawType ;;
                fieldsLoop statements'
                  (fields ++ [(name, TArray (Int len) item)])
            end
        | None =>
            match exec false scalarFieldRe stmt with
            | Some m =>
                let rawType := trim (group 1 (groups m)) in
                let rawNames := List.map trim (split 44%N (group 2 (groups m))) in
                typeRef <- parseTypeRef rawType ;;
                fieldsLoop statements'
                  (fields ++ List.map (fun name => (name, typeRef)) rawNames)
            | None =>
                warn (u "Unrecognized field statement: " ++ stmt) ;;;
                fieldsLoop statements' fields
            end
        end
  end.

Definition parseStructFieldsF (body : str) : M QbiTypeRef :=
  fields <- fieldsLoop (statementsOf body) [] ;;
  ret (TStruct fields).
End Resolver.

(** The expressions of [parseTypeRef], in the order of the source: the
    [Array] and [BitArray] templates, the names [sint8_N] to [uint64_N],
    [id_N] and [bit_N], and the template [ProposalDataV1]. *)
Definition constRe : regex := seq [RBol; lit "const"; plus ws].
Definition refRe : regex := seq [lit "&"; REol].
Definition nsRe : regex := seq [RBol; lit "QPI::"].
Definition arrayRe : regex :=
  seq [RBol; lit "Array"; star ws; lit "<"; star ws;
       RGroup 1 (plus (RChar (char_not ",>"))); star ws; lit ","; star ws;
       RGroup 2 (plus (RChar (char_not ">"))); star ws; lit ">"; star ws;
       REol].
Definition bitArrayRe : regex :=
  seq [RBol; lit "BitArray"; star ws; lit "<"; star ws;
       RGroup 1 (plus (RChar (char_not ">"))); star ws; lit ">"; star ws;
       REol].
Definition intAliasRe : regex :=
  seq [RBol; RGroup 1 (alt [lit "sint"; lit "uint"]);
       RGroup 2 (alt [lit "8"; lit "16"; lit "32"; lit "64"]); lit "_";
       RGroup 3 (plus digit); REol].
Definition idAliasRe : regex :=
  seq [RBol; lit "id_"; RGroup 1 (plus digit); REol].
Definition bitAliasRe : regex :=
  seq [RBol; lit "bit_"; RGroup 1 (plus digit); REol].
Definition proposalDataV1Re : regex :=
  seq [RBol; lit "ProposalDataV1"; star ws; lit "<"; star ws;
       RGroup 1 (alt [lit "true"; lit "false"]); star ws; lit ">"; star ws;
       REol].

(** The item type named by the signedness and the width of [sint8_N] and
    its like.  The source guards these three conventions with
    [Number.isInteger(len) && len >= 0], which holds of the number of a text
    of digits. *)
Definition intPrim (signedness width : str) : prim :=
  if str_eqb signedness (u "uint") then
    (if str_eqb width (u "8") then U8
     else if str_eqb width (u "16") then U16
     else if str_eqb width (u "32") then U32 else U64)
  else
    (if str_eqb width (u "8") then I8
     else if str_eqb width (u "16") then I16
     else if str_eqb width (u "32") then I32 else I64).

(** The [switch] of [parseTypeRef] over the type names that are built in. *)
Definition builtinType (noNs : str) : option QbiTypeRef :=
  let named := existsb (fun n => str_eqb noNs (u n)) in
  if named ["uint8"; "unsigned char"]%string then Some (TPrim U8)
  else if named ["sint8"; "signed char"]%string then Some (TPrim I8)
  else if named ["uint16"; "unsigned short"]%string then Some (TPrim U16)
  else if named ["sint16"; "signed short"]%string then Some (TPrim I16)
  else if named ["uint32"; "unsigned int"]%string then Some (TPrim U32)
  else if named ["sint32"; "signed int"]%string then Some (TPrim I32)
  else if named ["uint64"; "unsigned long long"]%string then Some (TPrim U64)
  else if named ["sint64"; "signed long long"; "long long"]%string
    then Some (TPrim I64)
  else if named ["bool"; "bit"]%string then Some (TPrim TBool)
  else if named ["id"; "m256i"]%string then Some TM256i
  else if named ["Asset"]%string then
    Some (TStruct [(u "issuer", TM256i); (u "assetName", TPrim U64)])
  else if named ["ProposalSingleVoteDataV1"]%string then
    Some (TStruct [(u "proposalIndex", TPrim U16);
                   (u "proposalType", TPrim U16);
                   (u "proposalTick", TPrim U32);
                   (u "voteValue", TPrim I64)])
  else if named ["ProposalMultiVoteDataV1"]%string then
    Some (TStruct [(u "proposalIndex", TPrim U16);
                   (u "proposalType", TPrim U16);
                   (u "proposalTick", TPrim U32);
                   (u "voteValues", TArray (Int 8) (TPrim I64));
                   (u "voteCounts", TArray (Int 8) (TPrim U32))])
  else if named ["ProposalSummarizedVotingDataV1"]%string then
    Some (TStruct [(u "proposalIndex", TPrim U16);
                   (u "optionCount", TPrim U16);
                   (u "proposalTick", TPrim U32);
                   (u "totalVotesAuthorized", TPrim U32);
                   (u "totalVotesCasted", TPrim U32);
                   (u "resultBytes", TBytes (Int 32))])
  else if named ["ProposalDataYesNo"]%string then Some (TBytes (Int 304))
  else None.

(** [Math.max(1, Math.ceil(bits / 64))] *)
Definition bitWords (bits : Z) : Z := Z.max 1 (ceil_div bits 64).

Section ParseTypeRef.
Variable c : ctx.
(** The recursive call of [parseTypeRef], one level further down. *)
Variable parseTypeRef : str -> M QbiTypeRef.

Local Open Scope m_scope.

(** The structs of the header, behind the cache, and the unknown type. *)
Definition resolveStruct (noNs : str) : M QbiTypeRef :=
  cached <- cacheGet noNs ;;
  match cached with
  | Some cached => ret cached
  | None =>
      match extractStructBody (headerSource c) noNs with
      | Some ((_ :: _) as body) =>
          ref <- parseStructFieldsF c parseTypeRef body ;;
          cacheSet noNs ref ;;;
          ret ref
      | _ =>
          warn (u "Unknown type: " ++ noNs ++ u " (treated as bytes[0])") ;;;
          ret (TBytes (Int 0))
      end
  end.

(** The end of [parseTypeRef]: the aliases first. *)
Definition resolveNamed (noNs : str) : M QbiTypeRef :=
  match aliases c !! noNs with
  | Some ((_ :: _) as aliased) =>
      if negb (str_eqb aliased noNs) then parseTypeRef aliased
      else resolveStruct noNs
  | _ => resolveStruct noNs
  end.

Definition parseTypeRefF (rawType : str) : M QbiTypeRef :=
  let t := trim (replaceFirst false refRe []
                   (replaceFirst false constRe [] rawType)) in
  let noNs := replaceFirst false nsRe [] t in
  match exec false arrayRe noNs with
  | Some array =>
      let itemType := trim (group 1 (groups array)) in
      let lenToken := trim (group 2 (groups array)) in
      match parseLen lenToken (constants c) with
      | None =>
          warn (u "Could not resolve Array length token: " ++ lenToken) ;;;
          ret (TBytes (Int 0))
      | Some len =>
          item <- parseTypeRef itemType ;;
          ret (TArray (Int len) item)
      end
  | None =>
  match exec false bitArrayRe noNs with
  | Some bitArray =>
      let lenToken := trim (group 1 (groups bitArray)) in
      match parseLen lenToken (constants c) with
      | None =>
          warn (u "Could not resolve BitArray length token: " ++ lenToken) ;;;
          ret (TBytes (Int 0))
      | Some bits => ret (TArray (Int (bitWords bits)) (TPrim U64))
      end
  | None =>
  match exec false intAliasRe noNs with
  | Some aliasMatch =>
      let signedness := group 1 (groups aliasMatch) in
      let width := group 2 (groups aliasMatch) in
      let len := Number (group 3 (groups aliasMatch)) in
      ret (TArray (Int len) (TPrim (intPrim signedness width)))
  | None =>
  match exec false idAliasRe noNs with
  | Some idAlias =>
      ret (TArray (Int (Number (group 1 (groups idAlias)))) TM256i)
  | None =>
  match exec false bitAliasRe noNs with
  | Some bitAlias =>
      let bits := Number (group 1 (groups bitAlias)) in
      ret (TArray (Int (bitWords bits)) (TPrim U64))
  | None =>
  match builtinType noNs with
  | Some t => ret t
  | None =>
  match exec false proposalDataV1Re noNs with
  | Some _ => ret (TBytes (Int 328))
  | None => resolveNamed noNs
  end end end end end end end.
End ParseTypeRef.

(** [parseTypeRef] and [parseStructFields] call each other; [depth] bounds
    the nesting of the calls of [parseTypeRef]. *)
Fixpoint parseTypeRef (depth : nat) (c : ctx) (rawType : str) : M QbiTypeRef :=
  match depth with
  | O => fun _ => None
  | S depth' => parseTypeRefF c (parseTypeRef depth' c) rawType
  end.

Definition parseStructFields (depth : nat) (c : ctx) (body : str)
  : M QbiTypeRef :=
  parseStructFieldsF c (parseTypeRef depth c) body.

(** The two expressions of [extractTypeAliases], with the flags [g] and [m]:
    [typedef X Y;] and [using Y = X;] on a line of their own. *)
Definition typedefRe : regex :=
  seq [RBol; star ws; lit "typedef"; plus ws;
       RGroup 1 (lazyPlus (RChar (char_not ";"))); plus ws;
       RGroup 2 identifier; star ws; lit ";"; star ws; REol].
Definition usingRe : regex :=
  seq [RBol; star ws; lit "using"; plus ws; RGroup 1 identifier; star ws;
       lit "="; star ws; RGroup 2 (lazyPlus (RChar (char_not ";"))); star ws;
       lit ";"; star ws; REol].

Definition extractTypeAliases (source : str) : gmap str str :=
  let map :=
    fold_left
      (fun map m =>
         <[trim (group 2 (groups m)) := trim (group 1 (groups m))]> map)
      (matchAll true typedefRe source) ∅ in
  fold_left
    (fun map m =>
       <[trim (group 1 (groups m)) := trim (group 2 (groups m))]> map)
    (matchAll true usingRe source) map.

(** *** Sorting

    [Array.prototype.sort] is specified for a consistent comparator: the
    result is ordered by it and elements that compare equal keep their
    order.  The insertion sort below is that function. *)
Section Sort.
Context {A : Type}.
Variable compare : A -> A -> Z.

Fixpoint insertSorted (x : A) (l : list A) : list A :=
  match l with
  | [] => [x]
  | y :: l' => if compare x y <=? 0 then x :: l else y :: insertSorted x l'
  end.

Definition sort (l : list A) : list A := foldr insertSorted [] l.
End Sort.

Section Compile.
(** [String.prototype.localeCompare] is the collation of the host; it is
    a parameter of the compilation. *)
Variable localeCompare : str -> str -> Z.
(** [new Date().toISOString()] at the time of the call. *)
Variable now : str.

(** The comparator given to [sort]. *)
Definition compareEntries (a b : QbiEntry.t) : Z :=
  if QbiEntry.inputType a - QbiEntry.inputType b =? 0
  then localeCompare (QbiEntry.name a) (QbiEntry.name b)
  else QbiEntry.inputType a - QbiEntry.inputType b.

(** One side of an entry: the struct of that name, or no data. *)
Definition sideTypeRef (depth : nat) (c : ctx) (structName : str)
  : M QbiTypeRef :=
  match extractStructBody (headerSource c) structName with
  | Some ((_ :: _) as body) => parseStructFields depth c body
  | _ => ret (TNodata None)
  end.

(** The loop of [compileContractHeader] over the registered entries. *)
Fixpoint compileEntries (depth : nat) (c : ctx)
    (entries : list Registered.t) (compiled : list QbiEntry.t) (st : state)
  : option (outcome (list QbiEntry.t * state)) :=
  match entries with
  | [] => Some (Ok (compiled, st))
  | entry :: entries' =>
      let inputStructName := Registered.name entry ++ u "_input" in
      let outputStructName := Registered.name entry ++ u "_output" in
      match sideTypeRef depth c inputStructName st with
      | None => None
      | Some (inputTypeRef, st) =>
          match sideTypeRef depth c outputStructName st with
          | None => None
          | Some (outputTypeRef, st) =>
              match cppLayoutOf inputTypeRef with
              | Throw e => Some (Throw e)
              | Ok inputLayout =>
                  match cppLayoutOf outputTypeRef with
                  | Throw e => Some (Throw e)
                  | Ok outputLayout =>
                      compileEntries depth c entries'
                        (compiled ++
                           [QbiEntry.mk (Registered.kind entry)
                              (Registered.name entry)
                              (Registered.inputType entry)
                              (normalizeNoData inputTypeRef (size inputLayout))
                              (normalizeNoData outputTypeRef (size outputLayout))
                              (Some (size inputLayout))
                              (Some (size outputLayout))])
                        st
                  end
              end
          end
      end
  end.

(** [compileContractHeader]; [None] when the resolution of the types nests
    deeper than [depth] calls. *)
Definition compileContractHeader (depth : nat) (headerSource : str)
    (options : CompileOptions.t) : option (outcome QbiFile.t) :=
  let constants := extractNumericConstants headerSource in
  let aliases := extractTypeAliases headerSource in
  let entries := extractRegisteredEntries headerSource in
  match compileEntries depth (mkCtx constants aliases headerSource)
          entries [] (mkState [] ∅) with
  | None => None
  | Some (Throw e) => Some (Throw e)
  | Some (Ok (compiled, st)) =>
      Some (Ok (QbiFile.mk (u "0.1")
        (QbiContract.mk (CompileOptions.contractName options)
           (CompileOptions.contractIndex options)
           (CompileOptions.contractPublicKeyHex options)
           None)
        (sort compareEntries compiled)
        (Some (QbiMeta.mk (CompileOptions.sourcePath options)
           (CompileOptions.sourceRepo options)
           (CompileOptions.sourceRevision options)
           (match CompileOptions.includeGeneratedAt options with
            | Some false => None
            | _ => Some now
            end)
           (Some (u "qbi (header-extractor)"))
           (CompileOptions.generatorVersion options)
           (match warnings st with
            | [] => None
            | _ :: _ => Some (warnings st)
            end)))))
  end.
End Compile.

(** ** validate.ts: the result and [isHex]

    The validator itself works on numbers that need not be integers; it is
    embedded with them, over the doubles, in the module [Js] below. *)

Module QbiValidationResult.
Record t := mk { ok : bool; errors : list str }.
End QbiValidationResult.

(** The decimal text of an integer, as a template literal prints it. *)
Definition showZ (z : Z) : str :=
  u (DecimalString.NilZero.string_of_int (Z.to_int z)).
Definition showNat (n : nat) : str := showZ (Z.of_nat n).

(** [isHex]: the expression "/^[0-9a-f]+$/i", with its [i] flag in the
    class. *)
Definition is_hex (c : char) : bool :=
  is_digit c || ((97 <=? c) && (c <=? 102))%N || ((65 <=? c) && (c <=? 70))%N.
Definition isHex (value : str) (len : nat) : bool :=
  (length value =? len)%nat &&
  test false (seq [RBol; plus (RChar is_hex); REol]) value.
(** ** contract-def.ts

    [parseContractDefH] reads [contract_def.h] line by line and keeps three
    variables between the lines; [DefState] is that state together with the
    entries pushed so far. *)

Module ContractDefEntry.
Record t := mk { name : str; contractIndex : Z; header : str }.
End ContractDefEntry.

Module DefState.
Record t := mk {
  entries : list ContractDefEntry.t;
  currentIndex : option Z;
  currentStateType : option str;
  currentHeader : option str
}.
End DefState.

(** [s.split(re)] for an expression without groups: the pieces between the
    matches; a match that is empty at the start of a piece is passed
    over. *)
Fixpoint splitFrom (fuel : nat) (r : regex) (prev : option char)
    (piece rest : str) : list str :=
  match fuel, rest with
  | _, [] => [piece]
  | O, _ :: _ => [piece ++ rest]
  | S fuel', x :: rest' =>
      match matchAt false r prev rest with
      | Some (n, prev', rest'', _) =>
          match n, piece with
          | O, [] => splitFrom fuel' r (Some x) [x] rest'
          | _, _ => piece :: splitFrom fuel' r prev' [] rest''
          end
      | None => splitFrom fuel' r (Some x) (piece ++ [x]) rest'
      end
  end.
Definition splitRe (r : regex) (s : str) : list str :=
  match s with
  | [] => match matchAt false r None [] with Some _ => [] | None => [[]] end
  | _ :: _ => splitFrom (2 * length s) r None [] s
  end.

(** The separator of the lines: an optional carriage return and a line
    feed. *)
Definition lineBreakRe : regex :=
  seq [opt (RChar (N.eqb 13)); RChar (N.eqb 10)].

(** The three expressions of [parseContractDefH], each anchored at both ends
    of the line: [#define] of a name that ends in [_CONTRACT_INDEX] (the
    part before it is group 1) and a number (group 2); [#define] of
    [CONTRACT_STATE_TYPE] and an identifier (group 1); [#include] of a file
    of the directory [contracts], between double quotes (group 1). *)
Definition quote : char := 34%N.
Definition idxRe : regex :=
  seq [RBol; star ws; lit "#define"; plus ws;
       RGroup 1 (plus (RChar (fun c => is_upper c || is_digit c || is_underscore c)));
       lit "_CONTRACT_INDEX"; plus ws; RGroup 2 (plus digit); star ws; REol].
Definition stRe : regex :=
  seq [RBol; star ws; lit "#define"; plus ws; lit "CONTRACT_STATE_TYPE";
       plus ws; RGroup 1 identifier; star ws; REol].
Definition incRe : regex :=
  seq [RBol; star ws; lit "#include"; plus ws; RChar (N.eqb quote);
       lit "contracts/";
       RGroup 1 (plus (RChar (fun c => negb (c =? quote)%N)));
       RChar (N.eqb quote); star ws; REol].

(** [flush]: an entry is pushed when the three variables are set; they are
    cleared in every case. *)
Definition flush (s : DefState.t) : DefState.t :=
  DefState.mk
    (match DefState.currentIndex s, DefState.currentStateType s,
           DefState.currentHeader s with
     | Some currentIndex, Some currentStateType, Some currentHeader =>
         DefState.entries s ++
         [ContractDefEntry.mk currentStateType currentIndex currentHeader]
     | _, _, _ => DefState.entries s
     end)
    None None None.

(** The body of the loop over the lines. *)
Definition defLine (s : DefState.t) (line : str) : DefState.t :=
  match exec false idxRe line with
  | Some idx =>
      let s := flush s in
      DefState.mk (DefState.entries s)
        (Some (Number (group 2 (groups idx))))
        (DefState.currentStateType s) (DefState.currentHeader s)
  | None =>
  match exec false stRe line with
  | Some st =>
      DefState.mk (DefState.entries s) (DefState.currentIndex s)
        (Some (group 1 (groups st))) (DefState.currentHeader s)
  | None =>
  match exec false incRe line with
  | Some inc =>
      DefState.mk (DefState.entries s) (DefState.currentIndex s)
        (DefState.currentStateType s) (Some (group 1 (groups inc)))
  | None => s
  end end end.

(** The loop and the last [flush], from a given state on. *)
Definition defLines (s : DefState.t) (lines : list str)
  : list ContractDefEntry.t :=
  DefState.entries (flush (fold_left defLine lines s)).

Definition parseContractDefH (source : str) : list ContractDefEntry.t :=
  defLines (DefState.mk [] None None None) (splitRe lineBreakRe source).

(** ** registry.ts and cli.ts: the key of a contract *)

(** One digit of [Buffer.prototype.toString("hex")]. *)
Definition hexDigit (n : Z) : char :=
  Z.to_N (if n <? 10 then 48 + n else 87 + n).
Definition toHex (bytes : list Z) : str :=
  flat_map (fun b => [hexDigit (b / 16); hexDigit (b mod 16)]) bytes.

(** The [n] bytes of a value, the least significant first. *)
Fixpoint littleEndian (n : nat) (v : Z) : list Z :=
  match n with
  | O => []
  | S n' => v mod 256 :: littleEndian n' (v / 256)
  end.

(** [view.setBigUint64(offset, v, true)] on the bytes of the view. *)
Definition setBigUint64 (bytes : list Z) (offset : nat) (v : Z) : list Z :=
  take offset bytes ++ littleEndian 8 (v mod 2 ^ 64) ++ drop (offset + 8) bytes.

Definition contractKeyHex (contractIndex : number) : outcome str :=
  match contractIndex with
  | Int z =>
      if (z <? 0) || (4294967295 <? z)
      then Throw (RangeError (u "contractIndex must fit in uint32"))
      else Ok (toHex (setBigUint64 (replicate 32 0) 0 z))
  | NonInt => Throw (RangeError (u "contractIndex must fit in uint32"))
  end.

(** ** cli.ts: the arguments of the command line *)

(** An [Error] that the command line throws. *)
Inductive cliError :=
| Error (message : str).

Inductive cliResult (A : Type) :=
| Returned (a : A)
| Thrown (e : cliError).
Arguments Returned {A} a.
Arguments Thrown {A} e.

(** [parseArgs]: a word that starts with a dash is a key; the word after it
    is its value, unless it is missing, empty or starts with a dash itself,
    and then the value is [true]. *)
Fixpoint parseArgsFrom (rest : list str) (out : gmap str str) : gmap str str :=
  match rest with
  | [] => out
  | key :: rest' =>
      if negb (startsWith (u "-") key) then parseArgsFrom rest' out
      else
        match rest' with
        | [] => <[key := u "true"]> out
        | value :: rest'' =>
            if bool_decide (value = []) || startsWith (u "-") value
            then parseArgsFrom rest' (<[key := u "true"]> out)
            else parseArgsFrom rest'' (<[key := value]> out)
        end
  end.
Definition parseArgs (rest : list str) : gmap str str := parseArgsFrom rest ∅.

Definition required (args : gmap str str) (key : str) : cliResult str :=
  match args !! key with
  | Some ((_ :: _) as value) =>
      if str_eqb value (u "true")
      then Thrown (Error (u "Missing required arg: " ++ key))
      else Returned value
  | _ => Thrown (Error (u "Missing required arg: " ++ key))
  end.

(** ** registry.ts: what [generateRegistry] compiles

    The reading and the writing of the files are outside the model; what is
    kept is the choice of the headers among the files of the directory and
    the options that each one is compiled with.  [basename] of [node:path]
    is a parameter. *)

Module GenerateRegistryOptions.
Record t := mk {
  contractDefPath : str;
  contractsDir : str;
  outDir : str;
  sourceRepo : option str;
  sourceRevision : option str;
  generatorVersion : option str
}.
End GenerateRegistryOptions.

(** [s.endsWith(p)] *)
Definition endsWith (p s : str) : bool := startsWith (rev p) (rev s).

(** The names of the contract headers: an upper-case letter, any text on one
    line, and [.h] at the end. *)
Definition contractHeaderRe : regex :=
  seq [RBol; RChar is_upper; star dot; lit ".h"; REol].
Definition dotHRe : regex := seq [lit ".h"; REol].

Definition contractHeaders (files : list str) : list str :=
  filter (fun f => f <> u "qpi.h")
    (filter (fun f => test false contractHeaderRe f = true)
       (filter (fun f => endsWith (u ".h") f = true) files)).

Section Registry.
Variable basename : str -> str.

(** The map from the name of a header to the index of its contract; a later
    definition of the same header replaces an earlier one. *)
Definition headersOf (defs : list ContractDefEntry.t) : gmap str Z :=
  fold_left
    (fun headers def =>
       <[basename (ContractDefEntry.header def) :=
           ContractDefEntry.contractIndex def]> headers)
    defs ∅.

(** The options that one header is compiled with. *)
Definition registryCompileOptions (options : GenerateRegistryOptions.t)
    (headers : gmap str Z) (file : str) : outcome CompileOptions.t :=
  let contractName := replaceFirst false dotHRe [] file in
  let contractIndex := headers !! file in
  match
    match contractIndex with
    | Some contractIndex =>
        match contractKeyHex (Int contractIndex) with
        | Throw e => Throw e
        | Ok key => Ok (Some key)
        end
    | None => Ok None
    end
  with
  | Throw e => Throw e
  | Ok contractPublicKeyHex =>
      Ok (CompileOptions.mk contractName (Int <$> contractIndex)
            contractPublicKeyHex
            (Some (u "contracts/" ++ file))
            (GenerateRegistryOptions.sourceRepo options)
            (GenerateRegistryOptions.sourceRevision options)
            (GenerateRegistryOptions.generatorVersion options)
            (Some false))
  end.
End Registry.
(** ** Induction over type references *)

Section TypeRefInd.
Variable P : QbiTypeRef -> Prop.
Hypothesis Hnodata : forall e, P (TNodata e).
Hypothesis Hprim : forall p, P (TPrim p).
Hypothesis Hbytes : forall n, P (TBytes n).
Hypothesis Hm256i : P TM256i.
Hypothesis Harray : forall n item, P item -> P (TArray n item).
Hypothesis Hstruct :
  forall fields, Forall (fun f => P (snd f)) fields -> P (TStruct fields).

Fixpoint QbiTypeRef_ind (t : QbiTypeRef) : P t :=
  match t with
  | TNodata e => Hnodata e
  | TPrim p => Hprim p
  | TBytes n => Hbytes n
  | TM256i => Hm256i
  | TArray n item => Harray n item (QbiTypeRef_ind item)
  | TStruct fields =>
      Hstruct fields
        ((fix all (fs : list (str * QbiTypeRef))
            : Forall (fun f => P (snd f)) fs :=
            match fs with
            | [] => @List.Forall_nil _ _
            | f :: fs' => @List.Forall_cons _ _ f fs' (QbiTypeRef_ind (snd f)) (all fs')
            end) fields)
  end.
End TypeRefInd.

(** ** Well-formed type references: every length a non-negative integer *)

Fixpoint wellFormed (t : QbiTypeRef) : bool :=
  match t with
  | TBytes n => isUint n
  | TArray n item => isUint n && wellFormed item
  | TStruct fields => forallb (fun f => wellFormed (snd f)) fields
  | _ => true
  end.

(** A length that is negative or not an integer, somewhere in the tree. *)
Inductive containsBadLength : QbiTypeRef -> Prop :=
| bad_bytes n : isUint n = false -> containsBadLength (TBytes n)
| bad_array n item : isUint n = false -> containsBadLength (TArray n item)
| bad_item n item : containsBadLength item -> containsBadLength (TArray n item)
| bad_field fields f :
    In f fields -> containsBadLength (snd f) -> containsBadLength (TStruct fields).

(** ** The layout rule of a struct, in the words of the specification *)

(** The least multiple of [alignment] that is not below [offset]. *)
Definition roundUp (offset alignment : Z) : Z :=
  (offset + alignment - 1) / alignment * alignment.

(** Placing one field: pad the running offset, add the size, keep the
    largest alignment. *)
Definition placeField (acc : Z * Z) (l : CppLayout) : Z * Z :=
  (roundUp (fst acc) (align l) + size l, Z.max (snd acc) (align l)).

Definition structLayoutSpec (ls : list CppLayout) : CppLayout :=
  let acc := fold_left placeField ls (0, 1) in
  let rounded := roundUp (fst acc) (snd acc) in
  mkLayout (if rounded =? 0 then 1 else rounded) (snd acc).

(** ** The order of the entries, in the words of the specification *)

(** A collation to run the compiler with: the order of the code units. *)
Fixpoint codeUnitCompare (a b : str) : Z :=
  match a, b with
  | [], [] => 0
  | [], _ :: _ => -1
  | _ :: _, [] => 1
  | x :: a', y :: b' =>
      if (x <? y)%N then -1
      else if (y <? x)%N then 1
      else codeUnitCompare a' b'
  end.

(** The headers of the examples. *)
Definition newline : str := [10%N].
Definition headerBA : str :=
  u "REGISTER_USER_FUNCTION(B, 2);" ++ newline ++
  u "REGISTER_USER_FUNCTION(A, 1);".
Definition headerSelfReference : str :=
  u "struct Foo_input { Foo_input x; };" ++ newline ++
  u "REGISTER_USER_FUNCTION(Foo, 3);".
Definition headerAliasCycle : str :=
  u "typedef B A;" ++ newline ++ u "typedef A B;" ++ newline ++
  u "struct Foo_input { A x; };" ++ newline ++
  u "REGISTER_USER_FUNCTION(Foo, 3);".
Definition optionsOf (contractName : string) : CompileOptions.t :=
  CompileOptions.mk (u contractName) None None None None None None (Some false).

(** The context of a compilation, as [compileContractHeader] builds it. *)
Definition ctxOf (headerSource : str) : ctx :=
  mkCtx (extractNumericConstants headerSource)
    (extractTypeAliases headerSource) headerSource.
Definition initialState : state := mkState [] ∅.

(** ** The struct body locator, in declarative terms *)

(** The text [p] stands at index [i] of [s], and at no index before. *)
Definition occursAt (p s : str) (i : nat) : Prop :=
  startsWith p (drop i s) = true.
Definition firstOccurrence (p s : str) (i : nat) : Prop :=
  occursAt p s i /\ forall j, (j < i)%nat -> ~ occursAt p s j.
(** The first index at or after [from] where [p] stands. *)
Definition firstOccurrenceFrom (p s : str) (from i : nat) : Prop :=
  (from <= i)%nat /\ occursAt p s i /\
  forall j, (from <= j < i)%nat -> ~ occursAt p s j.

(** Opening braces minus closing braces. *)
Fixpoint braceDepth (w : str) : Z :=
  match w with
  | [] => 0
  | ch :: w' =>
      (if char_is "{" ch then 1 else if char_is "}" ch then -1 else 0)
      + braceDepth w'
  end.

(** The braces of [w] match each other: none closes before it is opened
    and none is left open. *)
Definition bracesMatch (w : str) : Prop :=
  braceDepth w = 0 /\ forall n, 0 <= braceDepth (take n w).

(** ** What a regular expression matches, in declarative terms *)

(** The code unit before the position reached after [w]. *)
Definition prevAfterWord (prev : option char) (w : str) : option char :=
  match last w with
  | Some x => Some x
  | None => prev
  end.

(** Iterations of [P], none of them empty. *)
Inductive starMatches (P : option char -> str -> str -> Prop)
  : option char -> str -> str -> Prop :=
| star_done prev rest : starMatches P prev [] rest
| star_more prev w1 w2 rest :
    w1 <> [] ->
    P prev w1 (w2 ++ rest) ->
    starMatches P (prevAfterWord prev w1) w2 rest ->
    starMatches P prev (w1 ++ w2) rest.

(** [matches ml r prev w rest]: the expression [r] can consume [w] at a
    position that [prev] precedes and that [w ++ rest] follows. *)
Fixpoint matches (ml : bool) (r : regex) (prev : option char) (w rest : str)
  : Prop :=
  match r with
  | REmpty => w = []
  | RChar p => exists x, w = [x] /\ p x = true
  | RSeq r1 r2 =>
      exists w1 w2, w = w1 ++ w2 /\
        matches ml r1 prev w1 (w2 ++ rest) /\
        matches ml r2 (prevAfterWord prev w1) w2 rest
  | RAlt r1 r2 => matches ml r1 prev w rest \/ matches ml r2 prev w rest
  | RStar _ r1 => starMatches (matches ml r1) prev w rest
  | RGroup _ r1 => matches ml r1 prev w rest
  | RBol => w = [] /\ at_bol ml prev = true
  | REol => w = [] /\ at_eol ml rest = true
  | RWordB => w = [] /\ at_word_boundary prev rest = true
  end.

(** Every group [n] of [r] captures a text with the property [G n]. *)
Fixpoint groupsSound (ml : bool) (G : nat -> str -> Prop) (r : regex) : Prop :=
  match r with
  | RSeq r1 r2 | RAlt r1 r2 => groupsSound ml G r1 /\ groupsSound ml G r2
  | RStar _ r1 => groupsSound ml G r1
  | RGroup n r1 =>
      (forall prev w rest, matches ml r1 prev w rest -> G n w) /\
      groupsSound ml G r1
  | _ => True
  end.

(** The group [n] takes part in every match of [r]. *)
Fixpoint setsGroup (n : nat) (r : regex) : bool :=
  match r with
  | RSeq r1 r2 => setsGroup n r1 || setsGroup n r2
  | RAlt r1 r2 => setsGroup n r1 && setsGroup n r2
  | RGroup m r1 => (n =? m)%nat || setsGroup n r1
  | _ => false
  end.

Definition capturesOk (G : nat -> str -> Prop) (c : captures) : Prop :=
  forall n w, capture n c = Some w -> G n w.

(** What the matcher promises about the captures it hands on. *)
Definition capturesStep (G : nat -> str -> Prop) (r : regex)
    (c c' : captures) : Prop :=
  (capturesOk G c -> capturesOk G c') /\
  (forall n, is_Some (capture n c) -> is_Some (capture n c')) /\
  (forall n, setsGroup n r = true -> is_Some (capture n c')).

(** ** Documents that the validator accepts *)

(** No length and no [expectedSize] is negative or fractional, and no field
    name is empty: what [validateTypeRef] checks. *)
Fixpoint validTypeRef (t : QbiTypeRef) : bool :=
  match t with
  | TNodata (Some z) => 0 <=? z
  | TBytes n => isUint n
  | TArray n item => isUint n && validTypeRef item
  | TStruct fields =>
      forallb (fun f => negb (bool_decide (fst f = [])) && validTypeRef (snd f))
        fields
  | _ => true
  end.

(** Every struct in the cache is valid. *)
Definition stateOk (st : state) : Prop :=
  forall name t, structCache st !! name = Some t -> validTypeRef t = true.

(** A resolver that returns valid type references and keeps the cache
    valid. *)
Definition resolverOk (rec : str -> M QbiTypeRef) : Prop :=
  forall raw st t st',
    rec raw st = Some (t, st') -> stateOk st ->
    validTypeRef t = true /\ stateOk st'.

Definition headerOrders : str :=
  u "struct Order { id owner; uint32 price; };" ++ newline ++
  u "struct Get_input { Order o; uint8 flags[3]; };" ++ newline ++
  u "struct Get_output { };" ++ newline ++
  u "REGISTER_USER_FUNCTION(Get, 1);".

(** ** The table of constants, pass by pass *)

(** The name and the expression of a definition that was found. *)
Definition definitionOf (m : matchResult) : str * str :=
  (group 1 (groups m), group 2 (groups m)).

(** A definition, evaluated in the table as it stands. *)
Definition define (table : gmap str Z) (d : str * str) : gmap str Z :=
  match parseNumericExpr (trim (snd d)) table with
  | Some val => <[fst d := val]> table
  | None => table
  end.

(** One pass over definitions in their order. *)
Definition pass (definitions : list (str * str)) (table : gmap str Z)
  : gmap str Z :=
  fold_left define definitions table.

(** The expression names the identifier [x]. *)
Definition mentions (expr x : str) : Prop :=
  exists tokens,
    tokenizeNumericExpr (trim expr) = Some tokens /\ In (TokIdent x) tokens.

Definition headerAB : str := u "#define A 2" ++ newline ++ u "#define B A*3".
Definition headerBA_defines : str :=
  u "#define B A*3" ++ newline ++ u "#define A 2".
Definition headerDefineBeforeConstexpr : str :=
  u "#define B A*3" ++ newline ++ u "constexpr int A = 2;".

(** Every class of [r] lies within [q]. *)
Fixpoint alphabet (q : char -> Prop) (r : regex) : Prop :=
  match r with
  | RChar p => forall x, p x = true -> q x
  | RSeq r1 r2 | RAlt r1 r2 => alphabet q r1 /\ alphabet q r2
  | RStar _ r1 | RGroup _ r1 => alphabet q r1
  | _ => True
  end.

(** The registration that the claim C3 speaks of. *)
Definition registerFoo : str := u "REGISTER_USER_FUNCTION(Foo, 3);".

(** What [compileContractHeader] makes of a registered entry whose structs
    are not in the header. *)
Definition entryFrom (headerSource : str) (r : Registered.t) (e : QbiEntry.t)
  : Prop :=
  QbiEntry.kind e = Registered.kind r /\
  QbiEntry.name e = Registered.name r /\
  QbiEntry.inputType e = Registered.inputType r /\
  (extractStructBody headerSource (Registered.name r ++ u "_input") = None ->
   QbiEntry.input e = TNodata None /\ QbiEntry.inputSize e = Some 1) /\
  (extractStructBody headerSource (Registered.name r ++ u "_output") = None ->
   QbiEntry.output e = TNodata None /\ QbiEntry.outputSize e = Some 1).

Definition headerFooTwice : str :=
  u "// the entry points" ++ newline ++ registerFoo ++ newline ++
  u "REGISTER_USER_PROCEDURE(Foo, 9);".

(** ** Predicates of the proofs *)

Definition alignOk (a : Z) : Prop := a = 1 \/ a = 2 \/ a = 4 \/ a = 8.

(** What the layout of a well-formed type reference looks like. *)
Definition layoutOk (t : QbiTypeRef) (l : CppLayout) : Prop :=
  alignOk (align l) /\ 0 <= size l /\
  (match t with TStruct _ | TNodata _ => 1 <= size l | _ => True end).

(** The soundness of the matcher, for one expression. *)
Definition soundFor {A : Type} (ml : bool) (G : nat -> str -> Prop)
    (r : regex) : Prop :=
  forall (k : @cont A) i prev rest c (a : A),
    rmatch ml r k i prev rest c = Some a ->
    exists w rest' c',
      rest = w ++ rest' /\ matches ml r prev w rest' /\
      k (i + length w)%nat (prevAfterWord prev w) rest' c' = Some a /\
      capturesStep G r c c'.

(** What is known of a match that a search returned. *)
Definition matchOk (ml : bool) (G : nat -> str -> Prop) (r : regex)
    (m : matchResult) : Prop :=
  (exists prev, matches ml r prev (matched m) (after m)) /\
  capturesOk G (groups m) /\
  (forall n, setsGroup n r = true -> is_Some (capture n (groups m))).

(** Expressions without groups. *)
Fixpoint noGroups (r : regex) : bool :=
  match r with
  | RSeq r1 r2 | RAlt r1 r2 => noGroups r1 && noGroups r2
  | RStar _ r1 => noGroups r1
  | RGroup _ _ => false
  | _ => true
  end.

(** A text with a code unit that is not white space. *)
Definition hasInk (w : str) : Prop := Exists (fun c => is_space c = false) w.

(** The names of the registered entries are not empty and their types are
    numbers. *)
Definition registerGroups (n : nat) (w : str) : Prop :=
  match n with
  | 1%nat => w <> []
  | 2%nat => Forall (fun x => is_digit x = true) w
  | _ => True
  end.

(** The field names of [parseStructFields] are not empty. *)
Definition arrayFieldGroups (n : nat) (w : str) : Prop :=
  match n with
  | 2%nat => w <> []
  | _ => True
  end.

Definition scalarFieldGroups (n : nat) (w : str) : Prop :=
  match n with
  | 2%nat => exists prev rest, matches false namesRe prev w rest
  | _ => True
  end.

(** Whatever the first resolver returns, the second returns as well. *)
Definition resolverLe (rec1 rec2 : str -> M QbiTypeRef) : Prop :=
  forall raw st r, rec1 raw st = Some r -> rec2 raw st = Some r.
(** ** More about the layouts *)

(** The sizes of the fields, added up. *)
Definition sumSizes (ls : list CppLayout) : Z :=
  foldr (fun l acc => size l + acc) 0 ls.

(** The same type reference with every field name replaced by [name]. *)
Fixpoint renameFields (name : str) (t : QbiTypeRef) : QbiTypeRef :=
  match t with
  | TArray n item => TArray n (renameFields name item)
  | TStruct fields =>
      TStruct (map (fun f => (name, renameFields name (snd f))) fields)
  | _ => t
  end.

(** The two messages of [assertPositiveInt] in [cppLayoutOf]. *)
Definition lengthMessage (kind : string) : str :=
  u kind ++ u ".length must be a non-negative integer".

(** The kind of the first length that is negative or not an integer, in the
    order of the text of the type reference: the length of an array before
    its item, the fields of a struct in declared order. *)
Fixpoint firstBadLength (t : QbiTypeRef) : option string :=
  match t with
  | TBytes n => if isUint n then None else Some "bytes"%string
  | TArray n item =>
      if isUint n then firstBadLength item else Some "array"%string
  | TStruct fields =>
      (fix first (fs : list (str * QbiTypeRef)) : option string :=
         match fs with
         | [] => None
         | f :: fs' =>
             match firstBadLength (snd f) with
             | Some kind => Some kind
             | None => first fs'
             end
         end) fields
  | _ => None
  end.
(** ** What the validator adds to its errors *)

(** The errors are only added to, and nothing is added exactly when [P]
    holds. *)
Definition extends (P : Prop) (errors result : list str) : Prop :=
  exists new, result = errors ++ new /\ (new = [] <-> P).
(** ** Reading a key back *)

(** The value of a hexadecimal digit in lower case. *)
Definition hexValue (c : char) : Z :=
  if is_digit c then Z.of_N c - 48 else Z.of_N c - 87.

(** The bytes of a text of hexadecimal digits. *)
Fixpoint fromHex (s : str) : list Z :=
  match s with
  | hi :: lo :: s' => 16 * hexValue hi + hexValue lo :: fromHex s'
  | _ => []
  end.

(** The number that bytes stand for, the least significant first. *)
Definition littleEndianValue (bytes : list Z) : Z :=
  foldr (fun b acc => b + 256 * acc) 0 bytes.

Definition is_lower_hex (c : char) : bool :=
  is_digit c || ((97 <=? c) && (c <=? 102))%N.

Definition isByte (b : Z) : Prop := 0 <= b < 256.

(** The index that a key was made of. *)
Definition contractIndexOfKey (key : str) : Z :=
  littleEndianValue (take 8 (fromHex key)).

(** ** The words of the command line *)

(** The word [value] follows the word [key] somewhere in [rest]. *)
Definition follows (key value : str) (rest : list str) : Prop :=
  exists before behind, rest = before ++ key :: value :: behind.
(** ** The entries of [contract_def.h] *)

(** A letter or an underscore, then letters, digits and underscores. *)
Definition isIdentifier (w : str) : Prop :=
  exists x w', w = x :: w' /\ is_ident_start x = true /\
               Forall (fun c => is_word c = true) w'.

(** A file name as [incRe] captures it: not empty, without a double
    quote. *)
Definition isQuoted (w : str) : Prop :=
  w <> [] /\ Forall (fun c => c <> quote) w.

Definition defEntryOk (d : ContractDefEntry.t) : Prop :=
  isIdentifier (ContractDefEntry.name d) /\
  0 <= ContractDefEntry.contractIndex d /\
  isQuoted (ContractDefEntry.header d).

Definition defStateOk (s : DefState.t) : Prop :=
  Forall defEntryOk (DefState.entries s) /\
  (forall i, DefState.currentIndex s = Some i -> 0 <= i) /\
  (forall n, DefState.currentStateType s = Some n -> isIdentifier n) /\
  (forall h, DefState.currentHeader s = Some h -> isQuoted h).

(** The state before the first line. *)
Definition noDefinition : DefState.t := DefState.mk [] None None None.

(** The lines that define the index of a contract. *)
Definition isIndexLine (line : str) : Prop := is_Some (exec false idxRe line).

(** The same state, after other entries. *)
Definition prepend (es : list ContractDefEntry.t) (s : DefState.t) : DefState.t :=
  DefState.mk (es ++ DefState.entries s) (DefState.currentIndex s)
    (DefState.currentStateType s) (DefState.currentHeader s).

(** What the groups of the three expressions capture. *)
Definition idxGroups (n : nat) (w : str) : Prop :=
  n = 2%nat -> Forall (fun x => is_digit x = true) w.
Definition stGroups (n : nat) (w : str) : Prop :=
  n = 1%nat -> isIdentifier w.
Definition incGroups (n : nat) (w : str) : Prop :=
  n = 1%nat -> isQuoted w.

(** The text of the test of the parser in the repository. *)
Definition contractDefTest : str :=
  newline ++ u "#define QX_CONTRACT_INDEX 1" ++ newline ++
  u "#define CONTRACT_INDEX QX_CONTRACT_INDEX" ++ newline ++
  u "#define CONTRACT_STATE_TYPE QX" ++ newline ++
  u "#include " ++ [quote] ++ u "contracts/Qx.h" ++ [quote] ++ newline ++
  newline ++
  u "#define QUTIL_CONTRACT_INDEX 4" ++ newline ++
  u "#define CONTRACT_INDEX QUTIL_CONTRACT_INDEX" ++ newline ++
  u "#define CONTRACT_STATE_TYPE QUTIL" ++ newline ++
  u "#include " ++ [quote] ++ u "contracts/QUtil.h" ++ [quote] ++ newline.
(** ** The operators of the numeric expressions *)

(** The code units of the operators and of the parentheses. *)
Definition opAdd : char := 43%N.
Definition opSub : char := 45%N.
Definition opMul : char := 42%N.
Definition parenOpen : char := 40%N.
Definition parenClose : char := 41%N.

(** The operator stack below an expression that is read at [level]. *)
Definition stackBelow (level : nat) (ops : list char) : Prop :=
  match ops with
  | [] => True
  | top :: _ =>
      match level with
      | 0%nat => top = parenOpen
      | 1%nat => top <> opMul
      | _ => True
      end
  end.

(** The operators that are left on the stack by an expression read at
    [level]. *)
Definition isOperator (op : char) : Prop :=
  op = opAdd \/ op = opSub \/ op = opMul.
Definition pendingAt (level : nat) (pend : list char) : Prop :=
  Forall isOperator pend /\
  ((1 <= level)%nat -> Forall (fun op => op = opMul) pend) /\
  ((2 <= level)%nat -> pend = []).

(** ** What the tokenizer returns *)

Definition tokenOk (t : NumericToken) : Prop :=
  match t with
  | TokNumber n => 0 <= n
  | TokIdent value => isIdentifier value
  | TokOp value => isOperator value
  | TokParen value => value = parenOpen \/ value = parenClose
  end.

(** ** The registrations behind the entries *)

Definition registrationOf (e : QbiEntry.t) : Registered.t :=
  Registered.mk (QbiEntry.kind e) (QbiEntry.name e) (QbiEntry.inputType e).

(** ** The names of the types that are built in *)

Definition builtinNames : list string :=
  ["uint8"; "unsigned char"; "sint8"; "signed char"; "uint16";
   "unsigned short"; "sint16"; "signed short"; "uint32"; "unsigned int";
   "sint32"; "signed int"; "uint64"; "unsigned long long"; "sint64";
   "signed long long"; "long long"; "bool"; "bit"; "id"; "m256i"; "Asset";
   "ProposalSingleVoteDataV1"; "ProposalMultiVoteDataV1";
   "ProposalSummarizedVotingDataV1"; "ProposalDataYesNo"]%string.
(** ** The suffixes of the literals *)

(** The words that [tokenizeNumericExpr] removes. *)
Definition suffixWords : list string := ["ULL"; "LL"; "UL"; "L"; "U"]%string.

(** ** The name of a type *)

(** The text that [parseTypeRef] matches its expressions against: the raw
    type without a leading [const], a trailing ampersand, the white space
    around it and a leading [QPI::]. *)
Definition typeName (rawType : str) : str :=
  replaceFirst false nsRe []
    (trim (replaceFirst false refRe [] (replaceFirst false constRe [] rawType))).

(** What the groups of [arrayRe] capture: no comma and no closing angle
    bracket in the item, no closing angle bracket in the length. *)
Definition arrayGroups (n : nat) (w : str) : Prop :=
  match n with
  | 1%nat => Forall (fun x => char_not ",>" x = true) w
  | 2%nat => Forall (fun x => char_not ">" x = true) w
  | _ => True
  end.

Definition closingAngle : char := 62%N.
(** * The same functions over the numbers of the interpreter

    The definitions above compute with exact integers.  The module [Js]
    embeds the layout calculator, the header extractor and the validator
    a second time, over the numbers that ECMAScript has: the binary64 values
    of IEEE 754, with the rounding to the nearest value (ties to the even
    one), the two infinities and NaN.  Everything that has no number in it
    (the strings, the regular expressions, the struct body locator, the
    aliases) is shared with the definitions above. *)

Module Js.

(** ** binary64

    [Fin m e] is the finite number [m * 2^e].  The representation is
    canonical when [m] is odd, or when [m] and [e] are both [0]: every
    function below returns canonical values.  The two zeros are one value:
    no function of the program tells them apart. *)
Inductive double :=
| Fin (m e : Z)
| Inf (negative : bool)
| NaN.

(** The odd number and the exponent of [p * 2^e]. *)
Fixpoint oddPart (p : positive) (e : Z) : Z * Z :=
  match p with
  | xO p' => oddPart p' (e + 1)
  | _ => (Z.pos p, e)
  end.

(** The canonical representation of [m * 2^e]. *)
Definition finite (m e : Z) : double :=
  match m with
  | 0 => Fin 0 0
  | Z.pos p => let '(m', e') := oddPart p e in Fin m' e'
  | Z.neg p => let '(m', e') := oddPart p e in Fin (- m') e'
  end.

(** The double nearest to the real number [m * 2^e]: 53 bits are kept, or
    fewer when the number is below [2^(-1022)]; a number halfway between two
    doubles goes to the one with the even last bit; a result of [2^1024] or
    more is an infinity. *)
Definition roundDouble (m e : Z) : double :=
  if m =? 0 then Fin 0 0
  else
    let a := Z.abs m in
    let t := Z.max (Z.log2 a + e - 52) (-1074) in
    let s := t - e in
    let '(q, t') :=
      if s <=? 0 then (a, e)
      else
        let q := a / 2 ^ s in
        let r := a mod 2 ^ s in
        let half := 2 ^ (s - 1) in
        (if (half <? r) || ((r =? half) && Z.odd q) then q + 1 else q, t) in
    if q =? 0 then Fin 0 0
    else if 1024 <=? Z.log2 q + t' then Inf (m <? 0)
    else finite (Z.sgn m * q) t'.

(** The double of an integer: a literal of the source, or a number that
    is converted. *)
Definition ofZ (z : Z) : double := roundDouble z 0.

(** [Number(text)] for a text of decimal digits. *)
Definition digitsValue (s : str) : Z := Number s.
Definition Number (s : str) : double := ofZ (digitsValue s).

(** *** Comparisons *)

Definition compareFin (m1 e1 m2 e2 : Z) : comparison :=
  let e := Z.min e1 e2 in
  (m1 * 2 ^ (e1 - e) ?= m2 * 2 ^ (e2 - e)).

(** [x < y] *)
Definition ltb (x y : double) : bool :=
  match x, y with
  | Fin m1 e1, Fin m2 e2 =>
      match compareFin m1 e1 m2 e2 with Lt => true | _ => false end
  | Fin _ _, Inf negative => negb negative
  | Inf negative, Fin _ _ => negative
  | Inf negative1, Inf negative2 => negative1 && negb negative2
  | _, _ => false
  end.

(** [x <= y] *)
Definition leb (x y : double) : bool :=
  match x, y with
  | Fin m1 e1, Fin m2 e2 =>
      match compareFin m1 e1 m2 e2 with Gt => false | _ => true end
  | Fin _ _, Inf negative => negb negative
  | Inf negative, Fin _ _ => negative
  | Inf negative1, Inf negative2 => negative1 || negb negative2
  | _, _ => false
  end.

(** [x === y] *)
Definition eqb (x y : double) : bool :=
  match x, y with
  | Fin m1 e1, Fin m2 e2 =>
      match compareFin m1 e1 m2 e2 with Eq => true | _ => false end
  | Inf negative1, Inf negative2 => Bool.eqb negative1 negative2
  | _, _ => false
  end.

Definition isNaN (x : double) : bool :=
  match x with NaN => true | _ => false end.

(** [Number.isFinite(x)] *)
Definition isFinite (x : double) : bool :=
  match x with Fin _ _ => true | _ => false end.

(** [Number.isInteger(x)] *)
Definition isInteger (x : double) : bool :=
  match x with
  | Fin m e => (0 <=? e) || (m mod 2 ^ (- e) =? 0)
  | _ => false
  end.

(** [Number.isInteger(value) && value >= 0], also [isUint] of validate.ts
    on a number. *)
Definition isUint (value : double) : bool :=
  isInteger value && leb (Fin 0 0) value.

(** A number in a condition: zero and NaN are false. *)
Definition truthy (x : double) : bool :=
  match x with
  | Fin m _ => negb (m =? 0)
  | Inf _ => true
  | NaN => false
  end.

(** The sign of a number that a comparator returned; [sort] takes NaN for
    zero. *)
Definition sign (x : double) : Z :=
  match x with
  | Fin m _ => Z.sgn m
  | Inf negative => if negative then -1 else 1
  | NaN => 0
  end.

(** *** Arithmetic *)

(** [x + y] *)
Definition add (x y : double) : double :=
  match x, y with
  | Fin m1 e1, Fin m2 e2 =>
      let e := Z.min e1 e2 in
      roundDouble (m1 * 2 ^ (e1 - e) + m2 * 2 ^ (e2 - e)) e
  | Fin _ _, Inf negative => Inf negative
  | Inf negative, Fin _ _ => Inf negative
  | Inf negative1, Inf negative2 =>
      if Bool.eqb negative1 negative2 then Inf negative1 else NaN
  | _, _ => NaN
  end.

Definition opp (x : double) : double :=
  match x with
  | Fin m e => Fin (- m) e
  | Inf negative => Inf (negb negative)
  | NaN => NaN
  end.

(** [x - y] *)
Definition sub (x y : double) : double := add x (opp y).

(** [x * y] *)
Definition mul (x y : double) : double :=
  match x, y with
  | Fin m1 e1, Fin m2 e2 => roundDouble (m1 * m2) (e1 + e2)
  | Fin m _, Inf negative =>
      if m =? 0 then NaN else Inf (xorb (m <? 0) negative)
  | Inf negative, Fin m _ =>
      if m =? 0 then NaN else Inf (xorb negative (m <? 0))
  | Inf negative1, Inf negative2 => Inf (xorb negative1 negative2)
  | _, _ => NaN
  end.

(** [x / y].  A quotient that is not exact is computed with more than 54
    bits and a last bit that stands for what is left, which rounds as the
    quotient itself does.  A zero divisor is taken for the positive zero. *)
Definition div (x y : double) : double :=
  match x, y with
  | Fin m1 e1, Fin m2 e2 =>
      if m2 =? 0 then (if m1 =? 0 then NaN else Inf (m1 <? 0))
      else if m1 mod m2 =? 0 then roundDouble (m1 / m2) (e1 - e2)
      else
        let k := Z.max 0 (55 + Z.log2 (Z.abs m2) - Z.log2 (Z.abs m1)) in
        let q := Z.abs m1 * 2 ^ k / Z.abs m2 in
        let r := (Z.abs m1 * 2 ^ k) mod Z.abs m2 in
        let s := Z.sgn m1 * Z.sgn m2 in
        if r =? 0 then roundDouble (s * q) (e1 - e2 - k)
        else roundDouble (s * (2 * q + 1)) (e1 - e2 - k - 1)
  | Fin _ _, Inf _ => Fin 0 0
  | Inf negative, Fin m _ => Inf (xorb negative (m <? 0))
  | _, _ => NaN
  end.

(** [Math.ceil(x)] *)
Definition ceil (x : double) : double :=
  match x with
  | Fin m e => if 0 <=? e then x else finite (- (- m / 2 ^ (- e))) 0
  | _ => x
  end.

(** [Math.max(x, y)] *)
Definition max (x y : double) : double :=
  match x, y with
  | NaN, _ | _, NaN => NaN
  | _, _ => if ltb x y then y else x
  end.

(** ** qbi.ts, with its numbers *)

#[local] Unset Elimination Schemes.
Inductive QbiTypeRef :=
| TNodata (expectedSize : option double)
| TPrim (p : prim)
| TBytes (length : double)
| TM256i
| TArray (length : double) (item : QbiTypeRef)
| TStruct (fields : list (str * QbiTypeRef)).
#[local] Set Elimination Schemes.

Definition QbiStructField : Type := str * QbiTypeRef.

Module QbiEntry.
Record t := mk {
  kind : entryKind;
  name : str;
  inputType : double;
  input : QbiTypeRef;
  output : QbiTypeRef;
  inputSize : option double;
  outputSize : option double
}.
End QbiEntry.

Module QbiContract.
Record t := mk {
  name : str;
  contractIndex : option double;
  contractPublicKeyHex : option str;
  contractId : option str
}.
End QbiContract.

Module QbiFile.
Record t := mk {
  qbiVersion : str;
  contract : QbiContract.t;
  entries : list QbiEntry.t;
  meta : option QbiMeta.t
}.
End QbiFile.

(** ** cpp-layout.ts *)

Record CppLayout := mkLayout { size : double; align : double }.

Definition alignUp (value alignment : double) : double :=
  if leb alignment (ofZ 1) then value
  else mul (ceil (div value alignment)) alignment.

Definition assertPositiveInt (value : double) (label : str) : outcome double :=
  if negb (isFinite value) || negb (isInteger value) || ltb value (ofZ 0)
  then Throw (RangeError (label ++ u " must be a non-negative integer"))
  else Ok value.

Definition primLayout (p : prim) : CppLayout :=
  match p with
  | TBool | U8 | I8 => mkLayout (ofZ 1) (ofZ 1)
  | U16 | I16 => mkLayout (ofZ 2) (ofZ 2)
  | U32 | I32 => mkLayout (ofZ 4) (ofZ 4)
  | U64 | I64 => mkLayout (ofZ 8) (ofZ 8)
  end.

Fixpoint cppLayoutOf (typeRef : QbiTypeRef) : outcome CppLayout :=
  match typeRef with
  | TNodata expectedSize =>
      Ok (mkLayout (max (ofZ 1) (default (ofZ 1) expectedSize)) (ofZ 1))
  | TPrim p => Ok (primLayout p)
  | TBytes length =>
      match assertPositiveInt length (u "bytes.length") with
      | Throw e => Throw e
      | Ok n => Ok (mkLayout n (ofZ 1))
      end
  | TM256i => Ok (mkLayout (ofZ 32) (ofZ 8))
  | TArray length item =>
      match assertPositiveInt length (u "array.length") with
      | Throw e => Throw e
      | Ok length =>
          match cppLayoutOf item with
          | Throw e => Throw e
          | Ok item => Ok (mkLayout (mul (size item) length) (align item))
          end
      end
  | TStruct fields =>
      let fix loop (fs : list (str * QbiTypeRef)) (offset structAlign : double)
          : outcome (double * double) :=
        match fs with
        | [] => Ok (offset, structAlign)
        | field :: fs' =>
            match cppLayoutOf (snd field) with
            | Throw e => Throw e
            | Ok fieldLayout =>
                loop fs'
                  (add (alignUp offset (align fieldLayout)) (size fieldLayout))
                  (max structAlign (align fieldLayout))
            end
        end in
      match loop fields (ofZ 0) (ofZ 1) with
      | Throw e => Throw e
      | Ok (offset, structAlign) =>
          let size := alignUp offset structAlign in
          Ok (mkLayout (if eqb size (ofZ 0) then ofZ 1 else size) structAlign)
      end
  end.

(** The loop of the struct case, as a function of its own. *)
Fixpoint structLoop (fs : list (str * QbiTypeRef)) (offset structAlign : double)
  : outcome (double * double) :=
  match fs with
  | [] => Ok (offset, structAlign)
  | field :: fs' =>
      match cppLayoutOf (snd field) with
      | Throw e => Throw e
      | Ok fieldLayout =>
          structLoop fs'
            (add (alignUp offset (align fieldLayout)) (size fieldLayout))
            (max structAlign (align fieldLayout))
      end
  end.

(** ** validate.ts

    The validator is applied to documents of the type [QbiFile]: every
    property has the type that qbi.ts declares, and a [number] is any
    double.  The tests on the dynamic type of a value ([isObject], [typeof],
    [Array.isArray]) are decided by that type.  The text of a number in a
    message ([Number.prototype.toString]) is a parameter. *)
Section Validate.
Variable numberToString : double -> str.

Fixpoint validateTypeRef (value : QbiTypeRef) (path : str) (errors : list str)
  : list str :=
  match value with
  | TNodata expectedSize =>
      match expectedSize with
      | Some expectedSize =>
          if negb (isUint expectedSize)
          then errors ++ [path ++ u ".expectedSize must be an integer >= 0"]
          else errors
      | None => errors
      end
  | TPrim _ | TM256i => errors
  | TBytes length =>
      if negb (isUint length)
      then errors ++ [path ++ u ".length must be an integer >= 0"]
      else errors
  | TArray length item =>
      let errors :=
        if negb (isUint length)
        then errors ++ [path ++ u ".length must be an integer >= 0"]
        else errors in
      validateTypeRef item (path ++ u ".item") errors
  | TStruct fields =>
      (fix loop (fs : list (str * QbiTypeRef)) (i : nat) (errors : list str)
         : list str :=
         match fs with
         | [] => errors
         | f :: fs' =>
             let fPath := path ++ u ".fields[" ++ showNat i ++ u "]" in
             let errors :=
               match fst f with
               | [] => errors ++ [fPath ++ u ".name must be a non-empty string"]
               | _ :: _ => errors
               end in
             loop fs' (S i) (validateTypeRef (snd f) (fPath ++ u ".typeRef") errors)
         end) fields 0%nat errors
  end.

(** The check of [inputSize] and of [outputSize] in [validateEntry]. *)
Definition validateSize (typeRef : QbiTypeRef) (stored : option double)
    (path : str) (errors : list str) : outcome (list str) :=
  match stored with
  | Some stored =>
      if isUint stored then
        match cppLayoutOf typeRef with
        | Throw e => Throw e
        | Ok l =>
            if negb (eqb (size l) stored)
            then Ok (errors ++ [path ++ u " expected " ++ numberToString (size l)
                                ++ u ", got " ++ numberToString stored])
            else Ok errors
        end
      else Ok (errors ++ [path ++ u " must be an integer >= 0"])
  | None => Ok errors
  end.

Definition validateEntry (value : QbiEntry.t) (path : str) (errors : list str)
  : outcome (list str) :=
  let errors :=
    match QbiEntry.name value with
    | [] => errors ++ [path ++ u ".name must be a non-empty string"]
    | _ :: _ => errors
    end in
  let errors :=
    if negb (isUint (QbiEntry.inputType value))
    then errors ++ [path ++ u ".inputType must be an integer >= 0"]
    else errors in
  let errors := validateTypeRef (QbiEntry.input value) (path ++ u ".input") errors in
  let errors := validateTypeRef (QbiEntry.output value) (path ++ u ".output") errors in
  match validateSize (QbiEntry.input value) (QbiEntry.inputSize value)
          (path ++ u ".inputSize") errors with
  | Throw e => Throw e
  | Ok errors =>
      validateSize (QbiEntry.output value) (QbiEntry.outputSize value)
        (path ++ u ".outputSize") errors
  end.

(** The loop of [validateQbiFile] over the entries. *)
Fixpoint validateEntries (entries : list QbiEntry.t) (i : nat)
    (errors : list str) : outcome (list str) :=
  match entries with
  | [] => Ok errors
  | e :: entries' =>
      match validateEntry e (u "entries[" ++ showNat i ++ u "]") errors with
      | Throw err => Throw err
      | Ok errors => validateEntries entries' (S i) errors
      end
  end.

Definition validateContract (contract : QbiContract.t) (errors : list str)
  : list str :=
  let errors :=
    match QbiContract.name contract with
    | [] => errors ++ [u "contract.name must be a non-empty string"]
    | _ :: _ => errors
    end in
  let errors :=
    match QbiContract.contractIndex contract with
    | Some contractIndex =>
        if negb (isUint contractIndex)
        then errors ++ [u "contract.contractIndex must be an integer >= 0"]
        else errors
    | None => errors
    end in
  match QbiContract.contractPublicKeyHex contract with
  | Some contractPublicKeyHex =>
      if negb (isHex contractPublicKeyHex 64)
      then errors ++ [u "contract.contractPublicKeyHex must be a 32-byte hex string"]
      else errors
  | None => errors
  end.

Definition validateQbiFile (value : QbiFile.t)
  : outcome QbiValidationResult.t :=
  let errors :=
    if str_eqb (QbiFile.qbiVersion value) (u "0.1") then []
    else [u "qbiVersion must be " ++ [34%N] ++ u "0.1" ++ [34%N]] in
  let errors := validateContract (QbiFile.contract value) errors in
  match validateEntries (QbiFile.entries value) 0 errors with
  | Throw e => Throw e
  | Ok [] => Ok (QbiValidationResult.mk true [])
  | Ok ((_ :: _) as errors) => Ok (QbiValidationResult.mk false errors)
  end.
End Validate.

(** ** header-extractor.ts *)

Module CompileOptions.
Record t := mk {
  contractName : str;
  contractIndex : option double;
  contractPublicKeyHex : option str;
  sourcePath : option str;
  sourceRepo : option str;
  sourceRevision : option str;
  generatorVersion : option str;
  includeGeneratedAt : option bool
}.
End CompileOptions.

Definition normalizeNoData (typeRef : QbiTypeRef) (expectedSize : double)
  : QbiTypeRef :=
  match typeRef with
  | TStruct [] => TNodata (Some expectedSize)
  | _ => typeRef
  end.

Module Registered.
Record t := mk { kind : entryKind; name : str; inputType : double }.
End Registered.

Definition registeredOf (kind : entryKind) (m : matchResult) : Registered.t :=
  Registered.mk kind (group 1 (groups m)) (Number (group 2 (groups m))).

Definition extractRegisteredEntries (source : str) : list Registered.t :=
  List.map (registeredOf KFunction) (matchAll false funcRe source) ++
  List.map (registeredOf KProcedure) (matchAll false procRe source).

(** *** Numeric expressions *)

Inductive NumericToken :=
| TokNumber (n : double)
| TokIdent (value : str)
| TokOp (value : char)
| TokParen (value : char).

Fixpoint tokenizeLoop (fuel : nat) (s : str) : option (list NumericToken) :=
  match fuel, s with
  | _, [] => Some []
  | O, _ :: _ => None
  | S fuel', ch :: s' =>
      if char_is " " ch then tokenizeLoop fuel' s'
      else if char_is "()" ch then
        cons (TokParen ch) <$> tokenizeLoop fuel' s'
      else if char_is "+-*" ch then
        cons (TokOp ch) <$> tokenizeLoop fuel' s'
      else if is_digit ch then
        let '(ds, s'') := span is_digit s' in
        cons (TokNumber (Number (ch :: ds))) <$> tokenizeLoop fuel' s''
      else if is_ident_start ch then
        let '(ws, s'') := span is_word s' in
        cons (TokIdent (ch :: ws)) <$> tokenizeLoop fuel' s''
      else None
  end.

Definition tokenizeNumericExpr (expr : str) : option (list NumericToken) :=
  let s := trim (replaceAll false (plus ws) (u " ")
                   (replaceAll false suffixRe [] expr)) in
  if test false unsupportedRe s then None
  else tokenizeLoop (length s) s.

(** An element of the postfix output: a number or an operator. *)
Definition postfixItem : Type := double + char.

(** The operator stacks have their top at the head of the list. *)
Fixpoint popHigher (ops : list char) (p : Z) (output : list postfixItem)
  : list postfixItem * list char :=
  match ops with
  | [] => (output, [])
  | top :: ops' =>
      if char_is "(" top then (output, ops)
      else if p <=? prec top then popHigher ops' p (output ++ [inr top])
      else (output, ops)
  end.

Fixpoint popToParen (ops : list char) (output : list postfixItem)
  : list postfixItem * list char :=
  match ops with
  | [] => (output, [])
  | top :: ops' =>
      if char_is "(" top then (output, ops)
      else popToParen ops' (output ++ [inr top])
  end.

Fixpoint shuntingYard (constants : gmap str double) (tokens : list NumericToken)
    (output : list postfixItem) (ops : list char)
  : option (list postfixItem * list char) :=
  match tokens with
  | [] => Some (output, ops)
  | TokNumber n :: tokens' =>
      shuntingYard constants tokens' (output ++ [inl n]) ops
  | TokIdent value :: tokens' =>
      match constants !! value with
      | None => None
      | Some val => shuntingYard constants tokens' (output ++ [inl val]) ops
      end
  | TokOp value :: tokens' =>
      let '(output', ops') := popHigher ops (prec value) output in
      shuntingYard constants tokens' output' (value :: ops')
  | TokParen value :: tokens' =>
      if char_is "(" value then
        shuntingYard constants tokens' output (value :: ops)
      else
        match popToParen ops output with
        | (_, []) => None
        | (output', _ :: ops') => shuntingYard constants tokens' output' ops'
        end
  end.

Fixpoint flushOps (ops : list char) (output : list postfixItem)
  : option (list postfixItem) :=
  match ops with
  | [] => Some output
  | op :: ops' =>
      if char_is "(" op then None else flushOps ops' (output ++ [inr op])
  end.

(** The evaluation of the postfix output; the stack has its top at the
    head. *)
Fixpoint evalPostfix (output : list postfixItem) (stack : list double)
  : option double :=
  match output with
  | [] => match stack with [v] => Some v | _ => None end
  | inl n :: output' => evalPostfix output' (n :: stack)
  | inr item :: output' =>
      match stack with
      | b :: a :: stack' =>
          if char_is "+" item then evalPostfix output' (add a b :: stack')
          else if char_is "-" item then evalPostfix output' (sub a b :: stack')
          else if char_is "*" item then evalPostfix output' (mul a b :: stack')
          else None
      | _ => None
      end
  end.

Definition parseNumericExpr (expr : str) (constants : gmap str double)
  : option double :=
  tokens ← tokenizeNumericExpr expr;
  '(output, ops) ← shuntingYard constants tokens [] [];
  output ← flushOps ops output;
  evalPostfix output [].

(** The body of both loops of [extractNumericConstants]. *)
Definition defineConstant (map : gmap str double) (m : matchResult)
  : gmap str double :=
  let name := group 1 (groups m) in
  let expr := trim (group 2 (groups m)) in
  match parseNumericExpr expr map with
  | Some val => <[name := val]> map
  | None => map
  end.

Definition extractNumericConstants (source : str) : gmap str double :=
  let map := {[ u "X_MULTIPLIER" := ofZ 1 ]} in
  let map := fold_left defineConstant (matchAll false constexprRe source) map in
  fold_left defineConstant (matchAll true defRe source) map.

(** *** Fields and type references *)

Record ctx := mkCtx {
  constants : gmap str double;
  aliases : gmap str str;
  headerSource : str
}.

(** What a compilation mutates: the list of warnings and the cache of
    resolved structs. *)
Record state := mkState {
  warnings : list str;
  structCache : gmap str QbiTypeRef
}.

(** A computation over the state; [None] when the nesting of calls exceeds
    the depth that is allowed (the call stack is exhausted). *)
Definition M (A : Type) : Type := state -> option (A * state).

Definition ret {A} (a : A) : M A := fun st => Some (a, st).
Definition bind {A B} (m : M A) (f : A -> M B) : M B :=
  fun st => match m st with
            | None => None
            | Some (a, st') => f a st'
            end.
Definition warn (w : str) : M unit :=
  fun st => Some (tt, mkState (warnings st ++ [w]) (structCache st)).
Definition cacheGet (name : str) : M (option QbiTypeRef) :=
  fun st => Some (structCache st !! name, st).
Definition cacheSet (name : str) (t : QbiTypeRef) : M unit :=
  fun st => Some (tt, mkState (warnings st) (<[name := t]> (structCache st))).

Declare Scope js_scope.
Delimit Scope js_scope with js.
Notation "x <- m ;; k" := (bind m (fun x => k))
  (at level 100, m at next level, right associativity) : js_scope.
Notation "m ;;; k" := (bind m (fun _ => k))
  (at level 100, right associativity) : js_scope.

(** [parseLen]: the number of a text of digits, or the constant of that
    name; nothing when it is not an integer (an infinity is not one) or is
    negative. *)
Definition parseLen (token : str) (constants : gmap str double)
  : option double :=
  n ← (if test false (seq [RBol; plus digit; REol]) token
       then Some (Number token) else constants !! token);
  if negb (isInteger n) || ltb n (ofZ 0) then None else Some n.

Section Resolver.
Variable c : ctx.
(** The recursive call of [parseTypeRef], one level further down. *)
Variable parseTypeRef : str -> M QbiTypeRef.

Local Open Scope js_scope.

(** The loop of [parseStructFields] over the statements. *)
Fixpoint fieldsLoop (statements : list str) (fields : list QbiStructField)
  : M (list QbiStructField) :=
  match statements with
  | [] => ret fields
  | stmt :: statements' =>
      if test false bracesRe stmt then fieldsLoop statements' fields
      else if includes (u "(") stmt then fieldsLoop statements' fields
      else if test false nestedTypeRe stmt then fieldsLoop statements' fields
      else if test false directiveRe stmt then fieldsLoop statements' fields
      else
        match exec false arrayFieldRe stmt with
        | Some a =>
            let rawType := trim (group 1 (groups a)) in
            let name := group 2 (groups a) in
            let lenToken := group 3 (groups a) in
            match parseLen lenToken (constants c) with
            | None =>
                warn (u "Could not resolve array length token: " ++ lenToken) ;;;
                fieldsLoop statements' fields
            | Some len =>
                item <- parseTypeRef rawType ;;
                fieldsLoop statements'
                  (fields ++ [(name, TArray len item)])
            end
        | None =>
            match exec false scalarFieldRe stmt with
            | Some m =>
                let rawType := trim (group 1 (groups m)) in
                let rawNames := List.map trim (split 44%N (group 2 (groups m))) in
                typeRef <- parseTypeRef rawType ;;
                fieldsLoop statements'
                  (fields ++ List.map (fun name => (name, typeRef)) rawNames)
            | None =>
                warn (u "Unrecognized field statement: " ++ stmt) ;;;
                fieldsLoop statements' fields
            end
        end
  end.

Definition parseStructFieldsF (body : str) : M QbiTypeRef :=
  fields <- fieldsLoop (statementsOf body) [] ;;
  ret (TStruct fields).
End Resolver.

(** The [switch] of [parseTypeRef] over the type names that are built in. *)
Definition builtinType (noNs : str) : option QbiTypeRef :=
  let named := existsb (fun n => str_eqb noNs (u n)) in
  if named ["uint8"; "unsigned char"]%string then Some (TPrim U8)
  else if named ["sint8"; "signed char"]%string then Some (TPrim I8)
  else if named ["uint16"; "unsigned short"]%string then Some (TPrim U16)
  else if named ["sint16"; "signed short"]%string then Some (TPrim I16)
  else if named ["uint32"; "unsigned int"]%string then Some (TPrim U32)
  else if named ["sint32"; "signed int"]%string then Some (TPrim I32)
  else if named ["uint64"; "unsigned long long"]%string then Some (TPrim U64)
  else if named ["sint64"; "signed long long"; "long long"]%string
    then Some (TPrim I64)
  else if named ["bool"; "bit"]%string then Some (TPrim TBool)
  else if named ["id"; "m256i"]%string then Some TM256i
  else if named ["Asset"]%string then
    Some (TStruct [(u "issuer", TM256i); (u "assetName", TPrim U64)])
  else if named ["ProposalSingleVoteDataV1"]%string then
    Some (TStruct [(u "proposalIndex", TPrim U16);
                   (u "proposalType", TPrim U16);
                   (u "proposalTick", TPrim U32);
                   (u "voteValue", TPrim I64)])
  else if named ["ProposalMultiVoteDataV1"]%string then
    Some (TStruct [(u "proposalIndex", TPrim U16);
                   (u "proposalType", TPrim U16);
                   (u "proposalTick", TPrim U32);
                   (u "voteValues", TArray (ofZ 8) (TPrim I64));
                   (u "voteCounts", TArray (ofZ 8) (TPrim U32))])
  else if named ["ProposalSummarizedVotingDataV1"]%string then
    Some (TStruct [(u "proposalIndex", TPrim U16);
                   (u "optionCount", TPrim U16);
                   (u "proposalTick", TPrim U32);
                   (u "totalVotesAuthorized", TPrim U32);
                   (u "totalVotesCasted", TPrim U32);
                   (u "resultBytes", TBytes (ofZ 32))])
  else if named ["ProposalDataYesNo"]%string then Some (TBytes (ofZ 304))
  else None.

(** [Math.max(1, Math.ceil(bits / 64))] *)
Definition bitWords (bits : double) : double :=
  max (ofZ 1) (ceil (div bits (ofZ 64))).

(** The names [sint8_N] to [uint64_N], [id_N] and [bit_N]: each gives its
    array when the expression matches and the number is an integer that is
    not negative; the number of a long text of digits is an infinity, and
    then the name is resolved like any other. *)
Definition intAlias (noNs : str) : option QbiTypeRef :=
  aliasMatch ← exec false intAliasRe noNs;
  let signedness := group 1 (groups aliasMatch) in
  let width := group 2 (groups aliasMatch) in
  let len := Number (group 3 (groups aliasMatch)) in
  if isInteger len && leb (ofZ 0) len
  then Some (TArray len (TPrim (intPrim signedness width)))
  else None.

Definition idAlias (noNs : str) : option QbiTypeRef :=
  idAlias ← exec false idAliasRe noNs;
  let len := Number (group 1 (groups idAlias)) in
  if isInteger len && leb (ofZ 0) len
  then Some (TArray len TM256i)
  else None.

Definition bitAlias (noNs : str) : option QbiTypeRef :=
  bitAlias ← exec false bitAliasRe noNs;
  let bits := Number (group 1 (groups bitAlias)) in
  if isInteger bits && leb (ofZ 0) bits
  then Some (TArray (bitWords bits) (TPrim U64))
  else None.

Section ParseTypeRef.
Variable c : ctx.
(** The recursive call of [parseTypeRef], one level further down. *)
Variable parseTypeRef : str -> M QbiTypeRef.

Local Open Scope js_scope.

(** The structs of the header, behind the cache, and the unknown type. *)
Definition resolveStruct (noNs : str) : M QbiTypeRef :=
  cached <- cacheGet noNs ;;
  match cached with
  | Some cached => ret cached
  | None =>
      match extractStructBody (headerSource c) noNs with
      | Some ((_ :: _) as body) =>
          ref <- parseStructFieldsF c parseTypeRef body ;;
          cacheSet noNs ref ;;;
          ret ref
      | _ =>
          warn (u "Unknown type: " ++ noNs ++ u " (treated as bytes[0])") ;;;
          ret (TBytes (ofZ 0))
      end
  end.

(** The end of [parseTypeRef]: the aliases first. *)
Definition resolveNamed (noNs : str) : M QbiTypeRef :=
  match aliases c !! noNs with
  | Some ((_ :: _) as aliased) =>
      if negb (str_eqb aliased noNs) then parseTypeRef aliased
      else resolveStruct noNs
  | _ => resolveStruct noNs
  end.

Definition parseTypeRefF (rawType : str) : M QbiTypeRef :=
  let t := trim (replaceFirst false refRe []
                   (replaceFirst false constRe [] rawType)) in
  let noNs := replaceFirst false nsRe [] t in
  match exec false arrayRe noNs with
  | Some array =>
      let itemType := trim (group 1 (groups array)) in
      let lenToken := trim (group 2 (groups array)) in
      match parseLen lenToken (constants c) with
      | None =>
          warn (u "Could not resolve Array length token: " ++ lenToken) ;;;
          ret (TBytes (ofZ 0))
      | Some len =>
          item <- parseTypeRef itemType ;;
          ret (TArray len item)
      end
  | None =>
  match exec false bitArrayRe noNs with
  | Some bitArray =>
      let lenToken := trim (group 1 (groups bitArray)) in
      match parseLen lenToken (constants c) with
      | None =>
          warn (u "Could not resolve BitArray length token: " ++ lenToken) ;;;
          ret (TBytes (ofZ 0))
      | Some bits => ret (TArray (bitWords bits) (TPrim U64))
      end
  | None =>
  match intAlias noNs with
  | Some array => ret array
  | None =>
  match idAlias noNs with
  | Some array => ret array
  | None =>
  match bitAlias noNs with
  | Some array => ret array
  | None =>
  match builtinType noNs with
  | Some t => ret t
  | None =>
  match exec false proposalDataV1Re noNs with
  | Some _ => ret (TBytes (ofZ 328))
  | None => resolveNamed noNs
  end end end end end end end.
End ParseTypeRef.

(** [parseTypeRef] and [parseStructFields] call each other; [depth] bounds
    the nesting of the calls of [parseTypeRef]. *)
Fixpoint parseTypeRef (depth : nat) (c : ctx) (rawType : str) : M QbiTypeRef :=
  match depth with
  | O => fun _ => None
  | S depth' => parseTypeRefF c (parseTypeRef depth' c) rawType
  end.

Definition parseStructFields (depth : nat) (c : ctx) (body : str)
  : M QbiTypeRef :=
  parseStructFieldsF c (parseTypeRef depth c) body.

Section Compile.
(** [String.prototype.localeCompare] is the collation of the host; it is
    a parameter of the compilation. *)
Variable localeCompare : str -> str -> Z.
(** [new Date().toISOString()] at the time of the call. *)
Variable now : str.

(** The comparator given to [sort]: the difference of the two [inputType],
    or the collation of the names when the difference is zero or NaN. *)
Definition compareEntries (a b : QbiEntry.t) : double :=
  let difference := sub (QbiEntry.inputType a) (QbiEntry.inputType b) in
  if truthy difference then difference
  else ofZ (localeCompare (QbiEntry.name a) (QbiEntry.name b)).

(** One side of an entry: the struct of that name, or no data. *)
Definition sideTypeRef (depth : nat) (c : ctx) (structName : str)
  : M QbiTypeRef :=
  match extractStructBody (headerSource c) structName with
  | Some ((_ :: _) as body) => parseStructFields depth c body
  | _ => ret (TNodata None)
  end.

(** The loop of [compileContractHeader] over the registered entries. *)
Fixpoint compileEntries (depth : nat) (c : ctx)
    (entries : list Registered.t) (compiled : list QbiEntry.t) (st : state)
  : option (outcome (list QbiEntry.t * state)) :=
  match entries with
  | [] => Some (Ok (compiled, st))
  | entry :: entries' =>
      let inputStructName := Registered.name entry ++ u "_input" in
      let outputStructName := Registered.name entry ++ u "_output" in
      match sideTypeRef depth c inputStructName st with
      | None => None
      | Some (inputTypeRef, st) =>
          match sideTypeRef depth c outputStructName st with
          | None => None
          | Some (outputTypeRef, st) =>
              match cppLayoutOf inputTypeRef with
              | Throw e => Some (Throw e)
              | Ok inputLayout =>
                  match cppLayoutOf outputTypeRef with
                  | Throw e => Some (Throw e)
                  | Ok outputLayout =>
                      compileEntries depth c entries'
                        (compiled ++
                           [QbiEntry.mk (Registered.kind entry)
                              (Registered.name entry)
                              (Registered.inputType entry)
                              (normalizeNoData inputTypeRef (size inputLayout))
                              (normalizeNoData outputTypeRef (size outputLayout))
                              (Some (size inputLayout))
                              (Some (size outputLayout))])
                        st
                  end
              end
          end
      end
  end.

(** [compileContractHeader]; [None] when the resolution of the types nests
    deeper than [depth] calls. *)
Definition compileContractHeader (depth : nat) (headerSource : str)
    (options : CompileOptions.t) : option (outcome QbiFile.t) :=
  let constants := extractNumericConstants headerSource in
  let aliases := extractTypeAliases headerSource in
  let entries := extractRegisteredEntries headerSource in
  match compileEntries depth (mkCtx constants aliases headerSource)
          entries [] (mkState [] ∅) with
  | None => None
  | Some (Throw e) => Some (Throw e)
  | Some (Ok (compiled, st)) =>
      Some (Ok (QbiFile.mk (u "0.1")
        (QbiContract.mk (CompileOptions.contractName options)
           (CompileOptions.contractIndex options)
           (CompileOptions.contractPublicKeyHex options)
           None)
        (sort (fun a b => sign (compareEntries a b)) compiled)
        (Some (QbiMeta.mk (CompileOptions.sourcePath options)
           (CompileOptions.sourceRepo options)
           (CompileOptions.sourceRevision options)
           (match CompileOptions.includeGeneratedAt options with
            | Some false => None
            | _ => Some now
            end)
           (Some (u "qbi (header-extractor)"))
           (CompileOptions.generatorVersion options)
           (match warnings st with
            | [] => None
            | _ :: _ => Some (warnings st)
            end)))))
  end.
End Compile.

(** ** Induction over type references *)

Section TypeRefInd.
Variable P : QbiTypeRef -> Prop.
Hypothesis Hnodata : forall e, P (TNodata e).
Hypothesis Hprim : forall p, P (TPrim p).
Hypothesis Hbytes : forall n, P (TBytes n).
Hypothesis Hm256i : P TM256i.
Hypothesis Harray : forall n item, P item -> P (TArray n item).
Hypothesis Hstruct :
  forall fields, Forall (fun f => P (snd f)) fields -> P (TStruct fields).

Fixpoint QbiTypeRef_ind (t : QbiTypeRef) : P t :=
  match t with
  | TNodata e => Hnodata e
  | TPrim p => Hprim p
  | TBytes n => Hbytes n
  | TM256i => Hm256i
  | TArray n item => Harray n item (QbiTypeRef_ind item)
  | TStruct fields =>
      Hstruct fields
        ((fix all (fs : list (str * QbiTypeRef))
            : Forall (fun f => P (snd f)) fs :=
            match fs with
            | [] => @List.Forall_nil _ _
            | f :: fs' => @List.Forall_cons _ _ f fs' (QbiTypeRef_ind (snd f)) (all fs')
            end) fields)
  end.
End TypeRefInd.

(** ** Doubles *)

(** The representation stands for a double: it is canonical, the odd number
    has at most 53 bits, the exponent is not below that of the least
    double and the number is below [2^1024]. *)
Definition isDouble (x : double) : bool :=
  match x with
  | Fin m e =>
      ((m =? 0) && (e =? 0)) ||
      (Z.odd m && (Z.abs m <? 2 ^ 53) && (-1074 <=? e) &&
       (Z.log2 (Z.abs m) + e <? 1024))
  | _ => true
  end.

(** A natural number. *)
Definition isNatural (x : double) : bool :=
  match x with
  | Fin m e => (0 <=? m) && (0 <=? e)
  | _ => false
  end.

(** What a size can be: a natural number, or what the overflow of the
    doubles leaves of one: the positive infinity, or NaN (the product of an
    infinity and zero). *)
Definition sizeClass (x : double) : Prop :=
  isNatural x = true \/ x = Inf false \/ x = NaN.

(** What the number of a text of digits can be: a natural number, or the
    positive infinity when the text is long. *)
Definition numberClass (x : double) : Prop :=
  isNatural x = true \/ x = Inf false.

Definition alignOk (a : double) : Prop :=
  a = ofZ 1 \/ a = ofZ 2 \/ a = ofZ 4 \/ a = ofZ 8.

(** ** Well-formed type references *)

(** In the words of the claim: every length of [bytes] and of [array] is
    an integer that is not negative. *)
Fixpoint lengthsOk (t : QbiTypeRef) : bool :=
  match t with
  | TBytes n => isDouble n && isUint n
  | TArray n item => isDouble n && isUint n && lengthsOk item
  | TStruct fields => forallb (fun f => lengthsOk (snd f)) fields
  | _ => true
  end.

(** And every [expectedSize] that is present is an integer. *)
Fixpoint wellFormed (t : QbiTypeRef) : bool :=
  match t with
  | TNodata (Some expectedSize) => isDouble expectedSize && isInteger expectedSize
  | TBytes n => isDouble n && isUint n
  | TArray n item => isDouble n && isUint n && wellFormed item
  | TStruct fields => forallb (fun f => wellFormed (snd f)) fields
  | _ => true
  end.

(** What the layout of a well-formed type reference looks like. *)
Definition layoutOk (t : QbiTypeRef) (l : CppLayout) : Prop :=
  alignOk (align l) /\ sizeClass (size l) /\
  match t with
  | TStruct _ | TNodata _ => size l = NaN \/ leb (ofZ 1) (size l) = true
  | _ => True
  end.

(** A length of [2^1000]. *)
Definition hugeLength : double := Fin 1 1000.

(** ** Documents that the validator accepts *)

(** No length and no [expectedSize] is negative, fractional or infinite, and
    no field name is empty: what [validateTypeRef] checks. *)
Fixpoint validTypeRef (t : QbiTypeRef) : bool :=
  match t with
  | TNodata (Some expectedSize) => isDouble expectedSize && isUint expectedSize
  | TBytes n => isDouble n && isUint n
  | TArray n item => isDouble n && isUint n && validTypeRef item
  | TStruct fields =>
      forallb (fun f => negb (bool_decide (fst f = [])) && validTypeRef (snd f))
        fields
  | _ => true
  end.

Definition fieldOk (f : QbiStructField) : Prop :=
  fst f <> [] /\ validTypeRef (snd f) = true.

(** The stored size of one side of an entry is the size of its layout. *)
Definition sizeStored (typeRef : QbiTypeRef) (stored : option double) : Prop :=
  exists l, cppLayoutOf typeRef = Ok l /\ stored = Some (size l).

Definition entryOk (e : QbiEntry.t) : Prop :=
  QbiEntry.name e <> [] /\ numberClass (QbiEntry.inputType e) /\
  validTypeRef (QbiEntry.input e) = true /\
  validTypeRef (QbiEntry.output e) = true /\
  sizeStored (QbiEntry.input e) (QbiEntry.inputSize e) /\
  sizeStored (QbiEntry.output e) (QbiEntry.outputSize e).

Definition registeredOk (r : Registered.t) : Prop :=
  Registered.name r <> [] /\ numberClass (Registered.inputType r).

(** No number of the entry is an infinity or NaN. *)
Definition entryFinite (e : QbiEntry.t) : Prop :=
  isFinite (QbiEntry.inputType e) = true /\
  (forall s, QbiEntry.inputSize e = Some s -> isFinite s = true) /\
  (forall s, QbiEntry.outputSize e = Some s -> isFinite s = true).

(** ** The order of the entries *)

(** By [inputType] ascending, then by name ascending in the collation. *)
Definition entryLe (localeCompare : str -> str -> Z) (a b : QbiEntry.t) : Prop :=
  ltb (QbiEntry.inputType a) (QbiEntry.inputType b) = true \/
  (eqb (QbiEntry.inputType a) (QbiEntry.inputType b) = true /\
   localeCompare (QbiEntry.name a) (QbiEntry.name b) <= 0).

(** The place of a natural number or of the infinity in the order of the
    numbers: the infinity comes after every natural number. *)
Definition orderKey (x : double) : Z * Z :=
  match x with
  | Fin m e => (0, m * 2 ^ e)
  | _ => (1, 0)
  end.

Definition keyLt (p q : Z * Z) : Prop :=
  fst p < fst q \/ (fst p = fst q /\ snd p < snd q).

(** A collation of the kind that the host has: the names are compared
    letter by letter in the order of the alphabet, whatever the case of the
    letters, with the underscore before the digits and the digits before
    the letters; of two names that differ in case only, the one with the
    lower-case letter at the first difference comes first. *)
Definition collationWeight (c : char) : N :=
  if is_underscore c then 0
  else if is_digit c then c - 47
  else if is_lower c then c - 86
  else if is_upper c then c - 54
  else c + 100.
Definition caseWeight (c : char) : N := if is_upper c then 1 else 0.
Fixpoint compareBy (weight : char -> N) (a b : str) : Z :=
  match a, b with
  | [], [] => 0
  | [], _ :: _ => -1
  | _ :: _, [] => 1
  | x :: a', y :: b' =>
      if (weight x <? weight y)%N then -1
      else if (weight y <? weight x)%N then 1
      else compareBy weight a' b'
  end.
Definition alphabeticCompare (a b : str) : Z :=
  if compareBy collationWeight a b =? 0 then compareBy caseWeight a b
  else compareBy collationWeight a b.

(** Two registrations of the same [inputType], [B] before [a]. *)
Definition headerBa : str :=
  u "REGISTER_USER_FUNCTION(B, 1);" ++ newline ++
  u "REGISTER_USER_FUNCTION(a, 1);".

Definition optionsOf (contractName : string) : CompileOptions.t :=
  CompileOptions.mk (u contractName) None None None None None None (Some false).

(** Every constant of the table is a double. *)
Definition constantsOk (constants : gmap str double) : Prop :=
  forall name x, constants !! name = Some x -> isDouble x = true.

(** The numbers of a token and of an element of the postfix output are
    doubles. *)
Definition tokenOk (t : NumericToken) : Prop :=
  match t with TokNumber n => isDouble n = true | _ => True end.
Definition itemOk (item : postfixItem) : Prop :=
  match item with inl n => isDouble n = true | inr _ => True end.

(** Every struct in the cache is valid. *)
Definition stateOk (st : state) : Prop :=
  forall name t, structCache st !! name = Some t -> validTypeRef t = true.

(** A resolver that returns valid type references and keeps the cache
    valid. *)
Definition resolverOk (rec : str -> M QbiTypeRef) : Prop :=
  forall raw st t st',
    rec raw st = Some (t, st') -> stateOk st ->
    validTypeRef t = true /\ stateOk st'.

(** The options that the claim C2 speaks of. *)
Definition optionsOk (options : CompileOptions.t) : Prop :=
  CompileOptions.contractName options <> [] /\
  (forall n, CompileOptions.contractIndex options = Some n -> isUint n = true) /\
  (forall k, CompileOptions.contractPublicKeyHex options = Some k ->
     length k = 64%nat /\ Forall (fun c => is_hex c = true) k).

Definition initialState : state := mkState [] ∅.

(** *** What the validator accepts, and what it throws on *)

(** Every length is an integer that is not negative: what
    [assertPositiveInt] checks. *)
Fixpoint lengthsAccepted (t : QbiTypeRef) : bool :=
  match t with
  | TBytes n => isUint n
  | TArray n item => isUint n && lengthsAccepted item
  | TStruct fields => forallb (fun f => lengthsAccepted (snd f)) fields
  | _ => true
  end.

(** A length that is negative, fractional, infinite or NaN, somewhere in
    the tree. *)
Inductive containsBadLength : QbiTypeRef -> Prop :=
| bad_bytes n : isUint n = false -> containsBadLength (TBytes n)
| bad_array n item : isUint n = false -> containsBadLength (TArray n item)
| bad_item n item : containsBadLength item -> containsBadLength (TArray n item)
| bad_field fields f :
    In f fields -> containsBadLength (snd f) -> containsBadLength (TStruct fields).

(** Every length and every [expectedSize] is an integer that is not
    negative, and no field name is empty: what [validateTypeRef] checks. *)
Fixpoint typeRefAccepted (t : QbiTypeRef) : bool :=
  match t with
  | TNodata (Some expectedSize) => isUint expectedSize
  | TBytes n => isUint n
  | TArray n item => isUint n && typeRefAccepted item
  | TStruct fields =>
      forallb (fun f => negb (bool_decide (fst f = [])) && typeRefAccepted (snd f))
        fields
  | _ => true
  end.

(** A stored size that the validator accepts: none, or an integer that is
    not negative and is the size of the layout. *)
Definition sizeAccepted (typeRef : QbiTypeRef) (stored : option double) : Prop :=
  match stored with
  | None => True
  | Some s =>
      isUint s = true /\
      exists l, cppLayoutOf typeRef = Ok l /\ eqb (size l) s = true
  end.

Definition entryAccepted (e : QbiEntry.t) : Prop :=
  QbiEntry.name e <> [] /\ isUint (QbiEntry.inputType e) = true /\
  typeRefAccepted (QbiEntry.input e) = true /\
  typeRefAccepted (QbiEntry.output e) = true /\
  sizeAccepted (QbiEntry.input e) (QbiEntry.inputSize e) /\
  sizeAccepted (QbiEntry.output e) (QbiEntry.outputSize e).

Definition contractAccepted (c : QbiContract.t) : Prop :=
  QbiContract.name c <> [] /\
  (forall n, QbiContract.contractIndex c = Some n -> isUint n = true) /\
  (forall k, QbiContract.contractPublicKeyHex c = Some k ->
     length k = 64%nat /\ Forall (fun x => is_hex x = true) k).

Definition documentAccepted (d : QbiFile.t) : Prop :=
  QbiFile.qbiVersion d = u "0.1" /\
  contractAccepted (QbiFile.contract d) /\
  Forall entryAccepted (QbiFile.entries d).

(** A stored size that is an integer and not negative, beside a type
    reference with a length that the layout calculator rejects. *)
Definition sizeThrows (typeRef : QbiTypeRef) (stored : option double) : Prop :=
  exists s, stored = Some s /\ isUint s = true /\ containsBadLength typeRef.

Definition entryThrows (e : QbiEntry.t) : Prop :=
  sizeThrows (QbiEntry.input e) (QbiEntry.inputSize e) \/
  sizeThrows (QbiEntry.output e) (QbiEntry.outputSize e).

Definition optionsWithKey : CompileOptions.t :=
  CompileOptions.mk (u "QX") (Some (ofZ 1))
    (Some (u "0100000000000000000000000000000000000000000000000000000000000000"))
    None None None None (Some false).

(** A registration whose [inputType] has 310 digits. *)
Definition headerLongInputType : str :=
  u "REGISTER_USER_FUNCTION(Foo, 1" ++ replicate 309 48%N ++ u ");".

(** The text of a natural number below [10^21], which is its decimal
    digits; the examples print no other number. *)
Definition digitsOf (x : double) : str :=
  match x with
  | Fin m e => showZ (m * 2 ^ e)
  | _ => []
  end.

(** Two and a half. *)
Definition twoAndHalf : double := Fin 5 (-1).

(** ** Arithmetic expressions and their tokens *)

Inductive arith :=
| ENum (n : double)
| EVar (x : str)
| EAdd (a b : arith)
| ESub (a b : arith)
| EMul (a b : arith)
| EParen (a : arith).

(** The value of an expression, in the arithmetic of the doubles; none when
    a name has no constant. *)
Fixpoint evalExpr (constants : gmap str double) (e : arith) : option double :=
  match e with
  | ENum n => Some n
  | EVar x => constants !! x
  | EAdd a b => x ← evalExpr constants a; y ← evalExpr constants b; Some (add x y)
  | ESub a b => x ← evalExpr constants a; y ← evalExpr constants b; Some (sub x y)
  | EMul a b => x ← evalExpr constants a; y ← evalExpr constants b; Some (mul x y)
  | EParen a => evalExpr constants a
  end.

Definition parenthesised (needed : bool) (tokens : list NumericToken)
  : list NumericToken :=
  if needed then [TokParen parenOpen] ++ tokens ++ [TokParen parenClose]
  else tokens.

(** The tokens of an expression in the usual notation: the operators
    associate to the left and the product binds tighter than the sum and
    the difference, so an operand is put in parentheses only where it would
    be read otherwise.  [level] is 0 where a sum may stand, 1 where a
    product may stand and 2 where only an operand may stand. *)
Fixpoint tokensOf (level : nat) (e : arith) : list NumericToken :=
  match e with
  | ENum n => [TokNumber n]
  | EVar x => [TokIdent x]
  | EAdd a b =>
      parenthesised (0 <? level)%nat
        (tokensOf 0 a ++ [TokOp opAdd] ++ tokensOf 1 b)
  | ESub a b =>
      parenthesised (0 <? level)%nat
        (tokensOf 0 a ++ [TokOp opSub] ++ tokensOf 1 b)
  | EMul a b =>
      parenthesised (1 <? level)%nat
        (tokensOf 1 a ++ [TokOp opMul] ++ tokensOf 2 b)
  | EParen a => parenthesised true (tokensOf 0 a)
  end.

(** The expression in postfix notation, the names replaced by their
    constants. *)
Fixpoint postfixOf (constants : gmap str double) (e : arith)
  : list postfixItem :=
  match e with
  | ENum n => [inl n]
  | EVar x => [inl (default (ofZ 0) (constants !! x))]
  | EAdd a b => postfixOf constants a ++ postfixOf constants b ++ [inr opAdd]
  | ESub a b => postfixOf constants a ++ postfixOf constants b ++ [inr opSub]
  | EMul a b => postfixOf constants a ++ postfixOf constants b ++ [inr opMul]
  | EParen a => postfixOf constants a
  end.

(** [parseNumericExpr] after the tokens are made. *)
Definition evalTokens (constants : gmap str double)
    (tokens : list NumericToken) : option double :=
  '(output, ops) ← shuntingYard constants tokens [] [];
  output ← flushOps ops output;
  evalPostfix output [].

(** The state of the loop after the tokens of an expression. *)
Definition readsAs (constants : gmap str double) (level : nat) (e : arith)
  : Prop :=
  forall rest output ops,
    stackBelow level ops ->
    exists output' pend,
      shuntingYard constants (tokensOf level e ++ rest) output ops
      = shuntingYard constants rest output' (pend ++ ops) /\
      output' ++ map inr pend = output ++ postfixOf constants e /\
      pendingAt level pend.

(** ** The two sides of an entry *)

(** What [compileContractHeader] makes of the struct of one side: no data
    without [expectedSize] when the locator finds no body or an empty one
    (no struct of that name, no brace after the name, a brace that is not
    closed, or a pair of braces with nothing between them); and for a body that is not empty, no data
    with [expectedSize] 1 when no field is read from it, or a struct with
    a field.  The stored size is the size of the layout of what is
    stored. *)
Definition sideOf (headerSource structName : str) (t : QbiTypeRef)
    (stored : option double) : Prop :=
  match extractStructBody headerSource structName with
  | Some (_ :: _) =>
      t = TNodata (Some (ofZ 1)) \/ exists f fields, t = TStruct (f :: fields)
  | _ => t = TNodata None
  end /\
  exists l, cppLayoutOf t = Ok l /\ stored = Some (size l).

Definition entryShape (headerSource : str) (e : QbiEntry.t) : Prop :=
  sideOf headerSource (QbiEntry.name e ++ u "_input")
    (QbiEntry.input e) (QbiEntry.inputSize e) /\
  sideOf headerSource (QbiEntry.name e ++ u "_output")
    (QbiEntry.output e) (QbiEntry.outputSize e).

(** A header with a struct that has an empty pair of braces. *)
Definition headerEmptyBraces : str :=
  u "struct Foo_input {};" ++ newline ++
  u "struct Foo_output { };" ++ newline ++
  u "REGISTER_USER_FUNCTION(Foo, 3);".

(** ** The type that a name stands for

    [parseTypeRef] keeps the structs that it has resolved in a cache.  What
    it returns for a name does not depend on what is cached; [typeValue] is
    that result, computed without the cache: by the code of [parseTypeRef]
    itself, started on the initial state, whose calls of itself do not
    touch the state. *)

(** A resolver that does not touch the state. *)
Definition lift (v : str -> option QbiTypeRef) (rawType : str) : M QbiTypeRef :=
  fun st => match v rawType with
            | Some t => Some (t, st)
            | None => None
            end.

Fixpoint typeValue (depth : nat) (c : ctx) (rawType : str)
  : option QbiTypeRef :=
  match depth with
  | O => None
  | S depth' =>
      fst <$> parseTypeRefF c (lift (typeValue depth' c)) rawType initialState
  end.

Definition structValue (depth : nat) (c : ctx) (body : str)
  : option QbiTypeRef :=
  fst <$> parseStructFieldsF c (lift (typeValue depth c)) body initialState.

(** Every struct of the cache is the value of its body. *)
Definition cacheOk (c : ctx) (st : state) : Prop :=
  forall noNs t,
    structCache st !! noNs = Some t ->
    exists depth ch body,
      extractStructBody (headerSource c) noNs = Some (ch :: body) /\
      structValue depth c (ch :: body) = Some t.

(** The type of one side of an entry. *)
Definition sideValue (c : ctx) (structName : str) (t : QbiTypeRef) : Prop :=
  match extractStructBody (headerSource c) structName with
  | Some ((_ :: _) as body) => exists depth, structValue depth c body = Some t
  | _ => t = TNodata None
  end.

(** The entry of a registration. *)
Definition entryFor (c : ctx) (r : Registered.t) (e : QbiEntry.t) : Prop :=
  exists inputTypeRef outputTypeRef inputLayout outputLayout,
    sideValue c (Registered.name r ++ u "_input") inputTypeRef /\
    sideValue c (Registered.name r ++ u "_output") outputTypeRef /\
    cppLayoutOf inputTypeRef = Ok inputLayout /\
    cppLayoutOf outputTypeRef = Ok outputLayout /\
    e = QbiEntry.mk (Registered.kind r) (Registered.name r)
          (Registered.inputType r)
          (normalizeNoData inputTypeRef (size inputLayout))
          (normalizeNoData outputTypeRef (size outputLayout))
          (Some (size inputLayout)) (Some (size outputLayout)).

(** Whatever the first resolver returns, the second returns as well. *)
Definition resolverLe (rec1 rec2 : str -> M QbiTypeRef) : Prop :=
  forall raw st r, rec1 raw st = Some r -> rec2 raw st = Some r.

(** Two contexts with the same constants, the same aliases and the same
    body for every struct name. *)
Definition sameContext (c1 c2 : ctx) : Prop :=
  constants c1 = constants c2 /\ aliases c1 = aliases c2 /\
  forall structName,
    extractStructBody (headerSource c1) structName
    = extractStructBody (headerSource c2) structName.

(** Two header texts that define the same constants, the same aliases and
    the same structs: they may differ in their registrations. *)
Definition sameDefinitions (headerSource1 headerSource2 : str) : Prop :=
  extractNumericConstants headerSource1 = extractNumericConstants headerSource2 /\
  extractTypeAliases headerSource1 = extractTypeAliases headerSource2 /\
  forall structName,
    extractStructBody headerSource1 structName
    = extractStructBody headerSource2 structName.

(** No two entries have the same place in the order. *)
Definition tieFree (localeCompare : str -> str -> Z)
    (entries : list QbiEntry.t) : Prop :=
  forall a b, In a entries -> In b entries ->
    entryLe localeCompare a b -> entryLe localeCompare b a -> a = b.

(** The registrations of [headerBA], the other way round. *)
Definition headerAThenB : str :=
  u "REGISTER_USER_FUNCTION(A, 1);" ++ newline ++
  u "REGISTER_USER_FUNCTION(B, 2);".

(** ** contract-def.ts, with its numbers *)

Module ContractDefEntry.
Record t := mk { name : str; contractIndex : double; header : str }.
End ContractDefEntry.

Module DefState.
Record t := mk {
  entries : list ContractDefEntry.t;
  currentIndex : option double;
  currentStateType : option str;
  currentHeader : option str
}.
End DefState.

(** [flush]: an entry is pushed when the three variables are set; they are
    cleared in every case. *)
Definition flush (s : DefState.t) : DefState.t :=
  DefState.mk
    (match DefState.currentIndex s, DefState.currentStateType s,
           DefState.currentHeader s with
     | Some currentIndex, Some currentStateType, Some currentHeader =>
         DefState.entries s ++
         [ContractDefEntry.mk currentStateType currentIndex currentHeader]
     | _, _, _ => DefState.entries s
     end)
    None None None.

(** The body of the loop over the lines. *)
Definition defLine (s : DefState.t) (line : str) : DefState.t :=
  match exec false idxRe line with
  | Some idx =>
      let s := flush s in
      DefState.mk (DefState.entries s)
        (Some (Number (group 2 (groups idx))))
        (DefState.currentStateType s) (DefState.currentHeader s)
  | None =>
  match exec false stRe line with
  | Some st =>
      DefState.mk (DefState.entries s) (DefState.currentIndex s)
        (Some (group 1 (groups st))) (DefState.currentHeader s)
  | None =>
  match exec false incRe line with
  | Some inc =>
      DefState.mk (DefState.entries s) (DefState.currentIndex s)
        (DefState.currentStateType s) (Some (group 1 (groups inc)))
  | None => s
  end end end.

(** The loop and the last [flush], from a given state on. *)
Definition defLines (s : DefState.t) (lines : list str)
  : list ContractDefEntry.t :=
  DefState.entries (flush (fold_left defLine lines s)).

Definition parseContractDefH (source : str) : list ContractDefEntry.t :=
  defLines (DefState.mk [] None None None) (splitRe lineBreakRe source).

(** ** registry.ts, with its numbers *)

(** [BigInt(x)] for a double that is an integer. *)
Definition integerValue (x : double) : Z :=
  match x with
  | Fin m e => if 0 <=? e then m * 2 ^ e else m / 2 ^ (- e)
  | _ => 0
  end.

Definition contractKeyHex (contractIndex : double) : outcome str :=
  if negb (isInteger contractIndex) || ltb contractIndex (ofZ 0)
     || ltb (ofZ 4294967295) contractIndex
  then Throw (RangeError (u "contractIndex must fit in uint32"))
  else Ok (toHex (setBigUint64 (replicate 32 0) 0 (integerValue contractIndex))).

Section Registry.
Variable basename : str -> str.

(** The map from the name of a header to the index of its contract; a later
    definition of the same header replaces an earlier one. *)
Definition headersOf (defs : list ContractDefEntry.t) : gmap str double :=
  fold_left
    (fun headers def =>
       <[basename (ContractDefEntry.header def) :=
           ContractDefEntry.contractIndex def]> headers)
    defs ∅.

(** The options that one header is compiled with. *)
Definition registryCompileOptions (options : GenerateRegistryOptions.t)
    (headers : gmap str double) (file : str) : outcome CompileOptions.t :=
  let contractName := replaceFirst false dotHRe [] file in
  let contractIndex := headers !! file in
  match
    match contractIndex with
    | Some contractIndex =>
        match contractKeyHex contractIndex with
        | Throw e => Throw e
        | Ok key => Ok (Some key)
        end
    | None => Ok None
    end
  with
  | Throw e => Throw e
  | Ok contractPublicKeyHex =>
      Ok (CompileOptions.mk contractName contractIndex
            contractPublicKeyHex
            (Some (u "contracts/" ++ file))
            (GenerateRegistryOptions.sourceRepo options)
            (GenerateRegistryOptions.sourceRevision options)
            (GenerateRegistryOptions.generatorVersion options)
            (Some false))
  end.
End Registry.

(** *** What the parser of [contract_def.h] returns *)

(** The number of a text of decimal digits that is not empty. *)
Definition isNumberOfDigits (x : double) : Prop :=
  exists digits, digits <> [] /\ Forall (fun ch => is_digit ch = true) digits /\
                 x = Number digits.

Definition defEntryOk (d : ContractDefEntry.t) : Prop :=
  isIdentifier (ContractDefEntry.name d) /\
  isNumberOfDigits (ContractDefEntry.contractIndex d) /\
  isQuoted (ContractDefEntry.header d).

Definition defStateOk (s : DefState.t) : Prop :=
  Forall defEntryOk (DefState.entries s) /\
  (forall i, DefState.currentIndex s = Some i -> isNumberOfDigits i) /\
  (forall n, DefState.currentStateType s = Some n -> isIdentifier n) /\
  (forall h, DefState.currentHeader s = Some h -> isQuoted h).

(** What the second group of [idxRe] captures. *)
Definition idxDigits (n : nat) (w : str) : Prop :=
  n = 2%nat -> w <> [] /\ Forall (fun ch => is_digit ch = true) w.

(** A definition of an index of 310 digits. *)
Definition contractDefLongIndex : str :=
  u "#define QX_CONTRACT_INDEX 1" ++ replicate 309 48%N ++ newline ++
  u "#define CONTRACT_STATE_TYPE QX" ++ newline ++
  u "#include " ++ [quote] ++ u "contracts/Qx.h" ++ [quote] ++ newline.

(** ** Sizes and alignments *)

(** No array of the type reference has the length zero. *)
Fixpoint noEmptyArray (t : QbiTypeRef) : bool :=
  match t with
  | TArray n item => negb (eqb n (ofZ 0)) && noEmptyArray item
  | TStruct fields => forallb (fun f => noEmptyArray (snd f)) fields
  | _ => true
  end.

(** An offset or a size: the positive infinity, or a natural number. *)
Definition naturalOrInf (x : double) : Prop :=
  x = Inf false \/
  exists m e, x = Fin m e /\ isDouble (Fin m e) = true /\ 0 <= m /\ 0 <= e.

(** The size is the positive infinity, or a natural number that is a
    multiple of the alignment, and zero only beside the alignment 1. *)
Definition sizeAligned (l : CppLayout) : Prop :=
  size l = Inf false \/
  exists m e k,
    size l = Fin m e /\ align l = Fin 1 k /\
    isDouble (Fin m e) = true /\ 0 <= m /\ 0 <= e /\ 0 <= k <= 3 /\
    (2 ^ k | m * 2 ^ e) /\ (m = 0 -> k = 0).

(** The state of the loop over the fields of a struct. *)
Definition offsetOk (offset structAlign : double) : Prop :=
  alignOk structAlign /\
  (offset = Inf false \/
   exists m e, offset = Fin m e /\ isDouble (Fin m e) = true /\
               0 <= m /\ 0 <= e /\ (m = 0 -> structAlign = Fin 1 0)).

End Js.

(** * Proofs *)

(** ** The layout calculator *)

Lemma cppLayoutOf_struct fields :
  cppLayoutOf (TStruct fields) =
  match structLoop fields 0 1 with
  | Throw e => Throw e
  | Ok (offset, structAlign) =>
      let size := alignUp offset structAlign in
      Ok (mkLayout (if size =? 0 then 1 else size) structAlign)
  end.
Proof.
  cbn [cppLayoutOf].
  assert (Hloop : forall fs o a,
    (fix loop (fs : list (str * QbiTypeRef)) (offset structAlign : Z)
       {struct fs} : outcome (Z * Z) :=
       match fs with
       | [] => Ok (offset, structAlign)
       | field :: fs' =>
           match cppLayoutOf (snd field) with
           | Throw e => Throw e
           | Ok fieldLayout =>
               loop fs'
                 (alignUp offset (align fieldLayout) + size fieldLayout)
                 (Z.max structAlign (align fieldLayout))
           end
       end) fs o a = structLoop fs o a).
  { induction fs as [|f fs IH]; intros o a; [reflexivity|].
    cbn [structLoop]. destruct (cppLayoutOf (snd f)); [apply IH|reflexivity]. }
  rewrite Hloop. reflexivity.
Qed.


Lemma ceil_div_alt v a : 0 < a -> ceil_div v a = (v + a - 1) / a.
Proof.
  intros Ha. unfold ceil_div.
  apply Z.div_unique with (r := a - 1 - (- v) mod a).
  - left. pose proof (Z.mod_pos_bound (- v) a Ha). lia.
  - pose proof (Z.div_mod (- v) a ltac:(lia)). lia.
Qed.

Lemma alignUp_roundUp v a : 1 <= a -> alignUp v a = roundUp v a.
Proof.
  intros Ha. unfold alignUp, roundUp.
  destruct (Z.leb_spec a 1) as [H|H].
  - assert (a = 1) as -> by lia. rewrite Z.div_1_r. lia.
  - rewrite ceil_div_alt by lia. reflexivity.
Qed.

(** [roundUp] is the least multiple of the alignment at or above the offset. *)
Lemma roundUp_spec v a :
  1 <= a ->
  (a | roundUp v a) /\ v <= roundUp v a < v + a.
Proof.
  intros Ha. unfold roundUp. split.
  - apply Z.divide_factor_r.
  - pose proof (Z.div_mod (v + a - 1) a ltac:(lia)) as Hdm.
    pose proof (Z.mod_pos_bound (v + a - 1) a ltac:(lia)). lia.
Qed.

Lemma roundUp_least v a m :
  1 <= a -> (a | m) -> v <= m -> roundUp v a <= m.
Proof.
  intros Ha [k ->] Hv. unfold roundUp.
  apply Z.mul_le_mono_nonneg_r; [lia|].
  assert (v + a - 1 < a * (k + 1)) as Hlt by nia.
  apply Z.div_lt_upper_bound in Hlt; lia.
Qed.

Lemma alignOk_max a b : alignOk a -> alignOk b -> alignOk (Z.max a b).
Proof. unfold alignOk. lia. Qed.

Lemma alignUp_ge v a : alignOk a -> v <= alignUp v a.
Proof.
  intros Ha. rewrite alignUp_roundUp by (unfold alignOk in Ha; lia).
  apply roundUp_spec. unfold alignOk in Ha; lia.
Qed.

Lemma assertPositiveInt_Ok n label :
  isUint n = true -> exists z, n = Int z /\ 0 <= z /\ assertPositiveInt n label = Ok z.
Proof.
  destruct n as [z|]; cbn; [|discriminate].
  intros H%Z.leb_le. exists z. repeat split; [done|].
  destruct (Z.ltb_spec z 0); [lia|done].
Qed.

Lemma assertPositiveInt_Throw n label :
  isUint n = false ->
  assertPositiveInt n label =
    Throw (RangeError (label ++ u " must be a non-negative integer")).
Proof.
  destruct n as [z|]; cbn; [|done].
  intros H%Z.leb_gt. destruct (Z.ltb_spec z 0); [done|lia].
Qed.

Lemma structLoop_ok fields :
  Forall (fun f => wellFormed (snd f) = true ->
            exists l, cppLayoutOf (snd f) = Ok l /\ layoutOk (snd f) l) fields ->
  forallb (fun f => wellFormed (snd f)) fields = true ->
  forall offset structAlign,
    0 <= offset -> alignOk structAlign ->
    exists ls offset' structAlign',
      Forall2 (fun f l => cppLayoutOf (snd f) = Ok l) fields ls /\
      structLoop fields offset structAlign = Ok (offset', structAlign') /\
      (offset', structAlign') = fold_left placeField ls (offset, structAlign) /\
      0 <= offset' /\ alignOk structAlign'.
Proof.
  induction 1 as [|f fs Hf _ IH]; intros Hwf offset structAlign Ho Ha.
  - exists [], offset, structAlign. cbn. auto.
  - cbn in Hwf. apply andb_true_iff in Hwf as [Hwf1 Hwf2].
    destruct (Hf Hwf1) as (l & Hl & Hal & Hsz & _).
    cbn [structLoop]. rewrite Hl.
    pose proof (alignUp_ge offset _ Hal).
    destruct (IH Hwf2 (alignUp offset (align l) + size l)
                (Z.max structAlign (align l)))
      as (ls & o' & a' & HF & Hloop & Hfold & Ho' & Ha');
      [lia|by apply alignOk_max|].
    exists (l :: ls), o', a'. repeat split; try done.
    + by constructor.
    + cbn [fold_left]. rewrite Hfold. unfold placeField at 2. cbn [fst snd].
      rewrite alignUp_roundUp by (unfold alignOk in Hal; lia). done.
Qed.

Lemma cppLayoutOf_ok t :
  wellFormed t = true -> exists l, cppLayoutOf t = Ok l /\ layoutOk t l.
Proof.
  induction t as [e|p|n| |n item IH|fields IH] using QbiTypeRef_ind; intros Hwf.
  - eexists. split; [reflexivity|]. unfold layoutOk, alignOk. cbn. lia.
  - eexists. split; [reflexivity|]. unfold layoutOk, alignOk.
    destruct p; cbn; lia.
  - cbn in Hwf. destruct (assertPositiveInt_Ok n (u "bytes.length") Hwf)
      as (z & -> & Hz & Hok).
    cbn [cppLayoutOf]. rewrite Hok. eexists. split; [reflexivity|].
    unfold layoutOk, alignOk. cbn. lia.
  - eexists. split; [reflexivity|]. unfold layoutOk, alignOk. cbn. lia.
  - cbn in Hwf. apply andb_true_iff in Hwf as [Hn Hitem].
    destruct (assertPositiveInt_Ok n (u "array.length") Hn)
      as (z & -> & Hz & Hok).
    destruct (IH Hitem) as (l & Hl & Hal & Hsz & _).
    cbn [cppLayoutOf]. rewrite Hok, Hl. eexists. split; [reflexivity|].
    unfold layoutOk. cbn. repeat split; [done|nia].
  - cbn in Hwf. rewrite cppLayoutOf_struct.
    destruct (structLoop_ok fields IH Hwf 0 1)
      as (ls & o' & a' & _ & Hloop & _ & Ho' & Ha');
      [lia|unfold alignOk; lia|].
    rewrite Hloop. cbn zeta. eexists. split; [reflexivity|].
    pose proof (alignUp_ge o' a' Ha').
    unfold layoutOk. cbn. repeat split; [done| |];
      destruct (Z.eqb_spec (alignUp o' a') 0); lia.
Qed.

Lemma wellFormed_false_iff t : wellFormed t = false <-> containsBadLength t.
Proof.
  induction t as [e|p|n| |n item IH|fields IH] using QbiTypeRef_ind; cbn.
  - split; [discriminate|inversion 1].
  - split; [discriminate|inversion 1].
  - split; [by constructor|by inversion 1].
  - split; [discriminate|inversion 1].
  - rewrite andb_false_iff. split.
    + intros [H|H]; [by apply bad_array|apply bad_item; by apply IH].
    + inversion 1; subst; [by left|right; by apply IH].
  - split.
    + intros H. induction IH as [|f fs Hf _ IHfs]; [discriminate|].
      cbn in H. apply andb_false_iff in H as [H|H].
      * apply bad_field with f; [by left|by apply Hf].
      * specialize (IHfs H). inversion IHfs as [| | |? g Hin Hbad]; subst.
        apply bad_field with g; [by right|done].
    + inversion 1 as [| | |? f Hin Hbad]; subst.
      rewrite Forall_forall in IH.
      apply not_true_is_false. intros Hall.
      rewrite forallb_forall in Hall. specialize (Hall f Hin).
      apply (IH f) in Hbad; [congruence|]. by apply list_elem_of_In.
Qed.

Lemma structLoop_throw fields :
  Forall (fun f => wellFormed (snd f) = false ->
            exists e, cppLayoutOf (snd f) = Throw e) fields ->
  forallb (fun f => wellFormed (snd f)) fields = false ->
  forall offset structAlign,
    exists e, structLoop fields offset structAlign = Throw e.
Proof.
  induction 1 as [|f fs Hf _ IH]; intros Hwf offset structAlign;
    [discriminate|].
  cbn in Hwf. cbn [structLoop].
  destruct (cppLayoutOf (snd f)) as [l|e] eqn:Hl; [|by exists e].
  apply andb_false_iff in Hwf as [Hwf|Hwf].
  - destruct (Hf Hwf) as [e He]. congruence.
  - by apply IH.
Qed.

Lemma cppLayoutOf_throw t :
  wellFormed t = false -> exists e, cppLayoutOf t = Throw e.
Proof.
  induction t as [e|p|n| |n item IH|fields IH] using QbiTypeRef_ind;
    cbn [wellFormed]; intros Hwf; try discriminate.
  - cbn [cppLayoutOf]. rewrite assertPositiveInt_Throw by done. eauto.
  - cbn [cppLayoutOf]. apply andb_false_iff in Hwf as [Hwf|Hwf].
    + rewrite assertPositiveInt_Throw by done. eauto.
    + destruct (assertPositiveInt n (u "array.length")); [|eauto].
      destruct (IH Hwf) as [e ->]. eauto.
  - rewrite cppLayoutOf_struct.
    destruct (structLoop_throw fields IH Hwf 0 1) as [e ->]. eauto.
Qed.



(** C8: the layout calculator throws a RangeError exactly when the type
    reference contains a bytes or array length that is negative or not an
    integer; on every other type reference it returns a layout. *)
Theorem C8_throws_iff_bad_length (t : QbiTypeRef) :
  ((exists msg, cppLayoutOf t = Throw (RangeError msg)) <-> containsBadLength t)
  /\ (~ containsBadLength t -> exists l, cppLayoutOf t = Ok l).
Proof.
  split; [split|].
  - intros [msg Hthrow]. apply wellFormed_false_iff.
    destruct (wellFormed t) eqn:Hwf; [|done].
    destruct (cppLayoutOf_ok t Hwf) as (l & Hl & _). congruence.
  - intros Hbad%wellFormed_false_iff.
    destruct (cppLayoutOf_throw t Hbad) as [[msg] He]. eauto.
  - intros Hgood. destruct (wellFormed t) eqn:Hwf.
    + destruct (cppLayoutOf_ok t Hwf) as (l & Hl & _). eauto.
    + by apply wellFormed_false_iff in Hwf.
Qed.

Lemma C8_throws_iff_bad_length_witness :
  let t := TStruct [(u "a", TPrim U8);
                    (u "b", TArray (Int 0) (TBytes (Int (-1))))] in
  containsBadLength t /\ exists msg, cppLayoutOf t = Throw (RangeError msg).
Proof.
  assert (Hbad : containsBadLength
            (TStruct [(u "a", TPrim U8);
                      (u "b", TArray (Int 0) (TBytes (Int (-1))))])).
  { eapply bad_field; [right; left; reflexivity|].
    apply bad_item, bad_bytes. reflexivity. }
  split; [exact Hbad|].
  exact (proj2 (proj1 (C8_throws_iff_bad_length _)) Hbad).
Defined.

(** ** Sorting *)

Section SortFacts.
Context {A : Type}.
Variable compare : A -> A -> Z.
Hypothesis compare_total : forall a b, compare a b <= 0 \/ compare b a <= 0.
Hypothesis compare_trans :
  forall a b c, compare a b <= 0 -> compare b c <= 0 -> compare a c <= 0.

Lemma insertSorted_perm x l : Permutation (insertSorted compare x l) (x :: l).
Proof using Type.
  induction l as [|y l IH]; cbn; [done|].
  destruct (compare x y <=? 0); [done|].
  rewrite IH. apply perm_swap.
Qed.

Lemma sort_perm l : Permutation (sort compare l) l.
Proof using Type.
  induction l as [|x l IH]; cbn; [done|].
  rewrite insertSorted_perm. by constructor.
Qed.

End SortFacts.

Lemma StronglySorted_perm_unique {A} (R : A -> A -> Prop) l1 l2 :
  (forall a b, In a l1 -> In b l1 -> R a b -> R b a -> a = b) ->
  StronglySorted R l1 -> StronglySorted R l2 -> Permutation l1 l2 -> l1 = l2.
Proof.
  intros Hanti H1. revert l2 Hanti.
  induction H1 as [|x l1 Hl1 IH Hx]; intros l2 Hanti H2 Hperm.
  - by apply Permutation_nil in Hperm.
  - destruct H2 as [|y l2 Hl2 Hy].
    { symmetry in Hperm. by apply Permutation_nil in Hperm. }
    assert (x = y) as ->.
    { assert (Hxin : In x (y :: l2))
        by (eapply Permutation_in; [exact Hperm|by left]).
      assert (Hyin : In y (x :: l1))
        by (eapply Permutation_in; [symmetry; exact Hperm|by left]).
      destruct Hxin as [->|Hxin]; [done|].
      destruct Hyin as [->|Hyin]; [done|].
      rewrite List.Forall_forall in Hx, Hy.
      apply Hanti; [by left|by right|by apply Hx|by apply Hy]. }
    f_equal. apply IH; [|done|by apply Permutation_cons_inv in Hperm].
    intros a b Ha Hb. apply Hanti; by right.
Qed.

Lemma codeUnitCompare_total a b :
  codeUnitCompare a b <= 0 \/ codeUnitCompare b a <= 0.
Proof.
  revert b. induction a as [|x a IH]; intros [|y b]; cbn; try lia.
  destruct (N.ltb_spec x y), (N.ltb_spec y x); try lia. apply IH.
Qed.

Lemma codeUnitCompare_trans a b c :
  codeUnitCompare a b <= 0 -> codeUnitCompare b c <= 0 ->
  codeUnitCompare a c <= 0.
Proof.
  revert b c. induction a as [|x a IH]; intros [|y b] [|z c]; cbn; try lia.
  destruct (N.ltb_spec x y), (N.ltb_spec y x), (N.ltb_spec y z),
    (N.ltb_spec z y), (N.ltb_spec x z), (N.ltb_spec z x); try lia.
  apply IH.
Qed.

(** ** The compiled document *)

Lemma compileContractHeader_inv localeCompare now depth headerSource options doc :
  compileContractHeader localeCompare now depth headerSource options
    = Some (Ok doc) ->
  exists compiled st,
    compileEntries depth
      (mkCtx (extractNumericConstants headerSource)
         (extractTypeAliases headerSource) headerSource)
      (extractRegisteredEntries headerSource) [] (mkState [] ∅)
      = Some (Ok (compiled, st)) /\
    QbiFile.qbiVersion doc = u "0.1" /\
    QbiFile.contract doc =
      QbiContract.mk (CompileOptions.contractName options)
        (CompileOptions.contractIndex options)
        (CompileOptions.contractPublicKeyHex options) None /\
    QbiFile.entries doc = sort (compareEntries localeCompare) compiled.
Proof.
  unfold compileContractHeader.
  destruct (compileEntries _ _ _ _ _) as [[[compiled st]|e]|]; [|done..].
  intros [= <-]. exists compiled, st. done.
Qed.



(** ** Headers on which the resolution does not end *)

Lemma parseTypeRef_self_reference depth :
  parseTypeRef depth (ctxOf headerSelfReference) (u "Foo_input") initialState
    = None.
Proof.
  induction depth as [|depth IH]; [reflexivity|].
  cbn [parseTypeRef]. revert IH.
  generalize (parseTypeRef depth (ctxOf headerSelfReference)) as rec.
  intros rec IH. vm_compute in IH |- *. rewrite IH. reflexivity.
Qed.

Lemma parseStructFields_self_reference depth :
  parseStructFields depth (ctxOf headerSelfReference) (u " Foo_input x; ")
    initialState = None.
Proof.
  unfold parseStructFields.
  generalize (parseTypeRef_self_reference depth).
  generalize (parseTypeRef depth (ctxOf headerSelfReference)) as rec.
  intros rec IH. vm_compute in IH |- *. rewrite IH. reflexivity.
Qed.

Lemma parseTypeRef_alias_cycle depth :
  parseTypeRef depth (ctxOf headerAliasCycle) (u "A") initialState = None /\
  parseTypeRef depth (ctxOf headerAliasCycle) (u "B") initialState = None.
Proof.
  induction depth as [|depth [IHA IHB]]; [split; reflexivity|].
  cbn [parseTypeRef]. revert IHA IHB.
  generalize (parseTypeRef depth (ctxOf headerAliasCycle)) as rec.
  intros rec IHA IHB. vm_compute in IHA, IHB |- *. rewrite IHA, IHB. done.
Qed.

Lemma parseStructFields_alias_cycle depth :
  parseStructFields depth (ctxOf headerAliasCycle) (u " A x; ")
    initialState = None.
Proof.
  unfold parseStructFields.
  generalize (proj1 (parseTypeRef_alias_cycle depth)).
  generalize (parseTypeRef depth (ctxOf headerAliasCycle)) as rec.
  intros rec IH. vm_compute in IH |- *. rewrite IH. reflexivity.
Qed.

(** C4: the compilation does not end on every header.  On a header whose
    struct [Foo_input] has a member of type [Foo_input], and on a header with
    the aliases [A] for [B] and [B] for [A], the resolution nests deeper than
    any bound: the cache is filled only after the fields of a struct have
    been resolved. *)
Theorem C4_cyclic_headers_diverge localeCompare now options depth :
  compileContractHeader localeCompare now depth headerSelfReference options
    = None /\
  compileContractHeader localeCompare now depth headerAliasCycle options
    = None.
Proof.
  split.
  - unfold compileContractHeader. fold (ctxOf headerSelfReference).
    fold initialState.
    replace (extractRegisteredEntries headerSelfReference)
      with [Registered.mk KFunction (u "Foo") 3] by (vm_compute; reflexivity).
    cbn [compileEntries]. unfold sideTypeRef at 1.
    replace (extractStructBody (headerSource (ctxOf headerSelfReference))
               (Registered.name (Registered.mk KFunction (u "Foo") 3)
                  ++ u "_input"))
      with (Some (u " Foo_input x; ")) by (vm_compute; reflexivity).
    change (u " Foo_input x; ") with (32%N :: u "Foo_input x; ") at 1.
    cbv iota. change (32%N :: u "Foo_input x; ") with (u " Foo_input x; ").
    by rewrite parseStructFields_self_reference.
  - unfold compileContractHeader. fold (ctxOf headerAliasCycle).
    fold initialState.
    replace (extractRegisteredEntries headerAliasCycle)
      with [Registered.mk KFunction (u "Foo") 3] by (vm_compute; reflexivity).
    cbn [compileEntries]. unfold sideTypeRef at 1.
    replace (extractStructBody (headerSource (ctxOf headerAliasCycle))
               (Registered.name (Registered.mk KFunction (u "Foo") 3)
                  ++ u "_input"))
      with (Some (u " A x; ")) by (vm_compute; reflexivity).
    change (u " A x; ") with (32%N :: u "A x; ") at 1.
    cbv iota. change (32%N :: u "A x; ") with (u " A x; ").
    by rewrite parseStructFields_alias_cycle.
Qed.

(** ** A larger bound on the depth does not change a result *)

Lemma bind_mono {A B} (m1 m2 : M A) (f1 f2 : A -> M B) st r :
  (forall a, m1 st = Some a -> m2 st = Some a) ->
  (forall a st' r, f1 a st' = Some r -> f2 a st' = Some r) ->
  bind m1 f1 st = Some r -> bind m2 f2 st = Some r.
Proof.
  intros Hm Hf. unfold bind.
  destruct (m1 st) as [[a st']|] eqn:H1; [|done].
  rewrite (Hm _ eq_refl). apply Hf.
Qed.

Section Monotone.
Variable c : ctx.
Variables rec1 rec2 : str -> M QbiTypeRef.
Hypothesis rec_le : resolverLe rec1 rec2.

Lemma fieldsLoop_mono statements : forall fields st r,
  fieldsLoop c rec1 statements fields st = Some r ->
  fieldsLoop c rec2 statements fields st = Some r.
Proof using rec_le.
  induction statements as [|stmt statements IH]; intros fields st r;
    cbn [fieldsLoop]; [done|].
  destruct (test false bracesRe stmt); [apply IH|].
  destruct (includes _ stmt); [apply IH|].
  destruct (test false nestedTypeRe stmt); [apply IH|].
  destruct (test false directiveRe stmt); [apply IH|].
  destruct (exec false arrayFieldRe stmt) as [a|].
  - destruct (parseLen _ _) as [len|].
    + apply bind_mono; [intros [t st']; apply rec_le|]. intros; by apply IH.
    + apply bind_mono; [done|]. intros; by apply IH.
  - destruct (exec false scalarFieldRe stmt) as [m|].
    + apply bind_mono; [intros [t st']; apply rec_le|]. intros; by apply IH.
    + apply bind_mono; [done|]. intros; by apply IH.
Qed.

Lemma parseStructFieldsF_mono :
  resolverLe (parseStructFieldsF c rec1) (parseStructFieldsF c rec2).
Proof using rec_le.
  intros body st r. unfold parseStructFieldsF.
  apply bind_mono; [|done]. intros [fields st']. apply fieldsLoop_mono.
Qed.

Lemma resolveStruct_mono :
  resolverLe (resolveStruct c rec1) (resolveStruct c rec2).
Proof using rec_le.
  intros noNs st r. unfold resolveStruct.
  apply bind_mono; [done|]. intros [cached|] st' r'; [done|].
  destruct (extractStructBody (headerSource c) noNs) as [[|ch body]|];
    [done| |done].
  apply bind_mono; [|done]. intros [t st'']. apply parseStructFieldsF_mono.
Qed.

Lemma parseTypeRefF_mono :
  resolverLe (parseTypeRefF c rec1) (parseTypeRefF c rec2).
Proof using rec_le.
  intros rawType st r. unfold parseTypeRefF.
  destruct (exec false arrayRe _) as [array|].
  { destruct (parseLen _ _) as [len|]; [|done].
    apply bind_mono; [intros [t st']; apply rec_le|done]. }
  destruct (exec false bitArrayRe _); [done|].
  destruct (exec false intAliasRe _); [done|].
  destruct (exec false idAliasRe _); [done|].
  destruct (exec false bitAliasRe _); [done|].
  destruct (builtinType _); [done|].
  destruct (exec false proposalDataV1Re _); [done|].
  unfold resolveNamed.
  destruct (aliases c !! _) as [[|ch aliased]|]; try apply resolveStruct_mono.
  destruct (negb _); [apply rec_le|apply resolveStruct_mono].
Qed.
End Monotone.

Lemma parseTypeRef_mono c depth : forall depth',
  (depth <= depth')%nat ->
  resolverLe (parseTypeRef depth c) (parseTypeRef depth' c).
Proof.
  induction depth as [|depth IH]; intros depth' Hle; [done|].
  destruct depth' as [|depth']; [lia|]. cbn [parseTypeRef].
  apply parseTypeRefF_mono, IH. lia.
Qed.

Lemma sideTypeRef_mono c depth depth' structName st r :
  (depth <= depth')%nat ->
  sideTypeRef depth c structName st = Some r ->
  sideTypeRef depth' c structName st = Some r.
Proof.
  intros Hle. unfold sideTypeRef, parseStructFields.
  destruct (extractStructBody _ _) as [[|ch body]|]; try done.
  by apply parseStructFieldsF_mono, parseTypeRef_mono.
Qed.

Lemma compileEntries_mono c depth depth' entries : forall compiled st r,
  (depth <= depth')%nat ->
  compileEntries depth c entries compiled st = Some r ->
  compileEntries depth' c entries compiled st = Some r.
Proof.
  induction entries as [|entry entries IH]; intros compiled st r Hle;
    cbn [compileEntries]; [done|].
  destruct (sideTypeRef depth c _ st) as [[inputTypeRef st1]|] eqn:Hin; [|done].
  rewrite (sideTypeRef_mono _ _ _ _ _ _ Hle Hin).
  destruct (sideTypeRef depth c _ st1) as [[outputTypeRef st2]|] eqn:Hout;
    [|done].
  rewrite (sideTypeRef_mono _ _ _ _ _ _ Hle Hout).
  destruct (cppLayoutOf inputTypeRef); [|done].
  destruct (cppLayoutOf outputTypeRef); [|done].
  by apply IH.
Qed.

(** Once the bound suffices, the result is the same for every larger
    bound: a compilation has one result. *)
Lemma compileContractHeader_mono
    localeCompare now depth depth' headerSource options r :
  (depth <= depth')%nat ->
  compileContractHeader localeCompare now depth headerSource options = Some r ->
  compileContractHeader localeCompare now depth' headerSource options = Some r.
Proof.
  intros Hle. unfold compileContractHeader.
  destruct (compileEntries depth _ _ _ _) as [res|] eqn:Hloop; [|done].
  by rewrite (compileEntries_mono _ _ _ _ _ _ _ Hle Hloop).
Qed.

(** ** The struct body locator *)

Lemma indexOf_Some p s i :
  indexOf p s = Some i -> firstOccurrence p s i.
Proof.
  revert i. induction s as [|c s IH]; intros i; cbn [indexOf].
  - destruct (startsWith p []) eqn:Hp; [|done].
    intros [= <-]. split; [done|]. lia.
  - destruct (startsWith p (c :: s)) eqn:Hp.
    + intros [= <-]. split; [done|]. lia.
    + destruct (indexOf p s) as [k|] eqn:Hk; [|done].
      cbn. intros [= <-]. destruct (IH k eq_refl) as [Hocc Hfirst].
      split; [done|]. intros [|j] Hj; unfold occursAt; cbn.
      * congruence.
      * apply Hfirst. lia.
Qed.

Lemma indexOf_None p s :
  indexOf p s = None -> forall j, ~ occursAt p s j.
Proof.
  unfold occursAt. induction s as [|c s IH]; cbn [indexOf].
  - destruct (startsWith p []) eqn:Hp; [done|].
    intros _ j. rewrite drop_nil. congruence.
  - destruct (startsWith p (c :: s)) eqn:Hp; [done|].
    destruct (indexOf p s) as [k|] eqn:Hk; [done|].
    intros _ [|j]; cbn; [congruence|]. by apply IH.
Qed.

Lemma indexOfFrom_Some p s from i :
  (from <= length s)%nat ->
  indexOfFrom p s from = Some i -> firstOccurrenceFrom p s from i.
Proof.
  intros Hfrom. unfold indexOfFrom.
  destruct (Nat.ltb_spec (length s) from); [lia|].
  destruct (indexOf p (drop from s)) as [k|] eqn:Hk; [|done].
  cbn. intros [= <-]. destruct (indexOf_Some _ _ _ Hk) as [Hocc Hfirst].
  unfold occursAt in *. rewrite drop_drop in Hocc.
  split; [lia|]. split; [done|].
  intros j Hj Hocc'. apply (Hfirst (j - from)%nat); [lia|].
  unfold occursAt. rewrite drop_drop.
  by replace (from + (j - from))%nat with j by lia.
Qed.

Lemma indexOfFrom_None p s from :
  (from <= length s)%nat ->
  indexOfFrom p s from = None -> forall j, (from <= j)%nat -> ~ occursAt p s j.
Proof.
  intros Hfrom. unfold indexOfFrom.
  destruct (Nat.ltb_spec (length s) from); [lia|].
  destruct (indexOf p (drop from s)) as [k|] eqn:Hk; [done|].
  intros _ j Hj Hocc. apply (indexOf_None _ _ Hk (j - from)%nat).
  unfold occursAt in *. rewrite drop_drop.
  by replace (from + (j - from))%nat with j by lia.
Qed.

Lemma occursAt_length p s i : p <> [] -> occursAt p s i -> (i < length s)%nat.
Proof.
  intros Hp Hocc. unfold occursAt in Hocc.
  destruct (Nat.lt_ge_cases i (length s)) as [|Hge]; [done|].
  rewrite drop_ge in Hocc by done. by destruct p.
Qed.

(** The loop ends at the first closing brace that brings the depth to 0. *)
Lemma closingBrace_Some rest : forall i depth e,
  1 <= depth ->
  closingBrace rest i depth = Some e ->
  exists w rest' : str,
    rest = w ++ 125%N :: rest' /\ e = (i + length w)%nat /\
    depth + braceDepth w = 1 /\
    forall n, 1 <= depth + braceDepth (take n w).
Proof.
  induction rest as [|ch rest IH]; intros i depth e Hd; cbn [closingBrace];
    [done|].
  destruct (char_is "{" ch) eqn:Hopen.
  - intros (w & rest' & -> & -> & Hw & Hpre)%IH; [|lia].
    exists (ch :: w), rest'. cbn [braceDepth]. rewrite Hopen.
    repeat split; [cbn; lia|lia|].
    intros [|n]; cbn [take braceDepth]; [lia|].
    rewrite Hopen. specialize (Hpre n). lia.
  - destruct (char_is "}" ch) eqn:Hclose.
    + destruct (Z.eqb_spec (depth - 1) 0) as [H0|H0].
      * intros [= <-]. exists [], rest. cbn.
        assert (ch = 125%N) as ->.
        { unfold char_is in Hclose. cbn in Hclose.
          rewrite orb_false_r in Hclose. by apply N.eqb_eq. }
        repeat split; [lia..|]. intros n. rewrite take_nil. cbn. lia.
      * intros (w & rest' & -> & -> & Hw & Hpre)%IH; [|lia].
        exists (ch :: w), rest'. cbn [braceDepth]. rewrite Hopen, Hclose.
        repeat split; [cbn; lia|lia|].
        intros [|n]; cbn [take braceDepth]; [lia|].
        rewrite Hopen, Hclose. specialize (Hpre n). lia.
    + intros (w & rest' & -> & -> & Hw & Hpre)%IH; [|lia].
      exists (ch :: w), rest'. cbn [braceDepth]. rewrite Hopen, Hclose.
      repeat split; [cbn; lia|lia|].
      intros [|n]; cbn [take braceDepth]; [lia|].
      rewrite Hopen, Hclose. specialize (Hpre n). lia.
Qed.

Lemma closingBrace_None rest : forall i depth,
  1 <= depth ->
  closingBrace rest i depth = None ->
  forall w rest' : str,
    rest = w ++ 125%N :: rest' ->
    (forall n, 1 <= depth + braceDepth (take n w)) ->
    depth + braceDepth w <> 1.
Proof.
  induction rest as [|ch rest IH]; intros i depth Hd; cbn [closingBrace].
  - intros _ [|] ? ?; done.
  - destruct (char_is "{" ch) eqn:Hopen.
    + intros Hnone [|c w] rest' Heq Hpre.
      * injection Heq as -> _. done.
      * injection Heq as -> ->. cbn [braceDepth]. rewrite Hopen.
        specialize (IH (S i) (depth + 1) ltac:(lia) Hnone w rest' eq_refl).
        assert (depth + 1 + braceDepth w <> 1); [|lia].
        apply IH. intros n. specialize (Hpre (S n)). cbn [take braceDepth] in Hpre.
        rewrite Hopen in Hpre. lia.
    + destruct (char_is "}" ch) eqn:Hclose.
      * destruct (Z.eqb_spec (depth - 1) 0) as [H0|H0]; [done|].
        intros Hnone [|c w] rest' Heq Hpre.
        -- cbn. lia.
        -- injection Heq as -> ->. cbn [braceDepth]. rewrite Hopen, Hclose.
           assert (1 <= depth - 1).
           { specialize (Hpre 1%nat). cbn [take braceDepth] in Hpre.
             rewrite Hopen, Hclose in Hpre. lia. }
           specialize (IH (S i) (depth - 1) ltac:(lia) Hnone w rest' eq_refl).
           assert (depth - 1 + braceDepth w <> 1); [|lia].
           apply IH. intros n. specialize (Hpre (S n)). cbn [take braceDepth] in Hpre.
           rewrite Hopen, Hclose in Hpre. lia.
      * intros Hnone [|c w] rest' Heq Hpre.
        -- injection Heq as -> _. done.
        -- injection Heq as -> ->. cbn [braceDepth]. rewrite Hopen, Hclose.
           specialize (IH (S i) depth ltac:(lia) Hnone w rest' eq_refl).
           assert (depth + braceDepth w <> 1); [|lia].
           apply IH. intros n. specialize (Hpre (S n)). cbn [take braceDepth] in Hpre.
           rewrite Hopen, Hclose in Hpre. lia.
Qed.

Lemma occursAt_brace s b :
  occursAt (u "{") s b -> exists rest, drop b s = 123%N :: rest.
Proof.
  unfold occursAt. change (u "{") with [123%N].
  destruct (drop b s) as [|c rest]; cbn [startsWith]; [done|].
  destruct rest; rewrite andb_true_r; intros <-%N.eqb_eq; eauto.
Qed.

(** The claim C6 fails as it is stated: asked for [Foo], the locator returns
    the body of [FooBar], the only struct of the text. *)
Lemma C6_prefix_counterexample :
  extractStructBody (u "struct FooBar { int x; };") (u "Foo")
    = Some (u " int x; ") /\
  extractStructBody (u "struct FooBar { int x; };") (u "FooBar")
    = Some (u " int x; ").
Proof. split; vm_compute; reflexivity. Qed.

(** C6, amended: the locator looks for the first place where the text
    [struct <name>] stands (a longer name that starts with the requested one
    is found as well), then for the first opening brace at or after that
    place, and returns the text up to the closing brace that matches it;
    it reports absent when the text, the opening brace or the matching
    closing brace is missing. *)
Theorem C6_locator_first_textual_occurrence (source structName : str) :
  match extractStructBody source structName with
  | Some body =>
      exists idx braceStart after,
        firstOccurrence (u "struct " ++ structName) source idx /\
        firstOccurrenceFrom (u "{") source idx braceStart /\
        drop braceStart source = u "{" ++ body ++ u "}" ++ after /\
        bracesMatch body
  | None =>
      (forall j, ~ occursAt (u "struct " ++ structName) source j) \/
      (exists idx,
         firstOccurrence (u "struct " ++ structName) source idx /\
         forall j, (idx <= j)%nat -> ~ occursAt (u "{") source j) \/
      (exists idx braceStart,
         firstOccurrence (u "struct " ++ structName) source idx /\
         firstOccurrenceFrom (u "{") source idx braceStart /\
         forall body after,
           drop braceStart source = u "{" ++ body ++ u "}" ++ after ->
           ~ bracesMatch body)
  end.
Proof.
  unfold extractStructBody.
  destruct (indexOf (u "struct " ++ structName) source) as [idx|] eqn:Hidx;
    cbn [mbind option_bind]; [|left; by apply indexOf_None].
  pose proof (indexOf_Some _ _ _ Hidx) as Hfirst.
  assert (Hlen : (idx <= length source)%nat).
  { apply Nat.lt_le_incl. eapply occursAt_length; [|apply Hfirst]. done. }
  destruct (indexOfFrom (u "{") source idx) as [b|] eqn:Hb;
    cbn [mbind option_bind];
    [|right; left; exists idx; split; [done|]; by apply indexOfFrom_None].
  pose proof (indexOfFrom_Some _ _ _ _ Hlen Hb) as Hbrace.
  destruct (occursAt_brace source b) as [rest0 Hrest0]; [apply Hbrace|].
  rewrite Hrest0. cbn [closingBrace].
  change (char_is "{" 123%N) with true. cbv iota.
  change (0 + 1) with 1.
  destruct (closingBrace rest0 (S b) 1) as [e|] eqn:He; cbn [mbind option_bind].
  - apply closingBrace_Some in He as (w & rest' & -> & -> & Hw & Hpre); [|lia].
    assert (Hbody : slice (b + 1) (S b + length w) source = w).
    { unfold slice. rewrite <- (drop_drop source 1 b), Hrest0. cbn [drop].
      replace (S b + length w - (b + 1))%nat with (length w) by lia.
      by rewrite drop_0, take_app_length. }
    rewrite Hbody. exists idx, b, rest'.
    split; [exact Hfirst|]. split; [exact Hbrace|].
    split; [by rewrite Hrest0|]. split; [lia|].
    intros n. specialize (Hpre n). lia.
  - right; right. exists idx, b.
    split; [exact Hfirst|]. split; [exact Hbrace|].
    intros body after Heq [Hdepth Hpre].
    rewrite Hrest0 in Heq. cbn in Heq. injection Heq as ->.
    apply (closingBrace_None _ (S b) 1 ltac:(lia) He body after eq_refl);
      [|lia].
    intros n. specialize (Hpre n). lia.
Qed.

(** ** The matcher is sound for the declarative reading *)

Lemma prevAfterWord_app prev w1 w2 :
  prevAfterWord prev (w1 ++ w2) = prevAfterWord (prevAfterWord prev w1) w2.
Proof.
  unfold prevAfterWord. destruct w2 as [|x w2] using rev_ind.
  - by rewrite app_nil_r.
  - by rewrite app_assoc, !last_snoc.
Qed.

Lemma take_consumed (w rest' : str) (i : nat) :
  take (i + length w - i) (w ++ rest') = w.
Proof.
  replace (i + length w - i)%nat with (length w) by lia.
  apply take_app_length.
Qed.

Section Soundness.
Context {A : Type}.
Variable ml : bool.
Variable G : nat -> str -> Prop.

Lemma rstar_sound greedy r :
  @soundFor A ml G r ->
  forall fuel (k : @cont A) i prev rest c (a : A),
    rstar greedy (rmatch ml r) k fuel i prev rest c = Some a ->
    exists w rest' c',
      rest = w ++ rest' /\ starMatches (matches ml r) prev w rest' /\
      k (i + length w)%nat (prevAfterWord prev w) rest' c' = Some a /\
      capturesStep G (RStar greedy r) c c'.
Proof using Type.
  intros Hr.
  assert (Hstop : forall (k : @cont A) i prev rest c a,
    k i prev rest c = Some a ->
    exists w rest' c',
      rest = w ++ rest' /\ starMatches (matches ml r) prev w rest' /\
      k (i + length w)%nat (prevAfterWord prev w) rest' c' = Some a /\
      capturesStep G (RStar greedy r) c c').
  { intros k i prev rest c a Hk. exists [], rest, c.
    split; [done|]. split; [constructor|]. cbn [length].
    rewrite Nat.add_0_r. split; [done|].
    split; [done|]. split; [done|]. intros n. cbn. done. }
  induction fuel as [|fuel IH]; intros k i prev rest c a; cbn [rstar];
    [apply Hstop|].
  assert (Hmore :
    iterate (rmatch ml r) (rstar greedy (rmatch ml r) k fuel) i prev rest c
      = Some a ->
    exists w rest' c',
      rest = w ++ rest' /\ starMatches (matches ml r) prev w rest' /\
      k (i + length w)%nat (prevAfterWord prev w) rest' c' = Some a /\
      capturesStep G (RStar greedy r) c c').
  { unfold iterate. intros Hit.
    apply Hr in Hit as (w1 & rest1 & c1 & -> & Hw1 & Hk1 & Hc1 & Hc1' & _).
    destruct (Nat.ltb_spec i (i + length w1)) as [Hlt|]; [|done].
    apply IH in Hk1 as (w2 & rest' & c' & -> & Hw2 & Hk & Hc2 & Hc2' & _).
    exists (w1 ++ w2), rest', c'.
    split; [by rewrite app_assoc|]. split.
    - constructor; [|done..]. intros ->. cbn in Hlt. lia.
    - rewrite prevAfterWord_app, length_app, Nat.add_assoc. split; [done|].
      split; [tauto|]. split; [auto|]. intros n. cbn. done. }
  destruct greedy.
  - destruct (iterate _ _ i prev rest c) as [a'|] eqn:Hit.
    + intros [= <-]. by apply Hmore.
    + apply Hstop.
  - destruct (k i prev rest c) as [a'|] eqn:Hk.
    + intros [= <-]. by apply Hstop.
    + apply Hmore.
Qed.

Lemma rmatch_sound r : groupsSound ml G r -> @soundFor A ml G r.
Proof using Type.
  induction r as [|p|r1 IH1 r2 IH2|r1 IH1 r2 IH2|greedy r1 IH1|n r1 IH1| | |];
    intros HG k i prev rest c a; cbn [rmatch].
  - intros Hk. exists [], rest, c. cbn [length]. rewrite Nat.add_0_r.
    repeat split; try done.
  - destruct rest as [|x rest]; [done|].
    destruct (p x) eqn:Hp; [|done]. intros Hk.
    exists [x], rest, c. cbn [length]. rewrite Nat.add_1_r.
    repeat split; try done. by exists x.
  - destruct HG as [HG1 HG2].
    intros (w1 & rest1 & c1 & -> & Hw1 & Hk1 & Hc1 & Hc1' & Hs1)%(IH1 HG1).
    apply (IH2 HG2) in Hk1 as (w2 & rest' & c' & -> & Hw2 & Hk & Hc2 & Hc2' & Hs2).
    exists (w1 ++ w2), rest', c'.
    split; [by rewrite app_assoc|]. split; [by exists w1, w2|].
    rewrite prevAfterWord_app, length_app, Nat.add_assoc. split; [done|].
    split; [tauto|]. split; [auto|].
    intros n. cbn. intros [H|H]%orb_true_iff; auto.
  - destruct HG as [HG1 HG2].
    destruct (rmatch ml r1 k i prev rest c) as [a'|] eqn:H1.
    + intros [= <-].
      apply (IH1 HG1) in H1 as (w & rest' & c' & -> & Hw & Hk & Hc & Hc' & Hs).
      exists w, rest', c'. split; [done|]. split; [by left|].
      split; [done|]. split; [done|]. split; [done|].
      intros n. cbn. intros [H _]%andb_true_iff. auto.
    + intros (w & rest' & c' & -> & Hw & Hk & Hc & Hc' & Hs)%(IH2 HG2).
      exists w, rest', c'. split; [done|]. split; [by right|].
      split; [done|]. split; [done|]. split; [done|].
      intros n. cbn. intros [_ H]%andb_true_iff. auto.
  - apply rstar_sound. by apply IH1.
  - destruct HG as [HGn HG1].
    intros (w & rest' & c' & -> & Hw & Hk & Hc & Hc' & Hs)%(IH1 HG1).
    rewrite take_consumed in Hk.
    exists w, rest', ((n, w) :: c'). split; [done|]. split; [done|].
    split; [done|]. split; [|split].
    + intros Hok m v. cbn [capture].
      destruct (Nat.eqb_spec m n) as [->|_]; [|by apply Hc].
      intros [= <-]. eauto.
    + intros m Hm. cbn [capture]. destruct (m =? n)%nat; [done|auto].
    + intros m. cbn [setsGroup capture].
      destruct (m =? n)%nat; [done|]. cbn. auto.
  - destruct (at_bol ml prev) eqn:Hb; [|done]. intros Hk.
    exists [], rest, c. cbn [length]. rewrite Nat.add_0_r.
    repeat split; try done.
  - destruct (at_eol ml rest) eqn:Hb; [|done]. intros Hk.
    exists [], rest, c. cbn [length]. rewrite Nat.add_0_r.
    repeat split; try done.
  - destruct (at_word_boundary prev rest) eqn:Hb; [|done]. intros Hk.
    exists [], rest, c. cbn [length]. rewrite Nat.add_0_r.
    repeat split; try done.
Qed.
End Soundness.

Lemma capturesOk_nil G : capturesOk G [].
Proof. intros n w. done. Qed.

Lemma group_ok G n c :
  capturesOk G c -> is_Some (capture n c) -> G n (group n c).
Proof. intros Hok [w Hw]. unfold group. rewrite Hw. cbn. eauto. Qed.

Lemma matchAt_sound ml G r prev rest n prev' rest' c :
  groupsSound ml G r ->
  matchAt ml r prev rest = Some (n, prev', rest', c) ->
  exists w,
    rest = w ++ rest' /\ n = length w /\ matches ml r prev w rest' /\
    prev' = prevAfterWord prev w /\ capturesOk G c /\
    (forall n, setsGroup n r = true -> is_Some (capture n c)).
Proof.
  intros HG Hm. unfold matchAt in Hm.
  apply (rmatch_sound ml G r HG) in Hm
    as (w & rest0 & c0 & -> & Hw & [= <- <- <- <-] & Hok & _ & Hsets).
  exists w. split; [done|]. split; [done|]. split; [done|]. split; [done|].
  split; [apply Hok, capturesOk_nil|done].
Qed.

Lemma search_unfold ml r prev rest idx :
  search ml r prev rest idx =
  match matchAt ml r prev rest with
  | Some (n, prev', rest', c) =>
      Some (mkMatch idx (take n rest) c prev' rest')
  | None =>
      match rest with
      | [] => None
      | x :: rest' => search ml r (Some x) rest' (S idx)
      end
  end.
Proof. by destruct rest. Qed.

Lemma search_here ml G r rest prev idx n prev' rest' c :
  groupsSound ml G r ->
  matchAt ml r prev rest = Some (n, prev', rest', c) ->
  let m := mkMatch idx (take n rest) c prev' rest' in
  matchOk ml G r m /\
  exists skipped,
    rest = skipped ++ matched m ++ after m /\
    index m = (idx + length skipped)%nat /\
    prevAfter m = prevAfterWord (prevAfterWord prev skipped) (matched m).
Proof.
  intros HG (w & -> & -> & Hw & -> & Hok & Hsets)%(matchAt_sound ml G r _ _ _ _ _ _ HG).
  rewrite take_app_length. cbn.
  split; [split; [by exists prev|done]|].
  exists []. cbn. split; [done|]. split; [lia|done].
Qed.

Lemma search_sound ml G r : groupsSound ml G r ->
  forall rest prev idx m,
    search ml r prev rest idx = Some m ->
    matchOk ml G r m /\
    exists skipped,
      rest = skipped ++ matched m ++ after m /\
      index m = (idx + length skipped)%nat /\
      prevAfter m = prevAfterWord (prevAfterWord prev skipped) (matched m).
Proof.
  intros HG rest. induction rest as [|x rest IH]; intros prev idx m;
    rewrite search_unfold;
    (destruct (matchAt ml r prev _) as [[[[n prev'] rest'] c]|] eqn:Hat;
     [intros [= <-]; exact (search_here ml G r _ prev idx n prev' rest' c HG Hat)|]);
    [done|].
  intros (Hm & skipped & -> & -> & Hprev)%IH.
  split; [done|]. exists (x :: skipped). cbn [app length]. split; [done|].
  split; [lia|].
  rewrite Hprev. f_equal. change (x :: skipped) with ([x] ++ skipped).
  by rewrite prevAfterWord_app.
Qed.

Lemma exec_sound ml G r s m :
  groupsSound ml G r -> exec ml r s = Some m ->
  matchOk ml G r m /\
  exists skipped,
    s = skipped ++ matched m ++ after m /\ index m = length skipped.
Proof.
  intros HG (Hm & skipped & Heq & Hidx & _)%(search_sound ml G r HG).
  split; [done|]. by exists skipped.
Qed.

Lemma matchAllFrom_sound ml G r : groupsSound ml G r ->
  forall fuel prev rest,
    Forall (matchOk ml G r) (matchAllFrom fuel ml r prev rest).
Proof.
  intros HG. induction fuel as [|fuel IH]; intros prev rest;
    cbn [matchAllFrom]; [constructor|].
  destruct (search ml r prev rest 0) as [m|] eqn:Hs; [|constructor].
  apply (search_sound ml G r HG) in Hs as [Hm _].
  constructor; [done|].
  destruct (matched m), (after m); try apply IH. constructor.
Qed.

Lemma matchAll_sound ml G r s :
  groupsSound ml G r -> Forall (matchOk ml G r) (matchAll ml r s).
Proof. intros HG. by apply matchAllFrom_sound. Qed.

Lemma noGroups_sound ml G r : noGroups r = true -> groupsSound ml G r.
Proof.
  induction r; cbn; try done.
  - intros [? ?]%andb_true_iff. auto.
  - intros [? ?]%andb_true_iff. auto.
Qed.

Lemma noGroups_lit_chars l : noGroups (lit_chars l) = true.
Proof.
  induction l as [|c [|c' l] IH]; [done..|].
  change (lit_chars (c :: c' :: l))
    with (RSeq (RChar (N.eqb c)) (lit_chars (c' :: l))).
  cbn [noGroups]. by rewrite IH.
Qed.

(** What the classes of the source capture. *)
Lemma starMatches_chars ml g p prev w rest :
  matches ml (RStar g (RChar p)) prev w rest -> Forall (fun x => p x = true) w.
Proof.
  cbn [matches]. induction 1 as [|prev w1 w2 rest _ (x & -> & Hx) _ IH];
    [constructor|].
  by constructor.
Qed.

Lemma plus_chars ml g p prev w rest :
  matches ml (RSeq (RChar p) (RStar g (RChar p))) prev w rest ->
  w <> [] /\ Forall (fun x => p x = true) w.
Proof.
  intros (w1 & w2 & -> & (x & -> & Hx) & Hw2).
  split; [done|]. constructor; [done|].
  by eapply starMatches_chars.
Qed.

Lemma identifier_chars ml prev w rest :
  matches ml identifier prev w rest ->
  exists x w', w = x :: w' /\ is_ident_start x = true /\
               Forall (fun x => is_word x = true) w'.
Proof.
  intros (w1 & w2 & -> & (x & -> & Hx) & Hw2).
  exists x, w2. split; [done|]. split; [done|].
  by eapply starMatches_chars.
Qed.

Lemma Number_nonneg w : Forall (fun x => is_digit x = true) w -> 0 <= Number w.
Proof.
  unfold Number.
  assert (forall acc, 0 <= acc -> Forall (fun x => is_digit x = true) w ->
          0 <= fold_left (fun acc c => 10 * acc + (Z.of_N c - 48)) w acc)
    as H; [|by apply H].
  induction w as [|c w IH]; intros acc Hacc Hw; cbn; [done|].
  inversion Hw as [|? ? Hc Hw']; subst. apply IH; [|done].
  unfold is_digit in Hc. apply andb_true_iff in Hc as [Hc _].
  apply N.leb_le in Hc. lia.
Qed.

(** ** What the groups of the source's expressions capture *)

Ltac groups_sound :=
  repeat match goal with
    | |- groupsSound _ _ (seq _) => cbn [seq]
    | |- groupsSound _ _ (RSeq _ _) => split
    | |- groupsSound _ _ (RGroup _ _) => split
    | |- groupsSound _ _ (lit _) => apply noGroups_sound, noGroups_lit_chars
    | |- groupsSound _ _ _ => apply noGroups_sound; reflexivity
    end.

Lemma is_space_range c :
  is_space c = true -> (9 <= c <= 13 \/ c = 32 \/ 160 <= c)%N.
Proof.
  unfold is_space.
  rewrite !orb_true_iff, !andb_true_iff, !N.leb_le, !N.eqb_eq. lia.
Qed.

Lemma is_word_range c : is_word c = true -> (48 <= c <= 122)%N.
Proof.
  unfold is_word, is_ident_start, is_upper, is_lower, is_underscore, is_digit.
  rewrite !orb_true_iff, !andb_true_iff, !N.leb_le, !N.eqb_eq. lia.
Qed.

Lemma is_ident_start_word c : is_ident_start c = true -> is_word c = true.
Proof. unfold is_word. intros ->. done. Qed.

Lemma is_word_not_space c : is_word c = true -> is_space c = false.
Proof.
  intros H%is_word_range. destruct (is_space c) eqn:Hs; [|done].
  apply is_space_range in Hs. lia.
Qed.

Lemma registerRe_groups macro : groupsSound false registerGroups (registerRe macro).
Proof.
  unfold registerRe. groups_sound.
  - intros prev w rest (x & w' & -> & _)%identifier_chars. done.
  - intros prev w rest H. by apply plus_chars in H as [_ H].
Qed.

Lemma arrayFieldRe_groups : groupsSound false arrayFieldGroups arrayFieldRe.
Proof.
  unfold arrayFieldRe. groups_sound; try done.
  intros prev w rest (x & w' & -> & _)%identifier_chars. done.
Qed.

Lemma arrayField_name stmt a :
  exec false arrayFieldRe stmt = Some a -> group 2 (groups a) <> [].
Proof.
  intros [(_ & Hok & Hsets) _]%(exec_sound _ _ _ _ _ arrayFieldRe_groups).
  by apply (group_ok arrayFieldGroups 2 _ Hok), Hsets.
Qed.

Lemma scalarFieldRe_groups : groupsSound false scalarFieldGroups scalarFieldRe.
Proof.
  unfold scalarFieldRe. groups_sound; try done.
  intros prev w rest H. by exists prev, rest.
Qed.

Lemma split_no_sep sep w :
  Forall (fun c => c <> sep) w -> split sep w = [w].
Proof.
  induction 1 as [|c w Hc _ IH]; cbn [split]; [done|].
  destruct (N.eqb_spec c sep); [done|]. by rewrite IH.
Qed.

Lemma split_app_sep sep w1 w2 :
  Forall (fun c => c <> sep) w1 ->
  split sep (w1 ++ sep :: w2) = w1 :: split sep w2.
Proof.
  induction 1 as [|c w Hc _ IH]; cbn [split app].
  - by rewrite N.eqb_refl.
  - destruct (N.eqb_spec c sep); [done|]. by rewrite IH.
Qed.

Lemma trimStart_ink w : hasInk w -> hasInk (trimStart w).
Proof.
  induction 1 as [c w Hc|c w _ IH]; cbn [trimStart].
  - rewrite Hc. by left.
  - destruct (is_space c) eqn:Hc; [done|]. by left.
Qed.

Lemma trim_ink w : hasInk w -> trim w <> [].
Proof.
  intros H. unfold trim, trimEnd.
  assert (Hink : hasInk (rev (trimStart (rev (trimStart w))))).
  { apply List.Exists_rev, trimStart_ink, List.Exists_rev.
    by apply trimStart_ink. }
  intros Heq. rewrite Heq in Hink. inversion Hink.
Qed.

Lemma spaces_no_comma w :
  Forall (fun x => is_space x = true) w -> Forall (fun c => c <> 44%N) w.
Proof.
  intros H. eapply Forall_impl; [exact H|].
  intros c Hc%is_space_range. lia.
Qed.

Lemma words_no_comma w :
  Forall (fun x => is_word x = true) w -> Forall (fun c => c <> 44%N) w.
Proof.
  intros H. eapply Forall_impl; [exact H|].
  intros c Hc%is_word_range. lia.
Qed.

Lemma identifier_no_comma_ink ml prev w rest :
  matches ml identifier prev w rest ->
  Forall (fun c => c <> 44%N) w /\ hasInk w.
Proof.
  intros (x & w' & -> & Hx & Hw')%identifier_chars. split.
  - apply words_no_comma. constructor; [by apply is_ident_start_word|done].
  - left. by apply is_word_not_space, is_ident_start_word.
Qed.

(** The pieces between the commas of a list of names, once trimmed, are not
    empty. *)
Lemma names_tail ml prev tail rest :
  starMatches (matches ml (seq [star ws; lit ","; star ws; identifier]))
    prev tail rest ->
  forall P : str,
    Forall (fun c => c <> 44%N) P -> hasInk P ->
    Forall (fun n => n <> []) (List.map trim (split 44%N (P ++ tail))).
Proof.
  induction 1 as [prev rest|prev w1 w2 rest _ Hw1 _ IH]; intros P HP Hink.
  - rewrite app_nil_r, split_no_sep by done. cbn.
    constructor; [by apply trim_ink|constructor].
  - cbn [seq] in Hw1. change (lit ",") with (RChar (N.eqb 44%N)) in Hw1.
    destruct Hw1 as (a & w1' & -> & Ha & comma & w1'' & -> & Hcomma &
                     b & name & -> & Hb & Hname).
    apply starMatches_chars in Ha, Hb.
    destruct Hcomma as (x & -> & <-%N.eqb_eq).
    apply identifier_no_comma_ink in Hname as [Hname1 Hname2].
    rewrite <- !app_assoc. cbn [app]. rewrite (app_assoc P a).
    rewrite split_app_sep.
    2:{ apply Forall_app. split; [done|by apply spaces_no_comma]. }
    cbn [List.map]. constructor.
    + apply trim_ink. unfold hasInk. apply Exists_app. by left.
    + rewrite (app_assoc b name). apply IH.
      * apply Forall_app. split; [by apply spaces_no_comma|done].
      * unfold hasInk. apply Exists_app. by right.
Qed.

Lemma scalarField_names stmt m :
  exec false scalarFieldRe stmt = Some m ->
  Forall (fun n => n <> []) (List.map trim (split 44%N (group 2 (groups m)))).
Proof.
  intros [(_ & Hok & Hsets) _]%(exec_sound _ _ _ _ _ scalarFieldRe_groups).
  destruct (group_ok scalarFieldGroups 2 _ Hok (Hsets 2%nat eq_refl))
    as (prev & rest & name & tail & -> & Hname & Htail).
  apply identifier_no_comma_ink in Hname as [Hname1 Hname2].
  exact (names_tail false _ tail _ Htail name Hname1 Hname2).
Qed.
(** ** Repetitions of a class *)

(** The greedy repetition of a class of characters matches a text of such
    characters when what follows matches at its end. *)
Lemma rstar_class_all {A} ml p (k : @cont A) w : forall fuel i prev c,
  (length w <= fuel)%nat ->
  Forall (fun x => p x = true) w ->
  is_Some (k (i + length w)%nat (prevAfterWord prev w) [] c) ->
  is_Some (rstar true (rmatch ml (RChar p)) k fuel i prev w c).
Proof.
  set (step := rmatch ml (RChar p)).
  induction w as [|x w IH]; intros fuel i prev c Hfuel Hw Hk.
  - cbn [length] in Hk. rewrite Nat.add_0_r in Hk.
    destruct fuel as [|fuel]; cbn [rstar]; [done|].
    unfold iterate, step. cbn [rmatch]. done.
  - inversion Hw as [|? ? Hx Hw']; subst.
    destruct fuel as [|fuel]; cbn [rstar]; [cbn in Hfuel; lia|].
    destruct (IH fuel (S i) (Some x) c) as [a Ha]; [cbn in Hfuel; lia|done| |].
    { change (x :: w) with ([x] ++ w) in Hk.
      rewrite prevAfterWord_app in Hk. cbn [length] in Hk.
      by replace (S i + length w)%nat with (i + S (length w))%nat by lia. }
    unfold iterate. unfold step at 1. cbn [rmatch]. rewrite Hx.
    replace (i <? S i)%nat with true
      by (symmetry; apply Nat.ltb_lt; lia).
    rewrite Ha. done.
Qed.

(** ** The table of constants *)

Lemma shuntingYard_idents constants tokens : forall output ops r,
  shuntingYard constants tokens output ops = Some r ->
  forall x, In (TokIdent x) tokens -> is_Some (constants !! x).
Proof.
  induction tokens as [|t tokens IH]; intros output ops r Hr x Hx;
    [destruct Hx|].
  destruct t as [n|value|value|value]; cbn [shuntingYard] in Hr.
  - destruct Hx as [[=]|Hx]. eauto.
  - destruct (constants !! value) as [val|] eqn:Hval; [|done].
    destruct Hx as [[= ->]|Hx]; [by rewrite Hval|eauto].
  - destruct (popHigher ops (prec value) output) as [output' ops'].
    destruct Hx as [[=]|Hx]. eauto.
  - destruct Hx as [[=]|Hx].
    destruct (char_is "(" value); [eauto|].
    destruct (popToParen ops output) as [output' [|op ops']]; [done|eauto].
Qed.

Lemma parseNumericExpr_mentions expr constants x :
  mentions expr x -> constants !! x = None ->
  parseNumericExpr (trim expr) constants = None.
Proof.
  intros (tokens & Htokens & Hx) Hnone. unfold parseNumericExpr.
  rewrite Htokens. cbn [mbind option_bind].
  destruct (shuntingYard constants tokens [] []) as [r|] eqn:Hr; [|done].
  destruct (shuntingYard_idents _ _ _ _ _ Hr x Hx) as [v Hv]. congruence.
Qed.

Lemma pass_app before after table :
  pass (before ++ after) table = pass after (pass before table).
Proof. apply fold_left_app. Qed.

Lemma extractNumericConstants_passes source :
  extractNumericConstants source =
  pass (List.map definitionOf (matchAll true defRe source))
    (pass (List.map definitionOf (matchAll false constexprRe source))
       {[ u "X_MULTIPLIER" := 1 ]}).
Proof.
  unfold extractNumericConstants, pass.
  assert (Hfold : forall ms table,
    fold_left defineConstant ms table =
    fold_left define (List.map definitionOf ms) table).
  { induction ms as [|m ms IH]; intros table; [done|]. cbn. apply IH. }
  by rewrite !Hfold.
Qed.

(** The claim C5 fails as it is stated: [B] is defined before [A] in the
    text, by a macro that refers to the constant [A] of a later [constexpr],
    and yet [B] is in the table, with the value 6. *)
Lemma C5_forward_reference_counterexample :
  indexOf (u "#define B A*3") headerDefineBeforeConstexpr = Some 0%nat /\
  indexOf (u "constexpr int A = 2;") headerDefineBeforeConstexpr = Some 14%nat /\
  extractNumericConstants headerDefineBeforeConstexpr !! u "B" = Some 6 /\
  extractNumericConstants headerDefineBeforeConstexpr !! u "A" = Some 2.
Proof. repeat split; vm_compute; reflexivity. Qed.

(** C5, amended: the table is built in two passes from left to right, first
    over the [constexpr] definitions, then over the [#define] macros; each
    definition is evaluated in the table as it stands when it is reached, and
    one that names an identifier which is not in the table at that point adds
    nothing, whatever follows it.  With [#define A 2] before [#define B A*3]
    the table has B = 6; with the two macros in the other order it has no
    [B]. *)
Theorem C5_two_passes_in_textual_order :
  (forall source,
     extractNumericConstants source =
     pass (List.map definitionOf (matchAll true defRe source))
       (pass (List.map definitionOf (matchAll false constexprRe source))
          {[ u "X_MULTIPLIER" := 1 ]})) /\
  (forall before name expr after table x,
     mentions expr x -> pass before table !! x = None ->
     pass (before ++ (name, expr) :: after) table =
     pass (before ++ after) table) /\
  extractNumericConstants headerAB !! u "B" = Some 6 /\
  extractNumericConstants headerBA_defines !! u "B" = None /\
  extractNumericConstants headerBA_defines !! u "A" = Some 2.
Proof.
  split; [apply extractNumericConstants_passes|]. split.
  - intros before name expr after table x Hx Hnone.
    rewrite !pass_app. cbn [pass fold_left]. f_equal.
    unfold define. cbn [fst snd].
    by rewrite (parseNumericExpr_mentions expr _ x).
  - repeat split; vm_compute; reflexivity.
Qed.

Lemma C5_two_passes_in_textual_order_witness :
  mentions (u "A*3") (u "A") /\
  pass [] {[ u "X_MULTIPLIER" := 1 ]} !! u "A" = None /\
  pass ([] ++ (u "B", u "A*3") :: [(u "A", u "2")]) {[ u "X_MULTIPLIER" := 1 ]} =
  pass ([] ++ [(u "A", u "2")]) {[ u "X_MULTIPLIER" := 1 ]}.
Proof.
  assert (Hmentions : mentions (u "A*3") (u "A")).
  { eexists. split; [vm_compute; reflexivity|]. by left. }
  split; [exact Hmentions|]. split; [reflexivity|].
  exact (proj1 (proj2 C5_two_passes_in_textual_order)
           [] (u "B") (u "A*3") [(u "A", u "2")] {[ u "X_MULTIPLIER" := 1 ]}
           (u "A") Hmentions eq_refl).
Defined.

(** ** A registration in the text is found *)

Lemma matchAt_registerFoo prev post :
  matchAt false funcRe prev (registerFoo ++ post)
    = Some (31%nat, Some 59%N, post, [(2%nat, u "3"); (1%nat, u "Foo")]).
Proof. vm_compute. reflexivity. Qed.

(** The search does not pass a position where the expression matches. *)
Lemma search_complete ml r skipped : forall rest prev idx,
  is_Some (matchAt ml r (prevAfterWord prev skipped) rest) ->
  exists m,
    search ml r prev (skipped ++ rest) idx = Some m /\
    (index m < idx + length skipped \/
     (index m = idx + length skipped /\
      exists n prev' rest' c,
        matchAt ml r (prevAfterWord prev skipped) rest
          = Some (n, prev', rest', c) /\
        m = mkMatch (idx + length skipped) (take n rest) c prev' rest'))%nat.
Proof.
  induction skipped as [|x skipped IH]; intros rest prev idx Hhere;
    rewrite search_unfold.
  - cbn in Hhere. destruct Hhere as [[[[n prev'] rest'] c] Hhere].
    cbn [app]. rewrite Hhere. eexists. split; [done|]. right.
    cbn [length index]. rewrite Nat.add_0_r. split; [done|].
    exists n, prev', rest', c. done.
  - assert (Hprev : prevAfterWord prev (x :: skipped)
                    = prevAfterWord (Some x) skipped).
    { change (x :: skipped) with ([x] ++ skipped).
      by rewrite prevAfterWord_app. }
    rewrite Hprev in *.
    destruct (matchAt ml r prev ((x :: skipped) ++ rest))
      as [[[[n prev'] rest'] c]|].
    + eexists. split; [done|]. left. cbn. lia.
    + cbn [app].
      destruct (IH rest (Some x) (S idx) Hhere) as (m & Hm & Hidx).
      exists m. split; [done|]. cbn [length].
      replace (idx + S (length skipped))%nat with (S idx + length skipped)%nat
        by lia.
      exact Hidx.
Qed.

Lemma matches_alphabet ml q r : alphabet q r ->
  forall prev w rest, matches ml r prev w rest -> Forall q w.
Proof.
  induction r as [|p|r1 IH1 r2 IH2|r1 IH1 r2 IH2|greedy r1 IH1|n r1 IH1| | |];
    cbn [alphabet matches]; intros Hq prev w rest.
  - by intros ->.
  - intros (x & -> & Hx). constructor; [auto|constructor].
  - destruct Hq as [Hq1 Hq2]. intros (w1 & w2 & -> & H1 & H2).
    apply Forall_app. split; eauto.
  - destruct Hq as [Hq1 Hq2]. intros [H|H]; eauto.
  - induction 1 as [|prev w1 w2 rest _ H1 _ IH]; [constructor|].
    apply Forall_app. split; eauto.
  - eauto.
  - by intros [-> _].
  - by intros [-> _].
  - by intros [-> _].
Qed.

Lemma alphabet_lit_chars (q : char -> Prop) l :
  Forall q l -> alphabet q (lit_chars l).
Proof.
  induction l as [|c [|c' l] IH]; intros Hl; [done| |].
  - cbn. intros x <-%N.eqb_eq. by inversion Hl.
  - change (lit_chars (c :: c' :: l))
      with (RSeq (RChar (N.eqb c)) (lit_chars (c' :: l))).
    inversion Hl; subst. split; [|by apply IH].
    cbn. by intros x <-%N.eqb_eq.
Qed.

Lemma matches_lit_chars ml l : forall prev w rest,
  matches ml (lit_chars l) prev w rest -> w = l.
Proof.
  induction l as [|c [|c' l] IH]; intros prev w rest.
  - done.
  - cbn. by intros (x & -> & <-%N.eqb_eq).
  - change (lit_chars (c :: c' :: l))
      with (RSeq (RChar (N.eqb c)) (lit_chars (c' :: l))).
    intros (w1 & w2 & -> & (x & -> & <-%N.eqb_eq) & H2).
    by rewrite (IH _ _ _ H2).
Qed.

Lemma seq_cons r rs : rs <> [] -> seq (r :: rs) = RSeq r (seq rs).
Proof. by destruct rs. Qed.

(** The text matched by a sequence: what its last expression matched, after
    a text over the alphabet of the expressions before. *)
Lemma matches_seq_last ml q rs r_last : Forall (alphabet q) rs ->
  forall prev w rest,
    matches ml (seq (rs ++ [r_last])) prev w rest ->
    exists body w_last prev',
      w = body ++ w_last /\ Forall q body /\
      matches ml r_last prev' w_last rest.
Proof.
  induction 1 as [|r rs Hr _ IH]; intros prev w rest.
  - intros H. exists [], w, prev. done.
  - cbn [app]. rewrite seq_cons by (by destruct rs).
    intros (w1 & w2 & -> & H1 & H2).
    destruct (IH _ _ _ H2) as (body & w_last & prev' & -> & Hbody & Hlast).
    exists (w1 ++ body), w_last, prev'. rewrite app_assoc. split; [done|].
    split; [|done]. apply Forall_app. split; [|done].
    by eapply matches_alphabet.
Qed.

Ltac class_neq :=
  intros ?;
  unfold char_not, char_is, is_word, is_ident_start, is_upper, is_lower,
    is_underscore, is_digit, is_space;
  cbn [existsb u List.map list_ascii_of_string N_of_ascii N_of_digits];
  rewrite ?negb_true_iff, ?orb_false_iff, ?orb_true_iff, ?andb_true_iff,
    ?N.leb_le, ?N.eqb_eq, ?N.eqb_neq;
  lia.

Ltac alphabet_solve :=
  repeat match goal with
    | |- Forall (alphabet _) [] => constructor
    | |- Forall (alphabet _) (_ :: _) => constructor
    | |- alphabet _ (lit _) =>
        apply alphabet_lit_chars; vm_compute; repeat constructor; lia
    | |- alphabet _ (RGroup _ _) => cbn [alphabet]
    | |- alphabet _ (RStar _ _) => cbn [alphabet]
    | |- alphabet _ (star _) => unfold star; cbn [alphabet]
    | |- alphabet _ (plus _) => unfold plus; cbn [alphabet]; split
    | |- alphabet _ identifier => unfold identifier, star; cbn [alphabet]; split
    | |- alphabet _ ws => unfold ws; cbn [alphabet]
    | |- alphabet _ digit => unfold digit; cbn [alphabet]
    | |- alphabet _ (RChar _) => cbn [alphabet]
    | |- forall x, _ = true -> _ => class_neq
    end.

(** A registration ends with its only semicolon and has one opening
    parenthesis, after the macro name and white space. *)
Lemma funcRe_semicolon prev w rest :
  matches false funcRe prev w rest ->
  exists body, w = body ++ [59%N] /\ Forall (fun x => x <> 59%N) body.
Proof.
  unfold funcRe, registerRe.
  change (seq [lit "REGISTER_USER_FUNCTION"; star ws; lit "("; star ws;
               RGroup 1 identifier; star ws; lit ","; star ws;
               RGroup 2 (plus digit); star ws; lit ")"; star ws; lit ";"])
    with (seq ([lit "REGISTER_USER_FUNCTION"; star ws; lit "("; star ws;
                RGroup 1 identifier; star ws; lit ","; star ws;
                RGroup 2 (plus digit); star ws; lit ")"; star ws]
               ++ [lit ";"])).
  intros (body & w_last & prev' & -> & Hbody & Hlast)%(matches_seq_last
    false (fun x => x <> 59%N)); [|alphabet_solve].
  apply matches_lit_chars in Hlast as ->. by exists body.
Qed.

Lemma funcRe_parenthesis prev w rest :
  matches false funcRe prev w rest ->
  exists spaces tail,
    w = (u "REGISTER_USER_FUNCTION" ++ spaces) ++ 40%N :: tail /\
    Forall (fun x => is_space x = true) spaces /\
    Forall (fun x => x <> 40%N) tail.
Proof.
  unfold funcRe, registerRe.
  rewrite !seq_cons by done.
  intros (w1 & ? & -> & H1 & w2 & ? & -> & H2 & w3 & tail & -> & H3 & H4).
  apply matches_lit_chars in H1 as ->. apply matches_lit_chars in H3 as ->.
  apply starMatches_chars in H2.
  exists w2, tail. rewrite <- app_assoc. split; [done|]. split; [done|].
  eapply (matches_alphabet false (fun x => x <> 40%N)); [|exact H4].
  cbn [seq alphabet]. repeat split; alphabet_solve.
Qed.

Lemma snoc_eq_mid {A} (c : A) body : forall X Y,
  body ++ [c] = X ++ c :: Y -> Y <> [] -> In c body.
Proof.
  induction body as [|b body IH]; intros X Y Heq HY.
  - destruct X as [|x [|x' X]]; cbn in Heq; [|done..].
    injection Heq as <-. done.
  - destruct X as [|x X]; cbn in Heq.
    + injection Heq as -> _. by left.
    + injection Heq as -> Heq. right. by eapply IH.
Qed.

Lemma unique_split {A} (c : A) X : forall T X' T',
  X ++ c :: T = X' ++ c :: T' ->
  Forall (fun x => x <> c) X -> Forall (fun x => x <> c) T ->
  X = X' /\ T = T'.
Proof.
  induction X as [|x X IH]; intros T X' T' Heq HX HT.
  - destruct X' as [|x' X']; cbn in Heq.
    + by injection Heq as ->.
    + injection Heq as <- ->. apply Forall_app in HT as [_ HT].
      by inversion HT.
  - inversion HX as [|? ? Hx HX']; subst.
    destruct X' as [|x' X']; cbn in Heq.
    + by injection Heq as ->.
    + injection Heq as <- Heq.
      destruct (IH _ _ _ Heq HX' HT) as [-> ->]. done.
Qed.

Lemma nonempty_snoc {A} (l : list A) : l <> [] -> exists l' x, l = l' ++ [x].
Proof. destruct l using rev_ind; [done|eauto]. Qed.

(** A registration found in the text does not reach into a later
    registration of [Foo]. *)
Lemma funcRe_no_overlap prev w after post w_a w_b :
  matches false funcRe prev w after ->
  w = w_a ++ w_b -> w_a <> [] -> w_b <> [] ->
  w_b ++ after = registerFoo ++ post -> False.
Proof.
  intros Hw -> Ha Hb Heq.
  destruct (funcRe_semicolon _ _ _ Hw) as (body & Hbody & Hsemi).
  assert (Hwhole : w_b = registerFoo -> False).
  { intros ->.
    destruct (funcRe_parenthesis _ _ _ Hw) as (spaces & tail & Hparen & Hsp & Htail).
    change registerFoo
      with (u "REGISTER_USER_FUNCTION" ++ 40%N :: u "Foo, 3);") in Hparen.
    rewrite app_assoc in Hparen. symmetry in Hparen.
    apply unique_split in Hparen as [Hprefix _]; [| |done].
    2:{ apply Forall_app. split; [vm_compute; repeat constructor; lia|].
        eapply Forall_impl; [exact Hsp|]. intros x Hx%is_space_range. lia. }
    destruct (nonempty_snoc spaces) as (spaces' & x & ->).
    { intros ->. rewrite app_nil_r in Hprefix.
      apply (f_equal length) in Hprefix. rewrite length_app in Hprefix.
      destruct w_a; [done|]. cbn in Hprefix. lia. }
    change (u "REGISTER_USER_FUNCTION")
      with (u "REGISTER_USER_FUNCTIO" ++ [78%N]) in Hprefix at 2.
    rewrite !app_assoc in Hprefix. apply app_inj_tail in Hprefix as [_ ->].
    apply Forall_app in Hsp as [_ Hsp]. by inversion Hsp. }
  apply app_eq_app in Heq as [l [[-> Hpost]|[Hfoo Hafter]]].
  - destruct l as [|x l]; [by rewrite app_nil_r in Hwhole|].
    change registerFoo
      with (u "REGISTER_USER_FUNCTION(Foo, 3)" ++ [59%N]) in Hbody.
    rewrite <- !app_assoc in Hbody. cbn [app] in Hbody.
    rewrite !app_assoc in Hbody. symmetry in Hbody.
    apply snoc_eq_mid in Hbody; [|done].
    rewrite List.Forall_forall in Hsemi. by apply Hsemi in Hbody.
  - destruct (nonempty_snoc w_b Hb) as (w_b' & x & ->).
    rewrite app_assoc in Hbody. apply app_inj_tail in Hbody as [_ ->].
    destruct l as [|y l]; [rewrite app_nil_r in Hfoo; by apply Hwhole|].
    change registerFoo
      with (u "REGISTER_USER_FUNCTION(Foo, 3)" ++ [59%N]) in Hfoo.
    rewrite <- app_assoc in Hfoo. cbn [app] in Hfoo.
    apply snoc_eq_mid in Hfoo; [|done].
    vm_compute in Hfoo. intuition discriminate.
Qed.

Lemma split_around {A} (pre R skipped w after : list A) :
  pre ++ R = skipped ++ w ++ after -> (length skipped < length pre)%nat ->
  (exists pre'', pre = skipped ++ w ++ pre'' /\ after = pre'' ++ R) \/
  (exists w_a w_b, w = w_a ++ w_b /\ w_a <> [] /\ w_b <> [] /\
                   w_b ++ after = R).
Proof.
  intros Heq Hlen.
  apply app_eq_app in Heq as [l [[-> Hrest]|[-> Hrest]]].
  2:{ rewrite length_app in Hlen. lia. }
  assert (l <> []) by (intros ->; rewrite app_nil_r in Hlen; lia).
  apply app_eq_app in Hrest as [l' [[-> Hafter]|[-> HR]]].
  - destruct l' as [|x l'].
    + left. exists []. rewrite !app_nil_r. cbn in Hafter. done.
    + right. exists l, (x :: l'). done.
  - left. exists l'. done.
Qed.

Lemma matchAllFrom_finds fuel : forall pre prev post,
  (length pre < fuel)%nat ->
  exists m,
    In m (matchAllFrom fuel false funcRe prev (pre ++ registerFoo ++ post)) /\
    groups m = [(2%nat, u "3"); (1%nat, u "Foo")].
Proof.
  induction fuel as [|fuel IH]; intros pre prev post Hfuel; [lia|].
  cbn [matchAllFrom].
  destruct (search_complete false funcRe pre (registerFoo ++ post) prev 0)
    as (m & Hm & Hcase).
  { rewrite matchAt_registerFoo. done. }
  rewrite Hm. destruct Hcase as [Hlt|(_ & n & prev' & rest' & c & Hat & ->)].
  - destruct (search_sound false registerGroups funcRe
                (registerRe_groups _) _ _ _ _ Hm)
      as (([prev0 Hw] & _) & skipped & Heq & Hidx & Hprev).
    cbn in Hidx. rewrite Hidx in Hlt.
    destruct (funcRe_semicolon _ _ _ Hw) as (body & Hbody & _).
    destruct (split_around _ _ _ _ _ Heq Hlt)
      as [(pre'' & Hpre & Hafter)|(w_a & w_b & Hsplit & Ha & Hb & Hover)].
    + destruct (matched m) as [|x w] eqn:Hmatched; [by destruct body|].
      rewrite Hafter.
      destruct (IH pre'' (prevAfter m) post) as (m' & Hin & Hgroups).
      { rewrite Hpre, !length_app in Hfuel. cbn [length] in Hfuel. lia. }
      exists m'. split; [by right|done].
    + destruct (funcRe_no_overlap _ _ _ _ _ _ Hw Hsplit Ha Hb Hover).
  - rewrite matchAt_registerFoo in Hat. injection Hat as <- <- <- <-.
    eexists. split; [by left|done].
Qed.

Lemma extractRegisteredEntries_finds pre post :
  In (Registered.mk KFunction (u "Foo") 3)
    (extractRegisteredEntries (pre ++ registerFoo ++ post)).
Proof.
  unfold extractRegisteredEntries. apply in_or_app. left.
  destruct (matchAllFrom_finds
              (S (length (pre ++ registerFoo ++ post))) pre None post)
    as (m & Hin & Hgroups).
  { rewrite length_app. lia. }
  apply (in_map (registeredOf KFunction)) in Hin.
  unfold registeredOf in Hin at 1. rewrite Hgroups in Hin. exact Hin.
Qed.

(** ** Entries whose structs are not in the header *)

Lemma extractStructBody_absent source structName :
  (forall j, ~ occursAt (u "struct " ++ structName) source j) ->
  extractStructBody source structName = None.
Proof.
  intros Habsent. unfold extractStructBody.
  destruct (indexOf _ source) as [idx|] eqn:Hidx; [|done].
  apply indexOf_Some in Hidx as [Hocc _]. by apply Habsent in Hocc.
Qed.

Lemma sideTypeRef_absent depth c structName st :
  extractStructBody (headerSource c) structName = None ->
  sideTypeRef depth c structName st = Some (TNodata None, st).
Proof. intros H. unfold sideTypeRef. by rewrite H. Qed.

Lemma Forall2_In_left {A B} (R : A -> B -> Prop) l k x :
  Forall2 R l k -> In x l -> exists y, In y k /\ R x y.
Proof.
  induction 1 as [|a b l k Hab _ IH]; intros Hx; [destruct Hx|].
  destruct Hx as [->|Hx].
  - exists b. split; [by left|done].
  - destruct (IH Hx) as (y & Hy & HR). exists y. split; [by right|done].
Qed.

Lemma Forall2_In_right {A B} (R : A -> B -> Prop) l k y :
  Forall2 R l k -> In y k -> exists x, In x l /\ R x y.
Proof.
  induction 1 as [|a b l k Hab _ IH]; intros Hy; [destruct Hy|].
  destruct Hy as [->|Hy].
  - exists a. split; [by left|done].
  - destruct (IH Hy) as (x & Hx & HR). exists x. split; [by right|done].
Qed.

(** The loop adds one entry for each registered entry, in their order. *)
Lemma compileEntries_shape depth c entries : forall compiled st res st',
  compileEntries depth c entries compiled st = Some (Ok (res, st')) ->
  exists added,
    res = compiled ++ added /\
    Forall2 (entryFrom (headerSource c)) entries added.
Proof.
  induction entries as [|entry entries IH]; intros compiled st res st';
    cbn [compileEntries].
  { intros [= <- <-]. exists []. rewrite app_nil_r. split; [done|constructor]. }
  destruct (sideTypeRef depth c _ st) as [[inputTypeRef st1]|] eqn:Hin; [|done].
  destruct (sideTypeRef depth c _ st1) as [[outputTypeRef st2]|] eqn:Hout;
    [|done].
  destruct (cppLayoutOf inputTypeRef) as [inputLayout|] eqn:Hli; [|done].
  destruct (cppLayoutOf outputTypeRef) as [outputLayout|] eqn:Hlo; [|done].
  intros (added & -> & Hadded)%IH.
  eexists (_ :: added). rewrite <- app_assoc. split; [done|].
  constructor; [|done]. unfold entryFrom. cbn.
  split; [done|]. split; [done|]. split; [done|]. split.
  - intros Habsent. rewrite (sideTypeRef_absent _ _ _ _ Habsent) in Hin.
    injection Hin as <- <-. cbn in Hli. injection Hli as <-. done.
  - intros Habsent. rewrite (sideTypeRef_absent _ _ _ _ Habsent) in Hout.
    injection Hout as <- <-. cbn in Hlo. injection Hlo as <-. done.
Qed.



(** ** More about the layout calculator *)

Lemma cppLayoutOf_Ok_wellFormed t l : cppLayoutOf t = Ok l -> wellFormed t = true.
Proof.
  intros Hl. destruct (wellFormed t) eqn:Hwf; [done|].
  destruct (cppLayoutOf_throw t Hwf) as [e He]. congruence.
Qed.

Lemma cppLayoutOf_Ok_layoutOk t l : cppLayoutOf t = Ok l -> layoutOk t l.
Proof.
  intros Hl. destruct (cppLayoutOf_ok t (cppLayoutOf_Ok_wellFormed t l Hl))
    as (l' & Hl' & Hok). congruence.
Qed.

Lemma alignUp_lt v a : alignOk a -> alignUp v a < v + a.
Proof.
  intros Ha. rewrite alignUp_roundUp by (unfold alignOk in Ha; lia).
  apply roundUp_spec. unfold alignOk in Ha; lia.
Qed.

Lemma alignUp_0 a : alignUp 0 a = 0.
Proof. unfold alignUp, ceil_div. by destruct (a <=? 1). Qed.


Lemma structLoop_zero fields :
  Forall (fun f => exists l, cppLayoutOf (snd f) = Ok l /\ size l = 0) fields ->
  forall structAlign, exists structAlign',
    structLoop fields 0 structAlign = Ok (0, structAlign') /\
    (forall f l, In f fields -> cppLayoutOf (snd f) = Ok l ->
       align l <= structAlign') /\
    structAlign <= structAlign'.
Proof.
  induction 1 as [|f fs (l & Hl & Hsz) _ IH]; intros structAlign.
  - exists structAlign. split; [done|]. split; [by intros ? ? []|lia].
  - destruct (IH (Z.max structAlign (align l))) as (a' & Hloop & Hall & Hle).
    exists a'. cbn [structLoop]. rewrite Hl, Hsz.
    rewrite alignUp_0.
    split; [done|]. split; [|lia].
    intros g lg [<-|Hin] Hlg; [|by eapply Hall].
    assert (lg = l) as -> by congruence. lia.
Qed.

(** X3: a struct whose fields all have the size zero (an empty struct, or
    fields that are arrays of length zero or bytes of length zero) has the
    size 1, and it keeps the largest alignment of its fields: its size need
    not be a multiple of its alignment. *)
Theorem struct_of_empty_fields (fields : list QbiStructField) :
  Forall (fun f => exists l, cppLayoutOf (ftypeRef f) = Ok l /\ size l = 0)
    fields ->
  exists structAlign,
    cppLayoutOf (TStruct fields) = Ok (mkLayout 1 structAlign) /\
    forall f l, In f fields -> cppLayoutOf (ftypeRef f) = Ok l ->
      align l <= structAlign.
Proof.
  intros Hall. destruct (structLoop_zero fields Hall 1) as (a' & Hloop & Hle & H1).
  exists a'. rewrite cppLayoutOf_struct, Hloop. cbn zeta.
  rewrite alignUp_0.
  done.
Qed.

Lemma struct_of_empty_fields_witness :
  let fields := [(u "a", TArray (Int 0) (TPrim U64))] in
  cppLayoutOf (TStruct fields) = Ok (mkLayout 1 8) /\
  exists structAlign,
    cppLayoutOf (TStruct fields) = Ok (mkLayout 1 structAlign) /\
    forall f l, In f fields -> cppLayoutOf (ftypeRef f) = Ok l ->
      align l <= structAlign.
Proof.
  split; [reflexivity|].
  apply (struct_of_empty_fields [(u "a", TArray (Int 0) (TPrim U64))]).
  constructor; [|constructor]. exists (mkLayout 0 8). split; reflexivity.
Defined.

Lemma structLoop_bounds fields ls :
  Forall2 (fun f l => cppLayoutOf (snd f) = Ok l) fields ls ->
  forall offset structAlign offset' structAlign',
    structLoop fields offset structAlign = Ok (offset', structAlign') ->
    offset + sumSizes ls <= offset' /\
    offset' <= offset + sumSizes ls + Z.of_nat (length ls) * (structAlign' - 1) /\
    structAlign <= structAlign' /\
    Forall (fun l => align l <= structAlign') ls /\
    0 <= sumSizes ls /\
    (Forall (fun l => align l <= structAlign) ls -> structAlign' = structAlign).
Proof.
  induction 1 as [|f l fs ls Hl _ IH]; intros o a o' a' Hloop.
  - cbn in Hloop. injection Hloop as <- <-. cbn. split; [lia|].
    split; [lia|]. split; [lia|]. split; [constructor|]. split; [lia|done].
  - cbn [structLoop] in Hloop. rewrite Hl in Hloop.
    destruct (IH _ _ _ _ Hloop) as (Hlo & Hhi & Ha & Hall & Hsum & Hsame).
    destruct (cppLayoutOf_Ok_layoutOk _ _ Hl) as (Hal & Hsz & _).
    pose proof (alignUp_ge o _ Hal). pose proof (alignUp_lt o _ Hal).
    cbn [sumSizes foldr length]. fold (sumSizes ls).
    split; [lia|]. split; [rewrite Nat2Z.inj_succ; nia|].
    split; [lia|]. split; [constructor; [lia|done]|]. split; [lia|].
    intros Hle. inversion Hle as [|? ? Hl1 Hle']; subst.
    rewrite Hsame; [lia|].
    eapply Forall_impl; [exact Hle'|]. intros l' Hl'. cbn in Hl'. lia.
Qed.



Lemma firstBadLength_struct fields :
  firstBadLength (TStruct fields) =
  match fields with
  | [] => None
  | f :: fs' =>
      match firstBadLength (snd f) with
      | Some kind => Some kind
      | None => firstBadLength (TStruct fs')
      end
  end.
Proof. by destruct fields. Qed.

Lemma structLoop_first_bad fields :
  Forall (fun f =>
    match firstBadLength (snd f) with
    | Some kind => cppLayoutOf (snd f) = Throw (RangeError (lengthMessage kind))
    | None => exists l, cppLayoutOf (snd f) = Ok l
    end) fields ->
  forall offset structAlign,
    match firstBadLength (TStruct fields) with
    | Some kind =>
        structLoop fields offset structAlign
        = Throw (RangeError (lengthMessage kind))
    | None => exists r, structLoop fields offset structAlign = Ok r
    end.
Proof.
  induction 1 as [|f fs Hf _ IH]; intros offset structAlign.
  - cbn. eauto.
  - rewrite firstBadLength_struct. cbn [structLoop].
    destruct (firstBadLength (snd f)) as [kind|].
    + by rewrite Hf.
    + destruct Hf as [l ->]. apply IH.
Qed.

(** X5: [cppLayoutOf] fails at the first length that is negative or not an
    integer, in the order of the text (the length of an array before its
    item, the fields of a struct in declared order); the error is a
    RangeError whose message names the kind of that length, [bytes.length]
    or [array.length]; without such a length a layout is returned. *)
Theorem cppLayoutOf_first_bad_length (t : QbiTypeRef) :
  match firstBadLength t with
  | Some kind => cppLayoutOf t = Throw (RangeError (lengthMessage kind))
  | None => exists l, cppLayoutOf t = Ok l
  end.
Proof.
  induction t as [e|p|n| |n item IH|fields IH] using QbiTypeRef_ind.
  - cbn. eauto.
  - cbn. eauto.
  - cbn [firstBadLength cppLayoutOf]. destruct (isUint n) eqn:Hn.
    + destruct (assertPositiveInt_Ok n (u "bytes.length") Hn)
        as (z & -> & _ & ->). eauto.
    + by rewrite assertPositiveInt_Throw.
  - cbn. eauto.
  - cbn [firstBadLength cppLayoutOf]. destruct (isUint n) eqn:Hn.
    + destruct (assertPositiveInt_Ok n (u "array.length") Hn)
        as (z & -> & _ & ->).
      destruct (firstBadLength item) as [kind|].
      * by rewrite IH.
      * destruct IH as [l ->]. eauto.
    + by rewrite assertPositiveInt_Throw.
  - rewrite cppLayoutOf_struct.
    pose proof (structLoop_first_bad fields IH 0 1) as Hloop.
    destruct (firstBadLength (TStruct fields)) as [kind|].
    + by rewrite Hloop.
    + destruct Hloop as [[o a] ->]. cbn zeta. eauto.
Qed.

(** X6: [normalizeNoData], given the size of the layout as
    [compileContractHeader] gives it, does not change the layout; it is
    idempotent and never returns a struct without fields. *)
Theorem normalizeNoData_keeps_layout (t : QbiTypeRef) (l : CppLayout) :
  cppLayoutOf t = Ok l ->
  cppLayoutOf (normalizeNoData t (size l)) = Ok l /\
  normalizeNoData (normalizeNoData t (size l)) (size l)
  = normalizeNoData t (size l) /\
  normalizeNoData t (size l) <> TStruct [].
Proof.
  intros Hl.
  destruct t as [e|p|n| |n item|[|f fields]]; try done.
  cbn in Hl. injection Hl as <-. done.
Qed.

Lemma normalizeNoData_keeps_layout_witness :
  cppLayoutOf (normalizeNoData (TStruct []) 1) = Ok (mkLayout 1 1) /\
  normalizeNoData (normalizeNoData (TStruct []) 1) 1
  = normalizeNoData (TStruct []) 1 /\
  normalizeNoData (TStruct []) 1 <> TStruct [].
Proof.
  apply (normalizeNoData_keeps_layout (TStruct []) (mkLayout 1 1)).
  reflexivity.
Defined.

Lemma structLoop_rename name fields :
  Forall (fun f => cppLayoutOf (renameFields name (snd f)) = cppLayoutOf (snd f))
    fields ->
  forall offset structAlign,
    structLoop (map (fun f => (name, renameFields name (snd f))) fields)
      offset structAlign
    = structLoop fields offset structAlign.
Proof.
  induction 1 as [|f fs Hf _ IH]; intros offset structAlign; [done|].
  cbn [map structLoop snd]. rewrite Hf.
  destruct (cppLayoutOf (snd f)); [apply IH|done].
Qed.

(** X7: the layout does not depend on the names of the fields, at any depth
    of the type reference. *)
Theorem cppLayoutOf_ignores_names (name : str) (t : QbiTypeRef) :
  cppLayoutOf (renameFields name t) = cppLayoutOf t.
Proof.
  induction t as [e|p|n| |n item IH|fields IH] using QbiTypeRef_ind;
    try reflexivity.
  - cbn [renameFields cppLayoutOf]. by rewrite IH.
  - cbn [renameFields]. rewrite !cppLayoutOf_struct.
    by rewrite structLoop_rename.
Qed.
(** ** Expressions that are anchored at both ends *)

Lemma search_matches ml G r : groupsSound ml G r ->
  forall rest prev idx m,
    search ml r prev rest idx = Some m ->
    exists skipped,
      rest = skipped ++ matched m ++ after m /\
      index m = (idx + length skipped)%nat /\
      matches ml r (prevAfterWord prev skipped) (matched m) (after m) /\
      capturesOk G (groups m) /\
      (forall n, setsGroup n r = true -> is_Some (capture n (groups m))).
Proof.
  intros HG rest. induction rest as [|x rest IH]; intros prev idx m;
    rewrite search_unfold;
    destruct (matchAt ml r prev _) as [[[[n prev'] rest'] c]|] eqn:Hat.
  - intros [= <-].
    apply (matchAt_sound ml G r _ _ _ _ _ _ HG) in Hat
      as (w & -> & -> & Hw & -> & Hok & Hsets).
    exists []. cbn. rewrite take_app_length.
    split; [done|]. split; [lia|]. done.
  - done.
  - intros [= <-].
    apply (matchAt_sound ml G r _ _ _ _ _ _ HG) in Hat
      as (w & Heq & -> & Hw & -> & Hok & Hsets).
    exists []. cbn [app matched after groups index length].
    rewrite Heq, take_app_length.
    split; [done|]. split; [lia|]. done.
  - intros (skipped & -> & -> & Hm & Hok & Hsets)%IH.
    exists (x :: skipped). cbn [app length]. split; [done|]. split; [lia|].
    split; [|done].
    change (x :: skipped) with ([x] ++ skipped).
    by rewrite prevAfterWord_app.
Qed.

Lemma prevAfterWord_None skipped : prevAfterWord None skipped = None -> skipped = [].
Proof.
  unfold prevAfterWord. destruct (last skipped) eqn:Hlast; [done|].
  intros _. by apply last_None.
Qed.

(** An expression that starts with the start of the text matches at the
    index 0 only. *)
Lemma exec_anchored G r s m :
  groupsSound false G r -> exec false (RSeq RBol r) s = Some m ->
  s = matched m ++ after m /\ index m = 0%nat /\
  matches false r None (matched m) (after m) /\
  capturesOk G (groups m) /\
  (forall n, setsGroup n r = true -> is_Some (capture n (groups m))).
Proof.
  intros HG Hexec. unfold exec in Hexec.
  apply (search_matches false G (RSeq RBol r)) in Hexec
    as (skipped & Heq & Hidx & (w1 & w2 & Hw & [-> Hbol] & Hr) & Hok & Hsets);
    [|by split].
  assert (skipped = []) as ->.
  { apply prevAfterWord_None. unfold at_bol in Hbol.
    by destruct (prevAfterWord None skipped). }
  cbn in Hw, Hr. rewrite <- Hw in Hr.
  split; [done|]. split; [done|]. split; [done|]. split; [done|].
  intros n Hn. apply Hsets. cbn. done.
Qed.

Lemma at_eol_end rest : at_eol false rest = true -> rest = [].
Proof. by destruct rest. Qed.

Lemma class_plus_complete p s :
  s <> [] -> Forall (fun x => p x = true) s ->
  test false (seq [RBol; plus (RChar p); REol]) s = true.
Proof.
  intros Hs Hall. unfold test. apply bool_decide_eq_true.
  destruct s as [|x k]; [done|].
  inversion Hall as [|? ? Hx Hk']; subst.
  unfold exec. rewrite search_unfold. unfold matchAt.
  change (rmatch false (seq [RBol; plus (RChar p); REol])
            (fun i' prev' rest' c' => Some (i', prev', rest', c'))
            0%nat None (x :: k) [])
    with (if p x
          then rstar true (rmatch false (RChar p))
                 (rmatch false REol
                    (fun i' prev' rest' c' => Some (i', prev', rest', c')))
                 (length k) 1%nat (Some x) k []
          else None).
  rewrite Hx.
  destruct (rstar_class_all false p
              (rmatch false REol
                 (fun i' prev' rest' c' => Some (i', prev', rest', c')))
              k (length k) 1%nat (Some x) [])
    as [[[[n' prev'] rest'] c'] Hstar]; [done|done|done|].
  rewrite Hstar. done.
Qed.

(** The test of a text against a class, one or more times, from the start
    to the end. *)
Lemma test_class_plus p s :
  test false (seq [RBol; plus (RChar p); REol]) s = true <->
  s <> [] /\ Forall (fun x => p x = true) s.
Proof.
  split; [|intros [? ?]; by apply class_plus_complete].
  unfold test. intros [m Hm]%bool_decide_eq_true.
  change (seq [RBol; plus (RChar p); REol])
    with (RSeq RBol (RSeq (plus (RChar p)) REol)) in Hm.
  apply (exec_anchored (fun _ _ => True)) in Hm
    as (-> & _ & (w1 & w2 & Hw & Hplus & [-> Heol]) & _); [|done].
  apply at_eol_end in Heol. rewrite Heol, Hw, !app_nil_r in *.
  by apply plus_chars in Hplus.
Qed.

(** ** The validator, case by case *)

Lemma isHex_spec value len :
  isHex value len = true <->
  length value = len /\ value <> [] /\ Forall (fun x => is_hex x = true) value.
Proof.
  unfold isHex. rewrite andb_true_iff, Nat.eqb_eq, test_class_plus. tauto.
Qed.

(** X8: [isHex] accepts exactly the texts of the given length that are not
    empty and consist of the digits 0 to 9 and the letters a to f in either
    case; for the length 0 it accepts nothing. *)
Theorem isHex_accepts_exactly (value : str) (len : nat) :
  (isHex value len = true <->
   length value = len /\ value <> [] /\
   Forall (fun x => is_digit x = true \/ (97 <= x <= 102)%N \/ (65 <= x <= 70)%N)
     value) /\
  isHex value 0 = false.
Proof.
  split.
  - rewrite isHex_spec.
    assert (Hhex : forall x, is_hex x = true <->
              is_digit x = true \/ (97 <= x <= 102)%N \/ (65 <= x <= 70)%N).
    { intros x. unfold is_hex.
      rewrite !orb_true_iff, !andb_true_iff, !N.leb_le. tauto. }
    split; intros (? & ? & Hall); (split; [done|split; [done|]]);
      (eapply Forall_impl; [exact Hall|]); intros x; apply Hhex.
  - apply not_true_is_false. intros (Hlen & Hne & _)%isHex_spec.
    by destruct value.
Qed.
Lemma extends_same (P : Prop) errors : P -> extends P errors errors.
Proof. intros HP. exists []. by rewrite app_nil_r. Qed.

Lemma extends_push (P : Prop) errors msg : ~ P -> extends P errors (errors ++ [msg]).
Proof. intros HP. exists [msg]. split; [done|]. split; [done|]. intros ?. done. Qed.

Lemma extends_trans (P Q : Prop) e1 e2 e3 :
  extends P e1 e2 -> extends Q e2 e3 -> extends (P /\ Q) e1 e3.
Proof.
  intros (n1 & -> & H1) (n2 & -> & H2). exists (n1 ++ n2).
  rewrite app_assoc. split; [done|]. split.
  - intros [-> ->]%app_eq_nil. split; [by apply H1|by apply H2].
  - intros [HP HQ]. apply H1 in HP as ->. by apply H2 in HQ as ->.
Qed.

Lemma extends_iff (P Q : Prop) e1 e2 : (P <-> Q) -> extends P e1 e2 -> extends Q e1 e2.
Proof. intros HPQ (n & -> & Hn). exists n. split; [done|]. by rewrite Hn. Qed.

Lemma extends_nil (P : Prop) result : extends P [] result -> (result = [] <-> P).
Proof. by intros (n & -> & Hn). Qed.

(** ** The key of a contract *)

Lemma hexDigit_lower n : 0 <= n < 16 ->
  is_lower_hex (hexDigit n) = true /\ hexValue (hexDigit n) = n.
Proof.
  intros Hn.
  assert (Hall : forallb
            (fun k => is_lower_hex (hexDigit (Z.of_nat k)) &&
                      (hexValue (hexDigit (Z.of_nat k)) =? Z.of_nat k))
            (List.seq 0 16) = true) by (vm_compute; reflexivity).
  rewrite forallb_forall in Hall. specialize (Hall (Z.to_nat n)).
  rewrite Z2Nat.id in Hall by lia.
  apply andb_true_iff in Hall as [? ?%Z.eqb_eq]; [done|].
  apply in_seq. lia.
Qed.

Lemma toHex_bytes bytes :
  Forall isByte bytes ->
  length (toHex bytes) = (2 * length bytes)%nat /\
  Forall (fun c => is_lower_hex c = true) (toHex bytes) /\
  fromHex (toHex bytes) = bytes.
Proof.
  induction 1 as [|b bytes Hb _ (Hlen & Hall & Hback)]; [done|].
  unfold isByte in Hb.
  destruct (hexDigit_lower (b / 16)) as [Hhi Hhi'];
    [split; [apply Z.div_pos; lia|apply Z.div_lt_upper_bound; lia]|].
  destruct (hexDigit_lower (b mod 16)) as [Hlo Hlo'];
    [apply Z.mod_pos_bound; lia|].
  cbn [toHex flat_map app length fromHex]. fold (toHex bytes).
  split; [rewrite Hlen; lia|]. split; [by repeat constructor|].
  rewrite Hhi', Hlo', Hback. f_equal.
  pose proof (Z.div_mod b 16 ltac:(lia)). lia.
Qed.

Lemma littleEndian_bytes n : forall v,
  length (littleEndian n v) = n /\ Forall isByte (littleEndian n v) /\
  littleEndianValue (littleEndian n v) = v mod 256 ^ Z.of_nat n.
Proof.
  induction n as [|n IH]; intros v.
  - cbn. split; [done|]. split; [constructor|]. by rewrite Z.mod_1_r.
  - destruct (IH (v / 256)) as (Hlen & Hall & Hval).
    cbn [littleEndian length]. split; [by rewrite Hlen|].
    split; [constructor; [apply Z.mod_pos_bound; lia|done]|].
    unfold littleEndianValue. cbn [foldr]. fold (littleEndianValue (littleEndian n (v / 256))).
    rewrite Hval, Nat2Z.inj_succ, Z.pow_succ_r by lia.
    rewrite Z.rem_mul_r by lia. lia.
Qed.

Lemma is_lower_hex_is_hex c : is_lower_hex c = true -> is_hex c = true.
Proof. unfold is_lower_hex, is_hex. intros ->. done. Qed.

Lemma contractKeyHex_Ok n key :
  contractKeyHex n = Ok key ->
  exists z, n = Int z /\ 0 <= z <= 4294967295 /\
    key = toHex (littleEndian 8 z ++ replicate 24 0).
Proof.
  destruct n as [z|]; cbn [contractKeyHex]; [|done].
  destruct (Z.ltb_spec z 0); [done|].
  destruct (Z.ltb_spec 4294967295 z); [done|]. cbn [orb].
  intros [= <-]. exists z. split; [done|]. split; [lia|].
  unfold setBigUint64. change (2 ^ 64) with 18446744073709551616.
  rewrite (Z.mod_small z 18446744073709551616) by lia. reflexivity.
Qed.

(** X12: [contractKeyHex] returns exactly for the integers from 0 to
    4294967295, and throws the RangeError "contractIndex must fit in
    uint32" for every other number. *)
Theorem contractKeyHex_returns_exactly (contractIndex : number) :
  ((exists key, contractKeyHex contractIndex = Ok key) <->
   exists z, contractIndex = Int z /\ 0 <= z <= 4294967295) /\
  ((forall key, contractKeyHex contractIndex <> Ok key) ->
   contractKeyHex contractIndex
   = Throw (RangeError (u "contractIndex must fit in uint32"))).
Proof.
  split; [split|].
  - intros [key (z & -> & Hz & _)%contractKeyHex_Ok]. eauto.
  - intros (z & -> & Hz). cbn [contractKeyHex].
    destruct (Z.ltb_spec z 0); [lia|].
    destruct (Z.ltb_spec 4294967295 z); [lia|]. cbn [orb]. eauto.
  - intros Hno. destruct contractIndex as [z|]; cbn [contractKeyHex]; [|done].
    destruct ((z <? 0) || (4294967295 <? z)) eqn:Hz; [done|].
    exfalso. eapply Hno. unfold contractKeyHex. by rewrite Hz.
Qed.

Lemma key_bytes z :
  Forall isByte (littleEndian 8 z ++ replicate 24 0).
Proof.
  apply Forall_app. split; [apply littleEndian_bytes|].
  apply Forall_replicate. unfold isByte. lia.
Qed.

Lemma contractKeyHex_read_back z key :
  contractKeyHex (Int z) = Ok key ->
  length key = 64%nat /\
  Forall (fun c => is_lower_hex c = true) key /\
  drop 8 key = replicate 56 48%N /\
  contractIndexOfKey key = z.
Proof.
  intros (z' & [= <-] & Hz & ->)%contractKeyHex_Ok.
  destruct (toHex_bytes _ (key_bytes z)) as (Hlen & Hall & Hback).
  destruct (littleEndian_bytes 8 z) as (Hlen8 & _ & Hval).
  rewrite length_app, Hlen8, length_replicate in Hlen.
  split; [done|]. split; [done|]. split.
  - cbn [littleEndian app toHex flat_map drop].
    assert (z / 256 / 256 / 256 / 256 = 0) as ->.
    { rewrite !Z.div_div by lia. apply Z.div_small. lia. }
    reflexivity.
  - unfold contractIndexOfKey. rewrite Hback.
    rewrite take_app_length' by done. rewrite Hval.
    apply Z.mod_small. change (256 ^ Z.of_nat 8) with 18446744073709551616. lia.
Qed.

Lemma contractKeyHex_isHex z key :
  contractKeyHex (Int z) = Ok key -> isHex key 64 = true.
Proof.
  intros (Hlen & Hall & _)%contractKeyHex_read_back.
  apply isHex_spec. split; [done|]. split.
  - intros Hnil. by rewrite Hnil in Hlen.
  - eapply Forall_impl; [exact Hall|]. apply is_lower_hex_is_hex.
Qed.

(** X13: a key that [contractKeyHex] returns has 64 hexadecimal digits in
    lower case, so [isHex] accepts it as a key; its digits after the first
    eight are zeros; and the index can be read back from it. *)
Theorem contractKeyHex_key (contractIndex : Z) (key : str) :
  contractKeyHex (Int contractIndex) = Ok key ->
  isHex key 64 = true /\
  Forall (fun c => is_lower_hex c = true) key /\
  drop 8 key = replicate 56 48%N /\
  contractIndexOfKey key = contractIndex.
Proof.
  intros Hkey. split; [by eapply contractKeyHex_isHex|].
  by destruct (contractKeyHex_read_back _ _ Hkey) as (_ & ? & ? & ?).
Qed.

Lemma contractKeyHex_key_witness :
  let key := u "2c01000000000000000000000000000000000000000000000000000000000000" in
  contractKeyHex (Int 300) = Ok key /\
  isHex key 64 = true /\
  Forall (fun c => is_lower_hex c = true) key /\
  drop 8 key = replicate 56 48%N /\
  contractIndexOfKey key = 300.
Proof.
  split; [reflexivity|].
  apply (contractKeyHex_key 300
    (u "2c01000000000000000000000000000000000000000000000000000000000000")).
  reflexivity.
Defined.
(** ** The arguments of the command line *)

Lemma follows_cons key value x rest :
  follows key value rest -> follows key value (x :: rest).
Proof. intros (before & behind & ->). by exists (x :: before), behind. Qed.

Lemma follows_cons2 key value x y rest :
  follows key value rest -> follows key value (x :: y :: rest).
Proof. intros H. by do 2 apply follows_cons. Qed.

(** What [parseArgsFrom] adds to the map. *)
Lemma parseArgsFrom_lookup n : forall rest out key value,
  (length rest <= n)%nat ->
  parseArgsFrom rest out !! key = Some value ->
  out !! key = Some value \/
  (startsWith (u "-") key = true /\
   (value = u "true" \/
    (value <> [] /\ startsWith (u "-") value = false /\
     follows key value rest))).
Proof.
  induction n as [|n IH]; intros rest out key value Hlen Hget.
  - destruct rest; [by left|cbn in Hlen; lia].
  - destruct rest as [|k rest]; [by left|]. cbn in Hlen.
    cbn [parseArgsFrom] in Hget.
    destruct (startsWith (u "-") k) eqn:Hk; cbn [negb] in Hget.
    2:{ destruct (IH rest out key value ltac:(lia) Hget)
          as [?|(? & [?|(? & ? & ?)])]; [by left|by right; split; [|left]|].
        right. split; [done|]. right. split; [done|]. split; [done|].
        by apply follows_cons. }
    destruct rest as [|v rest].
    { destruct (decide (key = k)) as [->|Hne].
      - rewrite lookup_insert_eq in Hget. injection Hget as <-.
        right. split; [done|by left].
      - rewrite lookup_insert_ne in Hget by done. by left. }
    destruct (bool_decide (v = []) || startsWith (u "-") v) eqn:Hv.
    + destruct (IH (v :: rest) _ key value ltac:(cbn in *; lia) Hget)
        as [Hout|(? & [?|(? & ? & ?)])].
      * destruct (decide (key = k)) as [->|Hne].
        -- rewrite lookup_insert_eq in Hout. injection Hout as <-.
           right. split; [done|by left].
        -- rewrite lookup_insert_ne in Hout by done. by left.
      * right. split; [done|by left].
      * right. split; [done|]. right. split; [done|]. split; [done|].
        by apply follows_cons.
    + apply orb_false_iff in Hv as [Hv1 Hv2].
      apply bool_decide_eq_false in Hv1.
      destruct (IH rest _ key value ltac:(cbn in *; lia) Hget)
        as [Hout|(? & [?|(? & ? & ?)])].
      * destruct (decide (key = k)) as [->|Hne].
        -- rewrite lookup_insert_eq in Hout. injection Hout as <-.
           right. split; [done|]. right. split; [done|]. split; [done|].
           by exists [], rest.
        -- rewrite lookup_insert_ne in Hout by done. by left.
      * right. split; [done|by left].
      * right. split; [done|]. right. split; [done|]. split; [done|].
        by apply follows_cons2.
Qed.

(** X14: a value that [required] returns for the arguments that [parseArgs]
    read is a word of the command line that follows the key; the key starts
    with a dash, and the value is not empty, does not start with a dash and
    is not the word [true].  In every other case [required] throws the
    Error "Missing required arg" with the key. *)
Theorem required_parseArgs (rest : list str) (key : str) :
  match required (parseArgs rest) key with
  | Returned value =>
      startsWith (u "-") key = true /\ value <> [] /\
      startsWith (u "-") value = false /\ value <> u "true" /\
      follows key value rest
  | Thrown e => e = Error (u "Missing required arg: " ++ key)
  end.
Proof.
  unfold required.
  destruct (parseArgs rest !! key) as [[|c value]|] eqn:Hget; [done| |done].
  unfold str_eqb.
  destruct (decide (c :: value = u "true")) as [Htrue|Htrue].
  - by rewrite bool_decide_true.
  - rewrite bool_decide_false by done.
    destruct (parseArgsFrom_lookup (length rest) rest ∅ key (c :: value)
                ltac:(lia) Hget) as [Hout|(? & [?|(? & ? & ?)])]; [done|done|].
    done.
Qed.
(** ** The parser of [contract_def.h] *)

(** The parser on the text of its test in the repository. *)
Example parseContractDefH_test :
  parseContractDefH contractDefTest =
  [ContractDefEntry.mk (u "QX") 1 (u "Qx.h");
   ContractDefEntry.mk (u "QUTIL") 4 (u "QUtil.h")].
Proof. vm_compute. reflexivity. Qed.

Lemma idxRe_groups : groupsSound false idxGroups idxRe.
Proof.
  unfold idxRe. groups_sound; try done.
  intros prev w rest H _. by apply plus_chars in H as [_ H].
Qed.

Lemma stRe_groups : groupsSound false stGroups stRe.
Proof.
  unfold stRe. groups_sound; try done.
  intros prev w rest H _. by apply identifier_chars in H.
Qed.

Lemma incRe_groups : groupsSound false incGroups incRe.
Proof.
  unfold incRe. groups_sound; try done.
  intros prev w rest H _. apply plus_chars in H as [Hne H].
  split; [done|]. eapply Forall_impl; [exact H|].
  intros c Hc ->. done.
Qed.

Lemma idxRe_index line m :
  exec false idxRe line = Some m -> 0 <= Number (group 2 (groups m)).
Proof.
  intros [(_ & Hok & Hsets) _]%(exec_sound _ _ _ _ _ idxRe_groups).
  apply Number_nonneg.
  apply (group_ok idxGroups 2 _ Hok); [|done]. apply Hsets.
  reflexivity.
Qed.

Lemma stRe_name line m :
  exec false stRe line = Some m -> isIdentifier (group 1 (groups m)).
Proof.
  intros [(_ & Hok & Hsets) _]%(exec_sound _ _ _ _ _ stRe_groups).
  apply (group_ok stGroups 1 _ Hok); [|done]. apply Hsets.
  reflexivity.
Qed.

Lemma incRe_header line m :
  exec false incRe line = Some m -> isQuoted (group 1 (groups m)).
Proof.
  intros [(_ & Hok & Hsets) _]%(exec_sound _ _ _ _ _ incRe_groups).
  apply (group_ok incGroups 1 _ Hok); [|done]. apply Hsets.
  reflexivity.
Qed.

Lemma flush_ok s : defStateOk s -> defStateOk (flush s).
Proof.
  intros (Hes & Hi & Hn & Hh). unfold flush, defStateOk. cbn.
  split; [|done].
  destruct (DefState.currentIndex s) as [i|]; [|done].
  destruct (DefState.currentStateType s) as [n|]; [|done].
  destruct (DefState.currentHeader s) as [h|]; [|done].
  apply Forall_app. split; [done|]. constructor; [|constructor].
  split; [by apply Hn|]. split; [by apply Hi|by apply Hh].
Qed.

Lemma defLine_ok s line : defStateOk s -> defStateOk (defLine s line).
Proof.
  intros Hs. unfold defLine.
  destruct (exec false idxRe line) as [idx|] eqn:Hidx.
  { destruct (flush_ok s Hs) as (Hes & _). split; [done|].
    cbn. split; [|done]. intros i [= <-]. by eapply idxRe_index. }
  destruct Hs as (Hes & Hi & Hn & Hh).
  destruct (exec false stRe line) as [st|] eqn:Hst.
  { split; [done|]. split; [done|]. split; [|done].
    cbn. intros n [= <-]. by eapply stRe_name. }
  destruct (exec false incRe line) as [inc|] eqn:Hinc; [|done].
  split; [done|]. split; [done|]. split; [done|].
  cbn. intros h [= <-]. by eapply incRe_header.
Qed.

Lemma defLines_ok lines : forall s,
  defStateOk s -> Forall defEntryOk (defLines s lines).
Proof.
  unfold defLines. induction lines as [|line lines IH]; intros s Hs.
  - by destruct (flush_ok s Hs).
  - cbn [fold_left]. by apply IH, defLine_ok.
Qed.

Lemma parseContractDefH_ok source : Forall defEntryOk (parseContractDefH source).
Proof. apply defLines_ok. split; [constructor|done]. Qed.

Lemma flush_prepend es s : flush (prepend es s) = prepend es (flush s).
Proof.
  unfold flush, prepend. cbn.
  destruct (DefState.currentIndex s), (DefState.currentStateType s),
    (DefState.currentHeader s); by rewrite ?app_assoc.
Qed.

Lemma defLine_prepend es s line :
  defLine (prepend es s) line = prepend es (defLine s line).
Proof.
  unfold defLine.
  destruct (exec false idxRe line); [by rewrite flush_prepend|].
  destruct (exec false stRe line); [done|].
  by destruct (exec false incRe line).
Qed.

Lemma defLines_prepend es lines : forall s,
  defLines (prepend es s) lines = es ++ defLines s lines.
Proof.
  unfold defLines. induction lines as [|line lines IH]; intros s.
  - cbn [fold_left]. by rewrite flush_prepend.
  - cbn [fold_left]. rewrite defLine_prepend. apply IH.
Qed.

Lemma defLines_no_index lines : forall s,
  Forall (fun line => ~ isIndexLine line) lines ->
  DefState.currentIndex s = None ->
  defLines s lines = DefState.entries s.
Proof.
  unfold defLines. intros s Hall. revert s.
  induction Hall as [|line lines Hline _ IH]; intros s Hs.
  - unfold flush. cbn. by rewrite Hs.
  - cbn [fold_left]. rewrite IH.
    + unfold defLine, isIndexLine in *.
      destruct (exec false idxRe line); [by destruct Hline|].
      destruct (exec false stRe line); [done|].
      by destruct (exec false incRe line).
    + unfold defLine, isIndexLine in *.
      destruct (exec false idxRe line); [by destruct Hline|].
      destruct (exec false stRe line); [done|].
      by destruct (exec false incRe line).
Qed.

Lemma defLines_length lines : forall s,
  (length (defLines s lines) <=
   length (DefState.entries s)
   + match DefState.currentIndex s with Some _ => 1 | None => 0 end
   + length (filter isIndexLine lines))%nat.
Proof.
  unfold defLines. induction lines as [|line lines IH]; intros s.
  - unfold flush. cbn.
    destruct (DefState.currentIndex s), (DefState.currentStateType s),
      (DefState.currentHeader s); rewrite ?length_app; cbn; lia.
  - cbn [fold_left]. etrans; [apply IH|].
    rewrite filter_cons.
    destruct (decide (isIndexLine line)) as [[idx Hidx]|Hno].
    + unfold defLine. rewrite Hidx. cbn.
      destruct (DefState.currentIndex s), (DefState.currentStateType s),
        (DefState.currentHeader s); rewrite ?length_app; cbn; lia.
    + assert (exec false idxRe line = None) as Hidx.
      { destruct (exec false idxRe line) eqn:Hidx; [|done].
        destruct Hno. by eexists. }
      unfold defLine. rewrite Hidx.
      destruct (exec false stRe line); [cbn; lia|].
      destruct (exec false incRe line); cbn; lia.
Qed.

(** X16: in the loop of [parseContractDefH], what stands before a line that
    defines an index and what stands from that line on are read
    independently of each other; lines without such a line among them give
    no entry, whatever state types and headers they name; and there are
    never more entries than lines that define an index. *)
Theorem defLines_stanzas (before behind lines : list str) (line : str) :
  (isIndexLine line ->
   defLines noDefinition (before ++ line :: behind)
   = defLines noDefinition before ++ defLines noDefinition (line :: behind)) /\
  (Forall (fun l => ~ isIndexLine l) lines -> defLines noDefinition lines = []) /\
  (length (defLines noDefinition lines) <= length (filter isIndexLine lines))%nat.
Proof.
  split; [|split].
  - intros [idx Hidx].
    assert (Hline : forall s,
      defLine s line
      = prepend (DefState.entries (flush s)) (defLine noDefinition line)).
    { intros s. unfold defLine. rewrite Hidx. unfold prepend. cbn.
      by rewrite app_nil_r. }
    unfold defLines at 1. rewrite fold_left_app. cbn [fold_left].
    rewrite Hline. fold (defLines (prepend (DefState.entries
      (flush (fold_left defLine before noDefinition)))
      (defLine noDefinition line)) behind).
    rewrite defLines_prepend. done.
  - intros Hno. by rewrite defLines_no_index.
  - etrans; [apply defLines_length|]. cbn. lia.
Qed.

Lemma defLines_stanzas_witness :
  let line := u "#define QX_CONTRACT_INDEX 1" in
  isIndexLine line /\
  defLines noDefinition ([u "#define CONTRACT_STATE_TYPE A"] ++ line :: [])
  = defLines noDefinition [u "#define CONTRACT_STATE_TYPE A"]
    ++ defLines noDefinition (line :: []).
Proof.
  assert (H : isIndexLine (u "#define QX_CONTRACT_INDEX 1")).
  { vm_compute. eauto. }
  split; [exact H|].
  exact (proj1 (defLines_stanzas [u "#define CONTRACT_STATE_TYPE A"] [] []
                  (u "#define QX_CONTRACT_INDEX 1")) H).
Defined.
(** ** What the registry generator compiles *)

Lemma contractHeaders_upper files file :
  In file (contractHeaders files) ->
  exists x rest, file = x :: rest /\ is_upper x = true.
Proof.
  intros Hin%list_elem_of_In. unfold contractHeaders in Hin.
  apply list_elem_of_filter in Hin as [_ Hin].
  apply list_elem_of_filter in Hin as [Htest _].
  unfold test in Htest. apply bool_decide_eq_true in Htest as [m Hm].
  change contractHeaderRe
    with (RSeq RBol (seq [RChar is_upper; star dot; lit ".h"; REol])) in Hm.
  apply (exec_anchored (fun _ _ => True)) in Hm
    as (-> & _ & (w1 & w2 & -> & (x & -> & Hx) & _) & _); [|done].
  by exists x, (w2 ++ after m).
Qed.

Lemma dotH_removed x rest :
  is_upper x = true -> replaceFirst false dotHRe [] (x :: rest) <> [].
Proof.
  intros Hx. unfold replaceFirst.
  destruct (exec false dotHRe (x :: rest)) as [m|] eqn:Hm; [|done].
  apply (exec_sound false (fun _ _ => True)) in Hm
    as [([prev Hmatch] & _) (skipped & Heq & Hidx)]; [|done].
  destruct Hmatch as (w1 & w2 & Hw & (d & h & -> & (y & -> & Hy) & _) & _).
  rewrite Hidx, Heq, take_app_length.
  destruct skipped as [|s skipped]; [|done].
  rewrite Hw in Heq. cbn in Heq. injection Heq as -> _.
  apply N.eqb_eq in Hy as <-. done.
Qed.

Section RegistryFacts.
Variable basename : str -> str.

Lemma headersOf_lookup defs : forall (headers : gmap str Z) file z,
  fold_left
    (fun (headers : gmap str Z) def =>
       <[basename (ContractDefEntry.header def) :=
           ContractDefEntry.contractIndex def]> headers)
    defs headers !! file = Some z ->
  headers !! file = Some z \/
  exists def, In def defs /\ ContractDefEntry.contractIndex def = z /\
              basename (ContractDefEntry.header def) = file.
Proof.
  induction defs as [|def defs IH]; intros headers file z Hget; [by left|].
  cbn [fold_left] in Hget. apply IH in Hget as [Hget|(d & Hin & Hd)].
  - destruct (decide (basename (ContractDefEntry.header def) = file)) as [He|Hne].
    + rewrite He, lookup_insert_eq in Hget. injection Hget as <-.
      right. exists def. split; [by left|done].
    + rewrite lookup_insert_ne in Hget by done. by left.
  - right. exists d. split; [by right|done].
Qed.

Lemma headersOf_nonneg source file z :
  headersOf basename (parseContractDefH source) !! file = Some z -> 0 <= z.
Proof.
  intros [Hget|(def & Hin & <- & _)]%headersOf_lookup; [done|].
  pose proof (parseContractDefH_ok source) as Hall.
  rewrite List.Forall_forall in Hall. by destruct (Hall def Hin) as (_ & ? & _).
Qed.

(** X18: the options of a header cannot be built, and [generateRegistry]
    ends with the RangeError of [contractKeyHex], exactly when the index
    that [contract_def.h] gives for the header is above 4294967295. *)
Theorem registry_index_overflow
    (options : GenerateRegistryOptions.t) (contractDef file : str) :
  (exists e,
     registryCompileOptions options
       (headersOf basename (parseContractDefH contractDef)) file = Throw e) <->
  exists z,
    headersOf basename (parseContractDefH contractDef) !! file = Some z /\
    4294967295 < z.
Proof.
  unfold registryCompileOptions.
  destruct (headersOf basename (parseContractDefH contractDef) !! file)
    as [z|] eqn:Hget.
  2:{ split; [by intros [e ?]|by intros (z & ? & _)]. }
  pose proof (headersOf_nonneg _ _ _ Hget) as Hz.
  cbn [contractKeyHex].
  destruct (Z.ltb_spec z 0); [lia|].
  destruct (Z.ltb_spec 4294967295 z); cbn [orb].
  - split; [|by eauto]. intros _. exists z. done.
  - split; [by intros [e ?]|]. intros (z' & [= <-] & ?). lia.
Qed.
End RegistryFacts.
(** ** The entries and the registrations *)

Lemma entryFrom_registration headerSource r e :
  entryFrom headerSource r e -> registrationOf e = r.
Proof.
  intros (Hk & Hn & Ht & _). unfold registrationOf.
  rewrite Hk, Hn, Ht. by destruct r.
Qed.



(** ** The names that are built in *)

(** X21: a name that is built in resolves to its built-in type in every
    header: no typedef, no using and no struct of the header can redefine
    it, no warning is added and the cache of the structs is not touched. *)
Theorem builtin_names_first (depth : nat) (c : ctx) (st : state) :
  Forall (fun name =>
            exists t, builtinType (u name) = Some t /\
                      parseTypeRef (S depth) c (u name) st = Some (t, st))
    builtinNames.
Proof.
  unfold builtinNames.
  repeat (constructor; [eexists; split; [reflexivity|vm_compute; reflexivity]|]).
  constructor.
Qed.

(** ** The tokens *)

Lemma span_spec p s : forall a b,
  span p s = (a, b) -> Forall (fun x => p x = true) a.
Proof.
  induction s as [|x s IH]; intros a b; cbn [span].
  - intros [= <- <-]. constructor.
  - destruct (p x) eqn:Hx; [|intros [= <- <-]; constructor].
    destruct (span p s) as [a' b']. intros [= <- <-].
    constructor; [done|]. by eapply IH.
Qed.

Lemma char_is_cases s c : char_is s c = true -> In c (u s).
Proof.
  unfold char_is. intros (x & Hin & Hx%N.eqb_eq)%existsb_exists. by subst.
Qed.

Lemma tokenizeLoop_tokens fuel : forall s tokens,
  tokenizeLoop fuel s = Some tokens -> Forall tokenOk tokens.
Proof.
  induction fuel as [|fuel IH]; intros s tokens.
  - destruct s; cbn; [intros [= <-]; constructor|done].
  - destruct s as [|ch s]; cbn [tokenizeLoop];
      [intros [= <-]; constructor|].
    destruct (char_is " " ch); [apply IH|].
    destruct (char_is "()" ch) eqn:Hparen.
    { destruct (tokenizeLoop fuel s) as [ts|] eqn:Hts; [|done].
      intros [= <-]. constructor; [|by eapply IH].
      apply char_is_cases in Hparen. cbn in Hparen. unfold tokenOk.
      unfold parenOpen, parenClose. destruct Hparen as [<-|[<-|[]]]; auto. }
    destruct (char_is "+-*" ch) eqn:Hop.
    { destruct (tokenizeLoop fuel s) as [ts|] eqn:Hts; [|done].
      intros [= <-]. constructor; [|by eapply IH].
      apply char_is_cases in Hop. cbn in Hop. unfold tokenOk, isOperator.
      unfold opAdd, opSub, opMul. destruct Hop as [<-|[<-|[<-|[]]]]; auto. }
    destruct (is_digit ch) eqn:Hdigit.
    { destruct (span is_digit s) as [ds s''] eqn:Hspan.
      destruct (tokenizeLoop fuel s'') as [ts|] eqn:Hts; [|done].
      intros [= <-]. constructor; [|by eapply IH].
      change (0 <= Number (ch :: ds)).
      apply Number_nonneg. constructor; [done|]. by eapply span_spec. }
    destruct (is_ident_start ch) eqn:Hident; [|done].
    destruct (span is_word s) as [ws' s''] eqn:Hspan.
    destruct (tokenizeLoop fuel s'') as [ts|] eqn:Hts; [|done].
    intros [= <-]. constructor; [|by eapply IH].
    cbn. exists ch, ws'. split; [done|]. split; [done|]. by eapply span_spec.
Qed.

(** X22: the tokens that [tokenizeNumericExpr] returns are non-negative
    numbers, identifiers, the operators of the sum, the difference and the
    product, and the two parentheses: no other operator is ever a token. *)
Theorem tokenizeNumericExpr_tokens (expr : str) (tokens : list NumericToken) :
  tokenizeNumericExpr expr = Some tokens ->
  Forall (fun t =>
            match t with
            | TokNumber n => 0 <= n
            | TokIdent value => isIdentifier value
            | TokOp value => value = opAdd \/ value = opSub \/ value = opMul
            | TokParen value => value = parenOpen \/ value = parenClose
            end) tokens.
Proof.
  unfold tokenizeNumericExpr.
  destruct (test false unsupportedRe _); [done|].
  apply tokenizeLoop_tokens.
Qed.

Lemma tokenizeNumericExpr_tokens_witness :
  Forall (fun t =>
            match t with
            | TokNumber n => 0 <= n
            | TokIdent value => isIdentifier value
            | TokOp value => value = opAdd \/ value = opSub \/ value = opMul
            | TokParen value => value = parenOpen \/ value = parenClose
            end)
    [TokNumber 2; TokOp opAdd; TokIdent (u "A"); TokOp opMul; TokNumber 3].
Proof.
  apply (tokenizeNumericExpr_tokens (u "2 + A*3")).
  vm_compute. reflexivity.
Defined.
(** ** Searches that find nothing *)

Lemma groupsSound_trivial ml r : groupsSound ml (fun _ _ => True) r.
Proof. induction r; cbn; auto. Qed.

Lemma search_none ml r rest prev idx :
  (forall skipped w after,
     rest = skipped ++ w ++ after ->
     ~ matches ml r (prevAfterWord prev skipped) w after) ->
  search ml r prev rest idx = None.
Proof.
  intros Hno. destruct (search ml r prev rest idx) as [m|] eqn:Hm; [|done].
  apply (search_matches ml _ r (groupsSound_trivial ml r)) in Hm
    as (skipped & Heq & _ & Hmatch & _).
  destruct (Hno _ _ _ Heq Hmatch).
Qed.

Lemma replaceAll_none ml r by_ s :
  search ml r None s 0 = None -> replaceAll ml r by_ s = s.
Proof. intros H. unfold replaceAll. cbn [replaceAllFrom]. by rewrite H. Qed.

Lemma test_none ml r s : search ml r None s 0 = None -> test ml r s = false.
Proof.
  intros H. unfold test, exec. rewrite H.
  apply bool_decide_eq_false. by intros [? ?].
Qed.

Lemma prevAfterWord_word prev skipped :
  Forall (fun c => is_word c = true) skipped -> skipped <> [] ->
  from_option is_word false (prevAfterWord prev skipped) = true.
Proof.
  intros Hall Hne. unfold prevAfterWord.
  destruct (last skipped) as [x|] eqn:Hlast; [|by apply last_None in Hlast].
  cbn. apply last_Some in Hlast as [l' ->].
  apply Forall_app in Hall as [_ Hx]. by inversion Hx.
Qed.

Lemma suffix_word_boundary ml x prev w rest :
  matches ml (seq [RWordB; lit x; RWordB]) prev w rest ->
  w = u x /\ at_word_boundary prev (u x ++ rest) = true.
Proof.
  intros (w1 & w2 & -> & [-> Hb] & w3 & w4 & -> & Hlit & [-> _]).
  apply matches_lit_chars in Hlit as ->. cbn [app] in *.
  by rewrite app_nil_r in *.
Qed.

Lemma suffixRe_word ml prev w rest :
  matches ml suffixRe prev w rest ->
  exists x c w', In x suffixWords /\ w = c :: w' /\ is_word c = true /\
    is_digit c = false /\ from_option is_word false prev = false.
Proof.
  unfold suffixRe. cbn [alt matches].
  intros [H|[H|[H|[H|H]]]];
    apply suffix_word_boundary in H as [-> Hb];
    [exists "ULL"%string|exists "LL"%string|exists "UL"%string
     |exists "L"%string|exists "U"%string];
    (eexists; eexists; split; [cbn; tauto|]; split; [reflexivity|];
     split; [reflexivity|]; split; [reflexivity|];
     unfold at_word_boundary in Hb; cbn in Hb;
     by destruct (from_option is_word false prev)).
Qed.

(** A text of letters, digits and underscores that starts with a digit has
    no suffix that [tokenizeNumericExpr] removes. *)
Lemma suffixRe_none d s :
  is_digit d = true -> Forall (fun c => is_word c = true) s ->
  search false suffixRe None (d :: s) 0 = None.
Proof.
  intros Hd Hs. apply search_none. intros skipped w after Heq Hmatch.
  apply suffixRe_word in Hmatch as (x & c & w' & _ & -> & Hc & Hcd & Hprev).
  destruct skipped as [|k skipped].
  - cbn in Heq. injection Heq as -> _. congruence.
  - assert (Hall : Forall (fun c => is_word c = true) (k :: skipped)).
    { assert (Hds : Forall (fun c => is_word c = true) (d :: s)).
      { constructor; [|done]. unfold is_word. rewrite Hd. apply orb_true_r. }
      rewrite Heq in Hds. by apply Forall_app in Hds as [? _]. }
    rewrite prevAfterWord_word in Hprev by done. done.
Qed.

Lemma ws_none s :
  Forall (fun c => is_word c = true) s -> search false (plus ws) None s 0 = None.
Proof.
  intros Hs. apply search_none. intros skipped w after -> Hmatch.
  apply plus_chars in Hmatch as [Hne Hspaces].
  destruct w as [|c w]; [done|]. inversion Hspaces as [|? ? Hc _]; subst.
  apply Forall_app in Hs as [_ Hs]. inversion Hs as [|? ? Hw _]; subst.
  apply is_word_not_space in Hw. congruence.
Qed.

Lemma unsupportedRe_none s :
  Forall (fun c => is_word c = true) s ->
  search false unsupportedRe None s 0 = None.
Proof.
  intros Hs. apply search_none. intros skipped w after -> Hmatch.
  apply Forall_app in Hs as [_ [Hw _]%Forall_app].
  assert (Hcall : forall name prev,
            matches false (seq [lit name; star ws; lit "("]) prev w after ->
            In 40%N w).
  { intros name prev' (w1 & w2 & -> & _ & w3 & w4 & -> & _ & Hlit).
    apply matches_lit_chars in Hlit as ->.
    apply in_or_app. right. apply in_or_app. right. by left. }
  assert (Hbad : exists c, In c w /\ is_word c = false).
  { unfold unsupportedRe in Hmatch. cbn [alt matches] in Hmatch.
    destruct Hmatch as [(x & -> & Hx)|[H|H]].
    - exists x. split; [by left|].
      apply char_is_cases in Hx. cbn in Hx. by destruct Hx as [<-|[<-|[]]].
    - exists 40%N. split; [by eapply Hcall|done].
    - exists 40%N. split; [by eapply Hcall|done]. }
  destruct Hbad as (c & Hin & Hc).
  rewrite List.Forall_forall in Hw. rewrite (Hw c Hin) in Hc. done.
Qed.

Lemma trimStart_word c s : is_word c = true -> trimStart (c :: s) = c :: s.
Proof. intros Hc%is_word_not_space. cbn. by rewrite Hc. Qed.

Lemma trim_words s :
  Forall (fun c => is_word c = true) s -> trim s = s.
Proof.
  intros Hs. unfold trim, trimEnd.
  destruct s as [|c s]; [done|].
  inversion Hs as [|? ? Hc Hs']; subst.
  rewrite (trimStart_word c s Hc).
  destruct (rev (c :: s)) as [|x r] eqn:Hrev.
  - by rewrite <- (rev_involutive (c :: s)), Hrev.
  - assert (Hx : is_word x = true).
    { assert (Hall : Forall (fun c => is_word c = true) (rev (c :: s)))
        by (by apply Forall_rev).
      rewrite Hrev in Hall. by inversion Hall. }
    rewrite (trimStart_word x r Hx), <- Hrev. apply rev_involutive.
Qed.

Lemma span_app p a b :
  Forall (fun x => p x = true) a ->
  match b with [] => True | x :: _ => p x = false end ->
  span p (a ++ b) = (a, b).
Proof.
  intros Ha Hb. induction Ha as [|x a Hx _ IH]; cbn [app span].
  - destruct b as [|x b]; [done|]. cbn. by rewrite Hb.
  - by rewrite Hx, IH.
Qed.

Lemma is_digit_not_symbol d :
  is_digit d = true ->
  char_is " " d = false /\ char_is "()" d = false /\ char_is "+-*" d = false.
Proof.
  unfold is_digit. intros [H1%N.leb_le H2%N.leb_le]%andb_true_iff.
  unfold char_is. cbn [u List.map list_ascii_of_string existsb].
  repeat split;
    repeat match goal with
      | |- context [(d =? ?n)%N] =>
          let H := fresh in
          destruct (N.eqb_spec d n) as [H|H];
            [cbn in H; lia|]
      end; reflexivity.
Qed.

Lemma is_digit_word c : is_digit c = true -> is_word c = true.
Proof. unfold is_word. intros ->. apply orb_true_r. Qed.

Lemma tokenizeLoop_suffixed x d ds :
  In x suffixWords -> is_digit d = true ->
  Forall (fun c => is_digit c = true) ds ->
  tokenizeLoop (length ((d :: ds) ++ u x)) ((d :: ds) ++ u x)
  = Some [TokNumber (Number (d :: ds)); TokIdent (u x)].
Proof.
  intros Hx Hd Hds.
  destruct (is_digit_not_symbol d Hd) as (Hspace & Hparen & Hop).
  cbn [app length tokenizeLoop]. rewrite Hspace, Hparen, Hop, Hd.
  rewrite length_app, Nat.add_comm.
  cbn in Hx.
  destruct Hx as [<-|[<-|[<-|[<-|[<-|[]]]]]];
    (rewrite span_app by done); cbn [u List.map list_ascii_of_string length];
    cbn [Nat.add tokenizeLoop]; vm_compute span; by destruct (length ds).
Qed.

(** X24: a suffix [ULL], [LL], [UL], [L] or [U] that stands directly after
    the digits of a literal is not removed (there is no word boundary
    between a digit and a letter): the tokens are the number and then the
    suffix as an identifier, so the expression has no value unless the
    suffix is the name of a constant. *)
Theorem literal_suffix_not_removed (digits : str) (suffix : string)
    (constants : gmap str Z) :
  digits <> [] -> Forall (fun c => is_digit c = true) digits ->
  In suffix suffixWords ->
  tokenizeNumericExpr (digits ++ u suffix)
  = Some [TokNumber (Number digits); TokIdent (u suffix)] /\
  (constants !! u suffix = None ->
   parseNumericExpr (digits ++ u suffix) constants = None).
Proof.
  intros Hne Hdigits Hsuffix.
  destruct digits as [|d ds]; [done|].
  inversion Hdigits as [|? ? Hd Hds]; subst.
  assert (Hwords : Forall (fun c => is_word c = true) (ds ++ u suffix)).
  { apply Forall_app. split.
    - eapply Forall_impl; [exact Hds|]. apply is_digit_word.
    - cbn in Hsuffix.
      destruct Hsuffix as [<-|[<-|[<-|[<-|[<-|[]]]]]]; by repeat constructor. }
  assert (Htokens :
    tokenizeNumericExpr ((d :: ds) ++ u suffix)
    = Some [TokNumber (Number (d :: ds)); TokIdent (u suffix)]).
  { unfold tokenizeNumericExpr. cbn [app].
    rewrite (replaceAll_none false suffixRe) by (by apply suffixRe_none).
    assert (Hall : Forall (fun c => is_word c = true) (d :: ds ++ u suffix))
      by (constructor; [by apply is_digit_word|done]).
    rewrite (replaceAll_none false (plus ws)) by (by apply ws_none).
    rewrite trim_words by done.
    rewrite test_none by (by apply unsupportedRe_none).
    by apply (tokenizeLoop_suffixed suffix d ds). }
  split; [done|].
  intros Hnone. unfold parseNumericExpr. rewrite Htokens.
  cbn. by rewrite Hnone.
Qed.

Lemma literal_suffix_not_removed_witness :
  tokenizeNumericExpr (u "1024" ++ u "ULL")
  = Some [TokNumber (Number (u "1024")); TokIdent (u "ULL")] /\
  (({[ u "X_MULTIPLIER" := 1 ]} : gmap str Z) !! u "ULL" = None ->
   parseNumericExpr (u "1024" ++ u "ULL") {[ u "X_MULTIPLIER" := 1 ]} = None).
Proof.
  apply (literal_suffix_not_removed (u "1024") "ULL" {[ u "X_MULTIPLIER" := 1 ]}).
  - intros H. vm_compute in H. discriminate H.
  - vm_compute. repeat constructor.
  - cbn. tauto.
Defined.
(** ** What the document depends on *)



(** ** The table of constants and the words of a bit array *)

Lemma defineConstant_keeps (map : gmap str Z) m name :
  is_Some (map !! name) -> is_Some (defineConstant map m !! name).
Proof.
  intros Hname. unfold defineConstant.
  destruct (parseNumericExpr _ map) as [val|]; [|done].
  destruct (decide (group 1 (groups m) = name)) as [->|Hne].
  - rewrite lookup_insert_eq. eauto.
  - by rewrite lookup_insert_ne.
Qed.

Lemma fold_defineConstant_keeps ms : forall (map : gmap str Z) name,
  is_Some (map !! name) ->
  is_Some (fold_left defineConstant ms map !! name).
Proof.
  induction ms as [|m ms IH]; intros map name Hname; [done|].
  cbn [fold_left]. by apply IH, defineConstant_keeps.
Qed.

(** X27: the table of [extractNumericConstants] has a value for
    [X_MULTIPLIER] in every header (1 unless the header defines it), and a
    definition never removes a name from the table. *)
Theorem X_MULTIPLIER_always_defined (source : str) :
  is_Some (extractNumericConstants source !! u "X_MULTIPLIER") /\
  forall (map : gmap str Z) m name,
    is_Some (map !! name) -> is_Some (defineConstant map m !! name).
Proof.
  split; [|apply defineConstant_keeps].
  unfold extractNumericConstants.
  do 2 apply fold_defineConstant_keeps.
  rewrite lookup_singleton_eq. eauto.
Qed.

(** X28: the number of 64-bit words that [parseTypeRef] gives to a bit
    array of [bits] bits holds all the bits, and one word less would not,
    except that an array of no bits still gets one word. *)
Theorem bitWords_enough (bits : Z) :
  0 <= bits ->
  bits <= 64 * bitWords bits /\
  (0 < bits -> 64 * (bitWords bits - 1) < bits) /\
  (bits = 0 -> bitWords bits = 1).
Proof.
  intros Hbits. unfold bitWords. rewrite ceil_div_alt by lia.
  pose proof (Z.div_mod (bits + 64 - 1) 64 ltac:(lia)).
  pose proof (Z.mod_pos_bound (bits + 64 - 1) 64 ltac:(lia)).
  split; [lia|]. split; [lia|]. intros ->. reflexivity.
Qed.

Lemma bitWords_enough_witness :
  65 <= 64 * bitWords 65 /\
  (0 < 65 -> 64 * (bitWords 65 - 1) < 65) /\
  (65 = 0 -> bitWords 65 = 1).
Proof. apply (bitWords_enough 65). lia. Defined.
(** ** Templates inside templates *)

Lemma trimStart_Forall (P : char -> Prop) w : Forall P w -> Forall P (trimStart w).
Proof.
  induction 1 as [|c w Hc Hw IH]; cbn [trimStart]; [constructor|].
  destruct (is_space c); [done|by constructor].
Qed.

Lemma trim_Forall (P : char -> Prop) w : Forall P w -> Forall P (trim w).
Proof.
  intros Hw. unfold trim, trimEnd.
  apply Forall_rev, trimStart_Forall, Forall_rev. by apply trimStart_Forall.
Qed.

Lemma replaceFirst_Forall (P : char -> Prop) r w :
  Forall P w -> Forall P (replaceFirst false r [] w).
Proof.
  intros Hw. unfold replaceFirst.
  destruct (exec false r w) as [m|] eqn:Hm; [|done].
  apply (exec_sound false _ r _ _ (groupsSound_trivial false r)) in Hm
    as [_ (skipped & Heq & Hidx)].
  rewrite Hidx. rewrite Heq at 1. rewrite take_app_length. cbn [app].
  rewrite Heq in Hw. apply Forall_app in Hw as [Hs [_ Ha]%Forall_app].
  apply Forall_app. by split.
Qed.

Lemma typeName_Forall (P : char -> Prop) w : Forall P w -> Forall P (typeName w).
Proof.
  intros Hw. unfold typeName.
  by apply replaceFirst_Forall, trim_Forall, replaceFirst_Forall,
    replaceFirst_Forall.
Qed.

(** The text that a sequence matches holds the text of each literal code
    unit of the sequence. *)
Lemma matches_seq_literal ml x rs : In (RChar (N.eqb x)) rs ->
  forall prev w rest, matches ml (seq rs) prev w rest -> In x w.
Proof.
  induction rs as [|r rs IH]; intros Hin prev w rest; [destruct Hin|].
  destruct rs as [|r' rs].
  - destruct Hin as [->|[]]. cbn. intros (y & -> & ->%N.eqb_eq). by left.
  - rewrite seq_cons by done.
    intros (w1 & w2 & -> & H1 & H2). apply in_or_app.
    destruct Hin as [->|Hin].
    + left. destruct H1 as (y & -> & ->%N.eqb_eq). by left.
    + right. by eapply IH.
Qed.

Lemma arrayRe_groups : groupsSound false arrayGroups arrayRe.
Proof.
  unfold arrayRe. groups_sound; try done.
  - intros prev w rest H. by apply plus_chars in H as [_ H].
  - intros prev w rest H. by apply plus_chars in H as [_ H].
Qed.

Lemma no_closing_angle (w : str) :
  Forall (fun x => char_not ">" x = true) w -> ~ In closingAngle w.
Proof.
  intros Hw Hin. rewrite List.Forall_forall in Hw.
  specialize (Hw _ Hin). by vm_compute in Hw.
Qed.

Lemma template_needs_angle r rs s :
  r = seq rs -> In (RChar (N.eqb closingAngle)) rs ->
  ~ In closingAngle s -> exec false r s = None.
Proof.
  intros -> Hin Hs. apply search_none. intros skipped w after -> Hmatch.
  apply Hs, in_or_app. right. apply in_or_app. left.
  by eapply matches_seq_literal.
Qed.

(** X30: when [parseTypeRef] recognises a type as [Array<item, length>], the
    item text has no comma and no closing angle bracket and the length text
    no closing angle bracket; so the item is never itself recognised as an
    [Array], [BitArray] or [ProposalDataV1] template: templates inside an
    [Array] are not parsed. *)
Theorem array_item_not_template (rawType : str) (array : matchResult) :
  exec false arrayRe (typeName rawType) = Some array ->
  let itemType := trim (group 1 (groups array)) in
  let lenToken := trim (group 2 (groups array)) in
  Forall (fun x => x <> 44%N /\ x <> closingAngle) itemType /\
  Forall (fun x => x <> closingAngle) lenToken /\
  exec false arrayRe (typeName itemType) = None /\
  exec false bitArrayRe (typeName itemType) = None /\
  exec false proposalDataV1Re (typeName itemType) = None.
Proof.
  intros Harray. cbv zeta.
  apply (exec_sound false arrayGroups) in Harray as [(_ & Hok & Hsets) _];
    [|apply arrayRe_groups].
  assert (H1 : Forall (fun x => char_not ",>" x = true) (group 1 (groups array))).
  { apply (group_ok arrayGroups 1 _ Hok). apply Hsets. reflexivity. }
  assert (H2 : Forall (fun x => char_not ">" x = true) (group 2 (groups array))).
  { apply (group_ok arrayGroups 2 _ Hok). apply Hsets. reflexivity. }
  assert (Hitem : ~ In closingAngle (typeName (trim (group 1 (groups array))))).
  { apply no_closing_angle, typeName_Forall, trim_Forall.
    eapply Forall_impl; [exact H1|]. intros x Hx.
    apply negb_true_iff. apply negb_true_iff in Hx.
    unfold char_is in *. cbn in *.
    by apply orb_false_iff in Hx as [_ Hx]. }
  split; [|split; [|split; [|split]]].
  - apply trim_Forall. eapply Forall_impl; [exact H1|].
    intros x Hx. split; intros ->; by vm_compute in Hx.
  - apply trim_Forall. eapply Forall_impl; [exact H2|].
    intros x Hx ->. by vm_compute in Hx.
  - eapply template_needs_angle; [reflexivity| |exact Hitem].
    cbn. tauto.
  - eapply template_needs_angle; [reflexivity| |exact Hitem].
    cbn. tauto.
  - eapply template_needs_angle; [reflexivity| |exact Hitem].
    cbn. tauto.
Qed.

Lemma array_item_not_template_witness :
  exists array,
    exec false arrayRe (typeName (u "const Array<uint8, 4>&")) = Some array /\
    trim (group 1 (groups array)) = u "uint8" /\
    exec false arrayRe (typeName (trim (group 1 (groups array)))) = None.
Proof.
  eexists. split; [vm_compute; reflexivity|]. split; [vm_compute; reflexivity|].
  match goal with
  | |- exec false arrayRe (typeName (trim (group 1 (groups ?m)))) = None =>
      exact (proj1 (proj2 (proj2
               (array_item_not_template (u "const Array<uint8, 4>&") m
                  ltac:(vm_compute; reflexivity)))))
  end.
Defined.
(** * The numbers of the interpreter *)

Section DoubleFacts.
Import Js.

Lemma oddPart_spec p : forall e m' e',
  oddPart p e = (m', e') ->
  Z.odd m' = true /\ 0 < m' /\ e <= e' /\ Z.pos p = m' * 2 ^ (e' - e).
Proof.
  induction p as [p IH|p IH|]; intros e m' e'; cbn [oddPart].
  - intros [= <- <-]. rewrite Z.sub_diag. split; [done|]. lia.
  - intros H. destruct (IH _ _ _ H) as (Hodd & Hpos & Hle & Hval).
    split; [done|]. split; [done|]. split; [lia|].
    replace (e' - e) with (Z.succ (e' - (e + 1))) by lia.
    rewrite Z.pow_succ_r by lia. lia.
  - intros [= <- <-]. rewrite Z.sub_diag. split; [done|]. lia.
Qed.

(** The canonical representation keeps the number. *)
Lemma finite_spec m e :
  m <> 0 ->
  exists m' e',
    finite m e = Fin m' e' /\ Z.odd m' = true /\ e <= e' /\
    m = m' * 2 ^ (e' - e).
Proof.
  intros Hm. destruct m as [|p|p]; [done| |]; cbn [finite];
    destruct (oddPart p e) as [m' e'] eqn:Hp;
    destruct (oddPart_spec _ _ _ _ Hp) as (Hodd & Hpos & Hle & Hval).
  - by exists m', e'.
  - exists (- m'), e'. split; [done|]. split; [by rewrite Z.odd_opp|].
    split; [done|]. lia.
Qed.

Lemma finite_odd m e : Z.odd m = true -> finite m e = Fin m e.
Proof.
  destruct m as [|[p|p|]|[p|p|]]; try done.
Qed.

Lemma finite_natural m e : 0 <= m -> 0 <= e -> isNatural (finite m e) = true.
Proof.
  intros Hm He. destruct (decide (m = 0)) as [->|Hm0]; [done|].
  destruct (finite_spec m e Hm0) as (m' & e' & -> & _ & Hle & Hval).
  cbn. apply andb_true_iff. split; [|lia].
  apply Z.leb_le. assert (0 < 2 ^ (e' - e)) by (apply Z.pow_pos_nonneg; lia).
  nia.
Qed.

(** What [roundDouble] returns: zero, an infinity of the sign of the
    number, or at most 53 bits at an exponent within the range. *)
Lemma roundDouble_spec m e :
  roundDouble m e = Fin 0 0 \/ roundDouble m e = Inf (m <? 0) \/
  exists q t,
    roundDouble m e = finite (Z.sgn m * q) t /\ 0 < q <= 2 ^ 53 /\
    e <= t /\ -1074 <= t /\ Z.log2 q + t < 1024.
Proof.
  unfold roundDouble.
  destruct (Z.eqb_spec m 0) as [->|Hm]; [by left|].
  set (a := Z.abs m). set (t := Z.max (Z.log2 a + e - 52) (-1074)).
  assert (Ha : 0 < a) by (unfold a; lia).
  assert (Hlog : 2 ^ Z.log2 a <= a < 2 ^ Z.succ (Z.log2 a))
    by (by apply Z.log2_spec).
  assert (Hlog0 : 0 <= Z.log2 a) by apply Z.log2_nonneg.
  assert (Hall : forall q t',
    0 <= q <= 2 ^ 53 -> e <= t' -> -1074 <= t' ->
    (if q =? 0 then Fin 0 0
     else if 1024 <=? Z.log2 q + t' then Inf (m <? 0)
          else finite (Z.sgn m * q) t') = Fin 0 0 \/
    (if q =? 0 then Fin 0 0
     else if 1024 <=? Z.log2 q + t' then Inf (m <? 0)
          else finite (Z.sgn m * q) t') = Inf (m <? 0) \/
    exists q0 t0,
      (if q =? 0 then Fin 0 0
       else if 1024 <=? Z.log2 q + t' then Inf (m <? 0)
            else finite (Z.sgn m * q) t') = finite (Z.sgn m * q0) t0 /\
      0 < q0 <= 2 ^ 53 /\ e <= t0 /\ -1074 <= t0 /\ Z.log2 q0 + t0 < 1024).
  { intros q t' Hq Ht' Hmin.
    destruct (Z.eqb_spec q 0); [by left|].
    destruct (Z.leb_spec 1024 (Z.log2 q + t')); [by right; left|].
    right; right. exists q, t'. split; [done|]. lia. }
  destruct (Z.leb_spec (t - e) 0) as [Hs|Hs].
  - apply Hall; [|lia|lia]. split; [lia|].
    assert (Z.log2 a <= 52) by lia.
    assert (2 ^ Z.succ (Z.log2 a) <= 2 ^ 53)
      by (apply Z.pow_le_mono_r; lia).
    lia.
  - set (s := t - e) in *.
    assert (Hpow : 0 < 2 ^ s) by (apply Z.pow_pos_nonneg; lia).
    assert (Hq : 0 <= a / 2 ^ s < 2 ^ 53).
    { split; [apply Z.div_pos; lia|]. apply Z.div_lt_upper_bound; [done|].
      rewrite <- Z.pow_add_r by lia.
      assert (2 ^ Z.succ (Z.log2 a) <= 2 ^ (s + 53))
        by (apply Z.pow_le_mono_r; lia).
      lia. }
    destruct (_ || _); apply Hall; lia.
Qed.

Lemma odd_abs m : Z.odd (Z.abs m) = Z.odd m.
Proof. destruct m; done. Qed.

Lemma finite_isDouble z t :
  z <> 0 -> Z.abs z <= 2 ^ 53 -> -1074 <= t -> Z.log2 (Z.abs z) + t < 1024 ->
  isDouble (finite z t) = true.
Proof.
  intros Hz Hbound Ht Hlog.
  destruct (finite_spec z t Hz) as (m' & e' & -> & Hodd & Hle & Hval).
  assert (Hm' : m' <> 0) by (intros ->; done).
  assert (Hpow : 0 < 2 ^ (e' - t)) by (apply Z.pow_pos_nonneg; lia).
  assert (Habs : Z.abs z = Z.abs m' * 2 ^ (e' - t)).
  { rewrite Hval, Z.abs_mul. f_equal. lia. }
  assert (Hle' : Z.abs m' <= Z.abs z) by nia.
  assert (Hne : Z.abs m' <> 2 ^ 53).
  { intros Heq. assert (Z.odd (Z.abs m') = true) by (by rewrite odd_abs).
    rewrite Heq in H. done. }
  assert (Hlog' : Z.log2 (Z.abs z) = e' - t + Z.log2 (Z.abs m')).
  { rewrite Habs. apply Z.log2_mul_pow2; lia. }
  cbn [isDouble]. apply orb_true_iff. right.
  rewrite Hodd. cbn [andb].
  repeat (apply andb_true_iff; split); [apply Z.ltb_lt|apply Z.leb_le|apply Z.ltb_lt]; lia.
Qed.

(** Every number that is computed is a double. *)
Lemma roundDouble_isDouble m e : isDouble (roundDouble m e) = true.
Proof.
  destruct (roundDouble_spec m e) as [->|[->|(q & t & -> & Hq & _ & Ht & Hlog)]];
    [done|done|].
  destruct (decide (m = 0)) as [->|Hm]; [done|].
  assert (Habs : Z.abs (Z.sgn m * q) = q) by (rewrite Z.abs_mul; lia).
  apply finite_isDouble; rewrite ?Habs; lia.
Qed.

Lemma roundDouble_nonneg m e :
  0 <= m ->
  roundDouble m e = Inf false \/
  exists m' e', roundDouble m e = Fin m' e' /\ 0 <= m' /\ (0 <= e -> 0 <= e').
Proof.
  intros Hm.
  destruct (roundDouble_spec m e) as [->|[->|(q & t & -> & Hq & He & _)]].
  - right. exists 0, 0. done.
  - left. by destruct (Z.ltb_spec m 0); [lia|].
  - right. destruct (decide (m = 0)) as [->|Hm0].
    { exists 0, 0. done. }
    replace (Z.sgn m * q) with q by lia.
    destruct (finite_spec q t) as (m' & e' & -> & _ & Hle & Hval); [lia|].
    exists m', e'. split; [done|].
    assert (0 < 2 ^ (e' - t)) by (apply Z.pow_pos_nonneg; lia).
    split; [nia|lia].
Qed.

(** The double of a natural number is a natural number or the infinity. *)
Lemma roundDouble_class m e :
  0 <= m -> 0 <= e -> sizeClass (roundDouble m e).
Proof.
  intros Hm He.
  destruct (roundDouble_nonneg m e Hm) as [->|(m' & e' & -> & Hm' & He')].
  - right. by left.
  - left. cbn. apply andb_true_iff. split; apply Z.leb_le; auto.
Qed.

(** A double is rounded to itself. *)
Lemma roundDouble_exact m e :
  Z.odd m = true -> Z.abs m < 2 ^ 53 -> -1074 <= e ->
  Z.log2 (Z.abs m) + e < 1024 ->
  roundDouble m e = Fin m e.
Proof.
  intros Hodd Hbound He Hlog. unfold roundDouble.
  assert (Hm : m <> 0) by (intros ->; done).
  destruct (Z.eqb_spec m 0); [done|].
  assert (Hlt : Z.log2 (Z.abs m) < 53) by (apply Z.log2_lt_pow2; lia).
  destruct (Z.leb_spec (Z.max (Z.log2 (Z.abs m) + e - 52) (-1074) - e) 0);
    [|lia].
  destruct (Z.eqb_spec (Z.abs m) 0); [lia|].
  destruct (Z.leb_spec 1024 (Z.log2 (Z.abs m) + e)); [lia|].
  replace (Z.sgn m * Z.abs m) with m by lia.
  by apply finite_odd.
Qed.

Lemma roundDouble_0 e : roundDouble 0 e = Fin 0 0.
Proof. done. Qed.

(** *** Integers *)

Lemma isInteger_exponent m e :
  isDouble (Fin m e) = true -> isInteger (Fin m e) = true -> 0 <= e.
Proof.
  cbn [isDouble isInteger]. intros Hd Hi.
  destruct (Z.leb_spec 0 e) as [|He]; [done|]. cbn [orb] in Hi.
  apply Z.eqb_eq in Hi.
  apply orb_true_iff in Hd as [[_ ?%Z.eqb_eq]%andb_true_iff|Hd]; [lia|].
  apply andb_true_iff in Hd as [[[Hodd _]%andb_true_iff _]%andb_true_iff _].
  assert (Hdiv : (2 | m)).
  { apply Z.divide_trans with (2 ^ (- e)).
    - exists (2 ^ (- e - 1)).
      replace (2 ^ (- e)) with (2 ^ Z.succ (- e - 1)) by (f_equal; lia).
      rewrite Z.pow_succ_r by lia. lia.
    - apply Z.mod_divide; [|done].
      assert (0 < 2 ^ (- e)) by (apply Z.pow_pos_nonneg; lia). lia. }
  destruct Hdiv as [k ->]. rewrite Z.mul_comm, Z.odd_mul in Hodd. done.
Qed.

Lemma isUint_natural x :
  isDouble x = true -> isUint x = true -> isNatural x = true.
Proof.
  intros Hd [Hi Hle]%andb_true_iff. destruct x as [m e| |]; try done.
  assert (He := isInteger_exponent _ _ Hd Hi).
  cbn. apply andb_true_iff. split; [|by apply Z.leb_le].
  apply Z.leb_le. cbn in Hle. unfold compareFin in Hle.
  rewrite Z.min_l in Hle by done. rewrite Z.sub_diag, Z.sub_0_r in Hle.
  assert (0 < 2 ^ e) by (apply Z.pow_pos_nonneg; lia).
  destruct (Z.compare_spec (0 * 2 ^ 0) (m * 2 ^ e)); [nia|nia|done].
Qed.

Lemma isNatural_isUint x : isNatural x = true -> isUint x = true.
Proof.
  destruct x as [m e| |]; try done.
  intros [Hm%Z.leb_le He%Z.leb_le]%andb_true_iff.
  unfold isUint. cbn. apply andb_true_iff. split.
  - apply orb_true_iff. left. by apply Z.leb_le.
  - unfold compareFin. rewrite Z.min_l by done.
    rewrite Z.sub_diag, Z.sub_0_r.
    assert (0 < 2 ^ e) by (apply Z.pow_pos_nonneg; lia).
    destruct (Z.compare_spec (0 * 2 ^ 0) (m * 2 ^ e)); [done|done|nia].
Qed.

Lemma isUint_isFinite x : isUint x = true -> isFinite x = true.
Proof. by destruct x. Qed.

(** A size that is finite is a natural number. *)
Lemma sizeClass_finite x :
  sizeClass x -> isFinite x = true -> isNatural x = true.
Proof. intros [?|[->| ->]]; done. Qed.

Lemma eqb_natural x : isNatural x = true -> eqb x x = true.
Proof.
  destruct x as [m e| |]; try done. intros _. cbn. unfold compareFin.
  by rewrite Z.compare_refl.
Qed.

(** *** The arithmetic of the sizes *)

Lemma add_class x y : sizeClass x -> sizeClass y -> sizeClass (add x y).
Proof.
  intros [Hx|[->| ->]] [Hy|[->| ->]];
    try (destruct x as [m1 e1| |]; try done);
    try (destruct y as [m2 e2| |]; try done);
    try (right; by left); try (right; by right).
  cbn in Hx, Hy.
  apply andb_true_iff in Hx as [Hm1%Z.leb_le He1%Z.leb_le].
  apply andb_true_iff in Hy as [Hm2%Z.leb_le He2%Z.leb_le].
  cbn [add]. apply roundDouble_class; [|lia].
  assert (0 <= 2 ^ (e1 - Z.min e1 e2)) by (apply Z.pow_nonneg; lia).
  assert (0 <= 2 ^ (e2 - Z.min e1 e2)) by (apply Z.pow_nonneg; lia).
  nia.
Qed.

Lemma mul_class x y : sizeClass x -> sizeClass y -> sizeClass (mul x y).
Proof.
  intros [Hx|[->| ->]] [Hy|[->| ->]];
    try (destruct x as [m1 e1| |]; try done);
    try (destruct y as [m2 e2| |]; try done);
    try (right; by left); try (right; by right).
  - cbn in Hx, Hy.
    apply andb_true_iff in Hx as [Hm1%Z.leb_le He1%Z.leb_le].
    apply andb_true_iff in Hy as [Hm2%Z.leb_le He2%Z.leb_le].
    cbn [mul]. apply roundDouble_class; nia.
  - cbn in Hx. apply andb_true_iff in Hx as [Hm1%Z.leb_le _]. cbn [mul].
    destruct (Z.eqb_spec m1 0); [right; by right|].
    destruct (Z.ltb_spec m1 0); [lia|]. right; by left.
  - cbn in Hy. apply andb_true_iff in Hy as [Hm2%Z.leb_le _]. cbn [mul].
    destruct (Z.eqb_spec m2 0); [right; by right|].
    destruct (Z.ltb_spec m2 0); [lia|]. right; by left.
Qed.

Lemma max_class x y : sizeClass x -> sizeClass y -> sizeClass (max x y).
Proof.
  intros Hx Hy. unfold max.
  destruct x as [m1 e1|b1|]; [| |right; by right];
    (destruct y as [m2 e2|b2|]; [| |right; by right]);
    by destruct (ltb _ _).
Qed.

Lemma ceil_natural m e : 0 <= m -> isNatural (ceil (Fin m e)) = true.
Proof.
  intros Hm. cbn [ceil]. destruct (Z.leb_spec 0 e) as [He|He].
  - cbn. apply andb_true_iff. split; by apply Z.leb_le.
  - apply finite_natural; [|done].
    assert (0 < 2 ^ (- e)) by (apply Z.pow_pos_nonneg; lia).
    assert (- m / 2 ^ (- e) <= 0); [|lia].
    apply Z.div_le_upper_bound; lia.
Qed.

Lemma alignOk_cases a :
  alignOk a -> a = Fin 1 0 \/ exists k, a = Fin 1 k /\ 1 <= k <= 3.
Proof.
  intros [->|[->|[->| ->]]]; [by left|right..];
    [exists 1|exists 2|exists 3]; by split; [vm_compute|lia].
Qed.

Lemma alignUp_class value alignment :
  sizeClass value -> alignOk alignment -> sizeClass (alignUp value alignment).
Proof.
  intros Hvalue [->|(k & -> & Hk)]%alignOk_cases; [done|].
  unfold alignUp.
  replace (leb (Fin 1 k) (ofZ 1)) with false.
  2:{ symmetry. change (ofZ 1) with (Fin 1 0). cbn. unfold compareFin.
      rewrite Z.min_r by lia. rewrite Z.sub_diag, Z.sub_0_r.
      assert (2 ^ 1 <= 2 ^ k) by (apply Z.pow_le_mono_r; lia).
      destruct (Z.compare_spec (1 * 2 ^ k) (1 * 2 ^ 0)); [lia|lia|done]. }
  assert (Hk' : sizeClass (Fin 1 k)).
  { left. cbn. apply Z.leb_le. lia. }
  destruct Hvalue as [Hvalue|[->| ->]]; [| |right; by right].
  - destruct value as [m e| |]; try done. cbn in Hvalue.
    apply andb_true_iff in Hvalue as [Hm%Z.leb_le He%Z.leb_le].
    cbn [div]. change (1 =? 0) with false. cbv iota.
    rewrite Z.mod_1_r. change (0 =? 0) with true. cbv iota.
    rewrite Z.div_1_r.
    destruct (roundDouble_nonneg m (e - k) Hm) as [->|(m' & e' & -> & Hm' & _)].
    + right; by left.
    + apply mul_class; [|done]. left. by apply ceil_natural.
  - right; by left.
Qed.

Lemma max_alignOk a b : alignOk a -> alignOk b -> alignOk (max a b).
Proof.
  intros [->|[->|[->| ->]]] [->|[->|[->| ->]]]; vm_compute; tauto.
Qed.

(** A natural number that is not zero is at least one. *)
Lemma natural_one x :
  isNatural x = true -> eqb x (ofZ 0) = false -> leb (ofZ 1) x = true.
Proof.
  destruct x as [m e| |]; try done.
  intros [Hm%Z.leb_le He%Z.leb_le]%andb_true_iff.
  change (ofZ 0) with (Fin 0 0). change (ofZ 1) with (Fin 1 0). cbn.
  unfold compareFin. rewrite Z.min_r, Z.min_l by done.
  rewrite !Z.sub_diag, !Z.sub_0_r.
  assert (0 < 2 ^ e) by (apply Z.pow_pos_nonneg; lia).
  destruct (Z.compare_spec (m * 2 ^ e) (0 * 2 ^ 0)); [done| |]; intros _;
    destruct (Z.compare_spec (1 * 2 ^ 0) (m * 2 ^ e)); try done; nia.
Qed.
End DoubleFacts.

(** ** The layout calculator over doubles *)

Section LayoutFactsOfDoubles.
Import Js.

Lemma layoutOfStruct fields :
  cppLayoutOf (TStruct fields) =
  match structLoop fields (ofZ 0) (ofZ 1) with
  | Throw e => Throw e
  | Ok (offset, structAlign) =>
      let size := alignUp offset structAlign in
      Ok (mkLayout (if eqb size (ofZ 0) then ofZ 1 else size) structAlign)
  end.
Proof.
  cbn [cppLayoutOf].
  assert (Hloop : forall fs o a,
    (fix loop (fs : list (str * QbiTypeRef)) (offset structAlign : double)
       {struct fs} : outcome (double * double) :=
       match fs with
       | [] => Ok (offset, structAlign)
       | field :: fs' =>
           match cppLayoutOf (snd field) with
           | Throw e => Throw e
           | Ok fieldLayout =>
               loop fs'
                 (add (alignUp offset (align fieldLayout)) (size fieldLayout))
                 (max structAlign (align fieldLayout))
           end
       end) fs o a = structLoop fs o a).
  { induction fs as [|f fs IH]; intros o a; [reflexivity|].
    cbn [structLoop]. destruct (cppLayoutOf (snd f)); [apply IH|reflexivity]. }
  rewrite Hloop. reflexivity.
Qed.

Lemma assertPositiveInt_natural n label :
  isNatural n = true -> assertPositiveInt n label = Ok n.
Proof.
  destruct n as [m e| |]; try done.
  intros [Hm%Z.leb_le He%Z.leb_le]%andb_true_iff. unfold assertPositiveInt.
  cbn [isFinite isInteger negb orb].
  destruct (Z.leb_spec 0 e); [|lia]. cbn [negb orb].
  change (ofZ 0) with (Fin 0 0). cbn [ltb]. unfold compareFin.
  rewrite Z.min_r by done. rewrite Z.sub_diag, Z.sub_0_r.
  assert (0 < 2 ^ e) by (apply Z.pow_pos_nonneg; lia).
  destruct (Z.compare_spec (m * 2 ^ e) (0 * 2 ^ 0)); [done|nia|done].
Qed.

Lemma assertPositiveInt_length n label :
  isDouble n && isUint n = true ->
  assertPositiveInt n label = Ok n /\ isNatural n = true.
Proof.
  intros [Hd Hu]%andb_true_iff.
  assert (Hn := isUint_natural n Hd Hu).
  split; [by apply assertPositiveInt_natural|done].
Qed.

(** The size of [nodata]: one, or the expected size when it is larger. *)
Lemma nodata_size e :
  match e with
  | Some x => isDouble x && isInteger x = true
  | None => True
  end ->
  isNatural (max (ofZ 1) (default (ofZ 1) e)) = true /\
  leb (ofZ 1) (max (ofZ 1) (default (ofZ 1) e)) = true.
Proof.
  destruct e as [x|]; [|done]. intros [Hd Hi]%andb_true_iff.
  destruct x as [m e| |]; try done.
  assert (He := isInteger_exponent _ _ Hd Hi).
  change (ofZ 1) with (Fin 1 0).
  change (default (Fin 1 0) (Some (Fin m e))) with (Fin m e). cbn [max].
  assert (Hpow : 0 < 2 ^ e) by (apply Z.pow_pos_nonneg; lia).
  destruct (ltb (Fin 1 0) (Fin m e)) eqn:Hlt; [|split; reflexivity].
  cbn [ltb leb isNatural] in *. unfold compareFin in *.
  rewrite Z.min_l in * by done. rewrite Z.sub_diag, Z.sub_0_r in *.
  destruct (Z.compare_spec (1 * 2 ^ 0) (m * 2 ^ e)); try done.
  split; [|done]. apply andb_true_iff. split; apply Z.leb_le; [nia|done].
Qed.

Lemma structLoop_class fields :
  Forall (fun f => wellFormed (snd f) = true ->
            exists l, cppLayoutOf (snd f) = Ok l /\ layoutOk (snd f) l) fields ->
  forallb (fun f => wellFormed (snd f)) fields = true ->
  forall offset structAlign,
    sizeClass offset -> alignOk structAlign ->
    exists offset' structAlign',
      structLoop fields offset structAlign = Ok (offset', structAlign') /\
      sizeClass offset' /\ alignOk structAlign'.
Proof.
  induction 1 as [|f fs Hf _ IH]; intros Hwf offset structAlign Ho Ha.
  - exists offset, structAlign. done.
  - cbn in Hwf. apply andb_true_iff in Hwf as [Hwf1 Hwf2].
    destruct (Hf Hwf1) as (l & Hl & Hal & Hsz & _).
    cbn [structLoop]. rewrite Hl. apply IH; [done| |by apply max_alignOk].
    apply add_class; [|done]. by apply alignUp_class.
Qed.

Lemma layoutOfWellFormed t :
  wellFormed t = true -> exists l, cppLayoutOf t = Ok l /\ layoutOk t l.
Proof.
  induction t as [e|p|n| |n item IH|fields IH] using QbiTypeRef_ind; intros Hwf.
  - eexists. split; [reflexivity|].
    destruct (nodata_size e) as [Hn Hle].
    { destruct e; [exact Hwf|done]. }
    split; [by left|]. split; [by left|]. by right.
  - eexists. split; [reflexivity|]. unfold layoutOk, alignOk.
    destruct p; cbn; (split; [tauto|]); (split; [by left|done]).
  - cbn in Hwf.
    destruct (assertPositiveInt_length n (u "bytes.length") Hwf) as [Hok Hn].
    cbn [cppLayoutOf]. rewrite Hok. eexists. split; [reflexivity|].
    split; [by left|]. split; [by left|done].
  - eexists. split; [reflexivity|]. unfold layoutOk, alignOk. cbn.
    split; [tauto|]. split; [by left|done].
  - cbn in Hwf. apply andb_true_iff in Hwf as [Hn Hitem].
    destruct (assertPositiveInt_length n (u "array.length") Hn) as [Hok Hnat].
    destruct (IH Hitem) as (l & Hl & Hal & Hsz & _).
    cbn [cppLayoutOf]. rewrite Hok, Hl. eexists. split; [reflexivity|].
    split; [done|]. split; [|done]. apply mul_class; [done|by left].
  - cbn in Hwf. rewrite layoutOfStruct.
    destruct (structLoop_class fields IH Hwf (ofZ 0) (ofZ 1))
      as (offset & structAlign & -> & Ho & Ha); [by left|by left|].
    eexists. split; [reflexivity|]. cbn [size align].
    pose proof (alignUp_class offset structAlign Ho Ha) as Hclass.
    split; [done|].
    destruct (eqb (alignUp offset structAlign) (ofZ 0)) eqn:Hzero.
    { split; [by left|by right]. }
    split; [done|].
    destruct Hclass as [Hnat|[->| ->]]; [|by right|by left].
    right. by apply natural_one.
Qed.



End LayoutFactsOfDoubles.

(** ** The extractor over doubles returns valid type references *)

Section ExtractorFactsOfDoubles.
Import Js.

Local Open Scope js_scope.

Lemma js_validTypeRef_wellFormed t :
  validTypeRef t = true -> wellFormed t = true.
Proof.
  induction t as [e|p|n| |n item IH|fields IH] using QbiTypeRef_ind; cbn;
    try done.
  - destruct e as [x|]; [|done].
    intros [-> [-> _]%andb_true_iff]%andb_true_iff. done.
  - intros [-> ?]%andb_true_iff. auto.
  - induction IH as [|f fs Hf _ IHfs]; cbn; [done|].
    intros [[_ ?]%andb_true_iff ?]%andb_true_iff. apply andb_true_iff. auto.
Qed.

Lemma js_validateTypeRef_valid t :
  validTypeRef t = true ->
  forall path errors, validateTypeRef t path errors = errors.
Proof.
  induction t as [e|p|n| |n item IH|fields IH] using QbiTypeRef_ind;
    cbn [validTypeRef validateTypeRef]; try done.
  - destruct e as [z|]; [|done]. by intros [_ ->]%andb_true_iff.
  - by intros [_ ->]%andb_true_iff.
  - intros [[_ ->]%andb_true_iff Hitem]%andb_true_iff path errors. by apply IH.
  - intros Hvalid path errors. generalize 0%nat as i. revert errors.
    induction IH as [|f fs Hf _ IHfs]; intros errors i; [done|].
    cbn in Hvalid.
    apply andb_true_iff in Hvalid as [[Hname Hf']%andb_true_iff Hfs].
    destruct (fst f) as [|c name] eqn:Hfst; [by rewrite bool_decide_true in Hname|].
    rewrite (Hf Hf'). by apply IHfs.
Qed.

Lemma js_builtinType_valid noNs t :
  builtinType noNs = Some t -> validTypeRef t = true.
Proof.
  unfold builtinType.
  repeat match goal with
    | |- context [if ?b then _ else _] => destruct b
    end; intros [= <-]; reflexivity.
Qed.

(** *** The numbers of the header are doubles *)

Lemma Number_isDouble s : isDouble (Number s) = true.
Proof. apply roundDouble_isDouble. Qed.

Lemma Number_class s :
  Forall (fun x => is_digit x = true) s -> sizeClass (Number s).
Proof.
  intros Hs. apply roundDouble_class; [|done]. by apply Number_nonneg.
Qed.

Lemma Number_numberClass s :
  Forall (fun x => is_digit x = true) s -> numberClass (Number s).
Proof.
  intros Hs. unfold Number, ofZ.
  destruct (roundDouble_nonneg (digitsValue s) 0) as [->|(m & e & -> & Hm & He)].
  - by apply Number_nonneg.
  - by right.
  - left. cbn. apply andb_true_iff.
    split; apply Z.leb_le; [done|by apply He].
Qed.

Lemma add_isDouble x y : isDouble (add x y) = true.
Proof.
  destruct x as [m1 e1|b1|], y as [m2 e2|b2|]; try done.
  - apply roundDouble_isDouble.
  - cbn. by destruct (Bool.eqb _ _).
Qed.

Lemma sub_isDouble x y : isDouble (sub x y) = true.
Proof. apply add_isDouble. Qed.

Lemma mul_isDouble x y : isDouble (mul x y) = true.
Proof.
  destruct x as [m1 e1|b1|], y as [m2 e2|b2|]; try done.
  - apply roundDouble_isDouble.
  - cbn. by destruct (_ =? _).
  - cbn. by destruct (_ =? _).
Qed.

Lemma js_tokenizeLoop_ok fuel : forall s tokens,
  tokenizeLoop fuel s = Some tokens -> Forall tokenOk tokens.
Proof.
  induction fuel as [|fuel IH]; intros [|ch s] tokens; cbn [tokenizeLoop];
    try (intros [= <-]; constructor); try done.
  destruct (char_is " " ch); [apply IH|].
  assert (Hcons : forall t rest,
    tokenOk t -> cons t <$> tokenizeLoop fuel rest = Some tokens ->
    Forall tokenOk tokens).
  { intros t rest Ht. destruct (tokenizeLoop fuel rest) as [ts|] eqn:Hts;
      [|done]. intros [= <-]. constructor; [done|]. by eapply IH. }
  destruct (char_is "()" ch); [by apply Hcons|].
  destruct (char_is "+-*" ch); [by apply Hcons|].
  destruct (is_digit ch).
  { destruct (span is_digit s) as [ds s'']. apply Hcons. apply Number_isDouble. }
  destruct (is_ident_start ch); [|done].
  destruct (span is_word s) as [ws s'']. by apply Hcons.
Qed.

Lemma js_popHigher_ok ops : forall p output output' ops',
  popHigher ops p output = (output', ops') ->
  Forall itemOk output -> Forall itemOk output'.
Proof.
  induction ops as [|top ops IH]; intros p output output' ops';
    cbn [popHigher].
  { by intros [= <- <-]. }
  destruct (char_is "(" top); [by intros [= <- <-]|].
  destruct (p <=? prec top); [|by intros [= <- <-]].
  intros H Hout. apply (IH _ _ _ _ H). apply Forall_app. split; [done|].
  by constructor.
Qed.

Lemma js_popToParen_ok ops : forall output output' ops',
  popToParen ops output = (output', ops') ->
  Forall itemOk output -> Forall itemOk output'.
Proof.
  induction ops as [|top ops IH]; intros output output' ops';
    cbn [popToParen].
  { by intros [= <- <-]. }
  destruct (char_is "(" top); [by intros [= <- <-]|].
  intros H Hout. apply (IH _ _ _ H). apply Forall_app. split; [done|].
  by constructor.
Qed.

Lemma js_shuntingYard_ok constants tokens : forall output ops output' ops',
  constantsOk constants -> Forall tokenOk tokens ->
  shuntingYard constants tokens output ops = Some (output', ops') ->
  Forall itemOk output -> Forall itemOk output'.
Proof.
  intros output ops output' ops' Hconstants Htokens. revert output ops.
  induction Htokens as [|t tokens Ht _ IH]; intros output ops;
    cbn [shuntingYard].
  { by intros [= <- <-]. }
  destruct t as [n|value|value|value].
  - intros H Hout. apply (IH _ _ H). apply Forall_app. split; [done|].
    by constructor.
  - destruct (constants !! value) as [val|] eqn:Hval; [|done].
    intros H Hout. apply (IH _ _ H). apply Forall_app. split; [done|].
    constructor; [|done]. by eapply Hconstants.
  - destruct (popHigher ops (prec value) output) as [output1 ops1] eqn:Hpop.
    intros H Hout. apply (IH _ _ H). by eapply js_popHigher_ok.
  - destruct (char_is "(" value); [apply IH|].
    destruct (popToParen ops output) as [output1 [|top ops1]] eqn:Hpop; [done|].
    intros H Hout. apply (IH _ _ H). by eapply js_popToParen_ok.
Qed.

Lemma js_flushOps_ok ops : forall output output',
  flushOps ops output = Some output' ->
  Forall itemOk output -> Forall itemOk output'.
Proof.
  induction ops as [|op ops IH]; intros output output'; cbn [flushOps].
  { by intros [= <-]. }
  destruct (char_is "(" op); [done|].
  intros H Hout. apply (IH _ _ H). apply Forall_app. split; [done|].
  by constructor.
Qed.

Lemma js_evalPostfix_ok output : forall stack v,
  evalPostfix output stack = Some v ->
  Forall itemOk output -> Forall (fun x => isDouble x = true) stack ->
  isDouble v = true.
Proof.
  induction output as [|item output IH]; intros stack v; cbn [evalPostfix].
  { destruct stack as [|x [|y stack]]; try done. intros [= <-] _ Hstack.
    by inversion Hstack. }
  intros H Hout Hstack. inversion Hout as [|? ? Hitem Hout']; subst.
  destruct item as [n|item].
  - apply (IH _ _ H Hout'). by constructor.
  - destruct stack as [|b [|a stack]]; try done.
    inversion Hstack as [|? ? _ Hstack1]; subst.
    inversion Hstack1 as [|? ? _ Hstack2]; subst.
    destruct (char_is "+" item).
    { apply (IH _ _ H Hout'). constructor; [apply add_isDouble|done]. }
    destruct (char_is "-" item).
    { apply (IH _ _ H Hout'). constructor; [apply sub_isDouble|done]. }
    destruct (char_is "*" item); [|done].
    apply (IH _ _ H Hout'). constructor; [apply mul_isDouble|done].
Qed.

Lemma js_parseNumericExpr_ok expr constants v :
  constantsOk constants -> parseNumericExpr expr constants = Some v ->
  isDouble v = true.
Proof.
  intros Hconstants. unfold parseNumericExpr.
  destruct (tokenizeNumericExpr expr) as [tokens|] eqn:Htokens; [|done].
  cbn [mbind option_bind].
  destruct (shuntingYard constants tokens [] []) as [[output ops]|] eqn:Hyard;
    [|done].
  cbn [mbind option_bind].
  destruct (flushOps ops output) as [output'|] eqn:Hflush; [|done].
  cbn [mbind option_bind]. intros Heval.
  apply (js_evalPostfix_ok _ _ _ Heval); [|constructor].
  apply (js_flushOps_ok _ _ _ Hflush).
  apply (js_shuntingYard_ok _ _ _ _ _ _ Hconstants) in Hyard; [done| |constructor].
  unfold tokenizeNumericExpr in Htokens.
  destruct (test false unsupportedRe _); [done|].
  by eapply js_tokenizeLoop_ok.
Qed.

Lemma js_defineConstant_ok map m :
  constantsOk map -> constantsOk (defineConstant map m).
Proof.
  intros Hmap. unfold defineConstant.
  destruct (parseNumericExpr _ map) as [val|] eqn:Hval; [|done].
  intros name x. rewrite lookup_insert. case_decide; [|apply Hmap].
  intros [= <-]. by eapply js_parseNumericExpr_ok.
Qed.

Lemma js_extractNumericConstants_ok source :
  constantsOk (extractNumericConstants source).
Proof.
  unfold extractNumericConstants.
  assert (Hfold : forall ms map,
    constantsOk map -> constantsOk (fold_left defineConstant ms map)).
  { induction ms as [|m ms IH]; intros map Hmap; [done|].
    cbn [fold_left]. by apply IH, js_defineConstant_ok. }
  apply Hfold, Hfold. intros name x.
  rewrite lookup_singleton. case_decide; [|done]. by intros [= <-].
Qed.

(** *** The lengths *)

Lemma compareFin_antisym m1 e1 m2 e2 :
  compareFin m2 e2 m1 e1 = CompOpp (compareFin m1 e1 m2 e2).
Proof.
  unfold compareFin. rewrite (Z.min_comm e2 e1). apply Z.compare_antisym.
Qed.

Lemma leb_not_ltb x y :
  isFinite x = true -> isFinite y = true -> ltb x y = false -> leb y x = true.
Proof.
  destruct x as [m1 e1| |], y as [m2 e2| |]; try done. intros _ _.
  cbn [ltb leb]. rewrite (compareFin_antisym m1 e1 m2 e2).
  by destruct (compareFin m1 e1 m2 e2).
Qed.

(** The guard [Number.isInteger(n) && n >= 0]. *)
Lemma js_guard_isUint n :
  isInteger n && leb (ofZ 0) n = true -> isUint n = true.
Proof. done. Qed.

Lemma js_parseLen_ok token constants n :
  constantsOk constants -> parseLen token constants = Some n ->
  isDouble n && isUint n = true.
Proof.
  intros Hconstants. unfold parseLen.
  destruct (if test _ _ _ then _ else _) as [v|] eqn:Hv;
    cbn [mbind option_bind]; [|done].
  destruct (isInteger v) eqn:Hint; [|done]. cbn [negb orb].
  destruct (ltb v (ofZ 0)) eqn:Hneg; [done|]. intros [= <-].
  apply andb_true_iff. split.
  - destruct (test _ _ _).
    + injection Hv as <-. apply Number_isDouble.
    + by eapply Hconstants.
  - unfold isUint. rewrite Hint. cbn [andb].
    apply (leb_not_ltb v (ofZ 0)); [by destruct v|done|done].
Qed.

Lemma max_one x :
  isDouble x && isUint x = true ->
  isDouble (max (ofZ 1) x) && isUint (max (ofZ 1) x) = true.
Proof.
  intros Hx. assert (Hx' := Hx). apply andb_true_iff in Hx' as [_ Hu].
  destruct x as [m e| |]; try done. change (ofZ 1) with (Fin 1 0).
  cbn [max]. by destruct (ltb _ _).
Qed.

(** [bitWords] of a natural number is a natural number. *)
Lemma js_bitWords_ok bits :
  isDouble bits && isUint bits = true ->
  isDouble (bitWords bits) && isUint (bitWords bits) = true.
Proof.
  intros [Hd Hu]%andb_true_iff. assert (Hn := isUint_natural bits Hd Hu).
  unfold bitWords. apply max_one.
  destruct bits as [m e| |]; try done.
  cbn in Hn. apply andb_true_iff in Hn as [Hm%Z.leb_le He%Z.leb_le].
  change (ofZ 64) with (Fin 1 6). cbn [div].
  change (1 =? 0) with false. cbv iota.
  rewrite Z.mod_1_r. change (0 =? 0) with true. cbv iota.
  rewrite Z.div_1_r.
  destruct (decide (m = 0)) as [->|Hm0]; [done|].
  cbn [isDouble] in Hd. apply orb_true_iff in Hd as [Hd|Hd].
  { apply andb_true_iff in Hd as [?%Z.eqb_eq _]. done. }
  apply andb_true_iff in Hd as [[[Hodd Hbound%Z.ltb_lt]%andb_true_iff
    Hmin%Z.leb_le]%andb_true_iff Hlog%Z.ltb_lt].
  rewrite roundDouble_exact by (try done; lia).
  cbn [ceil]. destruct (Z.leb_spec 0 (e - 6)) as [He6|He6].
  - apply andb_true_iff. split.
    + cbn [isDouble]. apply orb_true_iff. right. rewrite Hodd. cbn [andb].
      repeat (apply andb_true_iff; split);
        [apply Z.ltb_lt|apply Z.leb_le|apply Z.ltb_lt]; lia.
    + apply isNatural_isUint. cbn. apply andb_true_iff.
      split; apply Z.leb_le; lia.
  - assert (Hpow : 0 < 2 ^ (- (e - 6))) by (apply Z.pow_pos_nonneg; lia).
    assert (Hceil : 1 <= - (- m / 2 ^ (- (e - 6))) <= m).
    { assert (- m / 2 ^ (- (e - 6)) < 0)
        by (apply Z.div_lt_upper_bound; lia).
      assert (- m <= - m / 2 ^ (- (e - 6))); [|lia].
      apply Z.div_le_lower_bound; [done|]. nia. }
    apply andb_true_iff. split.
    + apply finite_isDouble; [lia|lia|lia|].
      rewrite Z.abs_eq by lia.
      assert (Z.log2 (- (- m / 2 ^ (- (e - 6)))) < 53); [|lia].
      apply Z.log2_lt_pow2; lia.
    + apply isNatural_isUint, finite_natural; lia.
Qed.

Lemma js_intAlias_ok noNs t : intAlias noNs = Some t -> validTypeRef t = true.
Proof.
  unfold intAlias. destruct (exec false intAliasRe noNs) as [m|]; [|done].
  cbn [mbind option_bind]. destruct (_ && _) eqn:Hguard; [|done].
  intros [= <-]. cbn. rewrite Number_isDouble, (js_guard_isUint _ Hguard).
  done.
Qed.

Lemma js_idAlias_ok noNs t : idAlias noNs = Some t -> validTypeRef t = true.
Proof.
  unfold idAlias. destruct (exec false idAliasRe noNs) as [m|]; [|done].
  cbn [mbind option_bind]. destruct (_ && _) eqn:Hguard; [|done].
  intros [= <-]. cbn. rewrite Number_isDouble, (js_guard_isUint _ Hguard).
  done.
Qed.

Lemma js_bitAlias_ok noNs t : bitAlias noNs = Some t -> validTypeRef t = true.
Proof.
  unfold bitAlias. destruct (exec false bitAliasRe noNs) as [m|]; [|done].
  cbn [mbind option_bind]. destruct (_ && _) eqn:Hguard; [|done].
  intros [= <-]. cbn [validTypeRef]. rewrite andb_true_r.
  apply js_bitWords_ok.
  by rewrite Number_isDouble, (js_guard_isUint _ Hguard).
Qed.

(** *** The resolver *)

Lemma js_bind_Some {A B} (m : M A) (f : A -> M B) st b st' :
  bind m f st = Some (b, st') ->
  exists a st1, m st = Some (a, st1) /\ f a st1 = Some (b, st').
Proof.
  unfold bind. destruct (m st) as [[a st1]|]; [|done]. eauto.
Qed.

Lemma js_stateOk_cacheSet st name t :
  stateOk st -> validTypeRef t = true ->
  stateOk (mkState (warnings st) (<[name := t]> (structCache st))).
Proof.
  intros Hst Ht name' t'. cbn. rewrite lookup_insert.
  case_decide; [by intros [= <-]|apply Hst].
Qed.

Lemma js_stateOk_initial : stateOk initialState.
Proof. intros name t. cbn. by rewrite lookup_empty. Qed.

Lemma js_fieldOk_valid fields :
  Forall fieldOk fields -> validTypeRef (TStruct fields) = true.
Proof.
  cbn. induction 1 as [|f fs [Hname Hf] _ IH]; cbn; [done|].
  rewrite IH, andb_true_r. apply andb_true_iff. split; [|done].
  by rewrite bool_decide_false.
Qed.

Section ResolverFactsOfDoubles.
Variable c : ctx.
Variable rec : str -> M QbiTypeRef.
Hypothesis constants_ok : constantsOk (constants c).
Hypothesis rec_ok : resolverOk rec.

Lemma js_fieldsLoop_ok statements : forall fields st res st',
  fieldsLoop c rec statements fields st = Some (res, st') ->
  stateOk st -> Forall fieldOk fields ->
  Forall fieldOk res /\ stateOk st'.
Proof using constants_ok rec_ok.
  induction statements as [|stmt statements IH]; intros fields st res st';
    cbn [fieldsLoop].
  { intros [= <- <-]. done. }
  destruct (test false bracesRe stmt); [apply IH|].
  destruct (includes _ stmt); [apply IH|].
  destruct (test false nestedTypeRe stmt); [apply IH|].
  destruct (test false directiveRe stmt); [apply IH|].
  destruct (exec false arrayFieldRe stmt) as [a|] eqn:Ha.
  - destruct (parseLen _ _) as [len|] eqn:Hlen.
    + intros (item & st1 & Hrec & Hloop)%js_bind_Some Hst Hfields.
      destruct (rec_ok _ _ _ _ Hrec Hst) as [Hitem Hst1].
      apply (IH _ _ _ _ Hloop Hst1).
      apply Forall_app. split; [done|]. constructor; [|done]. split.
      * by apply arrayField_name in Ha.
      * cbn. rewrite Hitem, andb_true_r.
        by apply js_parseLen_ok in Hlen.
    + intros (? & st1 & [= <- <-] & Hloop)%js_bind_Some Hst Hfields.
      by apply (IH _ _ _ _ Hloop).
  - destruct (exec false scalarFieldRe stmt) as [m|] eqn:Hm.
    + intros (typeRef & st1 & Hrec & Hloop)%js_bind_Some Hst Hfields.
      destruct (rec_ok _ _ _ _ Hrec Hst) as [HtypeRef Hst1].
      apply (IH _ _ _ _ Hloop Hst1).
      apply Forall_app. split; [done|]. apply Forall_map.
      eapply Forall_impl; [apply (scalarField_names _ _ Hm)|].
      intros name Hname. split; done.
    + intros (? & st1 & [= <- <-] & Hloop)%js_bind_Some Hst Hfields.
      by apply (IH _ _ _ _ Hloop).
Qed.

Lemma js_parseStructFieldsF_ok : resolverOk (parseStructFieldsF c rec).
Proof using constants_ok rec_ok.
  intros body st t st'. unfold parseStructFieldsF.
  intros (fields & st1 & Hloop & [= <- <-])%js_bind_Some Hst.
  destruct (js_fieldsLoop_ok _ _ _ _ _ Hloop Hst) as [Hfields Hst1];
    [constructor|].
  split; [by apply js_fieldOk_valid|done].
Qed.

Lemma js_resolveStruct_ok : resolverOk (resolveStruct c rec).
Proof using constants_ok rec_ok.
  intros noNs st t st'. unfold resolveStruct.
  intros (cached & st1 & [= <- <-] & Hrest)%js_bind_Some Hst.
  destruct (structCache st !! noNs) as [cached|] eqn:Hcached.
  { injection Hrest as <- <-. split; [by eapply Hst|done]. }
  assert (Hunknown :
    (warn (u "Unknown type: " ++ noNs ++ u " (treated as bytes[0])") ;;;
     ret (TBytes (ofZ 0))) st = Some (t, st') ->
    validTypeRef t = true /\ stateOk st').
  { intros [= <- <-]. done. }
  destruct (extractStructBody (headerSource c) noNs) as [[|ch body]|];
    [by apply Hunknown| |by apply Hunknown].
  apply js_bind_Some in Hrest as (ref & st1 & Hparse & Hrest).
  destruct (js_parseStructFieldsF_ok _ _ _ _ Hparse Hst) as [Href Hst1].
  injection Hrest as <- <-. split; [done|]. by apply js_stateOk_cacheSet.
Qed.

Lemma js_resolveNamed_ok : resolverOk (resolveNamed c rec).
Proof using constants_ok rec_ok.
  intros noNs st t st'. unfold resolveNamed.
  destruct (aliases c !! noNs) as [[|ch aliased]|]; try apply js_resolveStruct_ok.
  destruct (negb _); [apply rec_ok|apply js_resolveStruct_ok].
Qed.

Lemma js_parseTypeRefF_ok : resolverOk (parseTypeRefF c rec).
Proof using constants_ok rec_ok.
  intros rawType st t st'. unfold parseTypeRefF.
  destruct (exec false arrayRe _) as [array|].
  { destruct (parseLen _ _) as [len|] eqn:Hlen.
    - intros (item & st1 & Hrec & [= <- <-])%js_bind_Some Hst.
      destruct (rec_ok _ _ _ _ Hrec Hst) as [Hitem Hst1].
      split; [|done]. cbn. rewrite Hitem, andb_true_r.
      by apply js_parseLen_ok in Hlen.
    - intros [= <- <-] Hst. done. }
  destruct (exec false bitArrayRe _) as [bitArray|].
  { destruct (parseLen _ _) as [bits|] eqn:Hbits.
    - intros [= <- <-] Hst. split; [|done]. cbn [validTypeRef].
      rewrite andb_true_r. apply js_bitWords_ok.
      by apply js_parseLen_ok in Hbits.
    - intros [= <- <-] Hst. done. }
  destruct (intAlias _) as [array|] eqn:Hint.
  { intros [= <- <-] Hst. split; [|done]. by apply js_intAlias_ok in Hint. }
  destruct (idAlias _) as [array|] eqn:Hid.
  { intros [= <- <-] Hst. split; [|done]. by apply js_idAlias_ok in Hid. }
  destruct (bitAlias _) as [array|] eqn:Hbit.
  { intros [= <- <-] Hst. split; [|done]. by apply js_bitAlias_ok in Hbit. }
  destruct (builtinType _) as [b|] eqn:Hb.
  { intros [= <- <-] Hst. split; [|done]. by apply js_builtinType_valid in Hb. }
  destruct (exec false proposalDataV1Re _).
  { intros [= <- <-] Hst. done. }
  apply js_resolveNamed_ok.
Qed.
End ResolverFactsOfDoubles.

Lemma js_parseTypeRef_ok depth c :
  constantsOk (constants c) -> resolverOk (parseTypeRef depth c).
Proof.
  intros Hc. induction depth as [|depth IH]; cbn [parseTypeRef].
  - intros raw st t st'. done.
  - by apply js_parseTypeRefF_ok.
Qed.

Lemma js_parseStructFields_ok depth c :
  constantsOk (constants c) -> resolverOk (parseStructFields depth c).
Proof. intros Hc. by apply js_parseStructFieldsF_ok, js_parseTypeRef_ok. Qed.
End ExtractorFactsOfDoubles.

(** ** The validator over doubles *)

Section ValidatorFactsOfDoubles.
Import Js.

Lemma assertPositiveInt_cases n label :
  assertPositiveInt n label =
  if isUint n then Ok n
  else Throw (RangeError (label ++ u " must be a non-negative integer")).
Proof.
  unfold assertPositiveInt, isUint. destruct n as [m e| |]; try done.
  cbn [isFinite negb orb]. destruct (isInteger (Fin m e)); [|done].
  cbn [negb orb andb]. change (ofZ 0) with (Fin 0 0). cbn [ltb leb].
  rewrite (compareFin_antisym m e 0 0).
  by destruct (compareFin m e 0 0).
Qed.

Lemma lengthsAccepted_false_iff t :
  lengthsAccepted t = false <-> containsBadLength t.
Proof.
  induction t as [e|p|n| |n item IH|fields IH] using QbiTypeRef_ind; cbn.
  - split; [discriminate|inversion 1].
  - split; [discriminate|inversion 1].
  - split; [by constructor|by inversion 1].
  - split; [discriminate|inversion 1].
  - rewrite andb_false_iff. split.
    + intros [H|H]; [by apply bad_array|apply bad_item; by apply IH].
    + inversion 1; subst; [by left|right; by apply IH].
  - split.
    + intros H. induction IH as [|f fs Hf _ IHfs]; [discriminate|].
      cbn in H. apply andb_false_iff in H as [H|H].
      * apply bad_field with f; [by left|by apply Hf].
      * specialize (IHfs H). inversion IHfs as [| | |? g Hin Hbad]; subst.
        apply bad_field with g; [by right|done].
    + inversion 1 as [| | |? f Hin Hbad]; subst.
      rewrite Forall_forall in IH.
      apply not_true_is_false. intros Hall.
      rewrite forallb_forall in Hall. specialize (Hall f Hin).
      apply (IH f) in Hbad; [congruence|]. by apply list_elem_of_In.
Qed.

Lemma structLoop_returns fields :
  Forall (fun f => lengthsAccepted (snd f) = true ->
            exists l, cppLayoutOf (snd f) = Ok l) fields ->
  forallb (fun f => lengthsAccepted (snd f)) fields = true ->
  forall offset structAlign,
    exists r, structLoop fields offset structAlign = Ok r.
Proof.
  induction 1 as [|f fs Hf _ IH]; intros Hok offset structAlign.
  - by eexists.
  - cbn in Hok. apply andb_true_iff in Hok as [Hok1 Hok2].
    destruct (Hf Hok1) as [l Hl]. cbn [structLoop]. rewrite Hl. by apply IH.
Qed.

Lemma structLoop_throws fields :
  Forall (fun f => lengthsAccepted (snd f) = false ->
            exists e, cppLayoutOf (snd f) = Throw e) fields ->
  forallb (fun f => lengthsAccepted (snd f)) fields = false ->
  forall offset structAlign,
    exists e, structLoop fields offset structAlign = Throw e.
Proof.
  induction 1 as [|f fs Hf _ IH]; intros Hbad offset structAlign;
    [discriminate|].
  cbn in Hbad. cbn [structLoop].
  destruct (cppLayoutOf (snd f)) as [l|e] eqn:Hl; [|by exists e].
  apply andb_false_iff in Hbad as [Hbad|Hbad].
  - destruct (Hf Hbad) as [e He]. congruence.
  - by apply IH.
Qed.

(** The layout calculator returns a layout when every length is an integer
    that is not negative, and throws when one is not. *)
Lemma layoutReturns t :
  lengthsAccepted t = true -> exists l, cppLayoutOf t = Ok l.
Proof.
  induction t as [e|p|n| |n item IH|fields IH] using QbiTypeRef_ind;
    cbn [lengthsAccepted]; intros Hok; try by eexists.
  - cbn [cppLayoutOf]. rewrite assertPositiveInt_cases, Hok. by eexists.
  - apply andb_true_iff in Hok as [Hn Hitem]. cbn [cppLayoutOf].
    rewrite assertPositiveInt_cases, Hn. destruct (IH Hitem) as [l ->].
    by eexists.
  - rewrite layoutOfStruct.
    destruct (structLoop_returns fields IH Hok (ofZ 0) (ofZ 1))
      as [[offset structAlign] ->].
    by eexists.
Qed.

Lemma layoutThrows t :
  lengthsAccepted t = false -> exists e, cppLayoutOf t = Throw e.
Proof.
  induction t as [e|p|n| |n item IH|fields IH] using QbiTypeRef_ind;
    cbn [lengthsAccepted]; intros Hbad; try discriminate.
  - cbn [cppLayoutOf]. rewrite assertPositiveInt_cases, Hbad. by eexists.
  - cbn [cppLayoutOf]. rewrite assertPositiveInt_cases.
    apply andb_false_iff in Hbad as [Hbad|Hbad].
    + rewrite Hbad. by eexists.
    + destruct (isUint n); [|by eexists].
      destruct (IH Hbad) as [e ->]. by eexists.
  - rewrite layoutOfStruct.
    destruct (structLoop_throws fields IH Hbad (ofZ 0) (ofZ 1)) as [e ->].
    by eexists.
Qed.

Lemma badLength_throws t :
  containsBadLength t <-> exists e, cppLayoutOf t = Throw e.
Proof.
  rewrite <- lengthsAccepted_false_iff. split.
  - apply layoutThrows.
  - intros [e He]. destruct (lengthsAccepted t) eqn:Hok; [|done].
    destruct (layoutReturns t Hok) as [l Hl]. congruence.
Qed.

Lemma typeRefAdds t : forall path errors,
  extends (typeRefAccepted t = true) errors (validateTypeRef t path errors).
Proof.
  induction t as [e|p|n| |n item IH|fields IH] using QbiTypeRef_ind;
    intros path errors; cbn [typeRefAccepted validateTypeRef].
  - destruct e as [x|]; [|by apply extends_same].
    destruct (isUint x); [by apply extends_same|by apply extends_push].
  - by apply extends_same.
  - destruct (isUint n); [by apply extends_same|by apply extends_push].
  - by apply extends_same.
  - eapply extends_iff; [symmetry; apply andb_true_iff|].
    eapply extends_trans; [|apply IH].
    destruct (isUint n); [by apply extends_same|by apply extends_push].
  - generalize 0%nat as i. revert errors.
    induction IH as [|f fs Hf _ IHfs]; intros errors i;
      [by apply extends_same|].
    destruct f as [name tr]. cbn [forallb fst snd] in *.
    eapply extends_iff; [symmetry; apply andb_true_iff|].
    eapply extends_trans; [|apply IHfs].
    eapply extends_iff; [symmetry; apply andb_true_iff|].
    eapply extends_trans; [|apply Hf].
    destruct name as [|c name].
    + apply extends_push. rewrite bool_decide_true by done. cbn. congruence.
    + apply extends_same. rewrite bool_decide_false by done. reflexivity.
Qed.

Section WithNumberToString.
Variable numberToString : double -> str.

Lemma sizeCases typeRef stored path errors :
  match validateSize numberToString typeRef stored path errors with
  | Throw _ => sizeThrows typeRef stored
  | Ok result =>
      ~ sizeThrows typeRef stored /\
      extends (sizeAccepted typeRef stored) errors result
  end.
Proof using Type.
  unfold validateSize, sizeThrows, sizeAccepted.
  destruct stored as [s|].
  2:{ split; [by intros (s & ? & _)|by apply extends_same]. }
  destruct (isUint s) eqn:Hs.
  2:{ split; [intros (s' & [= <-] & ? & _); congruence|].
      apply extends_push. intros [? _]. congruence. }
  destruct (cppLayoutOf typeRef) as [l|e] eqn:Hl.
  - assert (Hgood : ~ containsBadLength typeRef).
    { intros [e He]%badLength_throws. congruence. }
    destruct (eqb (size l) s) eqn:Heq; cbn [negb].
    + split; [by intros (s' & _ & _ & ?)|]. apply extends_same. eauto.
    + split; [by intros (s' & _ & _ & ?)|]. apply extends_push.
      intros (_ & l' & [= <-] & ?). congruence.
  - exists s. split; [done|]. split; [done|].
    apply badLength_throws. eauto.
Qed.

Lemma entryCases e path errors :
  match validateEntry numberToString e path errors with
  | Throw _ => entryThrows e
  | Ok result =>
      ~ entryThrows e /\ extends (entryAccepted e) errors result
  end.
Proof using Type.
  unfold validateEntry, entryThrows, entryAccepted.
  set (e1 := match QbiEntry.name e with [] => _ | _ :: _ => errors end).
  set (e2 := if negb (isUint (QbiEntry.inputType e)) then _ else e1).
  set (e3 := validateTypeRef (QbiEntry.input e) _ e2).
  set (e4 := validateTypeRef (QbiEntry.output e) _ e3).
  assert (H1 : extends (QbiEntry.name e <> []) errors e1).
  { subst e1. destruct (QbiEntry.name e);
      [apply extends_push; by intros ?|by apply extends_same]. }
  assert (H2 : extends (isUint (QbiEntry.inputType e) = true) e1 e2).
  { subst e2. destruct (isUint (QbiEntry.inputType e));
      [by apply extends_same|by apply extends_push]. }
  pose proof (typeRefAdds (QbiEntry.input e)
                (path ++ u ".input") e2) as H3. fold e3 in H3.
  pose proof (typeRefAdds (QbiEntry.output e)
                (path ++ u ".output") e3) as H4. fold e4 in H4.
  pose proof (sizeCases (QbiEntry.input e) (QbiEntry.inputSize e)
                (path ++ u ".inputSize") e4) as H5.
  destruct (validateSize _ (QbiEntry.input e) _ _ e4) as [e5|err]; [|by left].
  destruct H5 as [Hno5 H5].
  pose proof (sizeCases (QbiEntry.output e) (QbiEntry.outputSize e)
                (path ++ u ".outputSize") e5) as H6.
  destruct (validateSize _ (QbiEntry.output e) _ _ e5) as [e6|err]; [|by right].
  destruct H6 as [Hno6 H6].
  split; [tauto|].
  pose proof (extends_trans _ _ _ _ _ H1
               (extends_trans _ _ _ _ _ H2
                 (extends_trans _ _ _ _ _ H3
                   (extends_trans _ _ _ _ _ H4
                     (extends_trans _ _ _ _ _ H5 H6))))) as H.
  eapply extends_iff; [|exact H]. tauto.
Qed.

Lemma entriesCases entries : forall i errors,
  match validateEntries numberToString entries i errors with
  | Throw _ => Exists entryThrows entries
  | Ok result =>
      ~ Exists entryThrows entries /\
      extends (Forall entryAccepted entries) errors result
  end.
Proof using Type.
  induction entries as [|e entries IH]; intros i errors; cbn [validateEntries].
  - split; [by intros ?%Exists_nil|by apply extends_same].
  - pose proof (entryCases e (u "entries[" ++ showNat i ++ u "]") errors)
      as He.
    destruct (validateEntry _ e _ errors) as [e1|err]; [|by left].
    destruct He as [Hno He]. specialize (IH (S i) e1).
    destruct (validateEntries _ entries (S i) e1) as [e2|err]; [|by right].
    destruct IH as [Hnos IH]. split.
    + intros [?|?]%Exists_cons; tauto.
    + eapply extends_iff; [|exact (extends_trans _ _ _ _ _ He IH)].
      split; [intros [? ?]; by constructor|by inversion 1].
Qed.

Lemma contractAdds contract errors :
  extends (contractAccepted contract) errors (validateContract contract errors).
Proof using Type.
  unfold validateContract, contractAccepted.
  set (e1 := match QbiContract.name contract with [] => _ | _ :: _ => errors end).
  set (e2 := match QbiContract.contractIndex contract with Some _ => _ | None => e1 end).
  assert (H1 : extends (QbiContract.name contract <> []) errors e1).
  { subst e1. destruct (QbiContract.name contract);
      [apply extends_push; by intros ?|by apply extends_same]. }
  assert (H2 : extends (forall n, QbiContract.contractIndex contract = Some n ->
                          isUint n = true) e1 e2).
  { subst e2. destruct (QbiContract.contractIndex contract) as [n|];
      [|by apply extends_same].
    destruct (isUint n) eqn:Hn; cbn [negb].
    - apply extends_same. by intros ? [= <-].
    - apply extends_push. intros H. specialize (H n eq_refl). congruence. }
  assert (H3 : extends (forall k, QbiContract.contractPublicKeyHex contract = Some k ->
                          length k = 64%nat /\ Forall (fun x => is_hex x = true) k)
                 e2 (match QbiContract.contractPublicKeyHex contract with
                     | Some h =>
                         if negb (isHex h 64)
                         then e2 ++ [u "contract.contractPublicKeyHex must be a 32-byte hex string"]
                         else e2
                     | None => e2
                     end)).
  { destruct (QbiContract.contractPublicKeyHex contract) as [h|];
      [|by apply extends_same].
    destruct (isHex h 64) eqn:Hh; cbn [negb].
    - apply extends_same. intros ? [= <-].
      apply isHex_spec in Hh as (? & _ & ?). done.
    - apply extends_push. intros H. destruct (H h eq_refl) as [Hlen Hall].
      rewrite (proj2 (isHex_spec h 64)) in Hh; [done|].
      split; [done|]. split; [|done]. by destruct h. }
  eapply extends_iff; [|exact (extends_trans _ _ _ _ _ H1
                                 (extends_trans _ _ _ _ _ H2 H3))].
  tauto.
Qed.

Lemma documentAccepted_iff (d : QbiFile.t) :
  validateQbiFile numberToString d = Ok (QbiValidationResult.mk true []) <->
  documentAccepted d.
Proof using Type.
  unfold validateQbiFile, documentAccepted.
  set (e0 := if str_eqb _ _ then [] else _).
  assert (H0 : extends (QbiFile.qbiVersion d = u "0.1") [] e0).
  { subst e0. unfold str_eqb.
    destruct (decide (QbiFile.qbiVersion d = u "0.1")) as [Hv|Hv].
    - rewrite bool_decide_true by done. by apply extends_same.
    - rewrite bool_decide_false by done.
      apply (extends_push _ [] _ Hv). }
  pose proof (contractAdds (QbiFile.contract d) e0) as H1.
  pose proof (entriesCases (QbiFile.entries d) 0
                (validateContract (QbiFile.contract d) e0)) as H2.
  destruct (validateEntries _ _ _ _) as [result|err].
  - destruct H2 as [_ H2].
    pose proof (extends_nil _ _ (extends_trans _ _ _ _ _ H0
                                   (extends_trans _ _ _ _ _ H1 H2))) as H.
    rewrite <- H. destruct result; [done|]. split; [done|done].
  - split; [done|]. intros (_ & _ & Hall).
    apply Exists_exists in H2 as (e & Hin & Hthrows).
    rewrite Forall_forall in Hall. specialize (Hall e Hin).
    destruct Hall as (_ & _ & _ & _ & Hsin & Hsout).
    assert (Hno : forall t s, sizeAccepted t s -> ~ sizeThrows t s).
    { intros t s Hacc (z & -> & _ & [e' He']%badLength_throws).
      destruct Hacc as (_ & l & Hl & _). congruence. }
    destruct Hthrows as [Ht|Ht];
      [destruct (Hno _ _ Hsin Ht)|destruct (Hno _ _ Hsout Ht)].
Qed.

Lemma documentThrows_iff (d : QbiFile.t) :
  (exists e, validateQbiFile numberToString d = Throw e) <->
  Exists entryThrows (QbiFile.entries d).
Proof using Type.
  unfold validateQbiFile.
  pose proof (entriesCases (QbiFile.entries d) 0
    (validateContract (QbiFile.contract d)
       (if str_eqb (QbiFile.qbiVersion d) (u "0.1") then []
        else [u "qbiVersion must be " ++ [34%N] ++ u "0.1" ++ [34%N]]))) as H.
  destruct (validateEntries _ _ _ _) as [result|err].
  - destruct H as [Hno _]. split; [|done].
    intros [e He]. by destruct result.
  - split; [done|]. eauto.
Qed.
End WithNumberToString.
End ValidatorFactsOfDoubles.

(** ** The compiled document over doubles *)

Section CompilerFactsOfDoubles.
Import Js.

Lemma js_registeredOf_ok macro kind m :
  matchOk false registerGroups (registerRe macro) m ->
  registeredOk (registeredOf kind m).
Proof.
  intros (_ & Hok & Hsets). unfold registeredOk, registeredOf. cbn. split.
  - apply (group_ok registerGroups 1 _ Hok). apply Hsets.
    unfold registerRe. cbn [seq setsGroup]. cbn. by rewrite !orb_true_r.
  - apply Number_numberClass.
    apply (group_ok registerGroups 2 _ Hok). apply Hsets.
    unfold registerRe. cbn [seq setsGroup]. cbn. by rewrite !orb_true_r.
Qed.

Lemma js_extractRegisteredEntries_ok source :
  Forall registeredOk (extractRegisteredEntries source).
Proof.
  unfold extractRegisteredEntries. apply Forall_app. split.
  - apply Forall_map.
    eapply Forall_impl; [apply (matchAll_sound _ _ _ _ (registerRe_groups _))|].
    intros m. apply js_registeredOf_ok.
  - apply Forall_map.
    eapply Forall_impl; [apply (matchAll_sound _ _ _ _ (registerRe_groups _))|].
    intros m. apply js_registeredOf_ok.
Qed.

Lemma js_normalizeNoData_ok t l :
  validTypeRef t = true -> cppLayoutOf t = Ok l ->
  validTypeRef (normalizeNoData t (size l)) = true /\
  sizeStored (normalizeNoData t (size l)) (Some (size l)).
Proof.
  intros Hvalid Hl.
  destruct t as [e|p|n| |n item|[|f fields]];
    try (split; [done|by exists l]).
  cbn in Hl. injection Hl as <-. cbn. split; [done|].
  by exists (mkLayout (ofZ 1) (ofZ 1)).
Qed.

Lemma js_sideTypeRef_ok depth c structName :
  constantsOk (constants c) ->
  forall st t st',
    sideTypeRef depth c structName st = Some (t, st') -> stateOk st ->
    validTypeRef t = true /\ stateOk st'.
Proof.
  intros Hc st t st'. unfold sideTypeRef.
  destruct (extractStructBody _ _) as [[|ch body]|];
    try (intros [= <- <-]; done).
  by apply js_parseStructFields_ok.
Qed.

Lemma js_layout_valid t :
  validTypeRef t = true -> exists l, cppLayoutOf t = Ok l /\ layoutOk t l.
Proof. intros Hvalid. by apply layoutOfWellFormed, js_validTypeRef_wellFormed. Qed.

(** The entries of the loop, before they are sorted: each comes from a
    registered entry. *)
Lemma js_compileEntries_ok depth c entries :
  constantsOk (constants c) ->
  forall compiled st res st',
    compileEntries depth c entries compiled st = Some (Ok (res, st')) ->
    Forall registeredOk entries -> stateOk st -> Forall entryOk compiled ->
    Forall entryOk res.
Proof.
  intros Hc.
  induction entries as [|entry entries IH]; intros compiled st res st';
    cbn [compileEntries].
  { intros [= <- <-]. done. }
  destruct (sideTypeRef depth c _ st) as [[inputTypeRef st1]|] eqn:Hin; [|done].
  destruct (sideTypeRef depth c _ st1) as [[outputTypeRef st2]|] eqn:Hout;
    [|done].
  destruct (cppLayoutOf inputTypeRef) as [inputLayout|] eqn:Hli; [|done].
  destruct (cppLayoutOf outputTypeRef) as [outputLayout|] eqn:Hlo; [|done].
  intros Hloop Hentries Hst Hcompiled.
  inversion Hentries as [|? ? [Hname Htype] Hentries']; subst.
  destruct (js_sideTypeRef_ok _ _ _ Hc _ _ _ Hin Hst) as [Hvin Hst1].
  destruct (js_sideTypeRef_ok _ _ _ Hc _ _ _ Hout Hst1) as [Hvout Hst2].
  destruct (js_normalizeNoData_ok _ _ Hvin Hli) as [Hnin Hsin].
  destruct (js_normalizeNoData_ok _ _ Hvout Hlo) as [Hnout Hsout].
  apply (IH _ _ _ _ Hloop Hentries' Hst2).
  apply Forall_app. split; [done|]. constructor; [|done].
  unfold entryOk. cbn. done.
Qed.

(** The loop does not throw: the layout calculator is given valid type
    references only. *)
Lemma js_compileEntries_no_throw depth c entries :
  constantsOk (constants c) ->
  forall compiled st e,
    compileEntries depth c entries compiled st = Some (Throw e) ->
    stateOk st -> False.
Proof.
  intros Hc.
  induction entries as [|entry entries IH]; intros compiled st e;
    cbn [compileEntries]; [done|].
  destruct (sideTypeRef depth c _ st) as [[inputTypeRef st1]|] eqn:Hin; [|done].
  destruct (sideTypeRef depth c _ st1) as [[outputTypeRef st2]|] eqn:Hout;
    [|done].
  intros Hloop Hst.
  destruct (js_sideTypeRef_ok _ _ _ Hc _ _ _ Hin Hst) as [Hvin Hst1].
  destruct (js_sideTypeRef_ok _ _ _ Hc _ _ _ Hout Hst1) as [Hvout Hst2].
  destruct (js_layout_valid _ Hvin) as (li & Hli & _).
  destruct (js_layout_valid _ Hvout) as (lo & Hlo & _).
  rewrite Hli, Hlo in Hloop. by eapply IH.
Qed.

Lemma js_compileContractHeader_inv localeCompare now depth headerSource options doc :
  compileContractHeader localeCompare now depth headerSource options
    = Some (Ok doc) ->
  exists compiled st,
    compileEntries depth
      (mkCtx (extractNumericConstants headerSource)
         (extractTypeAliases headerSource) headerSource)
      (extractRegisteredEntries headerSource) [] (mkState [] ∅)
      = Some (Ok (compiled, st)) /\
    QbiFile.qbiVersion doc = u "0.1" /\
    QbiFile.contract doc =
      QbiContract.mk (CompileOptions.contractName options)
        (CompileOptions.contractIndex options)
        (CompileOptions.contractPublicKeyHex options) None /\
    QbiFile.entries doc =
      sort (fun a b => sign (compareEntries localeCompare a b)) compiled.
Proof.
  unfold compileContractHeader.
  destruct (compileEntries _ _ _ _ _) as [[[compiled st]|e]|]; [|done..].
  intros [= <-]. exists compiled, st. done.
Qed.

(** *** What the validator makes of the entries *)

Lemma validTypeRef_accepted t :
  validTypeRef t = true -> typeRefAccepted t = true.
Proof.
  induction t as [e|p|n| |n item IH|fields IH] using QbiTypeRef_ind; cbn;
    try done.
  - destruct e as [x|]; [|done]. by intros [_ ->]%andb_true_iff.
  - by intros [_ ->]%andb_true_iff.
  - intros [[_ ->]%andb_true_iff ?]%andb_true_iff. auto.
  - induction IH as [|f fs Hf _ IHfs]; cbn; [done|].
    intros [[-> ?]%andb_true_iff ?]%andb_true_iff. cbn.
    apply andb_true_iff. auto.
Qed.

Lemma sizeStored_accepted typeRef stored :
  validTypeRef typeRef = true -> sizeStored typeRef stored ->
  (forall s, stored = Some s -> isFinite s = true) ->
  sizeAccepted typeRef stored.
Proof.
  intros Hvalid (l & Hl & ->) Hfinite. cbn.
  destruct (js_layout_valid _ Hvalid) as (l' & Hl' & _ & Hclass & _).
  assert (l' = l) as -> by congruence.
  assert (Hnat := sizeClass_finite _ Hclass (Hfinite _ eq_refl)).
  split; [by apply isNatural_isUint|].
  exists l. split; [done|]. by apply eqb_natural.
Qed.

Lemma sizeAccepted_finite typeRef stored s :
  sizeAccepted typeRef stored -> stored = Some s -> isFinite s = true.
Proof. intros Hacc ->. destruct Hacc as [Hu _]. by apply isUint_isFinite. Qed.

Lemma entryOk_accepted e : entryOk e -> entryFinite e -> entryAccepted e.
Proof.
  intros (Hname & Htype & Hin & Hout & Hsin & Hsout) (Hf & Hfin & Hfout).
  split; [done|]. split.
  { apply isNatural_isUint. destruct Htype as [?|Hinf]; [done|].
    rewrite Hinf in Hf. done. }
  split; [by apply validTypeRef_accepted|].
  split; [by apply validTypeRef_accepted|].
  split; by apply sizeStored_accepted.
Qed.

Lemma entryAccepted_finite e : entryAccepted e -> entryFinite e.
Proof.
  intros (_ & Htype & _ & _ & Hsin & Hsout). split.
  { by apply isUint_isFinite. }
  split; intros s Hs; [exact (sizeAccepted_finite _ _ s Hsin Hs)|
                       exact (sizeAccepted_finite _ _ s Hsout Hs)].
Qed.

Lemma optionsOk_contract options :
  optionsOk options ->
  contractAccepted
    (QbiContract.mk (CompileOptions.contractName options)
       (CompileOptions.contractIndex options)
       (CompileOptions.contractPublicKeyHex options) None).
Proof. done. Qed.

(** What a compilation that ends ends with: a document whose entries are
    valid and store the sizes of their layouts, accepted by the validator
    exactly when no number of an entry is an infinity or NaN. *)
Lemma compiled_document numberToString localeCompare now depth headerSource
    options result :
  optionsOk options ->
  compileContractHeader localeCompare now depth headerSource options
    = Some result ->
  exists doc,
    result = Ok doc /\
    Forall entryOk (QbiFile.entries doc) /\
    (validateQbiFile numberToString doc = Ok (QbiValidationResult.mk true [])
     <-> Forall entryFinite (QbiFile.entries doc)).
Proof.
  intros Hoptions Hcompile.
  pose proof (js_extractNumericConstants_ok headerSource) as Hc.
  destruct result as [doc|e].
  2:{ unfold compileContractHeader in Hcompile.
      destruct (compileEntries _ _ _ _ _) as [[[compiled st]|e']|] eqn:Hloop;
        [done| |done].
      by destruct (js_compileEntries_no_throw _ (mkCtx _ _ _) _ Hc _ _ _ Hloop
                     js_stateOk_initial). }
  exists doc. split; [done|].
  destruct (js_compileContractHeader_inv _ _ _ _ _ _ Hcompile)
    as (compiled & st & Hentries & Hversion & Hcontract & Hsorted).
  assert (Hok : Forall entryOk (QbiFile.entries doc)).
  { rewrite Hsorted. rewrite sort_perm.
    eapply (js_compileEntries_ok _ (mkCtx _ _ _) _ Hc);
      [exact Hentries| | |constructor].
    - apply js_extractRegisteredEntries_ok.
    - apply js_stateOk_initial. }
  split; [done|].
  rewrite documentAccepted_iff. unfold documentAccepted.
  rewrite Hversion, Hcontract. split.
  - intros (_ & _ & Hall). eapply Forall_impl; [exact Hall|].
    apply entryAccepted_finite.
  - intros Hfinite. split; [done|]. split; [by apply optionsOk_contract|].
    rewrite Forall_forall in Hok, Hfinite. apply Forall_forall.
    intros e He. apply entryOk_accepted; auto.
Qed.


Lemma optionsWithKey_ok : optionsOk optionsWithKey.
Proof.
  split; [intros H; vm_compute in H; discriminate H|]. split.
  - intros n [= <-]. reflexivity.
  - intros k [= <-]. split; [reflexivity|].
    vm_compute. repeat constructor.
Defined.


End CompilerFactsOfDoubles.

(** ** Sorting the entries of a document *)

Section SortOn.
Context {A : Type}.
Variable compare : A -> A -> Z.
Variable P : A -> Prop.
Hypothesis compare_total :
  forall a b, P a -> P b -> compare a b <= 0 \/ compare b a <= 0.
Hypothesis compare_trans :
  forall a b c, P a -> P b -> P c ->
    compare a b <= 0 -> compare b c <= 0 -> compare a c <= 0.

Lemma insertSorted_sorted_on x l :
  P x -> Forall P l ->
  StronglySorted (fun a b => compare a b <= 0) l ->
  StronglySorted (fun a b => compare a b <= 0) (insertSorted compare x l).
Proof using compare_total compare_trans.
  intros Hx HP Hsorted. induction Hsorted as [|y l Hl IH Hy]; cbn;
    [repeat constructor|].
  inversion HP as [|? ? HPy HPl]; subst.
  destruct (Z.leb_spec (compare x y) 0) as [Hxy|Hxy].
  - constructor; [by constructor|].
    constructor; [done|].
    rewrite Forall_forall in Hy, HPl. apply Forall_forall.
    intros z Hz. apply (compare_trans x y z); auto.
  - constructor; [by apply IH|].
    rewrite insertSorted_perm. constructor; [|done].
    destruct (compare_total x y); [done|done|lia|done].
Qed.

Lemma sort_sorted_on l :
  Forall P l -> StronglySorted (fun a b => compare a b <= 0) (sort compare l).
Proof using compare_total compare_trans.
  induction 1 as [|x l Hx Hl IH]; [constructor|].
  change (sort compare (x :: l)) with (insertSorted compare x (sort compare l)).
  apply insertSorted_sorted_on; [done| |done].
  by rewrite sort_perm.
Qed.
End SortOn.

Section OrderFactsOfDoubles.
Import Js.

Lemma compareFin_natural m1 e1 m2 e2 :
  0 <= e1 -> 0 <= e2 ->
  compareFin m1 e1 m2 e2 = (m1 * 2 ^ e1 ?= m2 * 2 ^ e2).
Proof.
  intros He1 He2. unfold compareFin. set (e := Z.min e1 e2).
  assert (Hpow : 0 < 2 ^ e) by (apply Z.pow_pos_nonneg; lia).
  replace (m1 * 2 ^ e1) with (m1 * 2 ^ (e1 - e) * 2 ^ e).
  2:{ rewrite <- Z.mul_assoc, <- Z.pow_add_r by lia. do 2 f_equal. lia. }
  replace (m2 * 2 ^ e2) with (m2 * 2 ^ (e2 - e) * 2 ^ e).
  2:{ rewrite <- Z.mul_assoc, <- Z.pow_add_r by lia. do 2 f_equal. lia. }
  destruct (Z.compare_spec (m1 * 2 ^ (e1 - e)) (m2 * 2 ^ (e2 - e))),
    (Z.compare_spec (m1 * 2 ^ (e1 - e) * 2 ^ e) (m2 * 2 ^ (e2 - e) * 2 ^ e));
    try done; nia.
Qed.

Lemma ltb_key a b :
  numberClass a -> numberClass b ->
  ltb a b = true <-> keyLt (orderKey a) (orderKey b).
Proof.
  unfold keyLt.
  intros [Ha| ->] [Hb| ->];
    try (destruct a as [m1 e1| |]; try done);
    try (destruct b as [m2 e2| |]; try done); cbn; try lia.
  cbn in Ha, Hb.
  apply andb_true_iff in Ha as [_ He1%Z.leb_le].
  apply andb_true_iff in Hb as [_ He2%Z.leb_le].
  rewrite compareFin_natural by done.
  destruct (Z.compare_spec (m1 * 2 ^ e1) (m2 * 2 ^ e2)); split; try done; lia.
Qed.

Lemma eqb_key a b :
  numberClass a -> numberClass b ->
  eqb a b = true <-> orderKey a = orderKey b.
Proof.
  intros [Ha| ->] [Hb| ->];
    try (destruct a as [m1 e1| |]; try done);
    try (destruct b as [m2 e2| |]; try done); cbn; try done.
  cbn in Ha, Hb.
  apply andb_true_iff in Ha as [_ He1%Z.leb_le].
  apply andb_true_iff in Hb as [_ He2%Z.leb_le].
  rewrite compareFin_natural by done.
  destruct (Z.compare_spec (m1 * 2 ^ e1) (m2 * 2 ^ e2)); split; try done;
    try (intros [= ?]; lia). by intros _; f_equal.
Qed.

Lemma finite_sign z t :
  z <> 0 -> sign (finite z t) = Z.sgn z /\ truthy (finite z t) = true.
Proof.
  intros Hz. destruct (finite_spec z t Hz) as (m' & e' & -> & Hodd & Hle & Hval).
  assert (0 < 2 ^ (e' - t)) by (apply Z.pow_pos_nonneg; lia).
  cbn. split; [nia|]. apply negb_true_iff, Z.eqb_neq. intros ->. lia.
Qed.

(** The sign of a double is the sign of the integer it is the double of. *)
Lemma roundDouble_sign m e :
  0 <= e ->
  sign (roundDouble m e) = Z.sgn m /\
  truthy (roundDouble m e) = negb (m =? 0).
Proof.
  intros He. unfold roundDouble.
  destruct (Z.eqb_spec m 0) as [->|Hm]; [done|].
  set (a := Z.abs m). set (t := Z.max (Z.log2 a + e - 52) (-1074)).
  assert (Ha : 0 < a) by (unfold a; lia).
  assert (Hlog : 2 ^ Z.log2 a <= a < 2 ^ Z.succ (Z.log2 a))
    by (by apply Z.log2_spec).
  assert (Hlog0 : 0 <= Z.log2 a) by apply Z.log2_nonneg.
  assert (Hall : forall q t',
    0 < q ->
    sign (if q =? 0 then Fin 0 0
          else if 1024 <=? Z.log2 q + t' then Inf (m <? 0)
               else finite (Z.sgn m * q) t') = Z.sgn m /\
    truthy (if q =? 0 then Fin 0 0
            else if 1024 <=? Z.log2 q + t' then Inf (m <? 0)
                 else finite (Z.sgn m * q) t') = negb false).
  { intros q t' Hq. destruct (Z.eqb_spec q 0); [lia|].
    destruct (1024 <=? Z.log2 q + t').
    - cbn. split; [|done]. destruct (Z.ltb_spec m 0); lia.
    - destruct (finite_sign (Z.sgn m * q) t') as [-> ->]; [nia|].
      split; [|done]. rewrite Z.sgn_mul, Z.sgn_sgn.
      rewrite (Z.sgn_pos q) by done. lia. }
  destruct (Z.leb_spec (t - e) 0) as [Hs|Hs]; [by apply Hall|].
  set (s := t - e) in *.
  assert (Hs' : s <= Z.log2 a) by lia.
  assert (Hpow : 0 < 2 ^ s) by (apply Z.pow_pos_nonneg; lia).
  assert (Hq : 1 <= a / 2 ^ s).
  { apply Z.div_le_lower_bound; [done|].
    assert (2 ^ s <= 2 ^ Z.log2 a) by (apply Z.pow_le_mono_r; lia). lia. }
  destruct (_ || _); apply Hall; lia.
Qed.

Lemma ofZ_sign z : sign (ofZ z) = Z.sgn z /\ truthy (ofZ z) = negb (z =? 0).
Proof. by apply roundDouble_sign. Qed.

(** The comparator says "not after" exactly of the entries that are in
    order. *)
Lemma compareEntries_sign localeCompare a b :
  numberClass (QbiEntry.inputType a) -> numberClass (QbiEntry.inputType b) ->
  sign (compareEntries localeCompare a b) <= 0 <-> entryLe localeCompare a b.
Proof.
  unfold compareEntries, entryLe.
  set (lc := localeCompare (QbiEntry.name a) (QbiEntry.name b)).
  assert (Hlc : sign (ofZ lc) <= 0 <-> lc <= 0).
  { destruct (ofZ_sign lc) as [-> _]. lia. }
  intros [Ha|Ha] [Hb|Hb];
    destruct (QbiEntry.inputType a) as [m1 e1| |]; try done;
    destruct (QbiEntry.inputType b) as [m2 e2| |]; try done.
  - cbn in Ha, Hb.
    apply andb_true_iff in Ha as [_ He1%Z.leb_le].
    apply andb_true_iff in Hb as [_ He2%Z.leb_le].
    cbn [sub opp add ltb eqb]. unfold compareFin.
    set (e := Z.min e1 e2).
    set (d := m1 * 2 ^ (e1 - e) + - m2 * 2 ^ (e2 - e)).
    destruct (roundDouble_sign d e) as [Hsign Htruthy]; [lia|].
    rewrite Htruthy.
    destruct (Z.compare_spec (m1 * 2 ^ (e1 - e)) (m2 * 2 ^ (e2 - e)));
      destruct (Z.eqb_spec d 0); cbn [negb]; unfold d in *; lia.
  - injection Hb as ->. cbn. split; [by left|lia].
  - injection Ha as ->. cbn. split; [lia|]. intros [?|[? _]]; done.
  - injection Ha as ->. injection Hb as ->.
    cbn [sub opp add negb Bool.eqb truthy].
    rewrite Hlc. cbn. split; [by right|]. intros [?|[_ ?]]; done.
Qed.

Lemma entryLe_total localeCompare a b :
  (forall x y, localeCompare x y <= 0 \/ localeCompare y x <= 0) ->
  numberClass (QbiEntry.inputType a) -> numberClass (QbiEntry.inputType b) ->
  entryLe localeCompare a b \/ entryLe localeCompare b a.
Proof.
  intros Htotal Ha Hb. unfold entryLe.
  rewrite !ltb_key, !eqb_key by done. unfold keyLt.
  destruct (orderKey (QbiEntry.inputType a)) as [a1 a2],
           (orderKey (QbiEntry.inputType b)) as [b1 b2]. cbn [fst snd].
  destruct (Htotal (QbiEntry.name a) (QbiEntry.name b)).
  - destruct (decide (a1 = b1)) as [->|]; [|lia].
    destruct (decide (a2 = b2)) as [->|]; [|lia]. left. by right.
  - destruct (decide (a1 = b1)) as [->|]; [|lia].
    destruct (decide (a2 = b2)) as [->|]; [|lia]. right. by right.
Qed.

Lemma entryLe_trans localeCompare a b c :
  (forall x y z, localeCompare x y <= 0 -> localeCompare y z <= 0 ->
                 localeCompare x z <= 0) ->
  numberClass (QbiEntry.inputType a) -> numberClass (QbiEntry.inputType b) ->
  numberClass (QbiEntry.inputType c) ->
  entryLe localeCompare a b -> entryLe localeCompare b c ->
  entryLe localeCompare a c.
Proof.
  intros Htrans Ha Hb Hc. unfold entryLe.
  rewrite !ltb_key, !eqb_key by done. unfold keyLt.
  destruct (orderKey (QbiEntry.inputType a)) as [a1 a2],
           (orderKey (QbiEntry.inputType b)) as [b1 b2],
           (orderKey (QbiEntry.inputType c)) as [c1 c2]. cbn [fst snd].
  intros [?|[[= -> ->] ?]] [?|[[= -> ->] ?]]; try (left; lia).
  right. split; [done|]. eauto.
Qed.
End OrderFactsOfDoubles.

Lemma StronglySorted_weaken_on {A} (P : A -> Prop) (R R' : A -> A -> Prop) l :
  (forall a b, P a -> P b -> R a b -> R' a b) ->
  Forall P l -> StronglySorted R l -> StronglySorted R' l.
Proof.
  intros HR HP. induction 1 as [|x l Hl IH Hx]; [constructor|].
  inversion HP as [|? ? HPx HPl]; subst. constructor; [by apply IH|].
  rewrite Forall_forall in Hx, HPl. apply Forall_forall.
  intros y Hy. apply HR; auto.
Qed.

Section OrderOfTheEntries.
Import Js.

Lemma compiled_entries_ok localeCompare now depth headerSource options doc :
  compileContractHeader localeCompare now depth headerSource options
    = Some (Ok doc) ->
  Forall entryOk (QbiFile.entries doc).
Proof.
  intros (compiled & st & Hentries & _ & _ & ->)%js_compileContractHeader_inv.
  rewrite sort_perm.
  eapply (js_compileEntries_ok _ (mkCtx _ _ _) _
            (js_extractNumericConstants_ok headerSource));
    [exact Hentries| | |constructor].
  - apply js_extractRegisteredEntries_ok.
  - apply js_stateOk_initial.
Qed.

Lemma compiled_entries_sorted localeCompare now depth headerSource options doc :
  (forall a b, localeCompare a b <= 0 \/ localeCompare b a <= 0) ->
  (forall a b c, localeCompare a b <= 0 -> localeCompare b c <= 0 ->
                 localeCompare a c <= 0) ->
  compileContractHeader localeCompare now depth headerSource options
    = Some (Ok doc) ->
  StronglySorted (entryLe localeCompare) (QbiFile.entries doc).
Proof.
  intros Htotal Htrans Hcompile.
  pose proof (compiled_entries_ok _ _ _ _ _ _ Hcompile) as Hok.
  apply js_compileContractHeader_inv in Hcompile
    as (compiled & st & _ & _ & _ & Hsorted).
  set (P := fun e : QbiEntry.t => numberClass (QbiEntry.inputType e)).
  assert (HP : Forall P (QbiFile.entries doc)).
  { eapply Forall_impl; [exact Hok|]. by intros e (_ & ? & _). }
  apply (StronglySorted_weaken_on P
           (fun a b => sign (compareEntries localeCompare a b) <= 0));
    [|done|].
  { intros a b Ha Hb. by apply compareEntries_sign. }
  rewrite Hsorted. apply (sort_sorted_on _ P).
  - intros a b Ha Hb. rewrite !compareEntries_sign by done.
    by apply entryLe_total.
  - intros a b c Ha Hb Hc. rewrite !compareEntries_sign by done.
    by apply entryLe_trans.
  - rewrite Hsorted in HP. by rewrite sort_perm in HP.
Qed.
End OrderOfTheEntries.

(** ** The type of a name does not depend on the cache *)

Section ValuesOfNames.
Import Js.

Lemma js_bind_mono {A B} (m1 m2 : M A) (f1 f2 : A -> M B) st r :
  (forall a, m1 st = Some a -> m2 st = Some a) ->
  (forall a st' r, f1 a st' = Some r -> f2 a st' = Some r) ->
  bind m1 f1 st = Some r -> bind m2 f2 st = Some r.
Proof.
  intros Hm Hf. unfold bind.
  destruct (m1 st) as [[a st']|] eqn:H1; [|done].
  rewrite (Hm _ eq_refl). apply Hf.
Qed.

Section MonotoneResolver.
Variable c : ctx.
Variables rec1 rec2 : str -> M QbiTypeRef.
Hypothesis rec_le : resolverLe rec1 rec2.

Lemma js_fieldsLoop_mono statements : forall fields st r,
  fieldsLoop c rec1 statements fields st = Some r ->
  fieldsLoop c rec2 statements fields st = Some r.
Proof using rec_le.
  induction statements as [|stmt statements IH]; intros fields st r;
    cbn [fieldsLoop]; [done|].
  destruct (test false bracesRe stmt); [apply IH|].
  destruct (includes _ stmt); [apply IH|].
  destruct (test false nestedTypeRe stmt); [apply IH|].
  destruct (test false directiveRe stmt); [apply IH|].
  destruct (exec false arrayFieldRe stmt) as [a|].
  - destruct (parseLen _ _) as [len|].
    + apply js_bind_mono; [intros [t st']; apply rec_le|]. intros; by apply IH.
    + apply js_bind_mono; [done|]. intros; by apply IH.
  - destruct (exec false scalarFieldRe stmt) as [m|].
    + apply js_bind_mono; [intros [t st']; apply rec_le|]. intros; by apply IH.
    + apply js_bind_mono; [done|]. intros; by apply IH.
Qed.

Lemma js_parseStructFieldsF_mono :
  resolverLe (parseStructFieldsF c rec1) (parseStructFieldsF c rec2).
Proof using rec_le.
  intros body st r. unfold parseStructFieldsF.
  apply js_bind_mono; [|done]. intros [fields st']. apply js_fieldsLoop_mono.
Qed.

Lemma js_resolveStruct_mono :
  resolverLe (resolveStruct c rec1) (resolveStruct c rec2).
Proof using rec_le.
  intros noNs st r. unfold resolveStruct.
  apply js_bind_mono; [done|]. intros [cached|] st' r'; [done|].
  destruct (extractStructBody (headerSource c) noNs) as [[|ch body]|];
    [done| |done].
  apply js_bind_mono; [|done]. intros [t st'']. apply js_parseStructFieldsF_mono.
Qed.

Lemma js_parseTypeRefF_mono :
  resolverLe (parseTypeRefF c rec1) (parseTypeRefF c rec2).
Proof using rec_le.
  intros rawType st r. unfold parseTypeRefF.
  destruct (exec false arrayRe _) as [array|].
  { destruct (parseLen _ _) as [len|]; [|done].
    apply js_bind_mono; [intros [t st']; apply rec_le|done]. }
  destruct (exec false bitArrayRe _); [done|].
  destruct (intAlias _); [done|].
  destruct (idAlias _); [done|].
  destruct (bitAlias _); [done|].
  destruct (builtinType _); [done|].
  destruct (exec false proposalDataV1Re _); [done|].
  unfold resolveNamed.
  destruct (aliases c !! _) as [[|ch aliased]|]; try apply js_resolveStruct_mono.
  destruct (negb _); [apply rec_le|apply js_resolveStruct_mono].
Qed.
End MonotoneResolver.

Lemma lift_le v1 v2 :
  (forall raw t, v1 raw = Some t -> v2 raw = Some t) ->
  resolverLe (lift v1) (lift v2).
Proof.
  intros Hle raw st r. unfold lift.
  destruct (v1 raw) as [t|] eqn:Hv; [|done]. by rewrite (Hle _ _ Hv).
Qed.

(** A larger bound on the depth does not change a value. *)
Lemma typeValue_mono c depth : forall depth' rawType t,
  (depth <= depth')%nat ->
  typeValue depth c rawType = Some t -> typeValue depth' c rawType = Some t.
Proof.
  induction depth as [|depth IH]; intros depth' rawType t Hle; [done|].
  destruct depth' as [|depth']; [lia|]. cbn [typeValue].
  destruct (parseTypeRefF c (lift (typeValue depth c)) rawType initialState)
    as [r|] eqn:Hr; [|done].
  assert (Hrec : resolverLe (lift (typeValue depth c))
                   (lift (typeValue depth' c))).
  { apply lift_le. intros raw t'. apply IH. lia. }
  by rewrite (js_parseTypeRefF_mono c _ _ Hrec _ _ _ Hr).
Qed.

Lemma structValue_mono c depth depth' body t :
  (depth <= depth')%nat ->
  structValue depth c body = Some t -> structValue depth' c body = Some t.
Proof.
  intros Hle. unfold structValue.
  destruct (parseStructFieldsF c (lift (typeValue depth c)) body initialState)
    as [r|] eqn:Hr; [|done].
  assert (Hrec : resolverLe (lift (typeValue depth c))
                   (lift (typeValue depth' c))).
  { apply lift_le. intros raw t'. by apply typeValue_mono. }
  by rewrite (js_parseStructFieldsF_mono c _ _ Hrec _ _ _ Hr).
Qed.

(** A name has one value. *)
Lemma typeValue_unique c depth1 depth2 rawType t1 t2 :
  typeValue depth1 c rawType = Some t1 ->
  typeValue depth2 c rawType = Some t2 -> t1 = t2.
Proof.
  intros H1 H2.
  apply (typeValue_mono _ _ (Nat.max depth1 depth2)) in H1; [|lia].
  apply (typeValue_mono _ _ (Nat.max depth1 depth2)) in H2; [|lia].
  congruence.
Qed.

Lemma structValue_unique c depth1 depth2 body t1 t2 :
  structValue depth1 c body = Some t1 ->
  structValue depth2 c body = Some t2 -> t1 = t2.
Proof.
  intros H1 H2.
  apply (structValue_mono _ _ (Nat.max depth1 depth2)) in H1; [|lia].
  apply (structValue_mono _ _ (Nat.max depth1 depth2)) in H2; [|lia].
  congruence.
Qed.

Lemma cacheOk_initial c : cacheOk c initialState.
Proof.
  intros noNs t Hget. unfold initialState in Hget. cbn [structCache] in Hget.
  by rewrite lookup_empty in Hget.
Qed.

Lemma fieldsLoop_lift_mono c depth depth' statements fields st r :
  (depth <= depth')%nat ->
  fieldsLoop c (lift (typeValue depth c)) statements fields st = Some r ->
  fieldsLoop c (lift (typeValue depth' c)) statements fields st = Some r.
Proof.
  intros Hle. apply js_fieldsLoop_mono, lift_le.
  intros raw t. by apply typeValue_mono.
Qed.

Section CachedResolver.
Variable c : ctx.
Variable rec : str -> M QbiTypeRef.
Hypothesis rec_value : forall rawType st t st',
  cacheOk c st -> rec rawType st = Some (t, st') ->
  (exists depth, typeValue depth c rawType = Some t) /\ cacheOk c st'.

(** The fields that the loop reads with the cache are those that it reads
    without. *)
Lemma fieldsLoop_value statements : forall fields st res st',
  cacheOk c st ->
  fieldsLoop c rec statements fields st = Some (res, st') ->
  (exists depth, forall st2, exists st2',
     fieldsLoop c (lift (typeValue depth c)) statements fields st2
     = Some (res, st2')) /\
  cacheOk c st'.
Proof using rec_value.
  induction statements as [|stmt statements IH]; intros fields st res st' Hst;
    cbn [fieldsLoop].
  { intros [= <- <-]. split; [|done]. exists 0%nat. intros st2. by exists st2. }
  destruct (test false bracesRe stmt); [by apply IH|].
  destruct (includes _ stmt); [by apply IH|].
  destruct (test false nestedTypeRe stmt); [by apply IH|].
  destruct (test false directiveRe stmt); [by apply IH|].
  destruct (exec false arrayFieldRe stmt) as [a|].
  - destruct (parseLen _ _) as [len|].
    + intros (item & st1 & Hrec & Hloop)%js_bind_Some.
      destruct (rec_value _ _ _ _ Hst Hrec) as [[d1 Hitem] Hst1].
      destruct (IH _ _ _ _ Hst1 Hloop) as [[d2 Hrest] Hst'].
      split; [|done]. exists (Nat.max d1 d2). intros st2.
      destruct (Hrest st2) as [st2' Hloop2]. exists st2'.
      unfold bind, lift at 1.
      rewrite (typeValue_mono c d1 (Nat.max d1 d2) _ _ (Nat.le_max_l _ _) Hitem).
      by apply (fieldsLoop_lift_mono c d2); [lia|].
    + intros (? & st1 & [= <- <-] & Hloop)%js_bind_Some.
      apply IH in Hloop as [[d2 Hrest] Hst']; [|exact Hst].
      split; [|done]. exists d2. intros st2. apply Hrest.
  - destruct (exec false scalarFieldRe stmt) as [m|].
    + intros (typeRef & st1 & Hrec & Hloop)%js_bind_Some.
      destruct (rec_value _ _ _ _ Hst Hrec) as [[d1 HtypeRef] Hst1].
      destruct (IH _ _ _ _ Hst1 Hloop) as [[d2 Hrest] Hst'].
      split; [|done]. exists (Nat.max d1 d2). intros st2.
      destruct (Hrest st2) as [st2' Hloop2]. exists st2'.
      unfold bind, lift at 1.
      rewrite (typeValue_mono c d1 (Nat.max d1 d2) _ _ (Nat.le_max_l _ _)
                 HtypeRef).
      by apply (fieldsLoop_lift_mono c d2); [lia|].
    + intros (? & st1 & [= <- <-] & Hloop)%js_bind_Some.
      apply IH in Hloop as [[d2 Hrest] Hst']; [|exact Hst].
      split; [|done]. exists d2. intros st2. apply Hrest.
Qed.

(** The struct that is read from a body with the cache is the value of the
    body. *)
Lemma parseStructFieldsF_value body st t st' :
  cacheOk c st ->
  parseStructFieldsF c rec body st = Some (t, st') ->
  (exists depth, structValue depth c body = Some t) /\ cacheOk c st'.
Proof using rec_value.
  intros Hst. unfold parseStructFieldsF.
  intros (fields & st1 & Hloop & [= <- <-])%js_bind_Some.
  destruct (fieldsLoop_value _ _ _ _ _ Hst Hloop) as [[depth Hfields] Hst1].
  split; [|done]. exists depth. unfold structValue, parseStructFieldsF.
  destruct (Hfields initialState) as [st2' Hloop2].
  unfold bind. by rewrite Hloop2.
Qed.

Lemma typeValue_struct depth noNs ch body t :
  extractStructBody (headerSource c) noNs = Some (ch :: body) ->
  structValue depth c (ch :: body) = Some t ->
  fst <$> resolveStruct c (lift (typeValue depth c)) noNs initialState = Some t.
Proof.
  intros Hbody. unfold structValue, resolveStruct.
  unfold bind at 1. cbn [cacheGet initialState structCache].
  rewrite lookup_empty, Hbody.
  destruct (parseStructFieldsF c _ _ _) as [[ref st1]|] eqn:Hparse; [|done].
  intros [= <-]. unfold bind. by rewrite Hparse.
Qed.

Lemma resolveStruct_value noNs st t st' :
  cacheOk c st ->
  resolveStruct c rec noNs st = Some (t, st') ->
  (exists depth,
     fst <$> resolveStruct c (lift (typeValue depth c)) noNs initialState
     = Some t) /\
  cacheOk c st'.
Proof using rec_value.
  intros Hst. unfold resolveStruct at 1.
  intros (cached & st1 & [= <- <-] & Hrest)%js_bind_Some.
  destruct (structCache st !! noNs) as [cached|] eqn:Hcached.
  { injection Hrest as <- <-. split; [|done].
    destruct (Hst _ _ Hcached) as (depth & ch & body & Hbody & Hvalue).
    exists depth. by eapply typeValue_struct. }
  destruct (extractStructBody (headerSource c) noNs) as [[|ch body]|] eqn:Hbody.
  - injection Hrest as <- <-. split; [|done]. exists 0%nat.
    unfold resolveStruct, bind. cbn. by rewrite Hbody.
  - apply js_bind_Some in Hrest as (ref & st2 & Hparse & Hrest).
    injection Hrest as <- <-.
    destruct (parseStructFieldsF_value _ _ _ _ Hst Hparse)
      as [[depth Hvalue] Hst2].
    split; [exists depth; by eapply typeValue_struct|].
    intros name t'. cbn [structCache].
    destruct (decide (name = noNs)) as [->|Hne].
    + rewrite lookup_insert_eq. intros [= <-]. by exists depth, ch, body.
    + rewrite lookup_insert_ne by done. apply Hst2.
  - injection Hrest as <- <-. split; [|done]. exists 0%nat.
    unfold resolveStruct, bind. cbn. by rewrite Hbody.
Qed.

Lemma resolveStruct_lift_mono depth depth' noNs t :
  (depth <= depth')%nat ->
  fst <$> resolveStruct c (lift (typeValue depth c)) noNs initialState = Some t ->
  fst <$> resolveStruct c (lift (typeValue depth' c)) noNs initialState = Some t.
Proof.
  intros Hle.
  destruct (resolveStruct c (lift (typeValue depth c)) noNs initialState)
    as [r|] eqn:Hr; [|done].
  assert (Hrec : resolverLe (lift (typeValue depth c))
                   (lift (typeValue depth' c))).
  { apply lift_le. intros raw t'. by apply typeValue_mono. }
  by rewrite (js_resolveStruct_mono c _ _ Hrec _ _ _ Hr).
Qed.

(** What [parseTypeRef] returns with the cache is the value of the name. *)
Lemma parseTypeRefF_value rawType st t st' :
  cacheOk c st ->
  parseTypeRefF c rec rawType st = Some (t, st') ->
  (exists depth, typeValue depth c rawType = Some t) /\ cacheOk c st'.
Proof using rec_value.
  intros Hst.
  unfold parseTypeRefF at 1.
  destruct (exec false arrayRe _) as [array|] eqn:Harray.
  { destruct (parseLen _ _) as [len|] eqn:Hlen.
    - intros (item & st1 & Hrec & [= <- <-])%js_bind_Some.
      destruct (rec_value _ _ _ _ Hst Hrec) as [[depth Hitem] Hst1].
      split; [|done]. exists (S depth). cbn [typeValue].
      unfold parseTypeRefF. rewrite Harray, Hlen.
      unfold bind, lift. by rewrite Hitem.
    - intros [= <- <-]. split; [|done]. exists 1%nat. cbn [typeValue].
      unfold parseTypeRefF. by rewrite Harray, Hlen. }
  destruct (exec false bitArrayRe _) as [bitArray|] eqn:HbitArray.
  { intros Hret. split.
    - exists 1%nat. cbn [typeValue]. unfold parseTypeRefF.
      rewrite Harray, HbitArray.
      destruct (parseLen _ _); by injection Hret as <- <-.
    - destruct (parseLen _ _); by injection Hret as <- <-. }
  destruct (intAlias _) as [array'|] eqn:HintAlias.
  { intros [= <- <-]. split; [|done]. exists 1%nat. cbn [typeValue].
    unfold parseTypeRefF. by rewrite Harray, HbitArray, HintAlias. }
  destruct (idAlias _) as [array'|] eqn:HidAlias.
  { intros [= <- <-]. split; [|done]. exists 1%nat. cbn [typeValue].
    unfold parseTypeRefF. by rewrite Harray, HbitArray, HintAlias, HidAlias. }
  destruct (bitAlias _) as [array'|] eqn:HbitAlias.
  { intros [= <- <-]. split; [|done]. exists 1%nat. cbn [typeValue].
    unfold parseTypeRefF.
    by rewrite Harray, HbitArray, HintAlias, HidAlias, HbitAlias. }
  destruct (builtinType _) as [builtin|] eqn:Hbuiltin.
  { intros [= <- <-]. split; [|done]. exists 1%nat. cbn [typeValue].
    unfold parseTypeRefF.
    by rewrite Harray, HbitArray, HintAlias, HidAlias, HbitAlias, Hbuiltin. }
  destruct (exec false proposalDataV1Re _) as [proposal|] eqn:Hproposal.
  { intros [= <- <-]. split; [|done]. exists 1%nat. cbn [typeValue].
    unfold parseTypeRefF.
    by rewrite Harray, HbitArray, HintAlias, HidAlias, HbitAlias, Hbuiltin,
      Hproposal. }
  assert (Hstruct : forall noNs,
            resolveStruct c rec noNs st = Some (t, st') ->
            (exists depth,
               fst <$> resolveStruct c (lift (typeValue depth c)) noNs
                         initialState = Some t) /\
            cacheOk c st').
  { intros noNs. by apply resolveStruct_value. }
  unfold resolveNamed at 1.
  destruct (aliases c !! _) as [[|ch aliased]|] eqn:Halias.
  - intros [[depth Hvalue] Hst']%Hstruct. split; [|done].
    exists (S depth). cbn [typeValue]. unfold parseTypeRefF.
    rewrite Harray, HbitArray, HintAlias, HidAlias, HbitAlias, Hbuiltin,
      Hproposal.
    unfold resolveNamed. by rewrite Halias.
  - destruct (negb _) eqn:Hneq.
    + intros Hrec.
      destruct (rec_value _ _ _ _ Hst Hrec) as [[depth Hvalue] Hst'].
      split; [|done]. exists (S depth). cbn [typeValue]. unfold parseTypeRefF.
      rewrite Harray, HbitArray, HintAlias, HidAlias, HbitAlias, Hbuiltin,
        Hproposal.
      unfold resolveNamed. rewrite Halias, Hneq.
      unfold lift. by rewrite Hvalue.
    + intros [[depth Hvalue] Hst']%Hstruct. split; [|done].
      exists (S depth). cbn [typeValue]. unfold parseTypeRefF.
      rewrite Harray, HbitArray, HintAlias, HidAlias, HbitAlias, Hbuiltin,
        Hproposal.
      unfold resolveNamed. by rewrite Halias, Hneq.
  - intros [[depth Hvalue] Hst']%Hstruct. split; [|done].
    exists (S depth). cbn [typeValue]. unfold parseTypeRefF.
    rewrite Harray, HbitArray, HintAlias, HidAlias, HbitAlias, Hbuiltin,
      Hproposal.
    unfold resolveNamed. by rewrite Halias.
Qed.
End CachedResolver.

Lemma parseTypeRef_value c depth : forall rawType st t st',
  cacheOk c st ->
  parseTypeRef depth c rawType st = Some (t, st') ->
  (exists depth', typeValue depth' c rawType = Some t) /\ cacheOk c st'.
Proof.
  induction depth as [|depth IH]; intros rawType st t st' Hst; [done|].
  cbn [parseTypeRef]. by apply parseTypeRefF_value.
Qed.

Lemma sideTypeRef_value c depth structName st t st' :
  cacheOk c st ->
  sideTypeRef depth c structName st = Some (t, st') ->
  sideValue c structName t /\ cacheOk c st'.
Proof.
  intros Hst. unfold sideTypeRef, sideValue, parseStructFields.
  destruct (extractStructBody _ _) as [[|ch body]|].
  - by intros [= <- <-].
  - apply parseStructFieldsF_value; [|done]. apply parseTypeRef_value.
  - by intros [= <- <-].
Qed.

Lemma sideValue_unique c structName t1 t2 :
  sideValue c structName t1 -> sideValue c structName t2 -> t1 = t2.
Proof.
  unfold sideValue. destruct (extractStructBody _ _) as [[|ch body]|].
  - by intros -> ->.
  - intros [d1 H1] [d2 H2]. by eapply structValue_unique.
  - by intros -> ->.
Qed.

(** A registration has one entry. *)
Lemma entryFor_unique c r e1 e2 : entryFor c r e1 -> entryFor c r e2 -> e1 = e2.
Proof.
  intros (i1 & o1 & li1 & lo1 & Hi1 & Ho1 & Hli1 & Hlo1 & ->)
         (i2 & o2 & li2 & lo2 & Hi2 & Ho2 & Hli2 & Hlo2 & ->).
  pose proof (sideValue_unique _ _ _ _ Hi1 Hi2) as <-.
  pose proof (sideValue_unique _ _ _ _ Ho1 Ho2) as <-.
  congruence.
Qed.

(** The loop of the compiler gives each registration its entry, whatever
    is cached on the way. *)
Lemma compileEntries_entryFor depth c entries : forall compiled st res st',
  cacheOk c st ->
  compileEntries depth c entries compiled st = Some (Ok (res, st')) ->
  exists new, res = compiled ++ new /\ Forall2 (entryFor c) entries new.
Proof.
  induction entries as [|entry entries IH]; intros compiled st res st' Hst;
    cbn [compileEntries].
  { intros [= <- <-]. exists []. by rewrite app_nil_r. }
  destruct (sideTypeRef depth c _ st) as [[inputTypeRef st1]|] eqn:Hin; [|done].
  destruct (sideTypeRef depth c _ st1) as [[outputTypeRef st2]|] eqn:Hout;
    [|done].
  destruct (cppLayoutOf inputTypeRef) as [inputLayout|] eqn:Hli; [|done].
  destruct (cppLayoutOf outputTypeRef) as [outputLayout|] eqn:Hlo; [|done].
  intros Hloop.
  destruct (sideTypeRef_value _ _ _ _ _ _ Hst Hin) as [Hinput Hst1].
  destruct (sideTypeRef_value _ _ _ _ _ _ Hst1 Hout) as [Houtput Hst2].
  destruct (IH _ _ _ _ Hst2 Hloop) as (new & -> & Hnew).
  eexists (_ :: new). rewrite <- app_assoc. split; [done|].
  constructor; [|done]. by exists inputTypeRef, outputTypeRef, inputLayout, outputLayout.
Qed.
End ValuesOfNames.

(** ** The entries of two headers with the same definitions *)

Section SameDefinitions.
Import Js.

Lemma js_bind_ext {A B} (m1 m2 : M A) (f1 f2 : A -> M B) st :
  m1 st = m2 st -> (forall a st', f1 a st' = f2 a st') ->
  bind m1 f1 st = bind m2 f2 st.
Proof.
  intros Hm Hf. unfold bind. rewrite Hm.
  destruct (m2 st) as [[a st']|]; [apply Hf|done].
Qed.

Section TwoContexts.
Variables c1 c2 : ctx.
Variables rec1 rec2 : str -> M QbiTypeRef.
Hypothesis same : sameContext c1 c2.
Hypothesis rec_same : forall rawType st, rec1 rawType st = rec2 rawType st.

Lemma fieldsLoop_same statements : forall fields st,
  fieldsLoop c1 rec1 statements fields st
  = fieldsLoop c2 rec2 statements fields st.
Proof using same rec_same.
  destruct same as (Hconstants & _ & _).
  induction statements as [|stmt statements IH]; intros fields st;
    cbn [fieldsLoop]; [done|].
  destruct (test false bracesRe stmt); [apply IH|].
  destruct (includes _ stmt); [apply IH|].
  destruct (test false nestedTypeRe stmt); [apply IH|].
  destruct (test false directiveRe stmt); [apply IH|].
  rewrite Hconstants.
  destruct (exec false arrayFieldRe stmt) as [a|].
  - destruct (parseLen _ _) as [len|].
    + apply js_bind_ext; [apply rec_same|]. intros; apply IH.
    + apply js_bind_ext; [done|]. intros; apply IH.
  - destruct (exec false scalarFieldRe stmt) as [m|].
    + apply js_bind_ext; [apply rec_same|]. intros; apply IH.
    + apply js_bind_ext; [done|]. intros; apply IH.
Qed.

Lemma parseStructFieldsF_same body st :
  parseStructFieldsF c1 rec1 body st = parseStructFieldsF c2 rec2 body st.
Proof using same rec_same.
  unfold parseStructFieldsF. apply js_bind_ext; [apply fieldsLoop_same|done].
Qed.

Lemma resolveStruct_same noNs st :
  resolveStruct c1 rec1 noNs st = resolveStruct c2 rec2 noNs st.
Proof using same rec_same.
  unfold resolveStruct. apply js_bind_ext; [done|].
  intros [cached|] st'; [done|].
  destruct same as (_ & _ & Hbody). rewrite Hbody.
  destruct (extractStructBody (headerSource c2) noNs) as [[|ch body]|];
    [done| |done].
  apply js_bind_ext; [apply parseStructFieldsF_same|done].
Qed.

Lemma parseTypeRefF_same rawType st :
  parseTypeRefF c1 rec1 rawType st = parseTypeRefF c2 rec2 rawType st.
Proof using same rec_same.
  unfold parseTypeRefF.
  destruct same as (Hconstants & Haliases & _). rewrite Hconstants.
  destruct (exec false arrayRe _) as [array|].
  { destruct (parseLen _ _) as [len|]; [|done].
    apply js_bind_ext; [apply rec_same|done]. }
  destruct (exec false bitArrayRe _); [done|].
  destruct (intAlias _); [done|].
  destruct (idAlias _); [done|].
  destruct (bitAlias _); [done|].
  destruct (builtinType _); [done|].
  destruct (exec false proposalDataV1Re _); [done|].
  unfold resolveNamed. rewrite Haliases.
  destruct (aliases c2 !! _) as [[|ch aliased]|]; try apply resolveStruct_same.
  destruct (negb _); [apply rec_same|apply resolveStruct_same].
Qed.
End TwoContexts.

Lemma typeValue_same c1 c2 :
  sameContext c1 c2 ->
  forall depth rawType, typeValue depth c1 rawType = typeValue depth c2 rawType.
Proof.
  intros Hsame. induction depth as [|depth IH]; intros rawType; [done|].
  cbn [typeValue]. f_equal. apply parseTypeRefF_same; [done|].
  intros raw st. unfold lift. by rewrite IH.
Qed.

Lemma structValue_same c1 c2 depth body :
  sameContext c1 c2 -> structValue depth c1 body = structValue depth c2 body.
Proof.
  intros Hsame. unfold structValue. f_equal.
  apply parseStructFieldsF_same; [done|].
  intros raw st. unfold lift. by rewrite (typeValue_same c1 c2).
Qed.

Lemma sideValue_same c1 c2 structName t :
  sameContext c1 c2 -> sideValue c1 structName t -> sideValue c2 structName t.
Proof.
  intros Hsame. unfold sideValue.
  pose proof Hsame as (_ & _ & Hbody). rewrite Hbody.
  destruct (extractStructBody (headerSource c2) structName) as [[|ch body]|];
    try done.
  intros [depth Hvalue]. exists depth.
  by rewrite <- (structValue_same c1 c2).
Qed.

Lemma entryFor_same c1 c2 r e :
  sameContext c1 c2 -> entryFor c1 r e -> entryFor c2 r e.
Proof.
  intros Hsame (i & o & li & lo & Hi & Ho & Hli & Hlo & ->).
  exists i, o, li, lo. eauto 10 using sideValue_same.
Qed.

Lemma sameDefinitions_context headerSource1 headerSource2 :
  sameDefinitions headerSource1 headerSource2 ->
  sameContext
    (mkCtx (extractNumericConstants headerSource1)
       (extractTypeAliases headerSource1) headerSource1)
    (mkCtx (extractNumericConstants headerSource2)
       (extractTypeAliases headerSource2) headerSource2).
Proof. done. Qed.

(** *** Lists that are related item by item *)

Section RelatedLists.
Context {A B : Type} (F : A -> B -> Prop).
Hypothesis F_unique : forall a b1 b2, F a b1 -> F a b2 -> b1 = b2.

Lemma Forall2_unique l : forall m1 m2,
  Forall2 F l m1 -> Forall2 F l m2 -> m1 = m2.
Proof using F_unique.
  induction l as [|a l IH]; intros m1 m2 H1 H2.
  - by inversion H1; inversion H2.
  - inversion H1 as [|? b1 ? m1' Hb1 Hm1]; subst.
    inversion H2 as [|? b2 ? m2' Hb2 Hm2]; subst.
    f_equal; [by eapply F_unique|by apply IH].
Qed.

Lemma Forall2_images l : 
  (forall a, In a l -> exists b, F a b) -> exists m, Forall2 F l m.
Proof.
  induction l as [|a l IH]; intros Hall.
  - by exists [].
  - destruct (Hall a) as [b Hb]; [by left|].
    destruct IH as [m Hm]; [intros a' Ha'; apply Hall; by right|].
    exists (b :: m). by constructor.
Qed.

Lemma Forall2_image l m a : Forall2 F l m -> In a l -> exists b, F a b.
Proof.
  induction 1 as [|a' b' l m Hab _ IH]; [done|].
  intros [<-|Hin]; [by exists b'|by apply IH].
Qed.

(** The same items in another order have the same related items, in that
    order. *)
Lemma Forall2_Permutation l1 l2 :
  Permutation l1 l2 ->
  forall m1 m2, Forall2 F l1 m1 -> Forall2 F l2 m2 -> Permutation m1 m2.
Proof using F_unique.
  induction 1 as [|a l1 l2 Hperm IH|a1 a2 l|l1 l2 l3 H12 IH12 H23 IH23];
    intros m1 m2 H1 H2.
  - by inversion H1; inversion H2.
  - inversion H1 as [|? b1 ? m1' Hb1 Hm1]; subst.
    inversion H2 as [|? b2 ? m2' Hb2 Hm2]; subst.
    rewrite (F_unique _ _ _ Hb1 Hb2). apply perm_skip. by apply IH.
  - inversion H1 as [|? b2 ? m1' Hb2 Hm1]; subst.
    inversion Hm1 as [|? b1 ? m1'' Hb1 Hm1']; subst.
    inversion H2 as [|? b1' ? m2' Hb1' Hm2]; subst.
    inversion Hm2 as [|? b2' ? m2'' Hb2' Hm2']; subst.
    rewrite (F_unique _ _ _ Hb1 Hb1'), (F_unique _ _ _ Hb2 Hb2').
    rewrite (Forall2_unique _ _ _ Hm1' Hm2'). apply perm_swap.
  - destruct (Forall2_images l2) as [m Hm].
    { intros a Ha. apply (Forall2_image l1 m1); [done|].
      by apply (Permutation_in _ (Permutation_sym H12)). }
    etrans; [by apply IH12|by apply IH23].
Qed.
End RelatedLists.

(** Two headers with the same definitions and the same registrations, in
    any order, have the same entries before they are sorted. *)
Lemma compiled_entries_Permutation localeCompare now1 now2 depth1 depth2
    headerSource1 headerSource2 options1 options2 doc1 doc2 :
  compileContractHeader localeCompare now1 depth1 headerSource1 options1
    = Some (Ok doc1) ->
  compileContractHeader localeCompare now2 depth2 headerSource2 options2
    = Some (Ok doc2) ->
  sameDefinitions headerSource1 headerSource2 ->
  Permutation (extractRegisteredEntries headerSource1)
    (extractRegisteredEntries headerSource2) ->
  Permutation (QbiFile.entries doc1) (QbiFile.entries doc2).
Proof.
  intros (compiled1 & st1 & Hentries1 & _ & _ & ->)%js_compileContractHeader_inv
         (compiled2 & st2 & Hentries2 & _ & _ & ->)%js_compileContractHeader_inv
         Hsame%sameDefinitions_context Hperm.
  rewrite !sort_perm.
  apply compileEntries_entryFor in Hentries1 as (new1 & -> & Hnew1);
    [|apply cacheOk_initial].
  apply compileEntries_entryFor in Hentries2 as (new2 & -> & Hnew2);
    [|apply cacheOk_initial].
  cbn [app].
  eapply (Forall2_Permutation _ (entryFor_unique _)); [exact Hperm|exact Hnew1|].
  eapply Forall2_impl; [exact Hnew2|].
  intros r e. apply entryFor_same.
  destruct Hsame as (Hc & Ha & Hb). by split; [|split].
Qed.
End SameDefinitions.

(** ** The order of the entries of a document *)

Section TheOrderOfTheDocument.
Import Js.

Lemma indexOf_brace_absent (source : str) :
  forallb (fun ch => negb (ch =? 123)%N) source = true ->
  indexOf (u "{") source = None.
Proof.
  change (u "{") with [123%N].
  induction source as [|ch source IH]; [done|].
  cbn [forallb]. intros [Hch Hrest]%andb_true_iff.
  apply negb_true_iff in Hch. cbn [indexOf startsWith].
  rewrite N.eqb_sym, Hch. cbn [andb]. by rewrite IH.
Qed.

Lemma forallb_drop {A} (p : A -> bool) n l :
  forallb p l = true -> forallb p (drop n l) = true.
Proof.
  revert n. induction l as [|a l IH]; intros [|n]; try done.
  cbn [forallb drop]. intros [_ Hl]%andb_true_iff. by apply IH.
Qed.

Lemma indexOfFrom_brace_absent (source : str) from :
  forallb (fun ch => negb (ch =? 123)%N) source = true ->
  indexOfFrom (u "{") source from = None.
Proof.
  intros Hsource. unfold indexOfFrom.
  rewrite (indexOf_brace_absent _ (forallb_drop (A:=char) _ from _ Hsource)).
  change (u "{") with [123%N]. cbn [startsWith].
  by destruct (_ <? _)%nat.
Qed.

(** A text without an opening brace has no struct body. *)
Lemma extractStructBody_no_brace (source structName : str) :
  forallb (fun ch => negb (ch =? 123)%N) source = true ->
  extractStructBody source structName = None.
Proof.
  intros Hsource. unfold extractStructBody.
  destruct (indexOf _ source) as [idx|]; [|done]. cbn [mbind option_bind].
  by rewrite indexOfFrom_brace_absent.
Qed.



End TheOrderOfTheDocument.

(** ** More of the validator and of the lengths, over doubles *)

Section ValidatorPropertiesOfDoubles.
Import Js.

(** X9: on a value of the type [QbiTypeRef], [validateTypeRef] only adds to
    the errors it is given, and it adds nothing exactly when every length
    and every [expectedSize] of the type reference passes [isUint] (it is
    an integer and not negative: a fraction, an infinity and NaN fail) and
    no field name is empty. *)
Theorem validateTypeRef_adds_errors (t : QbiTypeRef) (path : str)
    (errors : list str) :
  exists new,
    validateTypeRef t path errors = errors ++ new /\
    (new = [] <-> typeRefAccepted t = true).
Proof. apply typeRefAdds. Qed.

(** X10: on a document of the type [QbiFile], whose numbers are any
    doubles, [validateQbiFile] returns [ok] without an error exactly when
    the version is 0.1, the contract has a non-empty name, an index that
    passes [isUint] if any and a key of 64 hexadecimal digits if any, and
    every entry has a non-empty name, an [inputType] that passes [isUint],
    type references that [validateTypeRef] accepts and stored sizes that,
    where present, pass [isUint] and are the sizes of the layouts. *)
Theorem validateQbiFile_accepts_exactly (numberToString : double -> str)
    (d : QbiFile.t) :
  validateQbiFile numberToString d = Ok (QbiValidationResult.mk true []) <->
  documentAccepted d.
Proof. apply documentAccepted_iff. Qed.

(** X11: on a document of the type [QbiFile], [validateQbiFile] throws
    (the RangeError of the layout calculator, in place of a result) exactly
    when some entry stores a size that passes [isUint] for a type reference
    with a length that does not. *)
Theorem validateQbiFile_throws_exactly (numberToString : double -> str)
    (d : QbiFile.t) :
  (exists e, validateQbiFile numberToString d = Throw e) <->
  Exists entryThrows (QbiFile.entries d).
Proof. apply documentThrows_iff. Qed.

Lemma ltb_zero m e :
  ltb (Fin m e) (ofZ 0) = negb (leb (ofZ 0) (Fin m e)).
Proof.
  change (ofZ 0) with (Fin 0 0). cbn [ltb leb].
  rewrite (compareFin_antisym m e 0 0). by destruct (compareFin m e 0 0).
Qed.

End ValidatorPropertiesOfDoubles.

(** ** The evaluation of the expressions, over doubles *)

Section ExpressionsOfDoubles.
Import Js.

Lemma js_shuntingYard_idents constants tokens : forall output ops r,
  shuntingYard constants tokens output ops = Some r ->
  forall x, In (TokIdent x) tokens -> is_Some (constants !! x).
Proof.
  induction tokens as [|t tokens IH]; intros output ops r Hr x Hx;
    [destruct Hx|].
  destruct t as [n|value|value|value]; cbn [shuntingYard] in Hr.
  - destruct Hx as [[=]|Hx]. eauto.
  - destruct (constants !! value) as [val|] eqn:Hval; [|done].
    destruct Hx as [[= ->]|Hx]; [by rewrite Hval|eauto].
  - destruct (popHigher ops (prec value) output) as [output' ops'].
    destruct Hx as [[=]|Hx]. eauto.
  - destruct Hx as [[=]|Hx].
    destruct (char_is "(" value); [eauto|].
    destruct (popToParen ops output) as [output' [|op ops']]; [done|eauto].
Qed.


Lemma parseNumericExpr_evalTokens expr constants :
  parseNumericExpr expr constants
  = tokens ← tokenizeNumericExpr expr; evalTokens constants tokens.
Proof. reflexivity. Qed.

Lemma isOperator_prec op : isOperator op -> char_is "(" op = false /\ 1 <= prec op.
Proof. intros [-> | [-> | ->]]; by vm_compute. Qed.

Lemma popHigher_pending pend : forall ops p output,
  Forall isOperator pend ->
  Forall (fun op => p <= prec op) pend ->
  match ops with
  | [] => True
  | top :: _ => top = parenOpen \/ prec top < p
  end ->
  popHigher (pend ++ ops) p output = (output ++ map inr pend, ops).
Proof.
  induction pend as [|op pend IH]; intros ops p output Hops Hprec Hstop.
  - cbn [app map]. rewrite app_nil_r.
    destruct ops as [|top ops]; [done|]. cbn [popHigher].
    destruct Hstop as [->|Hlt]; [done|].
    destruct (char_is "(" top); [done|].
    by destruct (Z.leb_spec p (prec top)); [lia|].
  - inversion Hops as [|? ? Hop Hops']; subst.
    inversion Hprec as [|? ? Hp Hprec']; subst.
    destruct (isOperator_prec op Hop) as [Hparen _].
    cbn [app popHigher]. rewrite Hparen.
    destruct (Z.leb_spec p (prec op)); [|lia].
    rewrite IH by done. cbn [map]. by rewrite <- app_assoc.
Qed.

Lemma popToParen_pending pend : forall ops output,
  Forall isOperator pend ->
  popToParen (pend ++ parenOpen :: ops) output
  = (output ++ map inr pend, parenOpen :: ops).
Proof.
  induction pend as [|op pend IH]; intros ops output Hops.
  - cbn. by rewrite app_nil_r.
  - inversion Hops as [|? ? Hop Hops']; subst.
    destruct (isOperator_prec op Hop) as [Hparen _].
    cbn [app popToParen]. rewrite Hparen.
    rewrite IH by done. cbn [map]. by rewrite <- app_assoc.
Qed.

Lemma flushOps_pending pend : forall output,
  Forall isOperator pend ->
  flushOps pend output = Some (output ++ map inr pend).
Proof.
  induction pend as [|op pend IH]; intros output Hops.
  - cbn. by rewrite app_nil_r.
  - inversion Hops as [|? ? Hop Hops']; subst.
    destruct (isOperator_prec op Hop) as [Hparen _].
    cbn [flushOps]. rewrite Hparen.
    rewrite IH by done. cbn [map]. by rewrite <- app_assoc.
Qed.

Lemma evalPostfix_postfixOf constants e : forall v rest stack,
  evalExpr constants e = Some v ->
  evalPostfix (postfixOf constants e ++ rest) stack
  = evalPostfix rest (v :: stack).
Proof.
  induction e as [n|x|a IHa b IHb|a IHa b IHb|a IHa b IHb|a IHa];
    intros v rest stack Hv; cbn [evalExpr postfixOf] in *.
  - by injection Hv as <-.
  - by rewrite Hv.
  - destruct (evalExpr constants a) as [x|]; [|done].
    destruct (evalExpr constants b) as [y|]; [|done].
    injection Hv as <-.
    rewrite <- !app_assoc, (IHa x), (IHb y) by done. reflexivity.
  - destruct (evalExpr constants a) as [x|]; [|done].
    destruct (evalExpr constants b) as [y|]; [|done].
    injection Hv as <-.
    rewrite <- !app_assoc, (IHa x), (IHb y) by done. reflexivity.
  - destruct (evalExpr constants a) as [x|]; [|done].
    destruct (evalExpr constants b) as [y|]; [|done].
    injection Hv as <-.
    rewrite <- !app_assoc, (IHa x), (IHb y) by done. reflexivity.
  - by apply IHa.
Qed.

Lemma pendingAt_nil level : pendingAt level [].
Proof. split; [constructor|]. split; [constructor|done]. Qed.

Lemma readsAs_parenthesised constants e tokens :
  (forall rest output ops,
     stackBelow 0 ops ->
     exists output' pend,
       shuntingYard constants (tokens ++ rest) output ops
       = shuntingYard constants rest output' (pend ++ ops) /\
       output' ++ map inr pend = output ++ postfixOf constants e /\
       pendingAt 0 pend) ->
  forall rest output ops,
    exists output',
      shuntingYard constants (parenthesised true tokens ++ rest) output ops
      = shuntingYard constants rest output' ops /\
      output' = output ++ postfixOf constants e.
Proof.
  intros Hinner rest output ops.
  unfold parenthesised. cbn [app shuntingYard].
  change (char_is "(" parenOpen) with true. cbv iota.
  rewrite <- app_assoc.
  destruct (Hinner ([TokParen parenClose] ++ rest) output (parenOpen :: ops))
    as (output' & pend & -> & Hout & Hpend & _); [done|].
  cbn [app shuntingYard].
  change (char_is "(" parenClose) with false. cbv iota.
  rewrite popToParen_pending by done.
  exists (output' ++ map inr pend). by rewrite Hout.
Qed.

Lemma readsAs_binary constants e a b op levelA levelB :
  postfixOf constants e
  = postfixOf constants a ++ postfixOf constants b ++ [inr op] ->
  isOperator op ->
  (levelA <= levelB)%nat ->
  (prec op = 1 -> levelA = 0%nat /\ levelB = 1%nat) ->
  (prec op = 2 -> levelA = 1%nat /\ levelB = 2%nat) ->
  readsAs constants levelA a -> readsAs constants levelB b ->
  forall rest output ops,
    stackBelow levelA ops ->
    exists output' pend,
      shuntingYard constants
        ((tokensOf levelA a ++ [TokOp op] ++ tokensOf levelB b) ++ rest)
        output ops
      = shuntingYard constants rest output' (pend ++ ops) /\
      output' ++ map inr pend = output ++ postfixOf constants e /\
      pendingAt levelA pend.
Proof.
  intros Hpost Hop Hlevels H1 H2 Ha Hb rest output ops Hbelow.
  rewrite <- !app_assoc.
  destruct (Ha ([TokOp op] ++ tokensOf levelB b ++ rest) output ops Hbelow)
    as (outA & pendA & -> & HoutA & HpendA & HmulA & HnilA).
  cbn [app shuntingYard].
  assert (Hprec : prec op = 1 \/ prec op = 2).
  { destruct Hop as [-> | [-> | ->]]; vm_compute; auto. }
  rewrite (popHigher_pending pendA ops (prec op) outA); [|done| |].
  2:{ destruct Hprec as [Hp|Hp]; rewrite Hp.
      - eapply Forall_impl; [exact HpendA|].
        intros o Ho. by apply isOperator_prec.
      - destruct (H2 Hp) as [-> _].
        eapply Forall_impl; [apply HmulA; lia|]. by intros o ->. }
  2:{ destruct ops as [|top ops]; [done|]. cbn in Hbelow.
      destruct Hprec as [Hp|Hp]; rewrite Hp.
      - destruct (H1 Hp) as [-> _]. by left.
      - destruct (H2 Hp) as [-> _].
        destruct (decide (top = parenOpen)) as [->|Hparen]; [by left|].
        right. unfold prec.
        destruct (char_is "*" top) eqn:Hmul; [|lia].
        apply char_is_cases in Hmul. cbn in Hmul.
        destruct Hmul as [<-|[]]. done. }
  destruct (Hb rest (outA ++ map inr pendA) (op :: ops))
    as (outB & pendB & -> & HoutB & HpendB & HmulB & HnilB).
  { destruct Hprec as [Hp|Hp].
    - destruct (H1 Hp) as [_ ->]. cbn.
      intros ->. by vm_compute in Hp.
    - destruct (H2 Hp) as [_ ->]. done. }
  exists outB, (pendB ++ [op]). rewrite <- app_assoc. split; [done|].
  split.
  - rewrite List.map_app, (app_assoc outB), HoutB, HoutA, Hpost.
    cbn [map]. by rewrite <- !app_assoc.
  - split; [apply Forall_app; split; [done|by constructor]|].
    split.
    + intros Hlevel. destruct Hprec as [Hp|Hp].
      * destruct (H1 Hp) as [-> _]. lia.
      * destruct (H2 Hp) as [_ ->]. rewrite (HnilB ltac:(lia)).
        constructor; [|constructor].
        destruct Hop as [-> | [-> | ->]]; [by vm_compute in Hp..|done].
    + intros Hlevel. destruct Hprec as [Hp|Hp].
      * destruct (H1 Hp) as [-> _]. lia.
      * destruct (H2 Hp) as [-> _]. lia.
Qed.

Lemma stackBelow_weaken ops : stackBelow 0 ops -> stackBelow 1 ops.
Proof. destruct ops as [|top ops]; [done|]. cbn. by intros ->. Qed.

Lemma pendingAt_weaken pend : pendingAt 1 pend -> pendingAt 0 pend.
Proof. intros (Hops & _ & _). split; [done|]. split; intros; lia. Qed.

Lemma readsAs_closed constants level e :
  (forall rest output ops,
     exists output',
       shuntingYard constants (tokensOf level e ++ rest) output ops
       = shuntingYard constants rest output' ops /\
       output' = output ++ postfixOf constants e) ->
  readsAs constants level e.
Proof.
  intros H rest output ops _. destruct (H rest output ops) as (output' & -> & ->).
  exists (output ++ postfixOf constants e), []. cbn [app map].
  rewrite app_nil_r. split; [done|]. split; [done|apply pendingAt_nil].
Qed.

Lemma readsAs_sum constants a b op e :
  postfixOf constants e
  = postfixOf constants a ++ postfixOf constants b ++ [inr op] ->
  op = opAdd \/ op = opSub ->
  (forall level,
     tokensOf level e
     = parenthesised (0 <? level)%nat
         (tokensOf 0 a ++ [TokOp op] ++ tokensOf 1 b)) ->
  readsAs constants 0 a -> readsAs constants 1 b ->
  forall level, readsAs constants level e.
Proof.
  intros Hpost Hop Htokens Ha Hb level.
  assert (Hbin := readsAs_binary constants e a b op 0 1 Hpost).
  assert (Hprec : prec op = 1) by (by destruct Hop as [-> | ->]).
  specialize (Hbin ltac:(unfold isOperator; tauto) ltac:(lia)
                ltac:(done) ltac:(intros; lia) Ha Hb).
  destruct level as [|level].
  - intros rest output ops Hbelow. rewrite Htokens. by apply Hbin.
  - apply readsAs_closed. intros rest output ops. rewrite Htokens.
    by apply readsAs_parenthesised.
Qed.

Lemma readsAs_all constants e :
  is_Some (evalExpr constants e) -> forall level, readsAs constants level e.
Proof.
  induction e as [n|x|a IHa b IHb|a IHa b IHb|a IHa b IHb|a IHa];
    cbn [evalExpr]; intros [v Hv] level.
  - apply readsAs_closed. intros rest output ops. cbn. eauto.
  - apply readsAs_closed. intros rest output ops. cbn. rewrite Hv. cbn. eauto.
  - destruct (evalExpr constants a) as [x|]; [|done].
    destruct (evalExpr constants b) as [y|]; [|done].
    apply (readsAs_sum constants a b opAdd); [done|by left|done|..]; eauto.
  - destruct (evalExpr constants a) as [x|]; [|done].
    destruct (evalExpr constants b) as [y|]; [|done].
    apply (readsAs_sum constants a b opSub); [done|by right|done|..]; eauto.
  - destruct (evalExpr constants a) as [x|]; [|done].
    destruct (evalExpr constants b) as [y|]; [|done].
    assert (Hbin := readsAs_binary constants (EMul a b) a b opMul 1 2 eq_refl
                      ltac:(unfold isOperator; tauto) ltac:(lia)
                      ltac:(by vm_compute) ltac:(done)
                      (IHa ltac:(eauto) 1%nat) (IHb ltac:(eauto) 2%nat)).
    destruct level as [|[|level]].
    + intros rest output ops Hbelow%stackBelow_weaken.
      destruct (Hbin rest output ops Hbelow) as (o' & pend & ? & ? & ?%pendingAt_weaken).
      by exists o', pend.
    + intros rest output ops Hbelow. by apply Hbin.
    + apply readsAs_closed. intros rest output ops.
      apply readsAs_parenthesised. intros rest' output' ops' Hbelow%stackBelow_weaken.
      destruct (Hbin rest' output' ops' Hbelow) as (o' & pend & ? & ? & ?%pendingAt_weaken).
      by exists o', pend.
  - apply readsAs_closed. intros rest output ops.
    apply readsAs_parenthesised. apply IHa. eauto.
Qed.

Lemma evalExpr_None constants e level :
  evalExpr constants e = None ->
  exists x, In (TokIdent x) (tokensOf level e) /\ constants !! x = None.
Proof.
  assert (Hparen : forall needed tokens x,
            In (TokIdent x) tokens -> In (TokIdent x) (parenthesised needed tokens)).
  { intros needed tokens x Hin. destruct needed; [|done].
    cbn. right. apply in_or_app. by left. }
  revert level.
  induction e as [n|x|a IHa b IHb|a IHa b IHb|a IHa b IHb|a IHa];
    intros level; cbn [evalExpr tokensOf]; intros Hnone.
  - done.
  - exists x. split; [by left|done].
  - destruct (evalExpr constants a) as [x|] eqn:Ha.
    + destruct (evalExpr constants b) as [y|] eqn:Hb; [done|].
      destruct (IHb 1%nat eq_refl) as (z & Hin & Hz). exists z.
      split; [|done]. apply Hparen, in_or_app. right. by right.
    + destruct (IHa 0%nat eq_refl) as (z & Hin & Hz). exists z.
      split; [|done]. apply Hparen, in_or_app. by left.
  - destruct (evalExpr constants a) as [x|] eqn:Ha.
    + destruct (evalExpr constants b) as [y|] eqn:Hb; [done|].
      destruct (IHb 1%nat eq_refl) as (z & Hin & Hz). exists z.
      split; [|done]. apply Hparen, in_or_app. right. by right.
    + destruct (IHa 0%nat eq_refl) as (z & Hin & Hz). exists z.
      split; [|done]. apply Hparen, in_or_app. by left.
  - destruct (evalExpr constants a) as [x|] eqn:Ha.
    + destruct (evalExpr constants b) as [y|] eqn:Hb; [done|].
      destruct (IHb 2%nat eq_refl) as (z & Hin & Hz). exists z.
      split; [|done]. apply Hparen, in_or_app. right. by right.
    + destruct (IHa 1%nat eq_refl) as (z & Hin & Hz). exists z.
      split; [|done]. apply Hparen, in_or_app. by left.
  - destruct (IHa 0%nat Hnone) as (z & Hin & Hz). exists z.
    split; [|done]. by apply Hparen.
Qed.

Lemma evalTokens_tokensOf constants e :
  evalTokens constants (tokensOf 0 e) = evalExpr constants e.
Proof.
  unfold evalTokens.
  destruct (evalExpr constants e) as [v|] eqn:Hv.
  - destruct (readsAs_all constants e ltac:(eauto) 0%nat [] [] [])
      as (output' & pend & Hsy & Hout & Hpend & _); [done|].
    rewrite !app_nil_r in Hsy. rewrite Hsy. cbn [shuntingYard mbind option_bind].
    rewrite flushOps_pending by done. cbn [mbind option_bind].
    rewrite Hout. cbn [app].
    rewrite <- (app_nil_r (postfixOf constants e)).
    by rewrite (evalPostfix_postfixOf constants e v).
  - destruct (evalExpr_None constants e 0 Hv) as (x & Hin & Hx).
    destruct (shuntingYard constants (tokensOf 0 e) [] []) as [r|] eqn:Hr;
      [|done].
    destruct (js_shuntingYard_idents _ _ _ _ _ Hr x Hin) as [v' Hv']. congruence.
Qed.

(** X23: when the tokens of a text are those of an arithmetic expression in
    the usual notation (the sum, the difference and the product of numbers
    and names, the product binding tighter, operators of the same rank
    associating to the left, parentheses where an operand would be read
    otherwise or around any operand), [parseNumericExpr] returns the value
    of the expression in the arithmetic of the doubles (each sum,
    difference and product rounded), and returns nothing when one of its
    names has no constant. *)
Theorem parseNumericExpr_value (expr : str) (constants : gmap str double) (e : arith) :
  tokenizeNumericExpr expr = Some (tokensOf 0 e) ->
  parseNumericExpr expr constants = evalExpr constants e.
Proof.
  intros Htokens. rewrite parseNumericExpr_evalTokens, Htokens.
  apply evalTokens_tokensOf.
Qed.

Lemma parseNumericExpr_value_witness :
  let e := ESub (ESub (ENum (ofZ 10)) (ENum (ofZ 2)))
             (EMul (EMul (ENum (ofZ 3)) (EAdd (EVar (u "A")) (ENum (ofZ 1))))
                (ENum (ofZ 2))) in
  parseNumericExpr (u "10 - 2 - 3 * (A + 1) * 2") {[ u "A" := ofZ 4 ]}
  = evalExpr {[ u "A" := ofZ 4 ]} e /\
  evalExpr {[ u "A" := ofZ 4 ]} e = Some (ofZ (-22)).
Proof.
  split; [|vm_compute; reflexivity].
  apply (parseNumericExpr_value (u "10 - 2 - 3 * (A + 1) * 2")
    {[ u "A" := ofZ 4 ]}
    (ESub (ESub (ENum (ofZ 10)) (ENum (ofZ 2)))
       (EMul (EMul (ENum (ofZ 3)) (EAdd (EVar (u "A")) (ENum (ofZ 1))))
          (ENum (ofZ 2))))).
  vm_compute. reflexivity.
Defined.
End ExpressionsOfDoubles.

(** ** The shape of the entries *)

Section ShapeOfTheEntries.
Import Js.

Lemma sideTypeRef_side depth c structName st t st' l :
  sideTypeRef depth c structName st = Some (t, st') ->
  cppLayoutOf t = Ok l ->
  sideOf (headerSource c) structName (normalizeNoData t (size l))
    (Some (size l)).
Proof.
  unfold sideTypeRef, sideOf.
  destruct (extractStructBody _ _) as [[|ch body]|].
  - intros [= <- <-] Hl. split; [done|]. by exists l.
  - unfold parseStructFields, parseStructFieldsF.
    intros (fields & st1 & _ & [= <- <-])%js_bind_Some Hl.
    destruct fields as [|f fields].
    + cbn in Hl. injection Hl as <-. split; [by left|].
      by exists (mkLayout (ofZ 1) (ofZ 1)).
    + split; [right; by exists f, fields|]. by exists l.
  - intros [= <- <-] Hl. split; [done|]. by exists l.
Qed.

Lemma compileEntries_sides depth c entries : forall compiled st res st',
  compileEntries depth c entries compiled st = Some (Ok (res, st')) ->
  Forall (entryShape (headerSource c)) compiled ->
  Forall (entryShape (headerSource c)) res.
Proof.
  induction entries as [|entry entries IH]; intros compiled st res st';
    cbn [compileEntries].
  { intros [= <- <-]. done. }
  destruct (sideTypeRef depth c _ st) as [[inputTypeRef st1]|] eqn:Hin; [|done].
  destruct (sideTypeRef depth c _ st1) as [[outputTypeRef st2]|] eqn:Hout;
    [|done].
  destruct (cppLayoutOf inputTypeRef) as [inputLayout|] eqn:Hli; [|done].
  destruct (cppLayoutOf outputTypeRef) as [outputLayout|] eqn:Hlo; [|done].
  intros Hloop Hcompiled. apply (IH _ _ _ _ Hloop).
  apply Forall_app. split; [done|]. constructor; [|done].
  split; cbn; by eapply sideTypeRef_side.
Qed.

(** X29: in every compiled document, each side of an entry is no data
    without [expectedSize] when the locator finds no body, or an empty one,
    for the struct of that side (the name of the entry and [_input] or
    [_output]); when it finds a body that is not empty the side is no data
    with [expectedSize] 1 or a struct with at least one field; it is never
    a bare primitive, array or bytes, nor a struct without fields; and
    [inputSize] and [outputSize] are always present and are the sizes of
    the layouts of what is stored. *)
Theorem compiled_entry_shape localeCompare now depth headerSource options doc :
  compileContractHeader localeCompare now depth headerSource options
    = Some (Ok doc) ->
  Forall (fun e =>
            sideOf headerSource (QbiEntry.name e ++ u "_input")
              (QbiEntry.input e) (QbiEntry.inputSize e) /\
            sideOf headerSource (QbiEntry.name e ++ u "_output")
              (QbiEntry.output e) (QbiEntry.outputSize e))
    (QbiFile.entries doc).
Proof.
  intros (compiled & st & Hentries & _ & _ & ->)%js_compileContractHeader_inv.
  rewrite sort_perm.
  by apply (compileEntries_sides _ (mkCtx _ _ _) _ _ _ _ _ Hentries).
Qed.

Lemma compiled_entry_shape_witness :
  exists doc,
    compileContractHeader codeUnitCompare [] 3 headerEmptyBraces (optionsOf "QX")
    = Some (Ok doc) /\
    List.map (fun e => (QbiEntry.input e, QbiEntry.output e))
      (QbiFile.entries doc) = [(TNodata None, TNodata (Some (ofZ 1)))] /\
    Forall (fun e =>
              sideOf headerEmptyBraces (QbiEntry.name e ++ u "_input")
                (QbiEntry.input e) (QbiEntry.inputSize e) /\
              sideOf headerEmptyBraces (QbiEntry.name e ++ u "_output")
                (QbiEntry.output e) (QbiEntry.outputSize e))
      (QbiFile.entries doc).
Proof.
  eexists. split; [vm_compute; reflexivity|].
  split; [vm_compute; reflexivity|].
  match goal with
  | |- Forall _ (QbiFile.entries ?d) =>
      apply (compiled_entry_shape codeUnitCompare [] 3 headerEmptyBraces
               (optionsOf "QX") d)
  end.
  vm_compute. reflexivity.
Defined.
End ShapeOfTheEntries.

(** ** The parser of [contract_def.h] and the registry, with their numbers *)

(** The key of an index that is a double is the key of that integer. *)
Lemma contractKeyHex_of_double c key :
  Js.isNatural c = true ->
  Js.contractKeyHex c = Ok key ->
  Js.isUint c = true /\ contractKeyHex (Int (Js.integerValue c)) = Ok key.
Proof.
  intros Hnat. pose proof (isNatural_isUint c Hnat) as Hu.
  destruct c as [m e| |]; try done.
  apply andb_true_iff in Hnat as [Hm%Z.leb_le He%Z.leb_le].
  unfold Js.contractKeyHex.
  destruct (negb _) eqn:Hint; [done|]. cbn [orb].
  destruct (Js.ltb (Js.Fin m e) _) eqn:Hneg; [done|]. cbn [orb].
  destruct (Js.ltb _ (Js.Fin m e)) eqn:Hbig; [done|].
  intros [= <-]. split; [done|].
  change (Js.ofZ 4294967295) with (Js.Fin 4294967295 0) in Hbig.
  cbn [Js.ltb] in Hbig. rewrite compareFin_natural in Hbig by lia.
  cbn [Js.integerValue contractKeyHex].
  destruct (Z.leb_spec 0 e); [|lia].
  assert (0 < 2 ^ e) by (apply Z.pow_pos_nonneg; lia).
  destruct (Z.ltb_spec (m * 2 ^ e) 0); [nia|]. cbn [orb].
  destruct (Z.compare_spec (4294967295 * 2 ^ 0) (m * 2 ^ e)); try done;
    destruct (Z.ltb_spec 4294967295 (m * 2 ^ e)); try done; lia.
Qed.

Section RegistryOfDoubles.
Import Js.

Lemma idxRe_digits : groupsSound false idxDigits idxRe.
Proof.
  unfold idxRe. groups_sound; try done.
  intros prev w rest H _. by apply plus_chars in H.
Qed.

Lemma idxRe_number line m :
  exec false idxRe line = Some m ->
  isNumberOfDigits (Number (group 2 (groups m))).
Proof.
  intros [(_ & Hok & Hsets) _]%(exec_sound _ _ _ _ _ idxRe_digits).
  destruct (group_ok idxDigits 2 _ Hok) as [Hne Hdigits]; [|done|].
  { apply Hsets. reflexivity. }
  by exists (group 2 (groups m)).
Qed.

Lemma js_flush_ok s : defStateOk s -> defStateOk (flush s).
Proof.
  intros (Hes & Hi & Hn & Hh). unfold flush, defStateOk. cbn.
  split; [|done].
  destruct (DefState.currentIndex s) as [i|]; [|done].
  destruct (DefState.currentStateType s) as [n|]; [|done].
  destruct (DefState.currentHeader s) as [h|]; [|done].
  apply Forall_app. split; [done|]. constructor; [|constructor].
  split; [by apply Hn|]. split; [by apply Hi|by apply Hh].
Qed.

Lemma js_defLine_ok s line : defStateOk s -> defStateOk (defLine s line).
Proof.
  intros Hs. unfold defLine.
  destruct (exec false idxRe line) as [idx|] eqn:Hidx.
  { destruct (js_flush_ok s Hs) as (Hes & _). split; [done|].
    cbn. split; [|done]. intros i [= <-]. by eapply idxRe_number. }
  destruct Hs as (Hes & Hi & Hn & Hh).
  destruct (exec false stRe line) as [st|] eqn:Hst.
  { split; [done|]. split; [done|]. split; [|done].
    cbn. intros n [= <-]. by eapply stRe_name. }
  destruct (exec false incRe line) as [inc|] eqn:Hinc; [|done].
  split; [done|]. split; [done|]. split; [done|].
  cbn. intros h [= <-]. by eapply incRe_header.
Qed.

Lemma js_defLines_ok lines : forall s,
  defStateOk s -> Forall defEntryOk (defLines s lines).
Proof.
  unfold defLines. induction lines as [|line lines IH]; intros s Hs.
  - by destruct (js_flush_ok s Hs).
  - cbn [fold_left]. by apply IH, js_defLine_ok.
Qed.

Lemma js_parseContractDefH_ok source :
  Forall defEntryOk (parseContractDefH source).
Proof. apply js_defLines_ok. split; [constructor|done]. Qed.

Section RegistryFactsOfDoubles.
Variable basename : str -> str.

Lemma js_headersOf_lookup defs : forall (headers : gmap str double) file index,
  fold_left
    (fun (headers : gmap str double) def =>
       <[basename (ContractDefEntry.header def) :=
           ContractDefEntry.contractIndex def]> headers)
    defs headers !! file = Some index ->
  headers !! file = Some index \/
  exists def, In def defs /\ ContractDefEntry.contractIndex def = index /\
              basename (ContractDefEntry.header def) = file.
Proof.
  induction defs as [|def defs IH]; intros headers file index Hget; [by left|].
  cbn [fold_left] in Hget. apply IH in Hget as [Hget|(d & Hin & Hd)].
  - destruct (decide (basename (ContractDefEntry.header def) = file)) as [He|Hne].
    + rewrite He, lookup_insert_eq in Hget. injection Hget as <-.
      right. exists def. split; [by left|done].
    + rewrite lookup_insert_ne in Hget by done. by left.
  - right. exists d. split; [by right|done].
Qed.

Lemma js_headersOf_class source file index :
  headersOf basename (parseContractDefH source) !! file = Some index ->
  numberClass index.
Proof.
  intros [Hget|(def & Hin & <- & _)]%js_headersOf_lookup; [done|].
  pose proof (js_parseContractDefH_ok source) as Hall.
  rewrite List.Forall_forall in Hall.
  destruct (Hall def Hin) as (_ & (digits & _ & Hdigits & ->) & _).
  by apply Number_numberClass.
Qed.

(** X17: for every header that [generateRegistry] picks from the directory
    and every text of [contract_def.h], the options it builds have a
    non-empty contract name and, when the header is listed in the text, its
    index, which is then an integer from 0 to 4294967295, and the key of
    that index; so every compilation with them that ends gives a document,
    which [validateQbiFile] accepts exactly when no number of an entry is
    an infinity or NaN. *)
Theorem registry_documents_accepted
    (numberToString : double -> str)
    (options : GenerateRegistryOptions.t) (contractDef : str)
    (files : list str) (file : str) (compileOptions : CompileOptions.t)
    (localeCompare : str -> str -> Z) (now : str) (depth : nat)
    (headerSource : str) (result : outcome QbiFile.t) :
  In file (contractHeaders files) ->
  registryCompileOptions options
    (headersOf basename (parseContractDefH contractDef)) file
    = Ok compileOptions ->
  compileContractHeader localeCompare now depth headerSource compileOptions
    = Some result ->
  exists doc,
    result = Ok doc /\
    QbiContract.name (QbiFile.contract doc) <> [] /\
    (forall index,
       headersOf basename (parseContractDefH contractDef) !! file = Some index ->
       QbiContract.contractIndex (QbiFile.contract doc) = Some index /\
       isUint index = true /\
       contractKeyHex index
       = Ok (default [] (QbiContract.contractPublicKeyHex (QbiFile.contract doc)))) /\
    (validateQbiFile numberToString doc = Ok (QbiValidationResult.mk true [])
     <-> Forall entryFinite (QbiFile.entries doc)).
Proof.
  intros (x & rest & Hfile & Hx)%contractHeaders_upper Hoptions Hcompile.
  assert (Hname : replaceFirst false dotHRe [] file <> []).
  { rewrite Hfile. by apply dotH_removed. }
  clear Hfile Hx.
  unfold registryCompileOptions in Hoptions. cbv zeta in Hoptions.
  assert (Hok : optionsOk compileOptions /\
                CompileOptions.contractName compileOptions <> [] /\
                forall index,
                  headersOf basename (parseContractDefH contractDef) !! file
                  = Some index ->
                  CompileOptions.contractIndex compileOptions = Some index /\
                  isUint index = true /\
                  contractKeyHex index
                  = Ok (default [] (CompileOptions.contractPublicKeyHex
                                      compileOptions))).
  { destruct (headersOf basename (parseContractDefH contractDef) !! file)
      as [index|] eqn:Hget.
    - cbv beta iota in Hoptions.
      destruct (contractKeyHex index) as [key|e] eqn:Hkey; [|done].
      injection Hoptions as <-. cbn.
      destruct (js_headersOf_class _ _ _ Hget) as [Hnat| ->]; [|done].
      destruct (contractKeyHex_of_double _ _ Hnat Hkey) as [Hu Hkey'].
      split; [|split; [done|by intros ? [= <-]]].
      split; [done|]. cbn. split.
      + by intros n [= <-].
      + intros k [= <-].
        apply contractKeyHex_isHex in Hkey'.
        apply isHex_spec in Hkey' as (? & _ & ?). done.
    - injection Hoptions as <-. cbn.
      split; [|split; [done|done]].
      split; [done|]. cbn. done. }
  clear Hname.
  destruct Hok as (Hok & Hname & Hindex).
  destruct (compiled_document numberToString _ _ _ _ _ _ Hok Hcompile)
    as (doc & -> & _ & Hvalid).
  exists doc. split; [done|].
  destruct (js_compileContractHeader_inv _ _ _ _ _ _ Hcompile)
    as (_ & _ & _ & _ & Hcontract & _).
  rewrite Hcontract. cbn. done.
Qed.
End RegistryFactsOfDoubles.

Lemma registry_documents_accepted_witness :
  exists doc,
    compileContractHeader codeUnitCompare [] 3 headerOrders
      (CompileOptions.mk (u "Qx") (Some (ofZ 1))
         (Some (u "0100000000000000000000000000000000000000000000000000000000000000"))
         (Some (u "contracts/Qx.h")) None None None (Some false))
    = Some (Ok doc) /\
    validateQbiFile digitsOf doc = Ok (QbiValidationResult.mk true []).
Proof.
  eexists. split; [vm_compute; reflexivity|].
  match goal with
  | |- validateQbiFile _ ?d = _ =>
      destruct (registry_documents_accepted (fun h => h) digitsOf
                  (GenerateRegistryOptions.mk [] [] [] None None None)
                  contractDefTest [u "qpi.h"; u "Qx.h"] (u "Qx.h")
                  (CompileOptions.mk (u "Qx") (Some (ofZ 1))
                     (Some (u "0100000000000000000000000000000000000000000000000000000000000000"))
                     (Some (u "contracts/Qx.h")) None None None (Some false))
                  codeUnitCompare [] 3 headerOrders (Ok d))
        as (doc & [= <-] & _ & _ & Hvalid)
  end.
  - vm_compute. auto.
  - vm_compute. reflexivity.
  - vm_compute. reflexivity.
  - apply Hvalid. repeat constructor; intros s [= <-]; reflexivity.
Defined.
End RegistryOfDoubles.

(** ** The size is a multiple of the alignment *)

Section Multiples.
Import Js.
(** The rounding of a natural number keeps it a multiple of every power of
    two that divides it, unless it overflows. *)
Lemma roundDouble_multiple M E :
  0 < M -> 0 <= E ->
  roundDouble M E = Inf false \/
  exists m' e',
    roundDouble M E = Fin m' e' /\ 0 < m' /\ 0 <= e' /\
    forall k, 0 <= k -> (2 ^ k | M * 2 ^ E) -> (2 ^ k | m' * 2 ^ e').
Proof.
  intros HM HE. unfold roundDouble.
  destruct (Z.eqb_spec M 0) as [|_]; [lia|].
  rewrite (Z.abs_eq M) by lia.
  assert (Hlog0 : 0 <= Z.log2 M) by apply Z.log2_nonneg.
  assert (Hlog : 2 ^ Z.log2 M <= M < 2 ^ Z.succ (Z.log2 M))
    by (by apply Z.log2_spec).
  rewrite Z.max_l by lia.
  replace (M <? 0) with false by (symmetry; apply Z.ltb_ge; lia).
  rewrite Z.sgn_pos by done.
  assert (Hfin : forall q t,
    0 < q -> E <= t ->
    (forall k, 0 <= k -> (2 ^ k | M * 2 ^ E) -> (2 ^ k | q * 2 ^ t)) ->
    (if q =? 0 then Fin 0 0
     else if 1024 <=? Z.log2 q + t then Inf false else finite (1 * q) t)
    = Inf false \/
    exists m' e',
      (if q =? 0 then Fin 0 0
       else if 1024 <=? Z.log2 q + t then Inf false else finite (1 * q) t)
      = Fin m' e' /\ 0 < m' /\ 0 <= e' /\
      forall k, 0 <= k -> (2 ^ k | M * 2 ^ E) -> (2 ^ k | m' * 2 ^ e')).
  { intros q t Hq Ht Hdiv.
    destruct (Z.eqb_spec q 0); [lia|].
    destruct (Z.leb_spec 1024 (Z.log2 q + t)); [by left|]. right.
    rewrite Z.mul_1_l.
    destruct (finite_spec q t) as (m' & e' & -> & Hodd & Hle & Hval); [lia|].
    assert (Hpow : 0 < 2 ^ (e' - t)) by (apply Z.pow_pos_nonneg; lia).
    exists m', e'. split; [done|]. split; [nia|]. split; [lia|].
    intros k Hk Hd. replace (m' * 2 ^ e') with (q * 2 ^ t); [by apply Hdiv|].
    rewrite Hval, <- Z.mul_assoc, <- Z.pow_add_r by lia. do 2 f_equal. lia. }
  destruct (Z.leb_spec (Z.log2 M + E - 52 - E) 0) as [Hs|Hs].
  { by apply Hfin. }
  set (s := Z.log2 M + E - 52 - E) in *.
  assert (Hpow : 0 < 2 ^ s) by (apply Z.pow_pos_nonneg; lia).
  assert (Hq0 : 0 < M / 2 ^ s).
  { apply Z.div_str_pos. split; [done|].
    assert (2 ^ s <= 2 ^ Z.log2 M) by (apply Z.pow_le_mono_r; lia). lia. }
  assert (Hexact : forall k, 0 <= k -> (2 ^ k | M * 2 ^ E) ->
            Z.log2 M + E - 52 < k -> M mod 2 ^ s = 0).
  { intros k Hk [x Hx] Hlt.
    apply Z.mod_divide; [lia|].
    exists (x * 2 ^ (k - E - s)).
    assert (HpE : 0 < 2 ^ E) by (apply Z.pow_pos_nonneg; lia).
    apply (Z.mul_reg_r _ _ (2 ^ E)); [lia|]. rewrite Hx.
    rewrite <- !Z.mul_assoc, <- !Z.pow_add_r by lia. do 2 f_equal. lia. }
  assert (Hdiv : forall q,
            (M mod 2 ^ s = 0 -> q = M / 2 ^ s) ->
            forall k, 0 <= k -> (2 ^ k | M * 2 ^ E) ->
                      (2 ^ k | q * 2 ^ (Z.log2 M + E - 52))).
  { intros q Hq k Hk Hd.
    destruct (Z.le_gt_cases k (Z.log2 M + E - 52)) as [Hle|Hgt].
    - exists (q * 2 ^ (Z.log2 M + E - 52 - k)).
      rewrite <- Z.mul_assoc, <- Z.pow_add_r by lia. do 2 f_equal. lia.
    - pose proof (Hexact k Hk Hd Hgt) as Hr. rewrite (Hq Hr).
      replace (M / 2 ^ s * 2 ^ (Z.log2 M + E - 52)) with (M * 2 ^ E); [done|].
      replace (Z.log2 M + E - 52) with (s + E) by (unfold s; lia).
      rewrite Z.pow_add_r by lia.
      rewrite (Z.div_mod M (2 ^ s)) at 1 by lia. rewrite Hr. lia. }
  destruct ((2 ^ (s - 1) <? M mod 2 ^ s)
            || (M mod 2 ^ s =? 2 ^ (s - 1)) && Z.odd (M / 2 ^ s)) eqn:Hup.
  - apply Hfin; [lia|lia|]. apply Hdiv. intros Hr. exfalso.
    assert (0 < 2 ^ (s - 1)) by (apply Z.pow_pos_nonneg; lia).
    rewrite Hr in Hup.
    apply orb_true_iff in Hup as [?%Z.ltb_lt|[?%Z.eqb_eq _]%andb_true_iff]; lia.
  - apply Hfin; [lia|lia|]. by apply Hdiv.
Qed.


Lemma alignOk_power a : alignOk a -> exists k, a = Fin 1 k /\ 0 <= k <= 3.
Proof.
  intros [->|(k & -> & Hk)]%alignOk_cases; [exists 0|exists k]; split; done || lia.
Qed.

Lemma leb_power_one k : 1 <= k -> leb (Fin 1 k) (ofZ 1) = false.
Proof.
  intros Hk. change (ofZ 1) with (Fin 1 0). cbn. unfold compareFin.
  rewrite Z.min_r by lia. rewrite Z.sub_diag, Z.sub_0_r.
  assert (2 ^ 1 <= 2 ^ k) by (apply Z.pow_le_mono_r; lia).
  destruct (Z.compare_spec (1 * 2 ^ k) (1 * 2 ^ 0)); [lia|lia|done].
Qed.

Lemma isDouble_odd m e :
  isDouble (Fin m e) = true -> 0 < m ->
  Z.odd m = true /\ m < 2 ^ 53 /\ -1074 <= e /\ Z.log2 m + e < 1024.
Proof.
  cbn [isDouble]. intros H Hm.
  apply orb_true_iff in H as [[?%Z.eqb_eq _]%andb_true_iff|H]; [lia|].
  apply andb_true_iff in H as [[[Hodd Hlt]%andb_true_iff Hmin]%andb_true_iff Hmax].
  rewrite Z.abs_eq in Hlt, Hmax by lia.
  apply Z.ltb_lt in Hlt, Hmax. apply Z.leb_le in Hmin. done.
Qed.

(** The rounded product of a natural number and a power of two. *)
Lemma mul_power m e k :
  0 < m -> 0 <= e + k -> 0 <= k ->
  mul (Fin m e) (Fin 1 k) = Inf false \/
  exists m' e',
    mul (Fin m e) (Fin 1 k) = Fin m' e' /\ isDouble (Fin m' e') = true /\
    0 < m' /\ 0 <= e' /\ (e + k >= k -> (2 ^ k | m' * 2 ^ e')).
Proof.
  intros Hm He Hk. cbn [mul]. rewrite Z.mul_1_r.
  destruct (roundDouble_multiple m (e + k) Hm He)
    as [->|(m' & e' & Heq & Hm' & He' & Hdiv)]; [by left|].
  right. exists m', e'. split; [done|].
  split; [rewrite <- Heq; apply roundDouble_isDouble|].
  split; [done|]. split; [done|]. intros Hge. apply Hdiv; [done|].
  exists (m * 2 ^ e). rewrite Z.pow_add_r by lia. lia.
Qed.

(** [alignUp] on an offset. *)
Lemma alignUp_multiple offset k :
  naturalOrInf offset -> 0 <= k <= 3 ->
  alignUp offset (Fin 1 k) = Inf false \/
  exists m e,
    alignUp offset (Fin 1 k) = Fin m e /\ isDouble (Fin m e) = true /\
    0 <= m /\ 0 <= e /\ (2 ^ k | m * 2 ^ e) /\
    (m = 0 -> exists e0, offset = Fin 0 e0).
Proof.
  intros Hoffset Hk. destruct (decide (k = 0)) as [->|Hk0].
  { change (alignUp offset (Fin 1 0)) with offset.
    destruct Hoffset as [->|(m & e & -> & Hd & Hm & He)]; [by left|].
    right. exists m, e. split; [done|]. split; [done|]. split; [done|].
    split; [done|]. split; [exists (m * 2 ^ e); lia|].
    intros ->. by exists e. }
  unfold alignUp. rewrite leb_power_one by lia.
  destruct Hoffset as [->|(m & e & -> & Hd & Hm & He)]; [by left|].
  cbn [div]. change (1 =? 0) with false. cbv iota.
  rewrite Z.mod_1_r. change (0 =? 0) with true. cbv iota. rewrite Z.div_1_r.
  destruct (decide (m = 0)) as [->|Hm0].
  { right. exists 0, 0. rewrite roundDouble_0.
    split; [reflexivity|]. split; [done|]. split; [done|]. split; [done|].
    split; [exists 0; lia|]. intros _. by exists e. }
  destruct (isDouble_odd m e Hd) as (Hodd & Hlt & Hmin & Hmax); [lia|].
  rewrite roundDouble_exact
    by (rewrite ?Z.abs_eq by lia; done || lia).
  cbn [ceil]. destruct (Z.leb_spec 0 (e - k)) as [Hek|Hek].
  - destruct (mul_power m (e - k) k) as [->|(m' & e' & -> & Hd' & Hm' & He' & Hdiv)];
      [lia|lia|lia|by left|].
    right. exists m', e'. split; [done|]. split; [done|]. split; [lia|].
    split; [done|]. split; [apply Hdiv; lia|lia].
  - assert (Hpow : 0 < 2 ^ (- (e - k))) by (apply Z.pow_pos_nonneg; lia).
    assert (Hc : 0 < - (- m / 2 ^ (- (e - k)))).
    { assert (- m / 2 ^ (- (e - k)) < 0); [|lia].
      apply Z.div_lt_upper_bound; lia. }
    destruct (finite_spec (- (- m / 2 ^ (- (e - k)))) 0)
      as (mc & ec & -> & Hoddc & Hec & Hvalc); [lia|].
    assert (Hpc : 0 < 2 ^ (ec - 0)) by (apply Z.pow_pos_nonneg; lia).
    destruct (mul_power mc ec k) as [->|(m' & e' & -> & Hd' & Hm' & He' & Hdiv)];
      [nia|lia|lia|by left|].
    right. exists m', e'. split; [done|]. split; [done|]. split; [lia|].
    split; [done|]. split; [apply Hdiv; lia|lia].
Qed.

Lemma add_natural x y :
  naturalOrInf x -> naturalOrInf y ->
  add x y = Inf false \/
  exists m e, add x y = Fin m e /\ isDouble (Fin m e) = true /\ 0 <= m /\ 0 <= e /\
    (m = 0 -> (exists e1, x = Fin 0 e1) /\ exists e2, y = Fin 0 e2).
Proof.
  intros [->|(m1 & e1 & -> & Hd1 & Hm1 & He1)]
         [->|(m2 & e2 & -> & Hd2 & Hm2 & He2)]; try by left.
  cbn [add]. set (e := Z.min e1 e2).
  assert (Hp1 : 0 < 2 ^ (e1 - e)) by (apply Z.pow_pos_nonneg; lia).
  assert (Hp2 : 0 < 2 ^ (e2 - e)) by (apply Z.pow_pos_nonneg; lia).
  destruct (decide (m1 * 2 ^ (e1 - e) + m2 * 2 ^ (e2 - e) = 0)) as [Hz|Hnz].
  { right. exists 0, 0. rewrite Hz, roundDouble_0.
    split; [done|]. split; [done|]. split; [done|]. split; [done|].
    intros _. assert (m1 = 0) by nia. assert (m2 = 0) by nia. subst.
    split; eauto. }
  destruct (roundDouble_multiple (m1 * 2 ^ (e1 - e) + m2 * 2 ^ (e2 - e)) e)
    as [->|(m' & e' & Heq & Hm' & He' & _)]; [nia|lia|by left|].
  right. exists m', e'. split; [done|].
  split; [rewrite <- Heq; apply roundDouble_isDouble|]. lia.
Qed.

Lemma max_power k1 k2 :
  0 <= k1 -> 0 <= k2 -> max (Fin 1 k1) (Fin 1 k2) = Fin 1 (Z.max k1 k2).
Proof.
  intros H1 H2. cbn [max ltb]. rewrite compareFin_natural by done.
  rewrite !Z.mul_1_l.
  destruct (Z.compare_spec (2 ^ k1) (2 ^ k2)) as [Heq|Hlt|Hgt].
  - apply Z.pow_inj_r in Heq; [|lia..]. subst. by rewrite Z.max_id.
  - apply Z.pow_lt_mono_r_iff in Hlt; [|lia..]. by rewrite Z.max_r by lia.
  - apply Z.pow_lt_mono_r_iff in Hgt; [|lia..]. by rewrite Z.max_l by lia.
Qed.

(** One turn of the loop over the fields. *)
Lemma offsetOk_step offset structAlign l :
  offsetOk offset structAlign -> alignOk (align l) -> sizeAligned l ->
  offsetOk (add (alignUp offset (align l)) (size l)) (max structAlign (align l)).
Proof.
  intros [Ha Hoffset] Hal Hsize. split; [by apply max_alignOk|].
  destruct (alignOk_power _ Hal) as (k & Hk & Hkr).
  assert (Ho : naturalOrInf offset).
  { destruct Hoffset as [->|(m & e & -> & ? & ? & ? & _)]; [by left|].
    right. by exists m, e. }
  assert (Hu : naturalOrInf (alignUp offset (align l))).
  { rewrite Hk.
    destruct (alignUp_multiple offset k Ho Hkr)
      as [->|(m & e & -> & ? & ? & ? & _)]; [by left|].
    right. by exists m, e. }
  assert (Hs : naturalOrInf (size l)).
  { destruct Hsize as [->|(m & e & k' & -> & _ & ? & ? & ? & _)]; [by left|].
    right. by exists m, e. }
  destruct (add_natural _ _ Hu Hs) as [->|(m & e & -> & Hd & Hm & He & Hzero)];
    [by left|].
  right. exists m, e. split; [done|]. split; [done|]. split; [done|].
  split; [done|]. intros Hm0. destruct (Hzero Hm0) as [[e1 Hu0] [e2 Hs0]].
  destruct Hsize as [Hinf|(ms & es & k' & Hsz & Halign & _ & _ & _ & _ & _ & Hk0)];
    [congruence|].
  rewrite Hsz in Hs0. injection Hs0 as -> ->.
  rewrite Halign, (Hk0 eq_refl) in *.
  change (alignUp offset (Fin 1 0)) with offset in Hu0.
  destruct Hoffset as [->|(mo & eo & -> & _ & _ & _ & Hstruct)]; [done|].
  injection Hu0 as -> ->. by rewrite (Hstruct eq_refl).
Qed.

Lemma structLoop_aligned fields :
  Forall (fun f => forall l, cppLayoutOf (snd f) = Ok l ->
            alignOk (align l) /\ sizeAligned l) fields ->
  forall offset structAlign offset' structAlign',
    offsetOk offset structAlign ->
    structLoop fields offset structAlign = Ok (offset', structAlign') ->
    offsetOk offset' structAlign'.
Proof.
  induction 1 as [|f fs Hf _ IH]; intros offset structAlign offset' structAlign' Ho.
  - by intros [= <- <-].
  - cbn [structLoop]. destruct (cppLayoutOf (snd f)) as [l|] eqn:Hl; [|done].
    destruct (Hf l eq_refl) as [Hal Hsize]. apply IH.
    by apply offsetOk_step.
Qed.

Lemma eqb_zero m e : eqb (Fin m e) (ofZ 0) = (m =? 0).
Proof.
  change (ofZ 0) with (Fin 0 0). cbn [eqb]. unfold compareFin.
  assert (0 < 2 ^ (e - Z.min e 0)) by (apply Z.pow_pos_nonneg; lia).
  destruct (Z.compare_spec (m * 2 ^ (e - Z.min e 0)) (0 * 2 ^ (0 - Z.min e 0))),
    (Z.eqb_spec m 0); try done; nia.
Qed.

Lemma layoutAligned t : forall l,
  wellFormed t = true -> noEmptyArray t = true -> cppLayoutOf t = Ok l ->
  alignOk (align l) /\ sizeAligned l.
Proof.
  induction t as [e|p|n| |n item IH|fields IH] using QbiTypeRef_ind;
    intros l Hwf Hne.
  - intros [= <-]. split; [by left|]. right.
    destruct (nodata_size e) as [Hn _].
    { destruct e; [exact Hwf|done]. }
    assert (Hd : isDouble (max (ofZ 1) (default (ofZ 1) e)) = true).
    { destruct e as [x|]; [|done]. cbn in Hwf.
      apply andb_true_iff in Hwf as [Hd _]. cbn [default from_option id].
      change (ofZ 1) with (Fin 1 0). unfold max.
      destruct x as [m e| |]; try done; by destruct (ltb _ _). }
    remember (max (ofZ 1) (default (ofZ 1) e)) as x eqn:Hx.
    destruct x as [m e'| |]; try done.
    apply andb_true_iff in Hn as [Hm%Z.leb_le He%Z.leb_le].
    exists m, e', 0. split; [done|]. split; [reflexivity|]. split; [done|].
    split; [done|]. split; [done|]. split; [lia|].
    split; [exists (m * 2 ^ e'); lia|done].
  - intros [= <-]. split.
    { destruct (layoutOfWellFormed (TPrim p) eq_refl) as (l & [= <-] & ? & _).
      done. }
    right. destruct p; cbn [primLayout size align];
      (first [exists 1, 0, 0; split; [reflexivity|]
             |exists 1, 1, 1; split; [reflexivity|]
             |exists 1, 2, 2; split; [reflexivity|]
             |exists 1, 3, 3; split; [reflexivity|]]);
      (split; [reflexivity|]; split; [reflexivity|];
       split; [lia|]; split; [lia|]; split; [lia|];
       split; [by eexists 1|lia]).
  - cbn in Hwf. pose proof Hwf as [Hd _]%andb_true_iff.
    destruct (assertPositiveInt_length n (u "bytes.length") Hwf) as [Hok Hn].
    cbn [cppLayoutOf]. rewrite Hok. intros [= <-]. split; [by left|]. right.
    destruct n as [m e| |]; try done.
    apply andb_true_iff in Hn as [Hm%Z.leb_le He%Z.leb_le].
    exists m, e, 0. split; [done|]. split; [reflexivity|]. split; [done|].
    split; [done|]. split; [done|]. split; [lia|].
    split; [exists (m * 2 ^ e); lia|done].
  - intros [= <-]. split; [right; right; right; reflexivity|]. right.
    exists 1, 5, 3. split; [reflexivity|]. split; [reflexivity|].
    split; [reflexivity|]. split; [lia|]. split; [lia|]. split; [lia|].
    split; [by exists 4|lia].
  - cbn in Hwf, Hne. apply andb_true_iff in Hwf as [Hn Hitem].
    apply andb_true_iff in Hne as [Hn0 Hne].
    destruct (assertPositiveInt_length n (u "array.length") Hn) as [Hok Hnat].
    cbn [cppLayoutOf]. rewrite Hok.
    destruct (cppLayoutOf item) as [li|] eqn:Hli; [|done]. intros [= <-].
    destruct (IH li Hitem Hne eq_refl) as [Hal Hsize]. split; [done|].
    cbn [size align].
    destruct n as [mn en| |]; try done.
    apply andb_true_iff in Hnat as [Hmn%Z.leb_le Hen%Z.leb_le].
    rewrite eqb_zero in Hn0. apply negb_true_iff, Z.eqb_neq in Hn0.
    destruct Hsize as [->|(m & e & k & -> & Halign & Hd & Hm & He & Hk & Hdiv & Hk0)].
    { left. cbn [mul]. destruct (Z.eqb_spec mn 0); [done|].
      by replace (mn <? 0) with false by (symmetry; apply Z.ltb_ge; lia). }
    cbn [mul]. destruct (decide (m = 0)) as [->|Hm0].
    { right. exists 0, 0, k. rewrite Z.mul_0_l, roundDouble_0.
      split; [done|]. split; [done|]. split; [done|]. split; [done|].
      split; [done|]. split; [done|]. split; [exists 0; lia|done]. }
    destruct (roundDouble_multiple (m * mn) (e + en))
      as [->|(m' & e' & Heq & Hm' & He' & Hdiv')]; [nia|lia|by left|].
    right. exists m', e', k. split; [done|]. split; [done|].
    split; [rewrite <- Heq; apply roundDouble_isDouble|].
    split; [lia|]. split; [done|]. split; [done|]. split; [|lia].
    apply Hdiv'; [lia|]. destruct Hdiv as [x Hx].
    exists (x * mn * 2 ^ en). rewrite Z.pow_add_r by lia. nia.
  - cbn in Hwf, Hne. rewrite layoutOfStruct.
    destruct (structLoop fields (ofZ 0) (ofZ 1)) as [[offset structAlign]|]
      eqn:Hloop; [|done].
    intros [= <-]. cbn [size align].
    assert (Hfields : Forall (fun f => forall l, cppLayoutOf (snd f) = Ok l ->
                        alignOk (align l) /\ sizeAligned l) fields).
    { apply Forall_forall. intros f Hin l Hl.
      rewrite Forall_forall in IH. apply (IH f Hin); [| |done].
      - rewrite forallb_forall in Hwf. apply Hwf. by apply list_elem_of_In.
      - rewrite forallb_forall in Hne. apply Hne. by apply list_elem_of_In. }
    destruct (structLoop_aligned fields Hfields (ofZ 0) (ofZ 1) offset structAlign)
      as [Ha Hoffset]; [|done|].
    { split; [by left|]. right. exists 0, 0. by repeat split. }
    split; [done|].
    destruct (alignOk_power _ Ha) as (k & -> & Hk).
    assert (Ho : naturalOrInf offset).
    { destruct Hoffset as [->|(m & e & -> & ? & ? & ? & _)]; [by left|].
      right. by exists m, e. }
    destruct (alignUp_multiple offset k Ho Hk)
      as [->|(m & e & -> & Hd & Hm & He & Hdiv & Hzero)]; [by left|].
    right. rewrite eqb_zero. destruct (Z.eqb_spec m 0) as [->|Hm0].
    + destruct (Hzero eq_refl) as [e0 ->].
      destruct Hoffset as [?|(mo & eo & [= <- <-] & _ & _ & _ & Hstruct)];
        [done|].
      injection (Hstruct eq_refl) as ->.
      exists 1, 0, 0. split; [reflexivity|]. split; [reflexivity|].
      split; [reflexivity|]. split; [lia|]. split; [lia|]. split; [lia|].
      split; [by exists 1|done].
    + exists m, e, k. split; [done|]. split; [done|]. split; [done|].
      split; [done|]. split; [done|]. split; [done|]. split; [done|lia].
Qed.

(** X2: for a type reference whose lengths are integers that are not
    negative, whose [expectedSize] is an integer where there is one and
    that has no array of the length zero, the size that [cppLayoutOf]
    returns is the positive infinity or a natural number that is a multiple
    of the alignment that it returns. *)
Theorem layout_size_multiple_of_align (t : QbiTypeRef) (l : CppLayout) :
  wellFormed t = true -> noEmptyArray t = true -> cppLayoutOf t = Ok l ->
  size l = Inf false \/
  (isNatural (size l) = true /\ isNatural (align l) = true /\
   (integerValue (align l) | integerValue (size l))).
Proof.
  intros Hwf Hne Hl.
  destruct (layoutAligned t l Hwf Hne Hl)
    as [_ [Hinf|(m & e & k & -> & -> & _ & Hm & He & Hk & Hdiv & _)]];
    [by left|].
  right. cbn [isNatural integerValue].
  destruct (Z.leb_spec 0 m), (Z.leb_spec 0 e), (Z.leb_spec 0 k); try lia.
  split; [done|]. split; [done|]. by rewrite Z.mul_1_l.
Qed.

Lemma layout_size_multiple_of_align_witness :
  let t := TStruct [(u "a", TPrim U8); (u "b", TArray (ofZ 3) (TPrim U32))] in
  cppLayoutOf t = Ok (mkLayout (ofZ 16) (ofZ 4)) /\
  (integerValue (ofZ 4) | integerValue (ofZ 16)).
Proof.
  split; [reflexivity|].
  destruct (layout_size_multiple_of_align
              (TStruct [(u "a", TPrim U8); (u "b", TArray (ofZ 3) (TPrim U32))])
              (mkLayout (ofZ 16) (ofZ 4)))
    as [Hinf|(_ & _ & Hdiv)]; [reflexivity|reflexivity|reflexivity| |exact Hdiv].
  discriminate Hinf.
Defined.
End Multiples.
